(** * PyRigi frameworks: a shallow embedding of [pyrigi/framework.py]

    The development follows the Python source top-down:

    - Python outcomes (a returned value or a raised exception);
    - the exact scalars and the part of sympy's [Matrix] the source calls
      (construction from rows, subtraction, scalar multiples, [flatten],
      [rank], [nullspace], [orthogonalize]);
    - the graph collaborator ([pyrigi.graph.Graph] on top of networkx);
    - the class [Framework], one definition per method, written in a
      state-and-exception monad whose state is the receiver [self];
    - the properties of the methods. *)

From Stdlib Require Import List ZArith QArith Qcanon Lia Permutation Bool Arith FinFun.
Import ListNotations.


(* ================================================================== *)
(** * Python outcomes *)

(** The exceptions the modelled code can raise. *)
Inductive exn : Type :=
| AssertionError
| TypeError
| KeyError
| AttributeError
| ValueError
| ShapeError
| NetworkXError.

(** A Python call either returns a value or raises. *)
Inductive outcome (A : Type) : Type :=
| Return (a : A)
| Raise (e : exn).

Arguments Return {A} a.
Arguments Raise {A} e.

Definition obind {A B : Type} (m : outcome A) (k : A -> outcome B) : outcome B :=
  match m with
  | Return a => k a
  | Raise e => Raise e
  end.

Notation "'let*' x ':=' m 'in' k" := (obind m (fun x => k))
  (at level 10, x pattern, m at level 100, k at level 200).

(** [assert cond] *)
Definition assert_ (cond : bool) : outcome unit :=
  if cond then Return tt else Raise AssertionError.

(** A list comprehension whose element expression may raise. *)
Fixpoint mapO {A B : Type} (f : A -> outcome B) (l : list A) : outcome (list B) :=
  match l with
  | [] => Return []
  | a :: l' =>
      let* b := f a in
      let* bs := mapO f l' in
      Return (b :: bs)
  end.

(** A [for] loop whose body may raise. *)
Fixpoint forO {A : Type} (body : A -> outcome unit) (l : list A) : outcome unit :=
  match l with
  | [] => Return tt
  | a :: l' => let* _ := body a in forO body l'
  end.

(* ================================================================== *)
(** * Scalars, vertices, points *)

(** Vertex labels are Python ints: the labels [add_vertex] generates and
    the labels of [nx.complete_graph].  On ints [sorted] never raises, so
    the [except TypeError] handler of [rigidity_matrix] is not entered. *)
Definition Vertex : Type := Z.
Definition Edge : Type := (Vertex * Vertex)%type.

(** Coordinates are exact rationals. *)
Definition qz (z : Z) : Qc := Q2Qc (inject_Z z).

(** A coordinate vector as the realization dict may hold it: a plain
    Python sequence (what a caller passes as a [Point]) or a sympy column
    [Matrix] (what [Matrix(point)] builds). *)
Inductive Point : Type :=
| Seq (xs : list Qc)
| Col (xs : list Qc).

Definition coords (p : Point) : list Qc :=
  match p with Seq xs => xs | Col xs => xs end.

(** [len(p)] *)
Definition len (p : Point) : nat := length (coords p).

(** [Matrix(point)] for a flat sequence of numbers (or a column). *)
Definition Matrix_of_point (p : Point) : Point := Col (coords p).

Definition mem (v : Vertex) (l : list Vertex) : bool := existsb (Z.eqb v) l.

(* ------------------------------------------------------------------ *)
(** ** Insertion-ordered dicts keyed by vertices *)

Definition Dict : Type := list (Vertex * Point).

Definition keys (d : Dict) : list Vertex := map fst d.
Definition values (d : Dict) : list Point := map snd d.

Fixpoint dict_get (k : Vertex) (d : Dict) : option Point :=
  match d with
  | [] => None
  | (k', p) :: d' => if Z.eqb k k' then Some p else dict_get k d'
  end.

(** [k in d] *)
Definition contains (k : Vertex) (d : Dict) : bool :=
  match dict_get k d with Some _ => true | None => false end.

(** [d[k]] *)
Definition getitem (d : Dict) (k : Vertex) : outcome Point :=
  match dict_get k d with Some p => Return p | None => Raise KeyError end.

(** [d[k] = p]: an existing key keeps its position, a new key goes last. *)
Fixpoint setitem (k : Vertex) (p : Point) (d : Dict) : Dict :=
  match d with
  | [] => [(k, p)]
  | (k', p') :: d' =>
      if Z.eqb k k' then (k', p) :: d' else (k', p') :: setitem k p d'
  end.

(** [del d[k]] *)
Definition delitem (k : Vertex) (d : Dict) : outcome Dict :=
  if contains k d
  then Return (filter (fun kp => negb (Z.eqb k (fst kp))) d)
  else Raise KeyError.

(* ------------------------------------------------------------------ *)
(** ** [sorted] on ints and on pairs of ints *)

Fixpoint insert_sorted {A : Type} (le : A -> A -> bool) (x : A) (l : list A) : list A :=
  match l with
  | [] => [x]
  | y :: l' => if le x y then x :: y :: l' else y :: insert_sorted le x l'
  end.

Definition sorted_by {A : Type} (le : A -> A -> bool) (l : list A) : list A :=
  fold_right (insert_sorted le) [] l.

Definition sorted (l : list Vertex) : list Vertex := sorted_by Z.leb l.

(** Tuples compare lexicographically. *)
Definition edge_le (e f : Edge) : bool :=
  (fst e <? fst f)%Z || ((fst e =? fst f)%Z && (snd e <=? snd f)%Z).

Definition sorted_edges (l : list Edge) : list Edge := sorted_by edge_le l.

(** [set(l1) == set(l2)] *)
Definition set_eqb (l1 l2 : list Vertex) : bool :=
  forallb (fun v => mem v l2) l1 && forallb (fun v => mem v l1) l2.

(* ================================================================== *)
(** * The part of sympy the source uses *)

Open Scope Qc_scope.

Definition vec : Type := list Qc.

Fixpoint zip_with {A B C : Type} (f : A -> B -> C) (l1 : list A) (l2 : list B) : list C :=
  match l1, l2 with
  | a :: l1', b :: l2' => f a b :: zip_with f l1' l2'
  | _, _ => []
  end.

Definition vsub (u v : vec) : vec := zip_with Qcminus u v.
Definition vadd (u v : vec) : vec := zip_with Qcplus u v.
Definition vscale (c : Qc) (v : vec) : vec := map (Qcmult c) v.
Definition dot (u v : vec) : Qc := fold_right Qcplus 0 (zip_with Qcmult u v).
Definition is_zero (x : Qc) : bool := Qc_eq_bool x 0.
Definition is_zero_matrix (v : vec) : bool := forallb is_zero v.
Definition at_ (v : vec) (j : nat) : Qc := nth j v 0.

(** [a - b] on realization values.  Two column matrices of one shape
    subtract entrywise; different shapes raise [ShapeError]; a plain
    sequence on either side raises [TypeError]. *)
Definition Matrix_sub (a b : Point) : outcome Point :=
  match a, b with
  | Col xs, Col ys =>
      if (length xs =? length ys)%nat then Return (Col (vsub xs ys))
      else Raise ShapeError
  | _, _ => Raise TypeError
  end.

(** [c * m] for a Python int [c] and a column matrix [m]. *)
Definition scalar_mul (c : Z) (m : Point) : Point :=
  match m with
  | Col xs => Col (vscale (qz c) xs)
  | Seq xs => Seq (concat (repeat xs (Z.to_nat c)))
  end.

(** [flatten] on a list of column matrices. *)
Definition flatten (blocks : list Point) : list Qc := concat (map coords blocks).

(** A two-dimensional sympy [Matrix]. *)
Record Matrix : Type := mkMatrix {
  rows : nat;
  cols : nat;
  entries : list vec
}.

Definition is_nil {A : Type} (l : list A) : bool :=
  match l with [] => true | _ => false end.

(** [Matrix(dat)] for a list of rows of scalars: one row of the matrix
    per row of [dat], as many columns as the rows are long (none for rows
    of length 0); [Matrix([])] is the 0 x 0 matrix; rows of different
    lengths raise [ValueError]. *)
Definition Matrix_of_rows (dat : list (list Qc)) : outcome Matrix :=
  match dat with
  | [] => Return (mkMatrix 0 0 [])
  | r :: _ =>
      if forallb (fun r' => (length r' =? length r)%nat) dat
      then Return (mkMatrix (length dat) (length r) dat)
      else Raise ValueError
  end.

(** [M[i, j]] *)
Definition entry (M : Matrix) (i j : nat) : Qc := at_ (nth i (entries M) []) j.

(* ------------------------------------------------------------------ *)
(** ** Row reduction, rank and nullspace *)

(** The first row with a non-zero entry in column [j], and the others. *)
Fixpoint find_pivot (j : nat) (rest : list vec) : option (vec * list vec) :=
  match rest with
  | [] => None
  | r :: rs =>
      if is_zero (at_ r j)
      then match find_pivot j rs with
           | Some (p, rs') => Some (p, r :: rs')
           | None => None
           end
      else Some (r, rs)
  end.

(** Cancel column [j] of [r] with the normalised pivot row [p]. *)
Definition eliminate (j : nat) (p r : vec) : vec := vsub r (vscale (at_ r j) p).

(** Gauss-Jordan elimination over the columns [j], [j+1], ..., [j+n-1];
    [done] are the pivot rows found so far, [rest] the other rows. *)
Fixpoint row_reduce (n j : nat) (done rest : list vec) (pivots : list nat)
  : list vec * list vec * list nat :=
  match n with
  | O => (done, rest, pivots)
  | S n' =>
      match find_pivot j rest with
      | None => row_reduce n' (S j) done rest pivots
      | Some (p, rest') =>
          let p' := vscale (/ at_ p j) p in
          row_reduce n' (S j)
            (map (eliminate j p') done ++ [p'])
            (map (eliminate j p') rest')
            (pivots ++ [j])
      end
  end.

(** [M.rref()]: the reduced rows (pivot rows first) and the pivot
    columns. *)
Definition rref (M : Matrix) : list vec * list nat :=
  let '(done, rest, pivots) := row_reduce (cols M) 0 [] (entries M) [] in
  (done ++ rest, pivots).

(** [M.rank()] *)
Definition rank (M : Matrix) : nat := length (snd (rref M)).

(** The reduced row whose pivot is in column [c], if [c] is a pivot
    column; row [i] goes with the pivot column [pivots[i]]. *)
Definition pivot_row (R : list vec) (pivots : list nat) (c : nat) : option vec :=
  option_map fst (find (fun Rp => (snd Rp =? c)%nat) (combine R pivots)).

(** The basis vector of the free column [free_var]: 1 there, minus the
    reduced entry at each pivot column, 0 at the other free columns. *)
Definition null_vector (R : list vec) (pivots : list nat) (ncols free_var : nat) : vec :=
  map (fun c =>
         if (c =? free_var)%nat then 1
         else match pivot_row R pivots c with
              | Some row => - at_ row free_var
              | None => 0
              end)
      (seq 0 ncols).

Definition free_vars (pivots : list nat) (ncols : nat) : list nat :=
  filter (fun i => negb (existsb (Nat.eqb i) pivots)) (seq 0 ncols).

(** [M.nullspace()] *)
Definition nullspace (M : Matrix) : list vec :=
  let '(R, pivots) := rref M in
  map (null_vector R pivots (cols M)) (free_vars pivots (cols M)).

(* ------------------------------------------------------------------ *)
(** ** Gram-Schmidt orthogonalisation *)

Definition project (a b : vec) : vec := vscale (dot a b / dot b b) b.

Definition perp_to_subspace (v : vec) (basis : list vec) : vec :=
  fold_left (fun acc b => vsub acc (project v b)) basis v.

Fixpoint gram_schmidt (ret : list vec) (vecs : list vec) : list vec :=
  match vecs with
  | [] => ret
  | v :: vs =>
      let perp := perp_to_subspace v ret in
      if is_zero_matrix perp then gram_schmidt ret vs
      else gram_schmidt (ret ++ [perp]) vs
  end.

Definition same_shape (vecs : list vec) : bool :=
  match vecs with
  | [] => true
  | v :: vs => forallb (fun w => (length w =? length v)%nat) vs
  end.

(** [Matrix.orthogonalize] with [rankcheck=False]: dependent vectors are
    dropped; vectors of different shapes raise [ShapeError]. *)
Definition orthogonalize (vecs : list vec) : outcome (list vec) :=
  if same_shape vecs then Return (gram_schmidt [] vecs) else Raise ShapeError.

(** [l[lo:hi]] for non-negative bounds. *)
Definition slice {A : Type} (l : list A) (lo hi : nat) : list A :=
  skipn lo (firstn hi l).

Close Scope Qc_scope.

(* ================================================================== *)
(** * The graph collaborator *)

(** Modelled from the spec: the class [pyrigi.graph.Graph] (a networkx
    graph) is not among the sources.  It enumerates vertices in insertion
    order and edges as unordered pairs, each stored once. *)
Record Graph : Type := mkGraph {
  nodes : list Vertex;
  edge_list : list Edge
}.

(** Modelled from the spec: vertex enumeration of the graph collaborator. *)
Definition vertices (g : Graph) : list Vertex := nodes g.

(** Modelled from the spec: edge enumeration of the graph collaborator. *)
Definition edges (g : Graph) : list Edge := edge_list g.

(** Modelled from the spec: edges are unordered pairs. *)
Definition same_edge (e f : Edge) : bool :=
  ((fst e =? fst f)%Z && (snd e =? snd f)%Z) ||
  ((fst e =? snd f)%Z && (snd e =? fst f)%Z).

(** Modelled from the spec: an edge touches a vertex. *)
Definition incident (v : Vertex) (e : Edge) : bool :=
  (fst e =? v)%Z || (snd e =? v)%Z.

(** Modelled from the spec: vertex addition of the graph collaborator;
    adding a present vertex changes nothing. *)
Definition Graph_add_node (v : Vertex) (g : Graph) : Graph :=
  if mem v (nodes g) then g else mkGraph (nodes g ++ [v]) (edge_list g).

(** Modelled from the spec: edge addition of the graph collaborator; the
    end points are added when missing. *)
Definition Graph_add_edge (e : Edge) (g : Graph) : Graph :=
  let g' := Graph_add_node (snd e) (Graph_add_node (fst e) g) in
  if existsb (same_edge e) (edge_list g') then g'
  else mkGraph (nodes g') (edge_list g' ++ [e]).

(** Modelled from the spec: vertex deletion of the graph collaborator
    removes the vertex and all incident edges; an absent vertex is an
    error. *)
Definition Graph_delete_vertex (v : Vertex) (g : Graph) : outcome Graph :=
  if mem v (nodes g)
  then Return (mkGraph (filter (fun w => negb (w =? v)%Z) (nodes g))
                       (filter (fun e => negb (incident v e)) (edge_list g)))
  else Raise NetworkXError.

(** Modelled from the spec: edge deletion of the graph collaborator; an
    absent edge is an error. *)
Definition Graph_delete_edge (e : Edge) (g : Graph) : outcome Graph :=
  if existsb (same_edge e) (edge_list g)
  then Return (mkGraph (nodes g) (filter (fun f => negb (same_edge e f)) (edge_list g)))
  else Raise NetworkXError.

(** Modelled from the spec: [Graph(edges)], the graph built from a list
    of edges. *)
Definition Graph_of_edges (es : list Edge) : Graph :=
  fold_left (fun g e => Graph_add_edge e g) es (mkGraph [] []).

(** The pairs [(i, j)] with [i < j < n], in lexicographic order. *)
Definition pairs_below (n : nat) : list Edge :=
  flat_map (fun i => map (fun j => (Z.of_nat i, Z.of_nat j)) (seq (S i) (n - S i)))
           (seq 0 n).

(** [nx.complete_graph(n)]: the complete graph on [0, ..., n-1]. *)
Definition complete_graph (n : nat) : Graph :=
  mkGraph (map Z.of_nat (seq 0 n)) (pairs_below n).

(* ================================================================== *)
(** * The class [Framework] *)

Record Framework : Type := mkFramework {
  _realization : Dict;
  _graph : Graph;
  _dim : Z
}.

(** [Framework(graph, realization, dim)] *)
Definition __init__ (graph : Graph) (realization : Dict) (dim : Z) : outcome Framework :=
  let dimension :=
    if (length (values realization) =? 0)%nat then dim
    else Z.of_nat (len (hd (Seq []) (values realization))) in
  let* _ := forO (fun v =>
                    let* _ := assert_ (contains v realization) in
                    let* p := getitem realization v in
                    assert_ (Z.of_nat (len p) =? dimension)%Z)
                 (vertices graph) in
  let* r := mapO (fun v => let* p := getitem realization v in
                           Return (v, Matrix_of_point p))
                 (vertices graph) in
  Return {| _realization := fold_left (fun d kp => setitem (fst kp) (snd kp) d) r [];
            _graph := graph;
            _dim := dimension |}.

(* ------------------------------------------------------------------ *)
(** ** Methods: computations on the receiver [self] *)

(** A method body: from the state of [self] to an outcome and the state
    of [self] afterwards.  An exception keeps what was written before it. *)
Definition M (A : Type) : Type := Framework -> outcome A * Framework.

Definition ret {A : Type} (a : A) : M A := fun self => (Return a, self).

Definition raise {A : Type} (e : exn) : M A := fun self => (Raise e, self).

Definition bind {A B : Type} (m : M A) (k : A -> M B) : M B :=
  fun self =>
    match m self with
    | (Return a, self') => k a self'
    | (Raise e, self') => (Raise e, self')
    end.

Notation "x <- m ;; k" := (bind m (fun x => k))
  (at level 61, m at next level, right associativity).
Notation "m ;; k" := (bind m (fun _ => k))
  (at level 61, right associativity).

(** An expression that may raise, evaluated inside a method. *)
Definition lift {A : Type} (o : outcome A) : M A := fun self => (o, self).

(** Reading and writing the attributes of [self]. *)
Definition get : M Framework := fun self => (Return self, self).

Definition set__realization (r : Dict) : M unit :=
  fun self => (Return tt, {| _realization := r; _graph := _graph self; _dim := _dim self |}).

Definition set__graph (g : Graph) : M unit :=
  fun self => (Return tt, {| _realization := _realization self; _graph := g; _dim := _dim self |}).

(** [F.method(...)] on another object [F]: runs with [F] as receiver and
    leaves [self] alone.  The state [F] is left in is dropped with the
    local variable. *)
Definition on {A : Type} (F : Framework) (m : M A) : M A :=
  fun self => (fst (m F), self).

(** A [for] loop over method calls. *)
Fixpoint forM {A : Type} (body : A -> M unit) (l : list A) : M unit :=
  match l with
  | [] => ret tt
  | a :: l' => body a ;; forM body l'
  end.

Definition run {A : Type} (m : M A) (self : Framework) : outcome A := fst (m self).
Definition exec {A : Type} (m : M A) (self : Framework) : Framework := snd (m self).

(** [dim] *)
Definition dim : M Z := self <- get ;; ret (_dim self).

(** [dimension] *)
Definition dimension : M Z := dim.

(** The [while] loop of [add_vertex]: the candidate goes up while it is a
    vertex.  At most [len(vertices)] candidates in a row are vertices, so
    that many iterations are enough. *)
Fixpoint next_candidate (iterations : nat) (vs : list Vertex) (candidate : Z) : Z :=
  match iterations with
  | O => candidate
  | S n => if mem candidate vs then next_candidate n vs (candidate + 1) else candidate
  end.

(** [add_vertex(point, vertex=None)] *)
Definition add_vertex (point : Point) (vertex : option Vertex) : M unit :=
  self <- get ;;
  let vertex :=
    match vertex with
    | None =>
        let candidate := Z.of_nat (length (vertices (_graph self))) in
        next_candidate (length (vertices (_graph self))) (vertices (_graph self)) candidate
    | Some v => v
    end in
  lift (assert_ (negb (mem vertex (vertices (_graph self))))) ;;
  set__realization (setitem vertex (Matrix_of_point point) (_realization self)) ;;
  self <- get ;;
  set__graph (Graph_add_node vertex (_graph self)).

(** [add_edge(edge)]; an edge is a pair, so [len(edge) == 2] holds. *)
Definition add_edge (edge : Edge) : M unit :=
  self <- get ;;
  lift (assert_ (mem (fst edge) (nodes (_graph self)) && mem (snd edge) (nodes (_graph self)))) ;;
  set__graph (Graph_add_edge edge (_graph self)).

(** [add_edges(edges)] *)
Definition add_edges (es : list Edge) : M unit := forM add_edge es.

(** [underlying_graph()]: a deep copy of the graph. *)
Definition underlying_graph : M Graph := self <- get ;; ret (_graph self).

(** [graph()] *)
Definition graph : M Graph := underlying_graph.

(** [delete_vertex(vertex)] *)
Definition delete_vertex (vertex : Vertex) : M unit :=
  self <- get ;;
  g <- lift (Graph_delete_vertex vertex (_graph self)) ;;
  set__graph g ;;
  self <- get ;;
  r <- lift (delitem vertex (_realization self)) ;;
  set__realization r.

(** [delete_vertices(vertices)] *)
Definition delete_vertices (vs : list Vertex) : M unit := forM delete_vertex vs.

(** [delete_edge(edge)] *)
Definition delete_edge (edge : Edge) : M unit :=
  self <- get ;;
  g <- lift (Graph_delete_edge edge (_graph self)) ;;
  set__graph g.

(** [get_realization()]: a deep copy of the realization. *)
Definition get_realization : M Dict := self <- get ;; ret (_realization self).

(** [realization()] *)
Definition realization : M Dict := get_realization.

(** The [for] loop of [set_realization]. *)
Definition set_realization_loop (realization : Dict) (vs : list Vertex) : M unit :=
  forM (fun v =>
          lift (assert_ (contains v realization)) ;;
          p <- lift (getitem realization v) ;;
          d <- dimension ;;
          lift (assert_ (Z.of_nat (len p) =? d)%Z))
       vs.

(** [set_realization(realization)]: the dict is stored as it is passed. *)
Definition set_realization (realization : Dict) : M unit :=
  self <- get ;;
  set_realization_loop realization (vertices (_graph self)) ;;
  set__realization realization.

(** [change_vertex_coordinates(vertex, point)]: the point is stored as it
    is passed. *)
Definition change_vertex_coordinates (vertex : Vertex) (point : Point) : M unit :=
  self <- get ;;
  lift (assert_ (contains vertex (_realization self))) ;;
  lift (assert_ (Z.of_nat (len point) =? _dim self)%Z) ;;
  set__realization (setitem vertex point (_realization self)).

(** [set_vertex_position(vertex, point)] *)
Definition set_vertex_position (vertex : Vertex) (point : Point) : M unit :=
  change_vertex_coordinates vertex point.

(** [list(set(l))]: the distinct elements. *)
Definition list_set (l : list Vertex) : list Vertex := nodup Z.eq_dec l.

(** [l.sort()] sorts the list in place and returns [None]. *)
Definition sort_method (l : list Vertex) : unit := tt.

(** [a != b] on two [None] values. *)
Definition None_neq (a b : unit) : bool := false.

(** [change_vertex_coordinates_list(vertices, points)]; after the
    assertion on the lengths, the loop over [range(0, len(vertices))]
    visits the pairs [(vertices[i], points[i])]. *)
Definition change_vertex_coordinates_list (vs : list Vertex) (points : list Point) : M unit :=
  (if None_neq (sort_method (list_set vs)) (sort_method vs)
   then raise AttributeError else ret tt) ;;
  lift (assert_ (length vs =? length points)%nat) ;;
  forM (fun vp => change_vertex_coordinates (fst vp) (snd vp)) (combine vs points).

(** [set_vertex_positions(vertices, points)] *)
Definition set_vertex_positions (vs : list Vertex) (points : list Point) : M unit :=
  change_vertex_coordinates_list vs points.

(** [change_vertex_coordinates_list(vertices, points)] when the two
    arguments are views of a dict ([keys()] and [values()]) and not
    lists.  The guard and the assertion run as for lists ([set], [list]
    and [len] accept a view); in the loop, [vertices[i]] raises
    [TypeError], a view having no subscript, before anything is
    written. *)
Definition change_vertex_coordinates_list_of_views
           (vs : list Vertex) (points : list Point) : M unit :=
  (if None_neq (sort_method (list_set vs)) (sort_method vs)
   then raise AttributeError else ret tt) ;;
  lift (assert_ (length vs =? length points)%nat) ;;
  forM (fun _ : nat => raise TypeError) (seq 0 (length vs)).

(** [change_realization(subset_of_realization)]: the batch setter is
    called with the views [keys()] and [values()] of the dict. *)
Definition change_realization (subset_of_realization : Dict) : M unit :=
  change_vertex_coordinates_list_of_views
    (keys subset_of_realization) (values subset_of_realization).

(** The inner function [delta] of [rigidity_matrix]. *)
Definition delta (u v w : Vertex) : Z :=
  if (w =? u)%Z then 1%Z else if (w =? v)%Z then (-1)%Z else 0%Z.

(** One row of the rigidity matrix: the flattened blocks
    [delta(u, v, w) * (realization[u] - realization[v])] for [w] in the
    vertex order. *)
Definition rigidity_row (realization : Dict) (vertex_order : list Vertex) (e : Edge)
  : outcome (list Qc) :=
  let* blocks :=
    mapO (fun w =>
            let d := delta (fst e) (snd e) w in
            let* pu := getitem realization (fst e) in
            let* pv := getitem realization (snd e) in
            let* diff := Matrix_sub pu pv in
            Return (scalar_mul d diff))
         vertex_order in
  Return (flatten blocks).

(** [rigidity_matrix(vertex_order=None, edges_ordered=True)] *)
Definition rigidity_matrix (vertex_order : option (list Vertex)) (edges_ordered : bool)
  : M Matrix :=
  self <- get ;;
  vertex_order <-
    match vertex_order with
    | None => ret (sorted (vertices (_graph self)))
    | Some vo =>
        lift (assert_ (set_eqb (vertices (_graph self)) vo)) ;;
        ret vo
    end ;;
  let edge_order :=
    if edges_ordered then sorted_edges (edges (_graph self))
    else edges (_graph self) in
  rws <- lift (mapO (rigidity_row (_realization self) vertex_order) edge_order) ;;
  lift (Matrix_of_rows rws).

(** [infinitesimal_flexes(include_trivial=True)]: the branch that returns
    before the trivial flexes are computed.  It is defined first because
    [trivial_infinitesimal_flexes] calls it. *)
Definition infinitesimal_flexes_including_trivial : M (list vec) :=
  m <- rigidity_matrix None true ;;
  ret (nullspace m).

(** [trivial_infinitesimal_flexes()] *)
Definition trivial_infinitesimal_flexes : M (list vec) :=
  self <- get ;;
  let K := complete_graph (length (vertices (_graph self))) in
  r <- realization ;;
  d <- dim ;;
  F <- lift (__init__ (Graph_of_edges (edges K)) r d) ;;
  on F infinitesimal_flexes_including_trivial.

(** [infinitesimal_flexes(include_trivial=False)] *)
Definition infinitesimal_flexes (include_trivial : bool) : M (list vec) :=
  if include_trivial then infinitesimal_flexes_including_trivial
  else
    trivial_flexes <- trivial_infinitesimal_flexes ;;
    m <- rigidity_matrix None true ;;
    let all_flexes := nullspace m in
    basis_flexspace <- lift (orthogonalize (trivial_flexes ++ all_flexes)) ;;
    ret (slice basis_flexspace (length trivial_flexes) (length all_flexes + 1)).

(** [nontrivial_infinitesimal_flexes()] *)
Definition nontrivial_infinitesimal_flexes : M (list vec) :=
  infinitesimal_flexes false.

(** [rigidity_matrix_rank()] *)
Definition rigidity_matrix_rank : M nat :=
  m <- rigidity_matrix None true ;;
  ret (rank m).

(** [is_infinitesimally_rigid()]; [or] evaluates its right operand only
    when the left one is false. *)
Definition is_infinitesimally_rigid : M bool :=
  g <- graph ;;
  if (Z.of_nat (length (vertices g)) <=? 1)%Z then ret true
  else
    r <- rigidity_matrix_rank ;;
    d1 <- dim ;;
    g' <- graph ;;
    d2 <- dim ;;
    d3 <- dim ;;
    ret (Z.of_nat r =? d1 * Z.of_nat (length (vertices g')) - d2 * (d3 + 1) / 2)%Z.

(** [is_infinitesimally_flexible()] *)
Definition is_infinitesimally_flexible : M bool :=
  b <- is_infinitesimally_rigid ;;
  ret (negb b).

(** [deepcopy(self)] *)
Definition deepcopy_self : M Framework := get.

(** The [for] loop of [is_minimally_infinitesimally_rigid]. *)
Fixpoint minimally_rigid_loop (es : list Edge) : M bool :=
  match es with
  | [] => ret true
  | edge :: rest =>
      F <- deepcopy_self ;;
      rigid <- on F (delete_edge edge ;; is_infinitesimally_rigid) ;;
      if rigid then ret false else minimally_rigid_loop rest
  end.

(** [is_minimally_infinitesimally_rigid()] *)
Definition is_minimally_infinitesimally_rigid : M bool :=
  rigid <- is_infinitesimally_rigid ;;
  if negb rigid then ret false
  else
    g <- graph ;;
    minimally_rigid_loop (edges g).

(** The call [F.is_infinitesimally_rigid(args...)]: the method takes no
    argument besides the receiver, so any positional argument raises
    [TypeError] before the body runs. *)
Definition call_is_infinitesimally_rigid (args : list Framework) : M bool :=
  match args with
  | [] => is_infinitesimally_rigid
  | _ :: _ => raise TypeError
  end.

(** The [for] loop of [is_redundantly_rigid]; the call passes [F] again
    as a positional argument. *)
Fixpoint redundantly_rigid_loop (es : list Edge) : M bool :=
  match es with
  | [] => ret true
  | edge :: rest =>
      F <- deepcopy_self ;;
      rigid <- on F (delete_edge edge ;;
                     F' <- get ;;
                     call_is_infinitesimally_rigid [F']) ;;
      if negb rigid then ret false else redundantly_rigid_loop rest
  end.

(** [is_redundantly_rigid()] *)
Definition is_redundantly_rigid : M bool :=
  self <- get ;;
  redundantly_rigid_loop (edges (_graph self)).

(* ================================================================== *)
(** * Concrete frameworks *)

(** A point with integer coordinates, as a caller passes it. *)
Definition point (zs : list Z) : Point := Seq (map qz zs).

Definition realization_of (l : list (Vertex * list Z)) : Dict :=
  map (fun kp => (fst kp, point (snd kp))) l.

(** The graph with the vertices [vs] and the edges [es]. *)
Definition graph_on (vs : list Vertex) (es : list Edge) : Graph :=
  fold_left (fun g e => Graph_add_edge e g) es
    (fold_left (fun g v => Graph_add_node v g) vs (mkGraph [] [])).

(** The framework the constructor builds; the empty framework when the
    constructor raises. *)
Definition constructed (g : Graph) (r : list (Vertex * list Z)) (d : Z) : Framework :=
  match __init__ g (realization_of r) d with
  | Return F => F
  | Raise _ => mkFramework [] (mkGraph [] []) d
  end.

(** The complete graph on four points of the plane in general position. *)
Definition K4_plane : Framework :=
  constructed (Graph_of_edges (edges (complete_graph 4)))
    [(0, [0; 0]); (1, [1; 0]); (2, [0; 1]); (3, [1; 2])]%Z 2.

(** A triangle in the plane. *)
Definition triangle : Framework :=
  constructed (Graph_of_edges [(0, 1); (1, 2); (0, 2)]%Z)
    [(0, [0; 0]); (1, [1; 0]); (2, [0; 1])]%Z 2.

(** A triangle whose vertices are named 1, 2, 3. *)
Definition triangle_123 : Framework :=
  constructed (Graph_of_edges [(1, 2); (2, 3); (1, 3)]%Z)
    [(1, [0; 0]); (2, [1; 0]); (3, [0; 1])]%Z 2.

(** Two vertices on the line and the edge between them. *)
Definition segment : Framework :=
  constructed (Graph_of_edges [(0, 1)]%Z) [(0, [0]); (1, [1])]%Z 1.

(** Two vertices placed at the same point of the line, joined by an edge. *)
Definition collapsed_segment : Framework :=
  constructed (Graph_of_edges [(0, 1)]%Z) [(0, [5]); (1, [5])]%Z 1.

(** Two vertices in the plane and no edge. *)
Definition two_points : Framework :=
  constructed (graph_on [0; 1]%Z []) [(0, [0; 0]); (1, [1; 0])]%Z 2.

(** One vertex on the line. *)
Definition one_point : Framework :=
  constructed (graph_on [0]%Z []) [(0, [0])]%Z 1.

(** Three vertices named 0, 2, 3 on the line. *)
Definition gap_at_one : Framework :=
  constructed (graph_on [0; 2; 3]%Z []) [(0, [0]); (2, [2]); (3, [3])]%Z 1.

(** A quadrilateral in the plane: the four-cycle on 0, 1, 2, 3. *)
Definition four_cycle : Framework :=
  constructed (Graph_of_edges [(0, 1); (1, 2); (2, 3); (3, 0)]%Z)
    [(0, [0; 0]); (1, [1; 0]); (2, [2; 1]); (3, [0; 1])]%Z 2.

(** The empty framework of the plane. *)
Definition empty_plane : Framework :=
  constructed (mkGraph [] []) [] 2.

(* ================================================================== *)
(** * Queries *)

(** A query leaves [self] as it found it. *)
Definition query {A : Type} (m : M A) : Prop := forall self, exec m self = self.

(* ================================================================== *)
(** * The invariant of the data model *)

(** Every vertex of the graph has a realization entry, and the entry has
    length [dim]. *)
Definition invariant (self : Framework) : bool :=
  forallb (fun v =>
             match dict_get v (_realization self) with
             | Some p => (Z.of_nat (len p) =? _dim self)%Z
             | None => false
             end)
          (vertices (_graph self)).

(** No vertex is listed twice. *)
Fixpoint distinct (l : list Vertex) : bool :=
  match l with
  | [] => true
  | v :: l' => negb (mem v l') && distinct l'
  end.

(** What the matrix builder relies on: the vertices of the graph are
    distinct, the edges join vertices, and every vertex is realized by a
    column matrix of length [dim]. *)
Definition well_formed (self : Framework) : bool :=
  distinct (vertices (_graph self)) &&
  forallb (fun e => mem (fst e) (vertices (_graph self)) &&
                    mem (snd e) (vertices (_graph self)))
          (edges (_graph self)) &&
  forallb (fun v =>
             match dict_get v (_realization self) with
             | Some (Col xs) => (Z.of_nat (length xs) =? _dim self)%Z
             | _ => false
             end)
          (vertices (_graph self)).

(** A vertex order the matrix builder accepts (the default one, or a list
    with the same set of elements as the vertices) that lists no vertex
    twice. *)
Definition valid_order_without_repetition
           (self : Framework) (vertex_order : option (list Vertex)) : bool :=
  match vertex_order with
  | None => true
  | Some vo => set_eqb (vertices (_graph self)) vo && distinct vo
  end.

(** The vertex order and the edge order [rigidity_matrix] works with. *)
Definition order_of (self : Framework) (vertex_order : option (list Vertex)) : list Vertex :=
  match vertex_order with
  | None => sorted (vertices (_graph self))
  | Some vo => vo
  end.

Definition edge_order_of (self : Framework) (edges_ordered : bool) : list Edge :=
  if edges_ordered then sorted_edges (edges (_graph self)) else edges (_graph self).

(** The block of the vertex [w] in the row of the edge [(u, v)] whose end
    points are realized by the columns [pu] and [pv]. *)
Definition block (pu pv : vec) (u v w : Vertex) : vec :=
  vscale (qz (delta u v w)) (vsub pu pv).

(** The row of an edge whose end points are realized. *)
Definition row_of (self : Framework) (order : list Vertex) (e : Edge) : list Qc :=
  match dict_get (fst e) (_realization self), dict_get (snd e) (_realization self) with
  | Some pu, Some pv => concat (map (block (coords pu) (coords pv) (fst e) (snd e)) order)
  | _, _ => []
  end.

(* ================================================================== *)
(** * Notions of linear algebra used to state the properties *)

(** The sum of [g c] over the indices [c] of a list. *)
Definition sumf (g : nat -> Qc) (l : list nat) : Qc :=
  fold_right (fun c acc => g c + acc)%Qc 0%Qc l.

(** [x] is orthogonal to every row: with the rows of a matrix [m], the
    matrix maps [x] to zero. *)
Definition annihilates (x : vec) (rs : list vec) : Prop :=
  forall r, In r rs -> dot r x = 0%Qc.

(** The zero vector of length [N]. *)
Definition vzero (N : nat) : vec := repeat 0%Qc N.

(** The linear combination of the vectors [vs] (of length [N]) with the
    coefficients [cs]. *)
Fixpoint lin_comb (N : nat) (cs : list Qc) (vs : list vec) : vec :=
  match cs, vs with
  | c :: cs', v :: vs' => vadd (vscale c v) (lin_comb N cs' vs')
  | _, _ => vzero N
  end.

(** Only the zero coefficients combine [vs] to the zero vector. *)
Definition independent (N : nat) (vs : list vec) : Prop :=
  forall cs, length cs = length vs -> lin_comb N cs vs = vzero N ->
             cs = repeat 0%Qc (length vs).

(** The matrix has the shape it declares. *)
Definition well_shaped (m : Matrix) : Prop :=
  rows m = length (entries m) /\ forall r, In r (entries m) -> length r = cols m.

(** The state of the elimination once the columns before [j] are done:
    pivot rows and pivot columns go in pairs, a pivot row has 1 in its
    own pivot column and 0 in the other pivot columns, and the remaining
    rows are zero before column [j]. *)
Record reduced (ncols j : nat) (done rest : list vec) (pivots : list nat) : Prop := {
  red_len : length done = length pivots;
  red_nodup : NoDup pivots;
  red_below : forall p, In p pivots -> (p < j)%nat;
  red_unit : forall R p R' p',
      In (R, p) (combine done pivots) -> In (R', p') (combine done pivots) ->
      at_ R p' = if (p =? p')%nat then 1%Qc else 0%Qc;
  red_rest : forall r c, In r rest -> (c < j)%nat -> at_ r c = 0%Qc;
  red_shape : forall r, In r (done ++ rest) -> length r = ncols
}.

(** Two lists of rows with the same solutions. *)
Definition same_kernel (ncols : nat) (rs rs' : list vec) : Prop :=
  forall x, length x = ncols -> (annihilates x rs <-> annihilates x rs').

(** The vectors generated by [L] in the space of vectors of length [N]. *)
Inductive span (N : nat) (L : list vec) : vec -> Prop :=
| span_zero : span N L (vzero N)
| span_in (v : vec) : In v L -> span N L v
| span_add (u v : vec) : span N L u -> span N L v -> span N L (vadd u v)
| span_scale (c : Qc) (v : vec) : span N L v -> span N L (vscale c v).

(** A family built by appending vectors that are orthogonal to the ones
    before them and not zero. *)
Inductive orthogonal_family : list vec -> Prop :=
| orth_nil : orthogonal_family []
| orth_snoc (B : list vec) (b : vec) :
    orthogonal_family B ->
    (forall b', In b' B -> dot b' b = 0%Qc) ->
    dot b b <> 0%Qc ->
    orthogonal_family (B ++ [b]).

(** The column of the coordinates at [k]. *)
Definition column (k : nat) (vs : list vec) : list Qc := map (fun v => at_ v k) vs.

(** The vertices are named 0, 1, ..., |V| - 1. *)
Definition labelled_from_zero (self : Framework) : Prop :=
  sorted (vertices (_graph self))
  = map Z.of_nat (seq 0 (length (vertices (_graph self)))).

(** Every realization vector has length [dim]. *)
Definition realization_uniform (self : Framework) : bool :=
  forallb (fun p => (Z.of_nat (len p) =? _dim self)%Z) (values (_realization self)).

(** The framework [trivial_infinitesimal_flexes] builds: the complete
    graph on as many vertices, with the realization and the dimension of
    [self]. *)
Definition complete_graph_framework (self : Framework) : outcome Framework :=
  __init__ (Graph_of_edges (edges (complete_graph (length (vertices (_graph self))))))
           (_realization self) (_dim self).

(* ================================================================== *)
(** * Further methods of the class *)

(** [add_vertices(points, vertices=[])]; [not vertices] holds exactly for
    the empty list, and [zip] pairs the points with the names. *)
Definition add_vertices (points : list Point) (vs : list Vertex) : M unit :=
  lift (assert_ ((length points =? length vs)%nat || is_nil vs)) ;;
  if is_nil vs
  then forM (fun point => add_vertex point None) points
  else forM (fun pv => add_vertex (fst pv) (Some (snd pv))) (combine points vs).

(* ================================================================== *)
(** * Further notions used to state the properties *)

(** Every edge of the graph joins two of its vertices. *)
Definition edges_join_vertices (self : Framework) : bool :=
  forallb (fun e => mem (fst e) (vertices (_graph self)) &&
                    mem (snd e) (vertices (_graph self)))
          (edges (_graph self)).

(** The vertices are exactly the integers 0, 1, ..., |V| - 1, in any
    order. *)
Definition numbered_from_zero (self : Framework) : Prop :=
  forall u, In u (vertices (_graph self)) <->
            (0 <= u < Z.of_nat (length (vertices (_graph self))))%Z.

(** The name [add_vertex] works with: the given one, or the candidate its
    loop stops at. *)
Definition name_of (self : Framework) (vertex : option Vertex) : Vertex :=
  match vertex with
  | Some v => v
  | None => next_candidate (length (vertices (_graph self))) (vertices (_graph self))
                           (Z.of_nat (length (vertices (_graph self))))
  end.

(** A realization value given as a plain sequence (a list or a tuple),
    not as a [Matrix]. *)
Definition is_plain (p : Point) : bool :=
  match p with Seq _ => true | Col _ => false end.

(** The check [set_realization] makes for every vertex. *)
Definition realizes (r : Dict) (d : Z) (v : Vertex) : bool :=
  match dict_get v r with
  | Some p => (Z.of_nat (len p) =? d)%Z
  | None => false
  end.

(** Two points of 3-space: without an edge, and joined by an edge. *)
Definition two_points_space : Framework :=
  constructed (graph_on [0; 1]%Z []) [(0, [0; 0; 0]); (1, [1; 0; 0])]%Z 3.

Definition segment_space : Framework :=
  constructed (Graph_of_edges [(0, 1)]%Z) [(0, [0; 0; 0]); (1, [1; 0; 0])]%Z 3.

(** The value of an outcome, or [d] when it is an exception. *)
Definition value_or {A : Type} (d : A) (o : outcome A) : A :=
  match o with Return a => a | Raise _ => d end.

(** The velocity field of a translation: the vector [t] at each of [n]
    vertices. *)
Definition translation (t : vec) (n : nat) : vec := concat (repeat t n).

(** The realization whose points are the images under [f] of the points
    of [r], as column matrices. *)
Definition moved (f : vec -> vec) (r : Dict) : Dict :=
  map (fun kp => (fst kp, Col (f (coords (snd kp))))) r.

(** No two edges of the list join the same pair of vertices. *)
Fixpoint no_parallel (es : list Edge) : bool :=
  match es with
  | [] => true
  | e :: es' => negb (existsb (same_edge e) es') && no_parallel es'
  end.

(** The [k]-th unit vector of length [d], and the [d] translations of
    [n] vertices along the unit vectors. *)
Definition unit_vector (d k : nat) : vec :=
  map (fun c => if (c =? k)%nat then 1%Qc else 0%Qc) (seq 0 d).

Definition translations (d n : nat) : list vec :=
  map (fun k => translation (unit_vector d k) n) (seq 0 d).

(* ================================================================== *)
(** * Reasoning about method bodies *)

Lemma query_ret {A : Type} (a : A) : query (ret a).
Proof. intro self; reflexivity. Qed.

Lemma query_raise {A : Type} (e : exn) : query (@raise A e).
Proof. intro self; reflexivity. Qed.

Lemma query_lift {A : Type} (o : outcome A) : query (lift o).
Proof. intro self; reflexivity. Qed.

Lemma query_get : query get.
Proof. intro self; reflexivity. Qed.

Lemma query_on {A : Type} (F : Framework) (m : M A) : query (on F m).
Proof. intro self; reflexivity. Qed.

Lemma query_bind {A B : Type} (m : M A) (k : A -> M B) :
  query m -> (forall a, query (k a)) -> query (bind m k).
Proof.
  intros Hm Hk self. unfold exec, bind.
  specialize (Hm self). unfold exec in Hm.
  destruct (m self) as [[a|e] s]; simpl in *; subst.
  - apply Hk.
  - reflexivity.
Qed.

Lemma query_if {A : Type} (b : bool) (m1 m2 : M A) :
  query m1 -> query m2 -> query (if b then m1 else m2).
Proof. destruct b; auto. Qed.

Create HintDb query.
#[local] Hint Resolve query_ret query_raise query_lift query_get query_on
  query_bind query_if : query.

(** What a query followed by more code does. *)
Lemma bind_query {A B : Type} (m : M A) (k : A -> M B) (self : Framework) :
  query m ->
  bind m k self = match run m self with
                  | Return a => k a self
                  | Raise e => (Raise e, self)
                  end.
Proof.
  intro Hm. specialize (Hm self). unfold exec, run, bind in *.
  destruct (m self) as [[a|e] s]; simpl in *; subst; reflexivity.
Qed.

Lemma query_dim : query dim.
Proof. unfold dim; auto with query. Qed.

Lemma query_graph : query graph.
Proof. unfold graph, underlying_graph; auto with query. Qed.

Lemma query_get_realization : query get_realization.
Proof. unfold get_realization; auto with query. Qed.

Lemma query_rigidity_matrix vo eo : query (rigidity_matrix vo eo).
Proof.
  unfold rigidity_matrix. apply query_bind; auto with query.
  intro self. apply query_bind; auto with query.
  destruct vo; auto with query.
Qed.

#[local] Hint Resolve query_dim query_graph query_get_realization
  query_rigidity_matrix : query.

Lemma query_rigidity_matrix_rank : query rigidity_matrix_rank.
Proof. unfold rigidity_matrix_rank; auto with query. Qed.

#[local] Hint Resolve query_rigidity_matrix_rank : query.

Lemma query_is_infinitesimally_rigid : query is_infinitesimally_rigid.
Proof.
  unfold is_infinitesimally_rigid. auto 15 with query.
Qed.

#[local] Hint Resolve query_is_infinitesimally_rigid : query.

Lemma query_is_infinitesimally_flexible : query is_infinitesimally_flexible.
Proof. unfold is_infinitesimally_flexible; auto with query. Qed.

Lemma query_minimally_rigid_loop es : query (minimally_rigid_loop es).
Proof.
  induction es as [|e es IH]; simpl; unfold deepcopy_self; auto 10 with query.
Qed.

Lemma run_dim self : run dim self = Return (_dim self).
Proof. reflexivity. Qed.

Lemma run_graph self : run graph self = Return (_graph self).
Proof. reflexivity. Qed.

(** [is_infinitesimally_rigid] as one expression over the state. *)
Lemma run_is_infinitesimally_rigid self :
  run is_infinitesimally_rigid self =
  if (Z.of_nat (length (vertices (_graph self))) <=? 1)%Z then Return true
  else match run (rigidity_matrix None true) self with
       | Return m =>
           Return (Z.of_nat (rank m) =?
                   _dim self * Z.of_nat (length (vertices (_graph self)))
                   - _dim self * (_dim self + 1) / 2)%Z
       | Raise e => Raise e
       end.
Proof.
  unfold run at 1. unfold is_infinitesimally_rigid.
  rewrite bind_query by auto with query. rewrite run_graph.
  destruct (Z.of_nat (length (vertices (_graph self))) <=? 1)%Z; [reflexivity|].
  rewrite bind_query by auto with query.
  unfold run at 1. unfold rigidity_matrix_rank.
  rewrite bind_query by auto with query.
  destruct (run (rigidity_matrix None true) self) as [m|e]; reflexivity.
Qed.

(* ================================================================== *)
(** * The rigidity predicates *)

Lemma even_product (d : Z) : (2 * (d * (d + 1) / 2) = d * (d + 1))%Z.
Proof.
  assert (H : ((d * (d + 1)) mod 2 = 0)%Z).
  { rewrite Z.mul_mod by lia.
    assert (Hd : (d mod 2 = 0 \/ d mod 2 = 1)%Z) by (pose proof (Z.mod_pos_bound d 2); lia).
    destruct Hd as [Hd|Hd]; rewrite Hd.
    - reflexivity.
    - replace ((d + 1) mod 2)%Z with 0%Z; [reflexivity|].
      rewrite Z.add_mod by lia. rewrite Hd. reflexivity. }
  pose proof (Z.div_mod (d * (d + 1)) 2). lia.
Qed.

(** C2. [is_infinitesimally_rigid()] returns true exactly when the graph
    has at most one vertex or the rank of the rigidity matrix is
    [dim * |V| - dim * (dim + 1) / 2], a division that leaves no
    remainder; and [is_infinitesimally_flexible()] returns the negation
    of what [is_infinitesimally_rigid()] returns on the same framework. *)
Theorem is_infinitesimally_rigid_iff (self : Framework) :
  let n := length (vertices (_graph self)) in
  let d := _dim self in
  (run is_infinitesimally_rigid self = Return true <->
     (n <= 1)%nat \/
     exists m, run (rigidity_matrix None true) self = Return m /\
               Z.of_nat (rank m) = (d * Z.of_nat n - d * (d + 1) / 2)%Z) /\
  (2 * (d * (d + 1) / 2) = d * (d + 1))%Z /\
  run is_infinitesimally_flexible self =
    (let* b := run is_infinitesimally_rigid self in Return (negb b)).
Proof.
  intros n d. split; [|split].
  - rewrite run_is_infinitesimally_rigid. fold n d.
    destruct (Z.leb_spec (Z.of_nat n) 1) as [Hn|Hn].
    + split; [intros _; left; lia | reflexivity].
    + destruct (run (rigidity_matrix None true) self) as [m|e].
      * split.
        -- intro H. right. exists m. split; [reflexivity|].
           injection H as H. apply Z.eqb_eq in H. assumption.
        -- intros [H|[m' [Hm' H]]]; [lia|].
           injection Hm' as <-. f_equal. apply Z.eqb_eq. assumption.
      * split; [discriminate|].
        intros [H|[m' [Hm' _]]]; [lia|discriminate].
  - apply even_product.
  - unfold run at 1. unfold is_infinitesimally_flexible.
    rewrite bind_query by auto with query.
    destruct (run is_infinitesimally_rigid self); reflexivity.
Qed.

(* ------------------------------------------------------------------ *)
(** ** Edge-deletion trials *)

Lemma same_edge_refl (e : Edge) : same_edge e e = true.
Proof. unfold same_edge. rewrite !Z.eqb_refl. reflexivity. Qed.

Lemma existsb_same_edge (e : Edge) (es : list Edge) :
  In e es -> existsb (same_edge e) es = true.
Proof.
  intro H. apply existsb_exists. exists e. split; [assumption|apply same_edge_refl].
Qed.

(** Deleting an edge of the graph succeeds. *)
Lemma delete_edge_present (self : Framework) (e : Edge) :
  In e (edges (_graph self)) ->
  run (delete_edge e) self = Return tt.
Proof.
  intro H. unfold run, delete_edge, bind, get, lift, Graph_delete_edge.
  simpl. unfold edges in H. rewrite (existsb_same_edge _ _ H). reflexivity.
Qed.

(** One iteration of the loop of [is_minimally_infinitesimally_rigid]. *)
Lemma minimally_rigid_loop_cons (e : Edge) (rest : list Edge) (self : Framework) :
  run (minimally_rigid_loop (e :: rest)) self =
  match run (delete_edge e ;; is_infinitesimally_rigid) self with
  | Return true => Return false
  | Return false => run (minimally_rigid_loop rest) self
  | Raise x => Raise x
  end.
Proof.
  unfold run at 1. simpl. unfold deepcopy_self.
  rewrite bind_query by auto with query. simpl.
  rewrite bind_query by auto with query.
  unfold run at 1. unfold on. simpl.
  fold (run (delete_edge e;; is_infinitesimally_rigid) self).
  destruct (run (delete_edge e;; is_infinitesimally_rigid) self) as [[|]|x]; reflexivity.
Qed.

Lemma minimally_rigid_loop_true (es : list Edge) (self : Framework) :
  run (minimally_rigid_loop es) self = Return true <->
  forall e, In e es -> run (delete_edge e ;; is_infinitesimally_rigid) self = Return false.
Proof.
  induction es as [|e es IH].
  - split; [intros _ e []|reflexivity].
  - rewrite minimally_rigid_loop_cons.
    destruct (run (delete_edge e;; is_infinitesimally_rigid) self) as [[|]|x] eqn:He.
    + split; [discriminate|]. intro H. specialize (H e (or_introl eq_refl)). congruence.
    + rewrite IH. split.
      * intros H e' [<-|Hin]; auto.
      * intros H e' Hin. apply H. right. assumption.
    + split; [discriminate|]. intro H. specialize (H e (or_introl eq_refl)). congruence.
Qed.

Lemma minimally_rigid_loop_short (pre post : list Edge) (e : Edge) (self : Framework) :
  (forall e', In e' pre -> run (delete_edge e' ;; is_infinitesimally_rigid) self = Return false) ->
  run (delete_edge e ;; is_infinitesimally_rigid) self = Return true ->
  run (minimally_rigid_loop (pre ++ e :: post)) self = Return false.
Proof.
  induction pre as [|p pre IH]; intros Hpre He; simpl app.
  - rewrite minimally_rigid_loop_cons, He. reflexivity.
  - rewrite minimally_rigid_loop_cons, (Hpre p (or_introl eq_refl)).
    apply IH; [|assumption]. intros e' Hin. apply Hpre. right. assumption.
Qed.

Lemma run_minimally (self : Framework) :
  run is_minimally_infinitesimally_rigid self =
  match run is_infinitesimally_rigid self with
  | Return true => run (minimally_rigid_loop (edges (_graph self))) self
  | Return false => Return false
  | Raise x => Raise x
  end.
Proof.
  unfold run at 1. unfold is_minimally_infinitesimally_rigid.
  rewrite bind_query by auto with query.
  destruct (run is_infinitesimally_rigid self) as [[|]|x]; reflexivity.
Qed.

Lemma flexible_after_delete (e : Edge) (self : Framework) :
  run (delete_edge e ;; is_infinitesimally_flexible) self = Return true <->
  run (delete_edge e ;; is_infinitesimally_rigid) self = Return false.
Proof.
  unfold run, bind. destruct (delete_edge e self) as [[[]|x] s]; simpl.
  - fold (run is_infinitesimally_flexible s) (run is_infinitesimally_rigid s).
    unfold run at 1. unfold is_infinitesimally_flexible.
    rewrite bind_query by auto with query.
    destruct (run is_infinitesimally_rigid s) as [[|]|x]; simpl;
      split; (discriminate || reflexivity).
  - split; discriminate.
Qed.

(** C5. [is_minimally_infinitesimally_rigid()] returns true exactly when
    the framework is infinitesimally rigid and, for every edge, deleting
    the edge from a copy leaves a copy that is infinitesimally flexible;
    it returns false at the first edge whose removal keeps the copy
    rigid, whatever edges follow; and the framework it is called on is
    the same afterwards. *)
Theorem is_minimally_infinitesimally_rigid_iff (self : Framework) :
  (run is_minimally_infinitesimally_rigid self = Return true <->
     run is_infinitesimally_rigid self = Return true /\
     forall e, In e (edges (_graph self)) ->
       run (F <- deepcopy_self ;; on F (delete_edge e ;; is_infinitesimally_flexible)) self
       = Return true) /\
  (forall pre e post,
     edges (_graph self) = pre ++ e :: post ->
     run is_infinitesimally_rigid self = Return true ->
     (forall e', In e' pre ->
        run (F <- deepcopy_self ;; on F (delete_edge e' ;; is_infinitesimally_flexible)) self
        = Return true) ->
     run (F <- deepcopy_self ;; on F (delete_edge e ;; is_infinitesimally_rigid)) self
     = Return true ->
     run is_minimally_infinitesimally_rigid self = Return false) /\
  exec is_minimally_infinitesimally_rigid self = self.
Proof.
  assert (Hcopy : forall A (m : M A),
             run (F <- deepcopy_self ;; on F m) self = run m self).
  { intros A m. reflexivity. }
  split; [|split].
  - rewrite run_minimally.
    destruct (run is_infinitesimally_rigid self) as [[|]|x].
    + rewrite minimally_rigid_loop_true. split.
      * intro H. split; [reflexivity|]. intros e He.
        rewrite Hcopy. apply flexible_after_delete. auto.
      * intros [_ H] e He. apply flexible_after_delete.
        rewrite <- Hcopy. auto.
    + split; [discriminate|]. intros [H _]. discriminate.
    + split; [discriminate|]. intros [H _]. discriminate.
  - intros pre e post Hes Hrigid Hpre He.
    rewrite run_minimally, Hrigid, Hes.
    apply minimally_rigid_loop_short.
    + intros e' Hin. apply flexible_after_delete. rewrite <- Hcopy. auto.
    + rewrite <- Hcopy. assumption.
  - unfold is_minimally_infinitesimally_rigid.
    apply query_bind; auto with query.
    intros []; simpl; auto with query.
    apply query_bind; auto with query.
    intro g. apply query_minimally_rigid_loop.
Qed.

(** The triangle in the plane is minimally infinitesimally rigid. *)
Lemma is_minimally_infinitesimally_rigid_triangle :
  run is_minimally_infinitesimally_rigid triangle = Return true.
Proof.
  apply (proj1 (is_minimally_infinitesimally_rigid_iff triangle)).
  split; [vm_compute; reflexivity|].
  intros e He. vm_compute in He.
  repeat (destruct He as [<-|He]; [vm_compute; reflexivity|]).
  destruct He.
Defined.

(* ------------------------------------------------------------------ *)
(** ** Redundant rigidity *)

(** What the loop of [is_redundantly_rigid] does on any framework. *)
Lemma run_is_redundantly_rigid (self : Framework) :
  run is_redundantly_rigid self =
  match edges (_graph self) with
  | [] => Return true
  | _ :: _ => Raise TypeError
  end.
Proof.
  unfold run, is_redundantly_rigid. rewrite bind_query by auto with query.
  simpl. destruct (edges (_graph self)) as [|e rest] eqn:He; [reflexivity|].
  simpl. unfold deepcopy_self. rewrite bind_query by auto with query. simpl.
  rewrite bind_query by auto with query.
  unfold run, on. simpl.
  assert (Hin : In e (edges (_graph self))) by (rewrite He; left; reflexivity).
  pose proof (delete_edge_present self e Hin) as Hd. unfold run in Hd.
  unfold bind at 1. destruct (delete_edge e self) as [[[]|x] s]; simpl in *;
    [reflexivity|discriminate].
Qed.

(** C1. On the complete graph on four points of the plane in general
    position every single-edge removal leaves a copy that is
    infinitesimally rigid, and [is_redundantly_rigid()] raises
    [TypeError] instead of returning true. *)
Theorem is_redundantly_rigid_K4_plane :
  (forall e, In e (edges (_graph K4_plane)) ->
     run (F <- deepcopy_self ;; on F (delete_edge e ;; is_infinitesimally_rigid)) K4_plane
     = Return true) /\
  run is_redundantly_rigid K4_plane = Raise TypeError.
Proof.
  split.
  - intros e He. vm_compute in He.
    repeat (destruct He as [<-|He]; [vm_compute; reflexivity|]).
    destruct He.
  - rewrite run_is_redundantly_rigid. reflexivity.
Qed.

(* ================================================================== *)
(** * The realization store *)

Lemma mem_In (v : Vertex) (l : list Vertex) : mem v l = true <-> In v l.
Proof.
  unfold mem. rewrite existsb_exists. split.
  - intros [x [Hx Hv]]. apply Z.eqb_eq in Hv. subst. assumption.
  - intro H. exists v. split; [assumption|apply Z.eqb_refl].
Qed.

Lemma mem_false (v : Vertex) (l : list Vertex) : mem v l = false <-> ~ In v l.
Proof.
  rewrite <- mem_In. destruct (mem v l); split; congruence.
Qed.

Lemma set__realization_same (self : Framework) :
  set__realization (_realization self) self = (Return tt, self).
Proof. destruct self; reflexivity. Qed.

Lemma query_forM {A : Type} (body : A -> M unit) (l : list A) :
  (forall a, query (body a)) -> query (forM body l).
Proof. intro H. induction l as [|a l IH]; simpl; auto with query. Qed.

Lemma run_forM_query {A : Type} (body : A -> M unit) (l : list A) (self : Framework) :
  (forall a, query (body a)) ->
  (run (forM body l) self = Return tt <->
   forall a, In a l -> run (body a) self = Return tt).
Proof.
  intro Hq. induction l as [|a l IH]; simpl.
  - split; [intros _ a []|reflexivity].
  - unfold run at 1. rewrite bind_query by apply Hq.
    destruct (run (body a) self) as [[]|e] eqn:Ha.
    + fold (run (forM body l) self). rewrite IH. split.
      * intros H b [<-|Hb]; auto.
      * intros H b Hb. apply H. right. assumption.
    + split; [discriminate|]. intro H. specialize (H a (or_introl eq_refl)). congruence.
Qed.

(** The loop of [set_realization] only reads. *)
Lemma query_set_realization_loop (r : Dict) (vs : list Vertex) :
  query (set_realization_loop r vs).
Proof.
  unfold set_realization_loop. apply query_forM. intro v.
  unfold dimension. auto 10 with query.
Qed.

(** It passes exactly when [r] realizes every vertex of [vs] by a vector
    of length [dim]. *)
Lemma run_set_realization_loop (r : Dict) (vs : list Vertex) (self : Framework) :
  run (set_realization_loop r vs) self = Return tt <->
  forallb (fun v => match dict_get v r with
                    | Some p => (Z.of_nat (len p) =? _dim self)%Z
                    | None => false
                    end) vs = true.
Proof.
  unfold set_realization_loop. rewrite run_forM_query, forallb_forall.
  - assert (Hcheck : forall v,
               run (lift (assert_ (contains v r)) ;;
                    p <- lift (getitem r v) ;;
                    d <- dimension ;;
                    lift (assert_ (Z.of_nat (len p) =? d)%Z)) self = Return tt <->
               match dict_get v r with
               | Some p => (Z.of_nat (len p) =? _dim self)%Z
               | None => false
               end = true).
    { intro v. cbv [run bind lift contains getitem dimension dim get ret assert_].
      destruct (dict_get v r) as [p|]; cbn [fst].
      - destruct (Z.of_nat (len p) =? _dim self)%Z; cbn [fst]; split; congruence.
      - split; discriminate. }
    split; intros H v Hv; apply Hcheck; auto.
  - intro v. unfold dimension. auto 10 with query.
Qed.

(** What [get_realization()] followed by [set_realization()] does: the
    checks run on the realization of [self] itself, and the assignment
    puts back what was there. *)
Lemma round_trip_step (self : Framework) :
  (r <- get_realization ;; set_realization r) self
  = (run (set_realization_loop (_realization self) (vertices (_graph self))) self, self).
Proof.
  rewrite bind_query by auto with query.
  change (run get_realization self) with (Return (A:=Dict) (_realization self)).
  cbv iota. unfold set_realization.
  rewrite bind_query by auto with query.
  change (run get self) with (Return self). cbv iota.
  rewrite bind_query by apply query_set_realization_loop.
  destruct (run (set_realization_loop _ _) self) as [[]|e]; [|reflexivity].
  apply set__realization_same.
Qed.

(** C9 (as the code has it). [get_realization()] followed by
    [set_realization()] with the returned mapping succeeds on the
    frameworks that satisfy the invariant of the data model (every
    vertex realized by a vector of length [dim]), and on no other; it
    leaves the framework as it was, so every later call (the rigidity
    matrix under any orders, the rank, every rigidity predicate) gives
    what it gave before. *)
Theorem get_set_realization_round_trip (self : Framework) :
  let self' := exec (r <- get_realization ;; set_realization r) self in
  self' = self /\
  (run (r <- get_realization ;; set_realization r) self = Return tt <->
   invariant self = true) /\
  (forall vo eo, run (rigidity_matrix vo eo) self' = run (rigidity_matrix vo eo) self) /\
  run rigidity_matrix_rank self' = run rigidity_matrix_rank self /\
  run is_infinitesimally_rigid self' = run is_infinitesimally_rigid self /\
  run is_infinitesimally_flexible self' = run is_infinitesimally_flexible self /\
  run is_minimally_infinitesimally_rigid self' = run is_minimally_infinitesimally_rigid self /\
  run is_redundantly_rigid self' = run is_redundantly_rigid self.
Proof.
  intro self'.
  assert (Hsame : self' = self).
  { unfold self', exec. rewrite round_trip_step. reflexivity. }
  split; [assumption|]. split.
  - unfold run at 1. rewrite round_trip_step. cbn [fst].
    apply run_set_realization_loop.
  - rewrite Hsame. repeat split; reflexivity.
Qed.

(** The round trip on the triangle. *)
Lemma get_set_realization_round_trip_triangle :
  invariant triangle = true /\
  run (r <- get_realization ;; set_realization r) triangle = Return tt /\
  exec (r <- get_realization ;; set_realization r) triangle = triangle.
Proof.
  split; [reflexivity|]. split.
  - apply (proj1 (proj2 (get_set_realization_round_trip triangle))). reflexivity.
  - apply (proj1 (get_set_realization_round_trip triangle)).
Defined.

(* ------------------------------------------------------------------ *)
(** ** The constructor *)

(** C10. With a non-empty realization the constructor takes the
    dimension from the length of the first realization vector and what
    it does does not depend on the [dim] argument; with an empty
    realization the dimension is the [dim] argument. *)
Theorem init_dimension (graph : Graph) (realization : Dict) (dim : Z) :
  (realization <> [] ->
     (forall dim', __init__ graph realization dim' = __init__ graph realization dim) /\
     (forall F, __init__ graph realization dim = Return F ->
                _dim F = Z.of_nat (len (hd (Seq []) (values realization))))) /\
  (forall F, __init__ graph [] dim = Return F -> _dim F = dim).
Proof.
  split.
  - intro Hne. destruct realization as [|[k p] r]; [congruence|].
    split.
    + intro dim'. reflexivity.
    + intro F. unfold __init__. simpl length. simpl Nat.eqb. cbv iota.
      destruct (forO _ _) as [[]|e]; simpl; [|discriminate].
      destruct (mapO _ _) as [l|e]; simpl; [|discriminate].
      intro H. injection H as <-. reflexivity.
  - intro F. unfold __init__. simpl length. simpl Nat.eqb. cbv iota.
    destruct (forO _ _) as [[]|e]; simpl; [|discriminate].
    destruct (mapO _ _) as [l|e]; simpl; [|discriminate].
    intro H. injection H as <-. reflexivity.
Qed.

(** The constructor called with [dim=7] on a triangle realized in the
    plane builds a framework of dimension 2. *)
Lemma init_dimension_triangle :
  exists F,
    __init__ (Graph_of_edges [(0, 1); (1, 2); (0, 2)]%Z)
             (realization_of [(0, [0; 0]); (1, [1; 0]); (2, [0; 1])]%Z) 7 = Return F /\
    _dim F = 2%Z.
Proof.
  eexists. split; [vm_compute; reflexivity|].
  apply (proj2 (proj1 (init_dimension
           (Graph_of_edges [(0, 1); (1, 2); (0, 2)]%Z)
           (realization_of [(0, [0; 0]); (1, [1; 0]); (2, [0; 1])]%Z) 7)
           ltac:(discriminate))).
  vm_compute; reflexivity.
Defined.

(* ------------------------------------------------------------------ *)
(** ** Naming a new vertex *)

Lemma next_candidate_spec (vs : list Vertex) (n : nat) (c : Z) :
  let r := next_candidate n vs c in
  (c <= r <= c + Z.of_nat n)%Z /\
  (forall c', (c <= c' < r)%Z -> In c' vs) /\
  (In r vs -> r = (c + Z.of_nat n)%Z).
Proof.
  revert c. induction n as [|n IH]; intro c; simpl.
  - repeat split; intros; lia.
  - destruct (mem c vs) eqn:Hc.
    + specialize (IH (c + 1)%Z). simpl in IH. destruct IH as [Hr [Hbelow Hin]].
      repeat split; try lia.
      * intros c' Hc'. destruct (Z.eq_dec c' c) as [->|Hne].
        -- apply mem_In. assumption.
        -- apply Hbelow. lia.
      * intro H. specialize (Hin H). lia.
    + repeat split; try lia.
      intro H. apply mem_In in H. congruence.
Qed.

Lemma In_interval (c : Z) (n : nat) (x : Z) :
  In x (map (fun i => (c + Z.of_nat i)%Z) (seq 0 n)) <-> (c <= x < c + Z.of_nat n)%Z.
Proof.
  rewrite in_map_iff. split.
  - intros [i [<- Hi]]. apply in_seq in Hi. lia.
  - intro H. exists (Z.to_nat (x - c)). split; [lia|]. apply in_seq. lia.
Qed.

Lemma NoDup_interval (c : Z) (n : nat) :
  NoDup (map (fun i => (c + Z.of_nat i)%Z) (seq 0 n)).
Proof.
  apply Finite.Injective_map_NoDup; [|apply seq_NoDup].
  intros i j H. lia.
Qed.

(** The candidate the loop stops at is not a vertex. *)
Lemma next_candidate_fresh (vs : list Vertex) :
  ~ In (next_candidate (length vs) vs (Z.of_nat (length vs))) vs.
Proof.
  set (n := length vs). set (c := Z.of_nat n).
  destruct (next_candidate_spec vs n c) as [Hr [Hbelow Hin]].
  intro H. specialize (Hin H).
  set (I := map (fun i => (c + Z.of_nat i)%Z) (seq 0 n)).
  assert (Hincl : incl I vs).
  { intros x Hx. apply In_interval in Hx. apply Hbelow. lia. }
  assert (Hback : incl vs I).
  { apply NoDup_length_incl; [apply NoDup_interval| |assumption].
    unfold I. rewrite length_map, length_seq. fold n. lia. }
  apply Hback in H. apply In_interval in H. lia.
Qed.

(** C7 (as the code has it). [add_vertex] with no name succeeds and
    inserts one new vertex, with the given point as a column matrix; its
    name is the smallest integer that is at least the number of vertices
    and is not a vertex yet. *)
Theorem add_vertex_default_name (self : Framework) (point : Point) :
  let vs := vertices (_graph self) in
  exists c,
    add_vertex point None self =
      (Return tt,
       {| _realization := setitem c (Matrix_of_point point) (_realization self);
          _graph := mkGraph (vs ++ [c]) (edge_list (_graph self));
          _dim := _dim self |}) /\
    (Z.of_nat (length vs) <= c)%Z /\
    ~ In c vs /\
    (forall c', (Z.of_nat (length vs) <= c' < c)%Z -> In c' vs).
Proof.
  intro vs. exists (next_candidate (length vs) vs (Z.of_nat (length vs))).
  pose proof (next_candidate_fresh vs) as Hfresh.
  destruct (next_candidate_spec vs (length vs) (Z.of_nat (length vs))) as [Hr [Hbelow _]].
  repeat split; try assumption; try lia.
  apply mem_false in Hfresh. subst vs.
  destruct self as [r [ns es] d]. cbn [_graph _realization _dim vertices nodes edge_list] in *.
  cbv [add_vertex bind get lift assert_ set__realization set__graph Graph_add_node].
  cbn [_graph _realization _dim vertices nodes edge_list].
  rewrite Hfresh. reflexivity.
Qed.

(** C7 (as stated) fails: with the vertices 0, 2, 3 the new vertex is
    named 4, although 1 is the smallest unused non-negative integer. *)
Lemma add_vertex_not_smallest_unused :
  vertices (_graph gap_at_one) = [0; 2; 3]%Z /\
  vertices (_graph (exec (add_vertex (point [1%Z]) None) gap_at_one)) = [0; 2; 3; 4]%Z /\
  ~ (forall self p,
       exists c, vertices (_graph (exec (add_vertex p None) self))
                 = vertices (_graph self) ++ [c] /\
                 (0 <= c)%Z /\ ~ In c (vertices (_graph self)) /\
                 forall c', (0 <= c' < c)%Z -> In c' (vertices (_graph self))).
Proof.
  split; [reflexivity|]. split; [reflexivity|].
  intro H. destruct (H gap_at_one (point [1%Z])) as [c [Hc [_ [_ Hsmall]]]].
  change (vertices (_graph (exec (add_vertex (point [1%Z]) None) gap_at_one)))
    with [0; 2; 3; 4]%Z in Hc.
  change (vertices (_graph gap_at_one)) with [0; 2; 3]%Z in Hc, Hsmall.
  injection Hc as Hc. subst c.
  specialize (Hsmall 1%Z ltac:(lia)). simpl in Hsmall. lia.
Qed.

(** C9 (as stated) fails.  [add_vertex] with a point of three
    coordinates returns on the empty framework of the plane; on the
    framework it leaves, [get_realization()] followed by
    [set_realization()] with the returned mapping raises
    [AssertionError]. *)
Lemma get_set_realization_round_trip_fails :
  run (add_vertex (point [1; 2; 3]%Z) None) empty_plane = Return tt /\
  run (r <- get_realization ;; set_realization r)
      (exec (add_vertex (point [1; 2; 3]%Z) None) empty_plane)
  = Raise AssertionError.
Proof. split; reflexivity. Qed.

(* ------------------------------------------------------------------ *)
(** ** Mutations and the invariant *)

Lemma dict_get_setitem_same (k : Vertex) (p : Point) (d : Dict) :
  dict_get k (setitem k p d) = Some p.
Proof.
  induction d as [|[k' p'] d IH]; simpl.
  - rewrite Z.eqb_refl. reflexivity.
  - destruct (Z.eqb k k') eqn:E; simpl; rewrite E; [reflexivity|assumption].
Qed.

Lemma dict_get_setitem_other (k k' : Vertex) (p : Point) (d : Dict) :
  k' <> k -> dict_get k' (setitem k p d) = dict_get k' d.
Proof.
  intro Hne. apply Z.eqb_neq in Hne.
  induction d as [|[k0 p0] d IH]; simpl.
  - rewrite Hne. reflexivity.
  - destruct (Z.eqb k k0) eqn:E; simpl.
    + apply Z.eqb_eq in E. subst k0. rewrite Hne. reflexivity.
    + rewrite IH. reflexivity.
Qed.

Lemma dict_get_filter_other (k k' : Vertex) (d : Dict) :
  k' <> k ->
  dict_get k' (filter (fun kp => negb (Z.eqb k (fst kp))) d) = dict_get k' d.
Proof.
  intro Hne. induction d as [|[k0 p0] d IH]; simpl; [reflexivity|].
  destruct (Z.eqb k k0) eqn:E; simpl.
  - apply Z.eqb_eq in E. subst k0. apply Z.eqb_neq in Hne. rewrite Hne. assumption.
  - rewrite IH. reflexivity.
Qed.

Lemma dict_get_filter_same (k : Vertex) (d : Dict) :
  dict_get k (filter (fun kp => negb (Z.eqb k (fst kp))) d) = None.
Proof.
  induction d as [|[k0 p0] d IH]; simpl; [reflexivity|].
  destruct (Z.eqb k k0) eqn:E; simpl; [assumption|].
  rewrite E. assumption.
Qed.

(** [change_vertex_coordinates] keeps the invariant, whether it returns
    or raises. *)
Lemma change_vertex_coordinates_invariant (self : Framework) (v : Vertex) (p : Point) :
  invariant self = true ->
  invariant (exec (change_vertex_coordinates v p) self) = true.
Proof.
  intro Hinv. destruct self as [r g d].
  cbv [exec change_vertex_coordinates bind get lift assert_ set__realization].
  cbn [_realization _graph _dim].
  destruct (contains v r); cbn [snd]; [|assumption].
  destruct (Z.eqb_spec (Z.of_nat (len p)) d) as [Hlen|Hlen]; cbn [snd]; [|assumption].
  unfold invariant in *. cbn [_realization _graph _dim] in *.
  rewrite forallb_forall in *. intros w Hw. specialize (Hinv w Hw).
  destruct (Z.eq_dec w v) as [->|Hne].
  - rewrite dict_get_setitem_same. apply Z.eqb_eq. assumption.
  - rewrite dict_get_setitem_other by assumption. assumption.
Qed.

Lemma forM_change_invariant (l : list (Vertex * Point)) (self : Framework) :
  invariant self = true ->
  invariant (exec (forM (fun vp => change_vertex_coordinates (fst vp) (snd vp)) l) self) = true.
Proof.
  revert self. induction l as [|[v p] l IH]; intros self Hinv; [assumption|].
  pose proof (change_vertex_coordinates_invariant self v p Hinv) as H1.
  unfold exec in *. cbn [forM fst snd]. unfold bind at 1.
  destruct (change_vertex_coordinates v p self) as [[[]|e] s]; cbn [snd] in *.
  - apply IH. assumption.
  - assumption.
Qed.

(** The batch setter keeps the invariant, whether it returns or raises. *)
Lemma change_vertex_coordinates_list_invariant
      (self : Framework) (vs : list Vertex) (points : list Point) :
  invariant self = true ->
  invariant (exec (change_vertex_coordinates_list vs points) self) = true.
Proof.
  intro Hinv. unfold exec, change_vertex_coordinates_list.
  cbv [None_neq]. unfold bind at 1. cbv [ret].
  unfold bind at 1. cbv [lift assert_].
  destruct (length vs =? length points)%nat; cbn [snd]; [|assumption].
  apply forM_change_invariant. assumption.
Qed.

(** Deleting a vertex keeps the invariant; when it returns, the vertex,
    its realization entry and its incident edges are gone. *)
Lemma delete_vertex_invariant (self : Framework) (v : Vertex) :
  invariant self = true ->
  invariant (exec (delete_vertex v) self) = true /\
  (run (delete_vertex v) self = Return tt ->
   let self' := exec (delete_vertex v) self in
   ~ In v (vertices (_graph self')) /\
   dict_get v (_realization self') = None /\
   (forall e, In e (edges (_graph self')) <->
              In e (edges (_graph self)) /\ incident v e = false)).
Proof.
  intro Hinv. destruct self as [r [ns es] d].
  assert (Hinv' := Hinv). unfold invariant in Hinv'.
  cbn [_realization _graph _dim vertices nodes] in Hinv'.
  rewrite forallb_forall in Hinv'.
  cbv [run exec delete_vertex bind get lift Graph_delete_vertex set__graph set__realization delitem].
  cbn [_realization _graph _dim nodes edge_list].
  destruct (mem v ns) eqn:Hmem; cbn [fst snd].
  2:{ split; [assumption|discriminate]. }
  apply mem_In in Hmem. specialize (Hinv' v Hmem) as Hv.
  unfold contains. destruct (dict_get v r) as [p|] eqn:Hget; [|discriminate].
  cbn [fst snd _realization _graph _dim vertices edges nodes edge_list].
  split; [|intros _; split; [|split]].
  - unfold invariant. cbn [_realization _graph _dim vertices nodes].
    apply forallb_forall. intros w Hw. apply filter_In in Hw. destruct Hw as [Hw Hne].
    apply negb_true_iff, Z.eqb_neq in Hne.
    rewrite dict_get_filter_other by assumption. apply Hinv'. assumption.
  - intro H. apply filter_In in H. destruct H as [_ H].
    rewrite Z.eqb_refl in H. discriminate.
  - apply dict_get_filter_same.
  - intro e. rewrite filter_In, negb_true_iff. reflexivity.
Qed.

(** [add_vertex] with a point of length [dim] keeps the invariant. *)
Lemma add_vertex_invariant (self : Framework) (point : Point) (vertex : option Vertex) :
  invariant self = true ->
  Z.of_nat (len point) = _dim self ->
  invariant (exec (add_vertex point vertex) self) = true.
Proof.
  intros Hinv Hlen. destruct self as [r [ns es] d].
  cbv [exec add_vertex bind get lift assert_ set__realization set__graph].
  cbn [_realization _graph _dim vertices nodes edge_list] in *.
  set (v := match vertex with
            | Some v => v
            | None => next_candidate (length ns) ns (Z.of_nat (length ns))
            end).
  destruct (mem v ns) eqn:Hmem; cbn [negb snd]; [assumption|].
  unfold invariant in *. cbn [_realization _graph _dim vertices nodes] in *.
  unfold Graph_add_node. cbn [nodes edge_list]. rewrite Hmem. cbn [nodes].
  rewrite forallb_forall in *. intros w Hw.
  apply in_app_or in Hw. destruct Hw as [Hw|[<-|[]]].
  - assert (Hne : w <> v). { intros ->. apply mem_false in Hmem. contradiction. }
    rewrite dict_get_setitem_other by assumption. apply Hinv. assumption.
  - rewrite dict_get_setitem_same. apply Z.eqb_eq. assumption.
Qed.

(** C6. The empty framework of the plane satisfies the invariant;
    [add_vertex] with a point of three coordinates returns normally,
    commits the vertex with its three coordinates, and the invariant no
    longer holds. *)
Theorem add_vertex_wrong_length :
  invariant empty_plane = true /\
  _dim empty_plane = 2%Z /\
  run (add_vertex (point [1; 2; 3]%Z) None) empty_plane = Return tt /\
  let self' := exec (add_vertex (point [1; 2; 3]%Z) None) empty_plane in
  vertices (_graph self') = [0%Z] /\
  option_map len (dict_get 0%Z (_realization self')) = Some 3%nat /\
  invariant self' = false.
Proof. repeat split. Qed.

(* ------------------------------------------------------------------ *)
(** ** The batch setter and repeated keys *)

Lemma forM_change_raises (l : list (Vertex * Point)) (self : Framework) (e : exn) :
  run (forM (fun vp => change_vertex_coordinates (fst vp) (snd vp)) l) self = Raise e ->
  e = AssertionError.
Proof.
  revert self. induction l as [|[v p] l IH]; intros self; [discriminate|].
  unfold run. cbn [forM fst snd]. unfold bind at 1.
  destruct (change_vertex_coordinates v p self) as [[[]|x] s] eqn:Hc; cbn [fst].
  - apply IH.
  - intro H. injection H as ->. revert Hc.
    cbv [change_vertex_coordinates bind get lift assert_ set__realization].
    destruct (contains v (_realization self)); [|congruence].
    destruct (Z.of_nat (len p) =? _dim self)%Z; congruence.
Qed.

(** The guard against repeated names never fires: the batch setter
    raises nothing but [AssertionError]. *)
Lemma change_vertex_coordinates_list_raises
      (self : Framework) (vs : list Vertex) (points : list Point) (e : exn) :
  run (change_vertex_coordinates_list vs points) self = Raise e -> e = AssertionError.
Proof.
  unfold run, change_vertex_coordinates_list.
  cbv [None_neq]. unfold bind at 1. cbv [ret].
  unfold bind at 1. cbv [lift assert_].
  destruct (length vs =? length points)%nat; cbn [fst].
  - apply forM_change_raises.
  - congruence.
Qed.

(** [change_realization] passes views of the dict: on a dict with an
    entry the first subscript raises [TypeError]; nothing is written,
    whatever the dict holds. *)
Lemma run_change_realization (self : Framework) (subset_of_realization : Dict) :
  run (change_realization subset_of_realization) self
  = (if is_nil subset_of_realization then Return tt else Raise TypeError) /\
  exec (change_realization subset_of_realization) self = self.
Proof.
  unfold run, exec, change_realization, change_vertex_coordinates_list_of_views.
  cbv [None_neq]. unfold bind at 1 3. cbv [ret].
  unfold bind at 1 2. cbv [lift assert_].
  unfold keys, values. rewrite !length_map, Nat.eqb_refl. cbn [fst snd].
  destruct subset_of_realization as [|kp d]; split; reflexivity.
Qed.

(** C8. On the framework with the single vertex 0 on the line, the batch
    setter called with the vertex 0 twice returns normally and leaves
    the second point in place; called with the vertex 0 and the unknown
    vertex 7 it raises [AssertionError] after it has moved vertex 0.
    Through [change_realization] the entries reach the batch setter as
    views of the dict: with the vertex 0 and the unknown vertex 7, and
    with the vertex 0 alone, the call raises [TypeError] and nothing is
    written. *)
Theorem change_vertex_coordinates_list_duplicates :
  (run (change_vertex_coordinates_list [0; 0]%Z [point [1%Z]; point [2%Z]]) one_point
     = Return tt /\
   dict_get 0%Z (_realization
     (exec (change_vertex_coordinates_list [0; 0]%Z [point [1%Z]; point [2%Z]]) one_point))
     = Some (point [2%Z])) /\
  (run (change_vertex_coordinates_list [0; 7]%Z [point [1%Z]; point [2%Z]]) one_point
     = Raise AssertionError /\
   dict_get 0%Z (_realization one_point) = Some (Col [qz 0]) /\
   dict_get 0%Z (_realization
     (exec (change_vertex_coordinates_list [0; 7]%Z [point [1%Z]; point [2%Z]]) one_point))
     = Some (point [1%Z])) /\
  (run (change_realization [(0%Z, point [1%Z]); (7%Z, point [2%Z])]) one_point
     = Raise TypeError /\
   exec (change_realization [(0%Z, point [1%Z]); (7%Z, point [2%Z])]) one_point
     = one_point /\
   run (change_realization [(0%Z, point [1%Z])]) one_point = Raise TypeError /\
   exec (change_realization [(0%Z, point [1%Z])]) one_point = one_point).
Proof. repeat split. Qed.

(* ================================================================== *)
(** * The rigidity matrix *)

Lemma insert_sorted_perm {A : Type} (le : A -> A -> bool) (x : A) (l : list A) :
  Permutation (insert_sorted le x l) (x :: l).
Proof.
  induction l as [|y l IH]; simpl.
  - apply Permutation_refl.
  - destruct (le x y).
    + apply Permutation_refl.
    + apply perm_trans with (y :: x :: l).
      * apply perm_skip. assumption.
      * apply perm_swap.
Qed.

Lemma sorted_by_perm {A : Type} (le : A -> A -> bool) (l : list A) :
  Permutation (sorted_by le l) l.
Proof.
  induction l as [|x l IH]; simpl.
  - apply perm_nil.
  - apply perm_trans with (x :: sorted_by le l).
    + apply insert_sorted_perm.
    + apply perm_skip. assumption.
Qed.

Lemma distinct_NoDup (l : list Vertex) : distinct l = true <-> NoDup l.
Proof.
  induction l as [|v l IH]; simpl.
  - split; [constructor|reflexivity].
  - rewrite andb_true_iff, negb_true_iff, mem_false, IH. split.
    + intros [H1 H2]. constructor; assumption.
    + intro H. inversion H; subst. split; assumption.
Qed.

Lemma set_eqb_incl (l1 l2 : list Vertex) :
  set_eqb l1 l2 = true <-> incl l1 l2 /\ incl l2 l1.
Proof.
  unfold set_eqb. rewrite andb_true_iff, !forallb_forall. unfold incl.
  split; intros [H1 H2]; split; intros v Hv.
  - apply mem_In. auto.
  - apply mem_In. auto.
  - apply mem_In. auto.
  - apply mem_In. auto.
Qed.

(** An accepted order without repetition is a rearrangement of the
    vertices. *)
Lemma order_of_perm (self : Framework) (vo : option (list Vertex)) :
  distinct (vertices (_graph self)) = true ->
  valid_order_without_repetition self vo = true ->
  Permutation (order_of self vo) (vertices (_graph self)).
Proof.
  intros Hd Hvo. destruct vo as [l|]; simpl in *.
  - apply andb_true_iff in Hvo. destruct Hvo as [Hset Hl].
    apply set_eqb_incl in Hset. destruct Hset as [H1 H2].
    apply distinct_NoDup in Hd, Hl.
    apply NoDup_Permutation; try assumption.
    intro x. split; auto.
  - apply sorted_by_perm.
Qed.

Lemma edge_order_of_perm (self : Framework) (eo : bool) :
  Permutation (edge_order_of self eo) (edges (_graph self)).
Proof.
  destruct eo; simpl; [apply sorted_by_perm|apply Permutation_refl].
Qed.

Lemma mapO_Return {A B : Type} (f : A -> outcome B) (g : A -> B) (l : list A) :
  (forall a, In a l -> f a = Return (g a)) ->
  mapO f l = Return (map g l).
Proof.
  induction l as [|a l IH]; intro H; simpl; [reflexivity|].
  rewrite (H a (or_introl eq_refl)). simpl.
  rewrite IH; [reflexivity|]. intros b Hb. apply H. right. assumption.
Qed.

Lemma length_zip_with {A B C : Type} (f : A -> B -> C) (l1 : list A) (l2 : list B) :
  length (zip_with f l1 l2) = Nat.min (length l1) (length l2).
Proof.
  revert l2. induction l1 as [|a l1 IH]; intros [|b l2]; simpl; auto.
Qed.

Open Scope Qc_scope.

Lemma at_vscale (c : Qc) (v : vec) (k : nat) : at_ (vscale c v) k = c * at_ v k.
Proof.
  unfold at_, vscale. revert k. induction v as [|x v IH]; intros [|k]; simpl;
    try ring. apply IH.
Qed.

Lemma at_vsub (u v : vec) (k : nat) :
  length u = length v -> at_ (vsub u v) k = at_ u k - at_ v k.
Proof.
  unfold at_, vsub. revert v k.
  induction u as [|x u IH]; intros [|y v] [|k] H; simpl in *; try discriminate; try ring.
  apply IH. lia.
Qed.

Lemma length_vscale (c : Qc) (v : vec) : length (vscale c v) = length v.
Proof. apply length_map. Qed.

Lemma length_vsub (u v : vec) : length u = length v -> length (vsub u v) = length u.
Proof. intro H. unfold vsub. rewrite length_zip_with, <- H. apply Nat.min_id. Qed.

(** Position [j * d + k] of the concatenation of blocks of length [d] is
    position [k] of block [j]. *)
Lemma at_concat_blocks (blocks : list vec) (d j k : nat) :
  (forall b, In b blocks -> length b = d) ->
  (k < d)%nat ->
  at_ (concat blocks) (j * d + k) = at_ (nth j blocks []) k.
Proof.
  revert j. induction blocks as [|b blocks IH]; intros j Hlen Hk.
  - simpl. unfold at_. destruct j; destruct (_ + _)%nat; destruct k; reflexivity.
  - simpl concat. unfold at_ in *. destruct j as [|j].
    + simpl. rewrite app_nth1; [reflexivity|].
      rewrite (Hlen b (or_introl eq_refl)). assumption.
    + rewrite app_nth2; rewrite (Hlen b (or_introl eq_refl)); [|simpl; lia].
      replace (S j * d + k - d)%nat with (j * d + k)%nat by (simpl; lia).
      simpl nth. apply IH; [|assumption].
      intros b' Hb'. apply Hlen. right. assumption.
Qed.

Lemma length_concat_blocks (blocks : list vec) (d : nat) :
  (forall b, In b blocks -> length b = d) ->
  length (concat blocks) = (d * length blocks)%nat.
Proof.
  induction blocks as [|b blocks IH]; intro Hlen; simpl.
  - lia.
  - rewrite length_app, (Hlen b (or_introl eq_refl)), IH; [lia|].
    intros b' Hb'. apply Hlen. right. assumption.
Qed.

Lemma qz_1 (x : Qc) : qz 1 * x = x.
Proof. change (qz 1) with 1. ring. Qed.

Lemma qz_0 (x : Qc) : qz 0 * x = 0.
Proof. change (qz 0) with 0. ring. Qed.

Lemma qz_m1 (x y : Qc) : qz (-1) * (x - y) = y - x.
Proof.
  replace (qz (-1)) with (- (1)) by (apply Qc_is_canon; reflexivity). ring.
Qed.

Lemma rigidity_row_Return (r : Dict) (order : list Vertex) (u v : Vertex) (pu pv : vec) :
  dict_get u r = Some (Col pu) ->
  dict_get v r = Some (Col pv) ->
  length pu = length pv ->
  rigidity_row r order (u, v) = Return (concat (map (block pu pv u v) order)).
Proof.
  intros Hu Hv Hlen. unfold rigidity_row. cbn [fst snd].
  rewrite mapO_Return with (g := fun w => Col (block pu pv u v w)).
  - simpl. unfold flatten. rewrite map_map. reflexivity.
  - intros w _. unfold getitem. rewrite Hu, Hv. simpl.
    apply Nat.eqb_eq in Hlen. rewrite Hlen. reflexivity.
Qed.

Lemma at_block (pu pv : vec) (u v w : Vertex) (k : nat) :
  length pu = length pv ->
  at_ (block pu pv u v w) k =
  if (w =? u)%Z then at_ pu k - at_ pv k
  else if (w =? v)%Z then at_ pv k - at_ pu k
  else 0.
Proof.
  intro Hlen. unfold block, delta. rewrite at_vscale, at_vsub by assumption.
  destruct (w =? u)%Z; [apply qz_1|].
  destruct (w =? v)%Z; [apply qz_m1|apply qz_0].
Qed.

Lemma length_block (pu pv : vec) (u v w : Vertex) :
  length pu = length pv -> length (block pu pv u v w) = length pu.
Proof. intro H. unfold block. rewrite length_vscale. apply length_vsub. assumption. Qed.

Close Scope Qc_scope.

(** [Matrix(dat)] on rows of one length. *)
Lemma Matrix_of_rows_uniform (dat : list (list Qc)) (L : nat) :
  dat <> [] ->
  (forall r, In r dat -> length r = L) ->
  Matrix_of_rows dat = Return (mkMatrix (length dat) L dat).
Proof.
  intros Hne Hlen. unfold Matrix_of_rows.
  destruct dat as [|r dat]; [congruence|].
  assert (Hall : forallb (fun r' => (length r' =? length r)%nat) (r :: dat) = true).
  { apply forallb_forall. intros r' Hr'. apply Nat.eqb_eq.
    rewrite (Hlen r' Hr'), (Hlen r (or_introl eq_refl)). reflexivity. }
  rewrite Hall. rewrite (Hlen r (or_introl eq_refl)). reflexivity.
Qed.

(** The realization entries well-formedness gives for the end points of
    an edge. *)
Lemma well_formed_edge (self : Framework) (u v : Vertex) :
  well_formed self = true ->
  In (u, v) (edges (_graph self)) ->
  exists pu pv,
    dict_get u (_realization self) = Some (Col pu) /\
    dict_get v (_realization self) = Some (Col pv) /\
    Z.of_nat (length pu) = _dim self /\
    Z.of_nat (length pv) = _dim self.
Proof.
  unfold well_formed. rewrite !andb_true_iff, !forallb_forall.
  intros [[_ He] Hv] Hin. specialize (He (u, v) Hin). cbn [fst snd] in He.
  apply andb_true_iff in He. destruct He as [Hu Hv'].
  apply mem_In in Hu, Hv'. pose proof (Hv u Hu) as H1. pose proof (Hv v Hv') as H2.
  destruct (dict_get u (_realization self)) as [[|pu]|]; try discriminate.
  destruct (dict_get v (_realization self)) as [[|pv]|]; try discriminate.
  exists pu, pv. apply Z.eqb_eq in H1, H2. auto.
Qed.

Lemma run_rigidity_matrix (self : Framework) (vo : option (list Vertex)) (eo : bool) :
  match vo with Some l => set_eqb (vertices (_graph self)) l = true | None => True end ->
  run (rigidity_matrix vo eo) self =
  let* rws := mapO (rigidity_row (_realization self) (order_of self vo))
                   (edge_order_of self eo) in
  Matrix_of_rows rws.
Proof.
  intro Hvo. unfold run, rigidity_matrix. rewrite bind_query by auto with query.
  change (run get self) with (Return self). cbv iota.
  destruct vo as [l|]; cbn [order_of].
  - cbv [bind lift ret assert_]. rewrite Hvo. cbn [fst].
    unfold edge_order_of.
    destruct (mapO _ _); reflexivity.
  - cbv [bind lift ret]. unfold edge_order_of.
    destruct (mapO _ _); reflexivity.
Qed.

(** On a well-formed framework every row is computed, and it is
    [row_of]. *)
Lemma rigidity_rows_Return (self : Framework) (order : list Vertex) (es : list Edge) :
  well_formed self = true ->
  incl es (edges (_graph self)) ->
  mapO (rigidity_row (_realization self) order) es = Return (map (row_of self order) es).
Proof.
  intros Hwf Hincl. apply mapO_Return. intros [u v] Hin.
  destruct (well_formed_edge self u v Hwf (Hincl _ Hin)) as [pu [pv [Hu [Hv [Lu Lv]]]]].
  unfold row_of. cbn [fst snd]. rewrite Hu, Hv. cbn [coords].
  apply rigidity_row_Return; try assumption. lia.
Qed.

Lemma length_row_of (self : Framework) (order : list Vertex) (e : Edge) :
  well_formed self = true ->
  In e (edges (_graph self)) ->
  length (row_of self order e) = (Z.to_nat (_dim self) * length order)%nat.
Proof.
  intros Hwf Hin. destruct e as [u v].
  destruct (well_formed_edge self u v Hwf Hin) as [pu [pv [Hu [Hv [Lu Lv]]]]].
  unfold row_of. cbn [fst snd]. rewrite Hu, Hv. cbn [coords].
  rewrite length_concat_blocks with (d := Z.to_nat (_dim self)).
  - rewrite length_map. reflexivity.
  - intros b Hb. apply in_map_iff in Hb. destruct Hb as [w [<- _]].
    rewrite length_block; lia.
Qed.

(** C3 (as the code has it). On a well-formed framework (its vertices
    are integers) with at least one edge, and for the default vertex
    order or any accepted vertex order that lists no vertex twice,
    [rigidity_matrix] returns a matrix with one row per edge and
    [dim * |V|] columns; in the row of the edge [(u, v)] the columns of
    [u] hold [p_u - p_v], the columns of [v] hold [p_v - p_u], and the
    columns of every other vertex hold zeros. *)
Theorem rigidity_matrix_shape
        (self : Framework) (vertex_order : option (list Vertex)) (edges_ordered : bool) :
  well_formed self = true ->
  valid_order_without_repetition self vertex_order = true ->
  edges (_graph self) <> [] ->
  let d := Z.to_nat (_dim self) in
  exists m,
    run (rigidity_matrix vertex_order edges_ordered) self = Return m /\
    rows m = length (edges (_graph self)) /\
    cols m = (d * length (vertices (_graph self)))%nat /\
    forall i j k u v w,
      nth_error (edge_order_of self edges_ordered) i = Some (u, v) ->
      nth_error (order_of self vertex_order) j = Some w ->
      (k < d)%nat ->
      exists pu pv,
        dict_get u (_realization self) = Some (Col pu) /\
        dict_get v (_realization self) = Some (Col pv) /\
        entry m i (j * d + k) =
          (if (w =? u)%Z then at_ pu k - at_ pv k
           else if (w =? v)%Z then at_ pv k - at_ pu k
           else 0)%Qc.
Proof.
  intros Hwf Hvo Hne d.
  set (order := order_of self vertex_order).
  set (eorder := edge_order_of self edges_ordered).
  assert (Hdist : distinct (vertices (_graph self)) = true).
  { unfold well_formed in Hwf. rewrite !andb_true_iff in Hwf. tauto. }
  pose proof (order_of_perm self vertex_order Hdist Hvo) as Hperm. fold order in Hperm.
  pose proof (edge_order_of_perm self edges_ordered) as Heperm. fold eorder in Heperm.
  assert (Hincl : incl eorder (edges (_graph self))).
  { intros e He. apply (Permutation_in _ Heperm He). }
  assert (Hlen_order : length order = length (vertices (_graph self))).
  { apply Permutation_length. assumption. }
  assert (Hlen_eorder : length eorder = length (edges (_graph self))).
  { apply Permutation_length. assumption. }
  exists (mkMatrix (length eorder) (d * length order) (map (row_of self order) eorder)).
  split; [|split; [|split]].
  - rewrite run_rigidity_matrix.
    2:{ destruct vertex_order as [l|]; [|exact I].
        simpl in Hvo. apply andb_true_iff in Hvo. tauto. }
    fold order eorder. rewrite rigidity_rows_Return by assumption. simpl.
    rewrite Matrix_of_rows_uniform with (L := (d * length order)%nat).
    + rewrite length_map. reflexivity.
    + destruct eorder; [simpl in Hlen_eorder; destruct (edges (_graph self)); [congruence|discriminate]|discriminate].
    + intros r Hr. apply in_map_iff in Hr. destruct Hr as [e [<- He]].
      apply length_row_of; auto.
  - simpl. assumption.
  - simpl. rewrite Hlen_order. reflexivity.
  - intros i j k u v w Hi Hj Hk.
    assert (Hin : In (u, v) (edges (_graph self))).
    { apply Hincl. apply nth_error_In with i. assumption. }
    destruct (well_formed_edge self u v Hwf Hin) as [pu [pv [Hu [Hv [Lu Lv]]]]].
    exists pu, pv. split; [assumption|]. split; [assumption|].
    unfold entry. cbn [entries].
    rewrite nth_error_nth with (x := row_of self order (u, v)).
    2:{ rewrite nth_error_map, Hi. reflexivity. }
    unfold row_of. cbn [fst snd]. rewrite Hu, Hv. cbn [coords].
    rewrite at_concat_blocks with (d := d).
    + rewrite nth_error_nth with (x := block pu pv u v w).
      2:{ rewrite nth_error_map, Hj. reflexivity. }
      apply at_block. lia.
    + intros b Hb. apply in_map_iff in Hb. destruct Hb as [w' [<- _]].
      rewrite length_block; subst d; lia.
    + assumption.
Qed.

(* ================================================================== *)
(** * Vectors over the rationals *)

Open Scope Qc_scope.

Lemma is_zero_true (x : Qc) : is_zero x = true <-> x = 0.
Proof. unfold is_zero, Qc_eq_bool. destruct (Qc_eq_dec x 0); split; congruence. Qed.

Lemma is_zero_false (x : Qc) : is_zero x = false <-> x <> 0.
Proof. unfold is_zero, Qc_eq_bool. destruct (Qc_eq_dec x 0); split; congruence. Qed.

Lemma sumf_ext (g h : nat -> Qc) (l : list nat) :
  (forall c, In c l -> g c = h c) -> sumf g l = sumf h l.
Proof.
  induction l as [|a l IH]; intro H; simpl; [reflexivity|].
  rewrite (H a (or_introl eq_refl)), IH; [reflexivity|].
  intros c Hc. apply H. right. assumption.
Qed.

Lemma sumf_zero (g : nat -> Qc) (l : list nat) :
  (forall c, In c l -> g c = 0) -> sumf g l = 0.
Proof.
  induction l as [|a l IH]; intro H; simpl; [reflexivity|].
  rewrite (H a (or_introl eq_refl)), IH; [ring|].
  intros c Hc. apply H. right. assumption.
Qed.

Lemma sumf_plus (g h : nat -> Qc) (l : list nat) :
  sumf (fun c => g c + h c) l = sumf g l + sumf h l.
Proof. induction l as [|a l IH]; simpl; [ring|]. rewrite IH. ring. Qed.

Lemma sumf_scale (k : Qc) (g : nat -> Qc) (l : list nat) :
  sumf (fun c => k * g c) l = k * sumf g l.
Proof. induction l as [|a l IH]; simpl; [ring|]. rewrite IH. ring. Qed.

Lemma sumf_map (g : nat -> Qc) (f : nat -> nat) (l : list nat) :
  sumf g (map f l) = sumf (fun c => g (f c)) l.
Proof. induction l as [|a l IH]; simpl; [reflexivity|]. rewrite IH. reflexivity. Qed.

Lemma sumf_filter (g : nat -> Qc) (P : nat -> bool) (l : list nat) :
  (forall k, In k l -> P k = false -> g k = 0) ->
  sumf g (filter P l) = sumf g l.
Proof.
  induction l as [|a l IH]; intro H; [reflexivity|].
  cbn [filter]. destruct (P a) eqn:E.
  - change (g a + sumf g (filter P l) = g a + sumf g l).
    rewrite IH; [reflexivity|]. intros k Hk. apply H. right. assumption.
  - change (sumf g (filter P l) = g a + sumf g l).
    rewrite IH by (intros k Hk; apply H; right; assumption).
    rewrite (H a (or_introl eq_refl) E). ring.
Qed.

(** A sum with at most one non-zero term. *)
Lemma sumf_single (g : nat -> Qc) (l : list nat) (a : nat) :
  NoDup l -> In a l -> (forall c, In c l -> c <> a -> g c = 0) ->
  sumf g l = g a.
Proof.
  induction l as [|b l IH]; intros Hnd Hin Hz; [destruct Hin|].
  inversion Hnd as [|? ? Hb Hnd']; subst. simpl.
  destruct Hin as [->|Hin].
  - rewrite sumf_zero; [ring|].
    intros c Hc. apply Hz; [right; assumption|]. intros ->. contradiction.
  - rewrite IH; try assumption.
    + rewrite Hz; [ring|left; reflexivity|]. intros ->. contradiction.
    + intros c Hc Hne. apply Hz; [right; assumption|assumption].
Qed.

Lemma sumf_delta (x : Qc) (l : list nat) (a : nat) :
  NoDup l -> In a l ->
  sumf (fun c => if (c =? a)%nat then x else 0) l = x.
Proof.
  intros Hnd Hin. rewrite sumf_single with (a := a); try assumption.
  - rewrite Nat.eqb_refl. reflexivity.
  - intros c _ Hne. apply Nat.eqb_neq in Hne. rewrite Hne. reflexivity.
Qed.

Lemma dot_nil_r (u : vec) : dot u [] = 0.
Proof. destruct u; reflexivity. Qed.

Lemma dot_cons (a b : Qc) (u v : vec) : dot (a :: u) (b :: v) = a * b + dot u v.
Proof. reflexivity. Qed.

(** The dot product as a sum over the coordinates. *)
Lemma dot_sum (u v : vec) (N : nat) :
  length u = N -> length v = N ->
  dot u v = sumf (fun c => at_ u c * at_ v c) (seq 0 N).
Proof.
  revert v N. induction u as [|a u IH]; intros [|b v] [|N] Hu Hv;
    simpl in Hu, Hv; try discriminate; [reflexivity|].
  rewrite dot_cons. cbn [seq sumf fold_right]. fold (sumf (fun c => at_ (a :: u) c * at_ (b :: v) c) (seq 1 N)).
  rewrite <- seq_shift, sumf_map.
  rewrite (IH v N) by lia. reflexivity.
Qed.

Lemma dot_vscale_l (c : Qc) (u v : vec) : dot (vscale c u) v = c * dot u v.
Proof.
  revert v. induction u as [|a u IH]; intros [|b v]; simpl; try (unfold dot; simpl; ring).
  change (dot (c * a :: vscale c u) (b :: v) = c * dot (a :: u) (b :: v)).
  rewrite !dot_cons, IH. ring.
Qed.

Lemma dot_vsub_l (u w v : vec) :
  length u = length w -> dot (vsub u w) v = dot u v - dot w v.
Proof.
  revert w v. induction u as [|a u IH]; intros [|b w] [|x v] H; simpl in H;
    try discriminate; try (unfold dot; simpl; ring).
  change (dot (a - b :: vsub u w) (x :: v) = dot (a :: u) (x :: v) - dot (b :: w) (x :: v)).
  rewrite !dot_cons, IH by lia. ring.
Qed.

Lemma dot_vadd_l (u w v : vec) :
  length u = length w -> dot (vadd u w) v = dot u v + dot w v.
Proof.
  revert w v. induction u as [|a u IH]; intros [|b w] [|x v] H; simpl in H;
    try discriminate; try (unfold dot; simpl; ring).
  change (dot (a + b :: vadd u w) (x :: v) = dot (a :: u) (x :: v) + dot (b :: w) (x :: v)).
  rewrite !dot_cons, IH by lia. ring.
Qed.

Lemma dot_comm (u v : vec) : dot u v = dot v u.
Proof.
  revert v. induction u as [|a u IH]; intros [|b v]; try reflexivity.
  rewrite !dot_cons, IH. ring.
Qed.

Lemma dot_vzero_r (u : vec) (N : nat) : dot u (vzero N) = 0.
Proof.
  revert N. induction u as [|a u IH]; intros [|N]; try reflexivity.
  change (dot (a :: u) (0 :: vzero N) = 0). rewrite dot_cons, IH. ring.
Qed.

Lemma dot_vzero_l (u : vec) (N : nat) : dot (vzero N) u = 0.
Proof. rewrite dot_comm. apply dot_vzero_r. Qed.

Lemma length_vadd (u v : vec) : length u = length v -> length (vadd u v) = length u.
Proof. intro H. unfold vadd. rewrite length_zip_with, <- H. apply Nat.min_id. Qed.

Lemma length_vzero (N : nat) : length (vzero N) = N.
Proof. apply repeat_length. Qed.

Lemma at_vadd (u v : vec) (k : nat) :
  length u = length v -> at_ (vadd u v) k = at_ u k + at_ v k.
Proof.
  unfold at_, vadd. revert v k.
  induction u as [|x u IH]; intros [|y v] [|k] H; simpl in *; try discriminate; try ring.
  apply IH. lia.
Qed.

Lemma at_vzero (N k : nat) : at_ (vzero N) k = 0.
Proof.
  unfold at_, vzero. revert k. induction N as [|N IH]; intros [|k]; simpl; auto.
Qed.

(** Vectors of one length with the same coordinates are equal. *)
Lemma vec_ext (u v : vec) :
  length u = length v -> (forall k, (k < length u)%nat -> at_ u k = at_ v k) -> u = v.
Proof.
  revert v. induction u as [|a u IH]; intros [|b v] Hlen H; simpl in Hlen;
    try discriminate; [reflexivity|].
  f_equal.
  - apply (H 0%nat). simpl. lia.
  - apply IH; [lia|]. intros k Hk. apply (H (S k)). simpl. lia.
Qed.

Lemma is_zero_matrix_true (v : vec) : is_zero_matrix v = true <-> v = vzero (length v).
Proof.
  induction v as [|a v IH]; simpl.
  - split; reflexivity.
  - rewrite andb_true_iff, is_zero_true, IH. split.
    + intros [-> H]. unfold vzero in *. simpl. f_equal. assumption.
    + intro H. unfold vzero in H. simpl in H. injection H as Ha Hv.
      split; assumption.
Qed.

Lemma at_map_seq (g : nat -> Qc) (N c : nat) :
  (c < N)%nat -> at_ (map g (seq 0 N)) c = g c.
Proof.
  intro H. unfold at_. rewrite nth_indep with (d' := g 0%nat) by (rewrite length_map, length_seq; assumption).
  rewrite map_nth. rewrite seq_nth by assumption. reflexivity.
Qed.

Close Scope Qc_scope.

(* ================================================================== *)
(** * Row reduction *)

Open Scope Qc_scope.

Lemma find_pivot_Some (j : nat) (rest rest' : list vec) (p : vec) :
  find_pivot j rest = Some (p, rest') ->
  Permutation rest (p :: rest') /\ at_ p j <> 0.
Proof.
  revert rest' p. induction rest as [|r rs IH]; intros rest' p H; simpl in H; [discriminate|].
  destruct (is_zero (at_ r j)) eqn:Hz.
  - destruct (find_pivot j rs) as [[q rs']|] eqn:Hf; [|discriminate].
    injection H as <- <-. destruct (IH rs' q eq_refl) as [Hp Hq].
    split; [|assumption].
    apply perm_trans with (r :: q :: rs'); [apply perm_skip; assumption|apply perm_swap].
  - injection H as <- <-. split; [apply Permutation_refl|].
    apply is_zero_false. assumption.
Qed.

Lemma find_pivot_None (j : nat) (rest : list vec) :
  find_pivot j rest = None -> forall r, In r rest -> at_ r j = 0.
Proof.
  induction rest as [|r rs IH]; intros H r' Hr'; [destruct Hr'|].
  simpl in H. destruct (is_zero (at_ r j)) eqn:Hz.
  - destruct (find_pivot j rs) as [[q rs']|] eqn:Hf; [discriminate|].
    destruct Hr' as [<-|Hr']; [apply is_zero_true; assumption|auto].
  - discriminate.
Qed.

Lemma combine_app {A B : Type} (l1 l2 : list A) (k1 k2 : list B) :
  length l1 = length k1 ->
  combine (l1 ++ l2) (k1 ++ k2) = combine l1 k1 ++ combine l2 k2.
Proof.
  revert k1. induction l1 as [|a l1 IH]; intros [|b k1] H; simpl in *;
    try discriminate; [reflexivity|].
  f_equal. apply IH. lia.
Qed.

Lemma combine_map_l {A A' B : Type} (f : A -> A') (l : list A) (k : list B) :
  combine (map f l) k = map (fun ab => (f (fst ab), snd ab)) (combine l k).
Proof.
  revert k. induction l as [|a l IH]; intros [|b k]; simpl; try reflexivity.
  f_equal. apply IH.
Qed.

Lemma combine_app_short {A B : Type} (l1 l2 : list A) (k : list B) :
  length l1 = length k -> combine (l1 ++ l2) k = combine l1 k.
Proof.
  revert k. induction l1 as [|a l1 IH]; intros [|b k] H; simpl in *;
    try discriminate.
  - destruct l2; reflexivity.
  - f_equal. apply IH. lia.
Qed.

Lemma at_eliminate (j : nat) (p r : vec) (c : nat) :
  length r = length p ->
  at_ (eliminate j p r) c = at_ r c - at_ r j * at_ p c.
Proof.
  intro H. unfold eliminate. rewrite at_vsub by (rewrite length_vscale; assumption).
  rewrite at_vscale. reflexivity.
Qed.

Lemma length_eliminate (j : nat) (p r : vec) :
  length r = length p -> length (eliminate j p r) = length r.
Proof.
  intro H. unfold eliminate. apply length_vsub. rewrite length_vscale. assumption.
Qed.

Lemma reduced_init (ncols : nat) (rs : list vec) :
  (forall r, In r rs -> length r = ncols) -> reduced ncols 0 [] rs [].
Proof.
  intro H. constructor; simpl; try (intros; lia); try (intros; contradiction); auto.
  constructor.
Qed.

Lemma reduced_skip (ncols j : nat) (done rest : list vec) (pivots : list nat) :
  reduced ncols j done rest pivots ->
  find_pivot j rest = None ->
  reduced ncols (S j) done rest pivots.
Proof.
  intros [H1 H2 H3 H4 H5 H6] Hf. constructor; try assumption.
  - intros p Hp. specialize (H3 p Hp). lia.
  - intros r c Hr Hc. destruct (Nat.eq_dec c j) as [->|Hne].
    + apply (find_pivot_None _ _ Hf). assumption.
    + apply H5; [assumption|lia].
Qed.

Lemma reduced_step (ncols j : nat) (done rest rest' : list vec) (pivots : list nat) (p : vec) :
  reduced ncols j done rest pivots ->
  find_pivot j rest = Some (p, rest') ->
  let p' := vscale (/ at_ p j) p in
  reduced ncols (S j)
          (map (eliminate j p') done ++ [p'])
          (map (eliminate j p') rest')
          (pivots ++ [j]).
Proof.
  intros [H1 H2 H3 H4 H5 H6] Hf p'.
  destruct (find_pivot_Some _ _ _ _ Hf) as [Hperm Hpj].
  assert (Hp_in : In p rest) by (apply (Permutation_in _ (Permutation_sym Hperm)); left; reflexivity).
  assert (Hrest'_in : forall r, In r rest' -> In r rest).
  { intros r Hr. apply (Permutation_in _ (Permutation_sym Hperm)). right. assumption. }
  assert (Hlp : length p = ncols) by (apply H6, in_or_app; right; assumption).
  assert (Hlp' : length p' = ncols) by (unfold p'; rewrite length_vscale; assumption).
  assert (Hp'j : at_ p' j = 1).
  { unfold p'. rewrite at_vscale. field. assumption. }
  assert (Hp'below : forall c, (c < j)%nat -> at_ p' c = 0).
  { intros c Hc. unfold p'. rewrite at_vscale, (H5 p c Hp_in Hc). ring. }
  assert (Hcomb : combine (map (eliminate j p') done ++ [p']) (pivots ++ [j]) =
                  map (fun Rp => (eliminate j p' (fst Rp), snd Rp)) (combine done pivots)
                      ++ [(p', j)]).
  { rewrite combine_app by (rewrite length_map; assumption).
    rewrite combine_map_l. reflexivity. }
  constructor.
  - rewrite !length_app, length_map, H1. reflexivity.
  - apply NoDup_app; [assumption|repeat constructor; intros []| ].
    intros a Ha [Hj|[]]. subst a. specialize (H3 j Ha). lia.
  - intros q Hq. apply in_app_or in Hq. destruct Hq as [Hq|[<-|[]]]; [|lia].
    specialize (H3 q Hq). lia.
  - intros R q R' q' HR HR'. rewrite Hcomb in HR, HR'.
    apply in_app_or in HR. apply in_app_or in HR'.
    destruct HR as [HR|[HR|[]]]; destruct HR' as [HR'|[HR'|[]]].
    + apply in_map_iff in HR. destruct HR as [[R0 q0] [E HR]].
      apply in_map_iff in HR'. destruct HR' as [[R0' q0'] [E' HR']].
      cbn [fst snd] in E, E'. injection E as <- <-. injection E' as <- <-.
      assert (Hq' : (q0' < j)%nat) by (apply H3; eapply in_combine_r; eassumption).
      rewrite at_eliminate.
      2:{ rewrite Hlp'. apply H6, in_or_app. left. eapply in_combine_l. eassumption. }
      rewrite (Hp'below _ Hq'), (H4 _ _ _ _ HR HR'). ring.
    + apply in_map_iff in HR. destruct HR as [[R0 q0] [E HR]].
      cbn [fst snd] in E. injection E as <- <-. injection HR' as <- <-.
      assert (Hq : (q0 < j)%nat) by (apply H3; eapply in_combine_r; eassumption).
      rewrite at_eliminate.
      2:{ rewrite Hlp'. apply H6, in_or_app. left. eapply in_combine_l. eassumption. }
      rewrite Hp'j. replace (q0 =? j)%nat with false by (symmetry; apply Nat.eqb_neq; lia).
      ring.
    + injection HR as <- <-.
      apply in_map_iff in HR'. destruct HR' as [[R0' q0'] [E' HR']].
      cbn [fst snd] in E'. injection E' as <- <-.
      assert (Hq' : (q0' < j)%nat) by (apply H3; eapply in_combine_r; eassumption).
      rewrite (Hp'below _ Hq').
      replace (j =? q0')%nat with false by (symmetry; apply Nat.eqb_neq; lia).
      reflexivity.
    + injection HR as <- <-. injection HR' as <- <-.
      rewrite Nat.eqb_refl. assumption.
  - intros r c Hr Hc. apply in_map_iff in Hr. destruct Hr as [r0 [<- Hr0]].
    assert (Hr0' : In r0 rest) by auto.
    rewrite at_eliminate.
    2:{ rewrite Hlp'. apply H6, in_or_app. right. assumption. }
    destruct (Nat.eq_dec c j) as [->|Hne].
    + rewrite Hp'j. ring.
    + rewrite (H5 r0 c Hr0') by lia. rewrite Hp'below by lia. ring.
  - intros r Hr. apply in_app_or in Hr. destruct Hr as [Hr|Hr].
    + apply in_app_or in Hr. destruct Hr as [Hr|[<-|[]]]; [|assumption].
      apply in_map_iff in Hr. destruct Hr as [r0 [<- Hr0]].
      assert (length r0 = ncols) by (apply H6, in_or_app; left; assumption).
      rewrite length_eliminate; congruence.
    + apply in_map_iff in Hr. destruct Hr as [r0 [<- Hr0]].
      assert (length r0 = ncols) by (apply H6, in_or_app; right; auto).
      rewrite length_eliminate; congruence.
Qed.

Lemma row_reduce_reduced (n j ncols : nat) (done rest : list vec) (pivots : list nat)
      (done' rest' : list vec) (pivots' : list nat) :
  reduced ncols j done rest pivots ->
  (j + n = ncols)%nat ->
  row_reduce n j done rest pivots = (done', rest', pivots') ->
  reduced ncols ncols done' rest' pivots'.
Proof.
  revert j done rest pivots. induction n as [|n IH]; intros j done rest pivots Hred Hj H.
  - simpl in H. injection H as <- <- <-. rewrite Nat.add_0_r in Hj. subst j. assumption.
  - simpl in H. destruct (find_pivot j rest) as [[p rs]|] eqn:Hf.
    + eapply IH; [| |exact H];
        [exact (reduced_step ncols j done rest rs pivots p Hred Hf)|lia].
    + eapply IH; [| |exact H]; [apply reduced_skip; assumption|lia].
Qed.

(* ------------------------------------------------------------------ *)
(** ** Row reduction keeps the solutions *)

Lemma annihilates_app (x : vec) (rs rs' : list vec) :
  annihilates x (rs ++ rs') <-> annihilates x rs /\ annihilates x rs'.
Proof.
  unfold annihilates. split.
  - intro H. split; intros r Hr; apply H, in_or_app; auto.
  - intros [H1 H2] r Hr. apply in_app_or in Hr. destruct Hr; auto.
Qed.

Lemma annihilates_perm (x : vec) (rs rs' : list vec) :
  Permutation rs rs' -> annihilates x rs -> annihilates x rs'.
Proof.
  intros Hp H r Hr. apply H. apply (Permutation_in _ (Permutation_sym Hp)). assumption.
Qed.

Lemma annihilates_cons (x r : vec) (rs : list vec) :
  annihilates x (r :: rs) <-> dot r x = 0 /\ annihilates x rs.
Proof.
  unfold annihilates. split.
  - intro H. split; [apply H; left; reflexivity|intros r' Hr'; apply H; right; assumption].
  - intros [H1 H2] r' [<-|Hr']; auto.
Qed.

Lemma annihilates_eliminate (x p : vec) (j : nat) (rs : list vec) :
  (forall r, In r rs -> length r = length p) ->
  dot p x = 0 ->
  (annihilates x (map (eliminate j p) rs) <-> annihilates x rs).
Proof.
  intros Hlen Hp. unfold annihilates. split; intros H r Hr.
  - specialize (H (eliminate j p r) (in_map _ _ _ Hr)).
    unfold eliminate in H. rewrite dot_vsub_l in H by (rewrite length_vscale; auto).
    rewrite dot_vscale_l, Hp in H. rewrite <- H. ring.
  - apply in_map_iff in Hr. destruct Hr as [r0 [<- Hr0]].
    unfold eliminate. rewrite dot_vsub_l by (rewrite length_vscale; auto).
    rewrite dot_vscale_l, Hp, (H r0 Hr0). ring.
Qed.

Lemma same_kernel_step (ncols j : nat) (done rest rest' : list vec) (p : vec) :
  (forall r, In r (done ++ rest) -> length r = ncols) ->
  find_pivot j rest = Some (p, rest') ->
  let p' := vscale (/ at_ p j) p in
  same_kernel ncols (done ++ rest)
              ((map (eliminate j p') done ++ [p']) ++ map (eliminate j p') rest').
Proof.
  intros Hshape Hf p' x Hx.
  destruct (find_pivot_Some _ _ _ _ Hf) as [Hperm Hpj].
  assert (Hlp : length p = ncols).
  { apply Hshape, in_or_app. right.
    apply (Permutation_in _ (Permutation_sym Hperm)). left. reflexivity. }
  assert (Hlen : forall r, In r done \/ In r rest' -> length r = length p').
  { intros r Hr. unfold p'. rewrite length_vscale, Hlp. apply Hshape, in_or_app.
    destruct Hr as [Hr|Hr]; [left; assumption|right].
    apply (Permutation_in _ (Permutation_sym Hperm)). right. assumption. }
  assert (Hpp' : dot p x = 0 <-> dot p' x = 0).
  { unfold p'. rewrite dot_vscale_l. split; intro H.
    - rewrite H. ring.
    - apply Qcmult_integral in H. destruct H as [H|H]; [|assumption].
      exfalso. apply Hpj.
      assert (Hone : / at_ p j * at_ p j = 1) by (apply Qcmult_inv_l; assumption).
      rewrite H in Hone. ring_simplify in Hone. discriminate. }
  rewrite !annihilates_app. split.
  - intros [Hd Hr]. apply annihilates_perm with (rs' := p :: rest') in Hr; [|assumption].
    apply annihilates_cons in Hr. destruct Hr as [Hp Hr'].
    apply Hpp' in Hp. repeat split.
    + apply annihilates_eliminate; auto.
    + intros r [<-|[]]. assumption.
    + apply annihilates_eliminate; auto.
  - intros [[Hd Hp] Hr].
    assert (Hp' : dot p' x = 0) by (apply Hp; left; reflexivity).
    split.
    + apply annihilates_eliminate in Hd; auto.
    + apply annihilates_perm with (rs := p :: rest'); [apply Permutation_sym; assumption|].
      apply annihilates_cons. split; [apply Hpp'; assumption|].
      apply annihilates_eliminate in Hr; auto.
Qed.

Lemma row_reduce_same_kernel (n j ncols : nat) (done rest : list vec) (pivots : list nat)
      (done' rest' : list vec) (pivots' : list nat) :
  reduced ncols j done rest pivots ->
  row_reduce n j done rest pivots = (done', rest', pivots') ->
  same_kernel ncols (done ++ rest) (done' ++ rest').
Proof.
  revert j done rest pivots. induction n as [|n IH]; intros j done rest pivots Hred H.
  - simpl in H. injection H as <- <- <-. intros x Hx. reflexivity.
  - simpl in H. destruct (find_pivot j rest) as [[p rs]|] eqn:Hf.
    + intros x Hx.
      rewrite (same_kernel_step ncols j done rest rs p (red_shape _ _ _ _ _ Hred) Hf x Hx).
      eapply IH; [|exact H|assumption].
      exact (reduced_step ncols j done rest rs pivots p Hred Hf).
    + eapply IH; [|exact H]. apply reduced_skip; assumption.
Qed.

Close Scope Qc_scope.

(* ================================================================== *)
(** * The nullspace *)

Open Scope Qc_scope.

Lemma Matrix_of_rows_well_shaped (dat : list (list Qc)) (m : Matrix) :
  Matrix_of_rows dat = Return m -> well_shaped m.
Proof.
  unfold Matrix_of_rows.
  destruct dat as [|r rs].
  - intro H. injection H as <-. split; [reflexivity|intros r []].
  - destruct (forallb _ (r :: rs)) eqn:Hall; [|discriminate].
    intro H. injection H as <-. split; [reflexivity|].
    cbn [entries cols]. intros r' Hr'.
    rewrite forallb_forall in Hall. apply Nat.eqb_eq. apply Hall. assumption.
Qed.

(** The rows of [Matrix(dat)] are the rows of [dat]. *)
Lemma Matrix_of_rows_entries (dat : list (list Qc)) (m : Matrix) :
  Matrix_of_rows dat = Return m -> entries m = dat /\ rows m = length dat.
Proof.
  unfold Matrix_of_rows. destruct dat as [|r rs].
  - intro H. injection H as <-. split; reflexivity.
  - destruct (forallb _ (r :: rs)); [|discriminate].
    intro H. injection H as <-. split; reflexivity.
Qed.

(** The elimination run by [rref] on a well-shaped matrix. *)
Lemma rref_reduced (m : Matrix) :
  well_shaped m ->
  exists done rest pivots,
    row_reduce (cols m) 0 [] (entries m) [] = (done, rest, pivots) /\
    rref m = (done ++ rest, pivots) /\
    reduced (cols m) (cols m) done rest pivots /\
    same_kernel (cols m) (entries m) (done ++ rest).
Proof.
  intros [_ Hshape].
  destruct (row_reduce (cols m) 0 [] (entries m) []) as [[done rest] pivots] eqn:Hrr.
  exists done, rest, pivots.
  pose proof (reduced_init (cols m) (entries m) Hshape) as Hinit.
  split; [reflexivity|]. split; [unfold rref; rewrite Hrr; reflexivity|]. split.
  - eapply row_reduce_reduced; [exact Hinit| |exact Hrr]. reflexivity.
  - exact (row_reduce_same_kernel _ _ _ _ _ _ _ _ _ Hinit Hrr).
Qed.

Lemma in_free_vars (pivots : list nat) (N f : nat) :
  In f (free_vars pivots N) <-> (f < N)%nat /\ ~ In f pivots.
Proof.
  unfold free_vars. rewrite filter_In, in_seq, negb_true_iff. split.
  - intros [Hf Hn]. split; [lia|]. intro Hin.
    assert (existsb (Nat.eqb f) pivots = true); [|congruence].
    apply existsb_exists. exists f. split; [assumption|apply Nat.eqb_refl].
  - intros [Hf Hn]. split; [lia|].
    destruct (existsb (Nat.eqb f) pivots) eqn:E; [|reflexivity].
    apply existsb_exists in E. destruct E as [x [Hx E]]. apply Nat.eqb_eq in E.
    subst. contradiction.
Qed.

Lemma NoDup_free_vars (pivots : list nat) (N : nat) : NoDup (free_vars pivots N).
Proof. unfold free_vars. apply NoDup_filter, seq_NoDup. Qed.

Lemma length_free_vars (pivots : list nat) (N : nat) :
  NoDup pivots -> (forall p, In p pivots -> (p < N)%nat) ->
  length (free_vars pivots N) = (N - length pivots)%nat.
Proof.
  intros Hnd Hlt.
  pose proof (filter_length (fun i => negb (existsb (Nat.eqb i) pivots)) (seq 0 N)) as H.
  rewrite length_seq in H. fold (free_vars pivots N) in H.
  assert (Hp : Permutation
                 (filter (fun x => negb (negb (existsb (Nat.eqb x) pivots))) (seq 0 N))
                 pivots).
  { apply NoDup_Permutation; [apply NoDup_filter, seq_NoDup|assumption|].
    intro x. rewrite filter_In, in_seq, negb_involutive, existsb_exists. split.
    - intros [_ [y [Hy E]]]. apply Nat.eqb_eq in E. subst. assumption.
    - intro Hx. split; [specialize (Hlt x Hx); lia|].
      exists x. split; [assumption|apply Nat.eqb_refl]. }
  apply Permutation_length in Hp. lia.
Qed.

(** [nullspace] returns [cols - rank] vectors. *)
Lemma length_nullspace (m : Matrix) :
  well_shaped m -> length (nullspace m) = (cols m - rank m)%nat.
Proof.
  intro Hws. destruct (rref_reduced m Hws) as [done [rest [pivots [_ [Hrref [Hred _]]]]]].
  unfold nullspace, rank. rewrite Hrref. cbn [snd]. rewrite length_map.
  apply length_free_vars; [exact (red_nodup _ _ _ _ _ Hred)|exact (red_below _ _ _ _ _ Hred)].
Qed.

(** The rank is at most the number of columns. *)
Lemma rank_le_cols (m : Matrix) : well_shaped m -> (rank m <= cols m)%nat.
Proof.
  intro Hws. destruct (rref_reduced m Hws) as [done [rest [pivots [_ [Hrref [Hred _]]]]]].
  unfold rank. rewrite Hrref. cbn [snd].
  rewrite <- (length_seq (cols m) 0). apply NoDup_incl_length.
  - exact (red_nodup _ _ _ _ _ Hred).
  - intros p Hp. apply in_seq. pose proof (red_below _ _ _ _ _ Hred p Hp). lia.
Qed.

Lemma combine_NoDup_r {A : Type} (l : list A) (k : list nat) (a a' : A) (b : nat) :
  NoDup k -> In (a, b) (combine l k) -> In (a', b) (combine l k) -> a = a'.
Proof.
  revert k. induction l as [|x l IH]; intros [|y k] Hnd H H'; simpl in *; try contradiction.
  inversion Hnd as [|? ? Hy Hnd']; subst.
  destruct H as [H|H]; destruct H' as [H'|H'].
  - congruence.
  - injection H as <- <-. apply in_combine_r in H'. contradiction.
  - injection H' as <- <-. apply in_combine_r in H. contradiction.
  - eapply IH; eassumption.
Qed.

Lemma in_combine_of_l {A B : Type} (l : list A) (k : list B) (a : A) :
  length l = length k -> In a l -> exists b, In (a, b) (combine l k).
Proof.
  revert k. induction l as [|x l IH]; intros [|y k] Hlen Hin; simpl in *;
    try discriminate; try contradiction.
  destruct Hin as [->|Hin].
  - exists y. left. reflexivity.
  - destruct (IH k ltac:(lia) Hin) as [b Hb]. exists b. right. assumption.
Qed.

Lemma in_combine_of_r {A B : Type} (l : list A) (k : list B) (b : B) :
  length l = length k -> In b k -> exists a, In (a, b) (combine l k).
Proof.
  revert k. induction l as [|x l IH]; intros [|y k] Hlen Hin; simpl in *;
    try discriminate; try contradiction.
  destruct Hin as [->|Hin].
  - exists x. left. reflexivity.
  - destruct (IH k ltac:(lia) Hin) as [a Ha]. exists a. right. assumption.
Qed.

Section Nullspace.

Variables (N : nat) (done rest : list vec) (pivots : list nat).
Hypothesis Hred : reduced N N done rest pivots.

Let R := done ++ rest.

Lemma pivot_row_pivot (row : vec) (p : nat) :
  In (row, p) (combine done pivots) -> pivot_row R pivots p = Some row.
Proof.
  intro Hin. unfold pivot_row, R.
  rewrite combine_app_short by exact (red_len _ _ _ _ _ Hred).
  destruct (find (fun Rp => (snd Rp =? p)%nat) (combine done pivots)) as [[row' p']|] eqn:Hf.
  - apply find_some in Hf. destruct Hf as [Hin' E]. cbn [snd] in E.
    apply Nat.eqb_eq in E. subst p'. simpl. f_equal.
    exact (combine_NoDup_r _ _ _ _ _ (red_nodup _ _ _ _ _ Hred) Hin' Hin).
  - exfalso. pose proof (find_none _ _ Hf _ Hin) as E. cbn [snd] in E.
    rewrite Nat.eqb_refl in E. discriminate.
Qed.

Lemma pivot_row_free (c : nat) : ~ In c pivots -> pivot_row R pivots c = None.
Proof.
  intro Hc. unfold pivot_row, R.
  rewrite combine_app_short by exact (red_len _ _ _ _ _ Hred).
  destruct (find (fun Rp => (snd Rp =? c)%nat) (combine done pivots)) as [[row' p']|] eqn:Hf;
    [|reflexivity].
  apply find_some in Hf. destruct Hf as [Hin' E]. cbn [snd] in E.
  apply Nat.eqb_eq in E. subst p'. apply in_combine_r in Hin'. contradiction.
Qed.

Lemma length_null_vector (f : nat) : length (null_vector R pivots N f) = N.
Proof. unfold null_vector. rewrite length_map, length_seq. reflexivity. Qed.

(** The coordinates of a basis vector. *)
Lemma at_null_vector_self (f : nat) :
  (f < N)%nat -> at_ (null_vector R pivots N f) f = 1.
Proof.
  intro Hf. unfold null_vector. rewrite at_map_seq by assumption.
  rewrite Nat.eqb_refl. reflexivity.
Qed.

Lemma at_null_vector_free (f c : nat) :
  (c < N)%nat -> c <> f -> ~ In c pivots -> at_ (null_vector R pivots N f) c = 0.
Proof.
  intros Hc Hne Hfree. unfold null_vector. rewrite at_map_seq by assumption.
  apply Nat.eqb_neq in Hne. rewrite Hne, pivot_row_free by assumption. reflexivity.
Qed.

Lemma at_null_vector_pivot (f p : nat) (row : vec) :
  In (row, p) (combine done pivots) -> p <> f ->
  at_ (null_vector R pivots N f) p = - at_ row f.
Proof.
  intros Hin Hne. unfold null_vector.
  rewrite at_map_seq by (apply (red_below _ _ _ _ _ Hred); eapply in_combine_r; eassumption).
  apply Nat.eqb_neq in Hne. rewrite Hne, (pivot_row_pivot _ _ Hin). reflexivity.
Qed.

Lemma rest_row_zero (r x : vec) : In r rest -> length x = N -> dot r x = 0.
Proof.
  intros Hr Hx.
  rewrite dot_sum with (N := N); try assumption.
  - apply sumf_zero. intros c Hc. apply in_seq in Hc.
    rewrite (red_rest _ _ _ _ _ Hred r c Hr) by lia. ring.
  - apply (red_shape _ _ _ _ _ Hred). apply in_or_app. right. assumption.
Qed.

(** Every basis vector solves the reduced system. *)
Lemma null_vector_sound (f : nat) :
  In f (free_vars pivots N) -> annihilates (null_vector R pivots N f) R.
Proof.
  intro Hf. apply in_free_vars in Hf. destruct Hf as [HfN Hfree].
  intros r Hr. unfold R in Hr. apply in_app_or in Hr. destruct Hr as [Hr|Hr].
  2:{ apply rest_row_zero; [assumption|apply length_null_vector]. }
  destruct (in_combine_of_l done pivots r (red_len _ _ _ _ _ Hred) Hr) as [p Hp].
  assert (HpN : (p < N)%nat).
  { apply (red_below _ _ _ _ _ Hred). eapply in_combine_r; eassumption. }
  assert (Hpf : p <> f).
  { intros ->. apply Hfree. eapply in_combine_r; eassumption. }
  rewrite dot_sum with (N := N).
  2:{ apply (red_shape _ _ _ _ _ Hred). apply in_or_app. left. assumption. }
  2:{ apply length_null_vector. }
  rewrite sumf_ext with
    (h := fun c => (if (c =? f)%nat then at_ r f else 0)
                   + (if (c =? p)%nat then - at_ r f else 0)).
  - rewrite sumf_plus, !sumf_delta; try apply seq_NoDup; try (apply in_seq; lia). ring.
  - intros c Hc. apply in_seq in Hc.
    destruct (Nat.eqb_spec c f) as [->|Hcf].
    + rewrite at_null_vector_self by assumption.
      replace (f =? p)%nat with false by (symmetry; apply Nat.eqb_neq; auto). ring.
    + destruct (in_dec Nat.eq_dec c pivots) as [Hcp|Hcp].
      * destruct (in_combine_of_r done pivots c (red_len _ _ _ _ _ Hred) Hcp) as [row Hrow].
        rewrite (at_null_vector_pivot f c row Hrow Hcf).
        rewrite (red_unit _ _ _ _ _ Hred r p row c Hp Hrow).
        destruct (Nat.eqb_spec p c) as [->|Hpc].
        -- rewrite Nat.eqb_refl.
           rewrite (combine_NoDup_r _ _ _ _ _ (red_nodup _ _ _ _ _ Hred) Hrow Hp). ring.
        -- replace (c =? p)%nat with false by (symmetry; apply Nat.eqb_neq; auto). ring.
      * rewrite at_null_vector_free by (try assumption; lia).
        replace (c =? p)%nat with false.
        -- ring.
        -- symmetry. apply Nat.eqb_neq. intros ->. apply Hcp.
           eapply in_combine_r; eassumption.
Qed.

End Nullspace.

Close Scope Qc_scope.

(* ================================================================== *)
(** * Linear combinations *)

Open Scope Qc_scope.

Lemma length_lin_comb (N : nat) (cs : list Qc) (vs : list vec) :
  (forall v, In v vs -> length v = N) -> length (lin_comb N cs vs) = N.
Proof.
  revert cs. induction vs as [|v vs IH]; intros [|c cs] H; simpl;
    try apply length_vzero.
  assert (Hv : length v = N) by (apply H; left; reflexivity).
  assert (Hl : length (lin_comb N cs vs) = N) by (apply IH; intros; apply H; right; assumption).
  rewrite length_vadd; rewrite length_vscale; congruence.
Qed.

(** A coordinate of a linear combination. *)
Lemma at_lin_comb (N : nat) (cs : list Qc) (vs : list vec) (k : nat) :
  (forall v, In v vs -> length v = N) ->
  at_ (lin_comb N cs vs) k = dot cs (column k vs).
Proof.
  revert cs. induction vs as [|v vs IH]; intros [|c cs] H; cbn [lin_comb];
    try (rewrite at_vzero; reflexivity).
  - assert (Hv : length v = N) by (apply H; left; reflexivity).
    assert (Hl : length (lin_comb N cs vs) = N).
    { apply length_lin_comb. intros; apply H; right; assumption. }
    rewrite at_vadd by (rewrite length_vscale; congruence).
    rewrite at_vscale, IH by (intros; apply H; right; assumption).
    unfold column. simpl. rewrite dot_cons. reflexivity.
Qed.

Lemma dot_map_map {A : Type} (a b : A -> Qc) (l : list A) :
  dot (map a l) (map b l) = fold_right (fun f acc => a f * b f + acc) 0 l.
Proof.
  induction l as [|x l IH]; simpl; [reflexivity|].
  rewrite dot_cons, IH. reflexivity.
Qed.

Lemma dot_map_sumf (a b : nat -> Qc) (l : list nat) :
  dot (map a l) (map b l) = sumf (fun f => a f * b f) l.
Proof. apply dot_map_map. Qed.

Lemma dot_zeros_r (cs : list Qc) (l : list Qc) :
  (forall x, In x l -> x = 0) -> dot cs l = 0.
Proof.
  revert cs. induction l as [|x l IH]; intros [|c cs] H; try reflexivity.
  rewrite dot_cons, (H x (or_introl eq_refl)), IH; [ring|].
  intros y Hy. apply H. right. assumption.
Qed.

Lemma vadd_vzero_l (N : nat) (v : vec) : length v = N -> vadd (vzero N) v = v.
Proof.
  intro H. apply vec_ext.
  - rewrite length_vadd; rewrite length_vzero; congruence.
  - intros k _. rewrite at_vadd by (rewrite length_vzero; congruence).
    rewrite at_vzero. ring.
Qed.

Lemma vscale_0 (v : vec) : vscale 0 v = vzero (length v).
Proof.
  apply vec_ext.
  - rewrite length_vscale, length_vzero. reflexivity.
  - intros k _. rewrite at_vscale, at_vzero. ring.
Qed.

Lemma lin_comb_zeros (N : nat) (vs : list vec) :
  (forall v, In v vs -> length v = N) ->
  lin_comb N (repeat 0 (length vs)) vs = vzero N.
Proof.
  intro H. apply vec_ext.
  - rewrite length_lin_comb, length_vzero by assumption. reflexivity.
  - intros k _. rewrite at_lin_comb, at_vzero by assumption. apply dot_vzero_l.
Qed.

(** Coefficients with a non-zero entry are not all zero. *)
Lemma nonzero_not_zeros (cs : list Qc) (n : nat) :
  (exists c, In c cs /\ c <> 0) -> cs <> repeat 0 n.
Proof.
  intros [c [Hin Hc]] ->. apply repeat_spec in Hin. contradiction.
Qed.

(* ------------------------------------------------------------------ *)
(** ** The basis [nullspace] returns *)

Section NullspaceBasis.

Variables (N : nat) (done rest : list vec) (pivots : list nat).
Hypothesis Hred : reduced N N done rest pivots.

Let R := done ++ rest.
Let nv := null_vector R pivots N.
Let free := free_vars pivots N.

(** A solution of the reduced system is the combination of the basis
    vectors with its free coordinates as coefficients. *)
Lemma null_vector_complete (x : vec) :
  length x = N -> annihilates x R ->
  x = lin_comb N (map (at_ x) free) (map nv free).
Proof.
  intros Hx Hann.
  assert (Hlen : forall v, In v (map nv free) -> length v = N).
  { intros v Hv. apply in_map_iff in Hv. destruct Hv as [f [<- _]].
    apply length_null_vector. }
  apply vec_ext; [rewrite length_lin_comb; auto|].
  intros c Hc. rewrite Hx in Hc.
  rewrite at_lin_comb by assumption. unfold column. rewrite map_map, dot_map_sumf.
  destruct (in_dec Nat.eq_dec c pivots) as [Hcp|Hcp].
  - (* a pivot column *)
    destruct (in_combine_of_r done pivots c (red_len _ _ _ _ _ Hred) Hcp) as [row Hrow].
    assert (Hrow_in : In row R).
    { apply in_or_app. left. eapply in_combine_l; eassumption. }
    rewrite sumf_ext with (h := fun f => - (at_ row f * at_ x f)).
    2:{ intros f Hf. apply in_free_vars in Hf. destruct Hf as [_ Hfree].
        unfold nv, R. rewrite (at_null_vector_pivot N done rest pivots Hred f c row Hrow).
        - ring.
        - intros ->. contradiction. }
    pose proof (Hann row Hrow_in) as Hdot.
    rewrite dot_sum with (N := N) in Hdot;
      [|apply (red_shape _ _ _ _ _ Hred); assumption|assumption].
    (* split the sum over the pivot column [c] and the other columns *)
    assert (Hsplit :
              sumf (fun k => at_ row k * at_ x k) (seq 0 N)
              = at_ x c + sumf (fun f => at_ row f * at_ x f) free).
    { clear Hdot.
      assert (HcN : In c (seq 0 N)) by (apply in_seq; lia).
      rewrite sumf_ext with
        (h := fun k => (if (k =? c)%nat then at_ x c else 0)
                       + (if (k =? c)%nat then 0 else at_ row k * at_ x k)).
      2:{ intros k _. destruct (Nat.eqb_spec k c) as [->|Hkc]; [|ring].
          rewrite (red_unit _ _ _ _ _ Hred row c row c Hrow Hrow), Nat.eqb_refl. ring. }
      rewrite sumf_plus, sumf_delta by (try apply seq_NoDup; assumption).
      f_equal. unfold free, free_vars.
      rewrite <- (sumf_filter (fun k => if (k =? c)%nat then 0 else at_ row k * at_ x k)
                              (fun i => negb (existsb (Nat.eqb i) pivots)) (seq 0 N)).
      - apply sumf_ext. intros k Hk. apply filter_In in Hk. destruct Hk as [_ Hk].
        destruct (Nat.eqb_spec k c) as [->|Hkc]; [|reflexivity].
        apply negb_true_iff in Hk.
        assert (existsb (Nat.eqb c) pivots = true); [|congruence].
        apply existsb_exists. exists c. split; [assumption|apply Nat.eqb_refl].
      - intros k _ Hk. apply negb_false_iff, existsb_exists in Hk.
        destruct Hk as [k' [Hk' E]]. apply Nat.eqb_eq in E. subst k'.
        destruct (Nat.eqb_spec k c) as [->|Hkc]; [reflexivity|].
        destruct (in_combine_of_r done pivots k (red_len _ _ _ _ _ Hred) Hk') as [row' Hrow'].
        rewrite (red_unit _ _ _ _ _ Hred row c row' k Hrow Hrow').
        replace (c =? k)%nat with false by (symmetry; apply Nat.eqb_neq; auto).
        ring. }
    rewrite Hsplit in Hdot.
    rewrite sumf_ext with (g := fun f => - (at_ row f * at_ x f))
                          (h := fun f => - (1) * (at_ row f * at_ x f))
      by (intros; ring).
    rewrite sumf_scale.
    replace (sumf (fun f => at_ row f * at_ x f) free) with (- at_ x c).
    + ring.
    + rewrite <- (Qcplus_0_l (- at_ x c)), <- Hdot. ring.
  - (* a free column *)
    assert (Hcf : In c free) by (apply in_free_vars; auto).
    rewrite sumf_single with (a := c).
    + unfold nv, R. rewrite (at_null_vector_self N done rest pivots) by assumption. ring.
    + apply NoDup_free_vars.
    + assumption.
    + intros f Hf Hne. unfold nv, R.
      rewrite (at_null_vector_free N done rest pivots Hred f c) by auto. ring.
Qed.

(** The basis vectors are independent. *)
Lemma null_vectors_independent : independent N (map nv free).
Proof.
  unfold independent. rewrite length_map.
  assert (Hgen : forall l, NoDup l -> (forall f, In f l -> In f free) ->
                 forall cs, length cs = length l ->
                            lin_comb N cs (map nv l) = vzero N ->
                            cs = repeat 0 (length l)).
  { induction l as [|f l IH]; intros Hnd Hsub [|c cs] Hlen Hzero; simpl in Hlen;
      try discriminate; [reflexivity|].
    inversion Hnd as [|? ? Hf Hnd']; subst.
    assert (Hf_free : In f free) by (apply Hsub; left; reflexivity).
    apply in_free_vars in Hf_free. destruct Hf_free as [HfN Hfp].
    assert (Hlens : forall v, In v (map nv (f :: l)) -> length v = N).
    { intros v Hv. apply in_map_iff in Hv. destruct Hv as [g [<- _]].
      apply length_null_vector. }
    assert (Hc : c = 0).
    { assert (E : at_ (lin_comb N (c :: cs) (map nv (f :: l))) f = 0)
        by (rewrite Hzero; apply at_vzero).
      rewrite at_lin_comb in E by assumption.
      unfold column in E. simpl in E. rewrite dot_cons in E.
      unfold nv at 1, R in E. rewrite (at_null_vector_self N done rest pivots) in E by assumption.
      rewrite dot_zeros_r in E.
      - rewrite <- E. ring.
      - intros y Hy. rewrite map_map in Hy. apply in_map_iff in Hy.
        destruct Hy as [g [<- Hg]]. unfold nv, R.
        apply (at_null_vector_free N done rest pivots Hred g f); auto.
        intros ->. contradiction. }
    subst c. simpl. f_equal. apply IH; try assumption.
    - intros g Hg. apply Hsub. right. assumption.
    - lia.
    - cbn [map lin_comb] in Hzero. rewrite vscale_0 in Hzero.
      replace (length (nv f)) with N in Hzero by (symmetry; apply length_null_vector).
      rewrite vadd_vzero_l in Hzero; [assumption|].
      apply length_lin_comb. intros v Hv. apply Hlens. right. assumption. }
  apply Hgen; [apply NoDup_free_vars|auto].
Qed.

End NullspaceBasis.

Close Scope Qc_scope.

(* ================================================================== *)
(** * Dimension *)

Open Scope Qc_scope.

Lemma dot_app (a1 a2 b1 b2 : list Qc) :
  length a1 = length b1 -> dot (a1 ++ a2) (b1 ++ b2) = dot a1 b1 + dot a2 b2.
Proof.
  revert b1. induction a1 as [|x a1 IH]; intros [|y b1] H; simpl in H; try discriminate.
  - simpl. unfold dot at 2. simpl. ring.
  - simpl app. rewrite !dot_cons, IH by lia. ring.
Qed.

Lemma dot_insert (cs xs zs : list Qc) (c y : Qc) :
  length cs = (length xs + length zs)%nat ->
  dot (firstn (length xs) cs ++ c :: skipn (length xs) cs) (xs ++ y :: zs)
  = dot cs (xs ++ zs) + c * y.
Proof.
  intro H.
  assert (Hf : length (firstn (length xs) cs) = length xs) by (rewrite length_firstn; lia).
  rewrite dot_app by assumption. rewrite dot_cons.
  rewrite <- (firstn_skipn (length xs) cs) at 3.
  rewrite dot_app by assumption. ring.
Qed.

Lemma dot_map_combo {A : Type} (cs : list Qc) (g h : A -> Qc) (w : Qc) (l : list A) :
  dot cs (map (fun a => g a - h a * w) l) = dot cs (map g l) - w * dot cs (map h l).
Proof.
  revert cs. induction l as [|a l IH]; intros [|c cs]; simpl;
    try (unfold dot; simpl; ring).
  rewrite !dot_cons, IH. ring.
Qed.

Lemma dot_zeros_l (l v : list Qc) : (forall x, In x l -> x = 0) -> dot l v = 0.
Proof. intro H. rewrite dot_comm. apply dot_zeros_r. assumption. Qed.

Lemma split_nonzero_head (vs : list vec) :
  (forall v, In v vs -> at_ v 0 = 0) \/
  exists pre a post, vs = pre ++ a :: post /\ at_ a 0 <> 0.
Proof.
  induction vs as [|v vs IH].
  - left. intros v [].
  - destruct (Qc_eq_dec (at_ v 0) 0) as [Hv|Hv].
    + destruct IH as [IH|[pre [a [post [-> Ha]]]]].
      * left. intros u [<-|Hu]; auto.
      * right. exists (v :: pre), a, post. split; [reflexivity|assumption].
    + right. exists [], v, vs. split; [reflexivity|assumption].
Qed.

(** More than [m] vectors have a non-trivial combination that vanishes
    on the first [m] coordinates. *)
Lemma many_vectors_dependent (m : nat) (vs : list vec) :
  (m < length vs)%nat ->
  exists cs, length cs = length vs /\
             (exists c, In c cs /\ c <> 0) /\
             forall k, (k < m)%nat -> dot cs (column k vs) = 0.
Proof.
  revert vs. induction m as [|m IH]; intros vs Hlen.
  - destruct vs as [|v vs]; [simpl in Hlen; lia|].
    exists (1 :: repeat 0 (length vs)). split; [simpl; rewrite repeat_length; reflexivity|].
    split; [exists 1; split; [left; reflexivity|discriminate]|].
    intros k Hk. lia.
  - destruct (split_nonzero_head vs) as [Hz|[pre [a [post [-> Ha]]]]].
    + (* every vector starts with 0: drop the first coordinate *)
      set (bs := map (fun v => map (fun k => at_ v (S k)) (seq 0 m)) vs).
      destruct (IH bs) as [cs [Hcs [Hnz Hdep]]].
      { unfold bs. rewrite length_map. lia. }
      exists cs. split; [unfold bs in Hcs; rewrite length_map in Hcs; assumption|].
      split; [assumption|].
      intros [|k] Hk.
      * apply dot_zeros_r. intros x Hx. unfold column in Hx.
        apply in_map_iff in Hx. destruct Hx as [v [<- Hv]]. auto.
      * rewrite <- (Hdep k) by lia. f_equal. unfold column, bs. rewrite map_map.
        apply map_ext. intro v. rewrite at_map_seq by lia. reflexivity.
    + (* eliminate the first coordinate with [a] *)
      set (l := pre ++ post).
      set (bs := map (fun v => map (fun k => at_ v (S k) - at_ v 0 * (at_ a (S k) / at_ a 0))
                                   (seq 0 m)) l).
      destruct (IH bs) as [cs' [Hcs' [Hnz Hdep]]].
      { unfold bs, l. rewrite length_map. rewrite !length_app in *. simpl in Hlen. lia. }
      unfold bs in Hcs'. rewrite length_map in Hcs'. unfold l in Hcs'.
      rewrite length_app in Hcs'.
      set (D := dot cs' (column 0 l)).
      set (cp := - D / at_ a 0).
      exists (firstn (length pre) cs' ++ cp :: skipn (length pre) cs').
      split; [|split].
      * rewrite !length_app. simpl. rewrite length_firstn, length_skipn. lia.
      * destruct Hnz as [c [Hc Hc0]]. exists c. split; [|assumption].
        rewrite <- (firstn_skipn (length pre) cs') in Hc.
        apply in_app_or in Hc. apply in_or_app.
        destruct Hc; [left|right; right]; assumption.
      * intros k Hk.
        assert (Hcol : column k (pre ++ a :: post)
                       = column k pre ++ at_ a k :: column k post).
        { unfold column. rewrite map_app. reflexivity. }
        rewrite Hcol.
        replace (length pre) with (length (column k pre)) by apply length_map.
        rewrite dot_insert by (unfold column; rewrite !length_map; assumption).
        replace (column k pre ++ column k post) with (column k l)
          by (unfold column, l; apply map_app).
        destruct k as [|k].
        -- fold D. unfold cp. field. assumption.
        -- specialize (Hdep k ltac:(lia)).
           assert (Hbs : column k bs
                         = map (fun v => at_ v (S k) - at_ v 0 * (at_ a (S k) / at_ a 0)) l).
           { unfold column, bs. rewrite map_map. apply map_ext. intro v.
             rewrite at_map_seq by lia. reflexivity. }
           rewrite Hbs, dot_map_combo in Hdep.
           fold (column (S k) l) in Hdep. fold (column 0 l) in Hdep. fold D in Hdep.
           unfold cp.
           replace (dot cs' (column (S k) l)) with (at_ a (S k) / at_ a 0 * D).
           ++ field. assumption.
           ++ rewrite <- (Qcplus_0_r (at_ a (S k) / at_ a 0 * D)), <- Hdep. ring.
Qed.

(* ------------------------------------------------------------------ *)
(** ** Spans and coefficients *)

Lemma span_length (N : nat) (L : list vec) (x : vec) :
  (forall v, In v L -> length v = N) -> span N L x -> length x = N.
Proof.
  intros HL H. induction H as [|v Hv|u v _ IHu _ IHv|c v _ IHv].
  - apply length_vzero.
  - auto.
  - rewrite length_vadd; congruence.
  - rewrite length_vscale. assumption.
Qed.

Lemma vsub_vadd (u w : vec) :
  length u = length w -> vsub u w = vadd u (vscale (- (1)) w).
Proof.
  intro H. apply vec_ext.
  - rewrite length_vsub, length_vadd; rewrite ?length_vscale; congruence.
  - intros k _. rewrite at_vsub, at_vadd, at_vscale; rewrite ?length_vscale; try assumption.
    ring.
Qed.

Lemma span_sub (N : nat) (L : list vec) (u w : vec) :
  (forall v, In v L -> length v = N) ->
  span N L u -> span N L w -> span N L (vsub u w).
Proof.
  intros HL Hu Hw. rewrite vsub_vadd.
  - apply span_add; [assumption|apply span_scale; assumption].
  - rewrite (span_length N L u HL Hu), (span_length N L w HL Hw). reflexivity.
Qed.

Lemma span_lin_comb (N : nat) (L : list vec) (cs : list Qc) (vs : list vec) :
  (forall v, In v vs -> span N L v) -> span N L (lin_comb N cs vs).
Proof.
  revert cs. induction vs as [|v vs IH]; intros [|c cs] H; simpl; try apply span_zero.
  apply span_add.
  - apply span_scale. apply H. left. reflexivity.
  - apply IH. intros u Hu. apply H. right. assumption.
Qed.

Lemma lin_comb_vadd (N : nat) (cs1 cs2 : list Qc) (L : list vec) :
  (forall v, In v L -> length v = N) ->
  length cs1 = length cs2 ->
  lin_comb N (vadd cs1 cs2) L = vadd (lin_comb N cs1 L) (lin_comb N cs2 L).
Proof.
  intros HL Hlen. apply vec_ext.
  - rewrite length_vadd; rewrite !length_lin_comb by assumption; reflexivity.
  - intros k _. rewrite at_vadd by (rewrite !length_lin_comb by assumption; reflexivity).
    rewrite !at_lin_comb by assumption. apply dot_vadd_l. assumption.
Qed.

Lemma lin_comb_vscale (N : nat) (c : Qc) (cs : list Qc) (L : list vec) :
  (forall v, In v L -> length v = N) ->
  lin_comb N (vscale c cs) L = vscale c (lin_comb N cs L).
Proof.
  intros HL. apply vec_ext.
  - rewrite length_vscale, !length_lin_comb by assumption. reflexivity.
  - intros k _. rewrite at_vscale, !at_lin_comb by assumption. apply dot_vscale_l.
Qed.

Lemma lin_comb_unit (N : nat) (L : list vec) (v : vec) :
  (forall u, In u L -> length u = N) -> In v L ->
  exists cs, length cs = length L /\ lin_comb N cs L = v.
Proof.
  induction L as [|u L IH]; intros HL Hin; [destruct Hin|].
  assert (HL' : forall w, In w L -> length w = N) by (intros; apply HL; right; assumption).
  assert (Hu : length u = N) by (apply HL; left; reflexivity).
  destruct Hin as [->|Hin].
  - exists (1 :: repeat 0 (length L)). split; [simpl; rewrite repeat_length; reflexivity|].
    simpl. rewrite lin_comb_zeros by assumption.
    apply vec_ext.
    + rewrite length_vadd; rewrite length_vscale, ?length_vzero; congruence.
    + intros k _. rewrite at_vadd by (rewrite length_vscale, length_vzero; congruence).
      rewrite at_vscale, at_vzero. ring.
  - destruct (IH HL' Hin) as [cs [Hcs Hv]].
    exists (0 :: cs). split; [simpl; congruence|].
    simpl. rewrite Hv, vscale_0, Hu. apply vadd_vzero_l.
    rewrite <- Hv. apply length_lin_comb. assumption.
Qed.

(** A vector of the span is a linear combination. *)
Lemma span_coefficients (N : nat) (L : list vec) (x : vec) :
  (forall v, In v L -> length v = N) -> span N L x ->
  exists cs, length cs = length L /\ x = lin_comb N cs L.
Proof.
  intros HL H. induction H as [|v Hv|u v _ [cu [Hcu ->]] _ [cv [Hcv ->]]|c v _ [cv [Hcv ->]]].
  - exists (repeat 0 (length L)). split; [apply repeat_length|].
    symmetry. apply lin_comb_zeros. assumption.
  - destruct (lin_comb_unit N L v HL Hv) as [cs [Hcs E]]. exists cs. auto.
  - exists (vadd cu cv). split.
    + rewrite length_vadd; congruence.
    + symmetry. apply lin_comb_vadd; [assumption|congruence].
  - exists (vscale c cv). split.
    + rewrite length_vscale. assumption.
    + symmetry. apply lin_comb_vscale. assumption.
Qed.

Lemma coefficient_rows (N : nat) (X Y : list vec) :
  (forall y, In y Y -> length y = N) ->
  (forall x, In x X -> span N Y x) ->
  exists As, map (fun a => lin_comb N a Y) As = X /\
             forall a, In a As -> length a = length Y.
Proof.
  intros HY. induction X as [|x X IH]; intro HX.
  - exists []. split; [reflexivity|intros a []].
  - destruct IH as [As [HAs Hlen]]; [intros; apply HX; right; assumption|].
    destruct (span_coefficients N Y x HY (HX x (or_introl eq_refl))) as [a [Ha ->]].
    exists (a :: As). split; [simpl; f_equal; assumption|].
    intros b [<-|Hb]; auto.
Qed.

Lemma dot_dot_swap (m : nat) (cs : list Qc) (As : list vec) (y : vec) :
  (forall a, In a As -> length a = m) -> length y = m ->
  dot cs (map (fun a => dot a y) As)
  = dot (map (fun k => dot cs (column k As)) (seq 0 m)) y.
Proof.
  intros HAs Hy. revert cs. induction As as [|a As IH]; intros cs.
  - simpl. rewrite dot_nil_r. symmetry. apply dot_zeros_l.
    intros x Hx. apply in_map_iff in Hx. destruct Hx as [k [<- _]].
    unfold column. simpl. first [reflexivity|apply dot_nil_r].
  - destruct cs as [|c cs].
    + symmetry. apply dot_zeros_l.
      intros x Hx. apply in_map_iff in Hx. destruct Hx as [k [<- _]]. reflexivity.
    + assert (Ha : length a = m) by (apply HAs; left; reflexivity).
      simpl map at 1. rewrite dot_cons, IH by (intros; apply HAs; right; assumption).
      assert (E : map (fun k => dot (c :: cs) (column k (a :: As))) (seq 0 m)
                  = vadd (vscale c a) (map (fun k => dot cs (column k As)) (seq 0 m))).
      { apply vec_ext.
        - rewrite length_vadd; rewrite length_vscale, ?length_map, ?length_seq; congruence.
        - intros k Hk. rewrite length_map, length_seq in Hk.
          rewrite at_vadd by (rewrite length_vscale, length_map, length_seq; congruence).
          rewrite at_vscale, !at_map_seq by assumption.
          unfold column. simpl. rewrite dot_cons. reflexivity. }
      rewrite E, dot_vadd_l, dot_vscale_l.
      * reflexivity.
      * rewrite length_vscale, length_map, length_seq. assumption.
Qed.

(** An independent family inside the span of [Y] has at most [|Y|]
    members. *)
Lemma exchange (N : nat) (X Y : list vec) :
  (forall y, In y Y -> length y = N) ->
  independent N X ->
  (forall x, In x X -> span N Y x) ->
  (length X <= length Y)%nat.
Proof.
  intros HY Hind HX.
  destruct (le_lt_dec (length X) (length Y)) as [Hle|Hlt]; [assumption|exfalso].
  destruct (coefficient_rows N X Y HY HX) as [As [HAs Hlen]].
  assert (HlenAs : length As = length X) by (rewrite <- HAs; symmetry; apply length_map).
  assert (Hmany : (length Y < length As)%nat) by (rewrite HlenAs; exact Hlt).
  destruct (many_vectors_dependent (length Y) As Hmany) as [cs [Hcs [Hnz Hdep]]].
  assert (HXN : forall x, In x X -> length x = N).
  { intros x Hx. apply (span_length N Y x HY). auto. }
  assert (Hzero : lin_comb N cs X = vzero N).
  { apply vec_ext.
    - rewrite length_lin_comb, length_vzero by assumption. reflexivity.
    - intros k _. rewrite at_lin_comb, at_vzero by assumption.
      unfold column. rewrite <- HAs, map_map.
      rewrite map_ext with (g := fun a => dot a (column k Y))
        by (intro a; apply at_lin_comb; assumption).
      rewrite dot_dot_swap with (m := length Y);
        [|assumption|unfold column; apply length_map].
      apply dot_zeros_l. intros x Hx. apply in_map_iff in Hx.
      destruct Hx as [j [<- Hj]]. apply in_seq in Hj. apply Hdep. lia. }
  assert (Hc : length cs = length X) by (rewrite Hcs; exact HlenAs).
  specialize (Hind cs Hc Hzero).
  revert Hind. apply nonzero_not_zeros. assumption.
Qed.

Close Scope Qc_scope.

(* ================================================================== *)
(** * Gram-Schmidt *)

Open Scope Qc_scope.

Lemma square_nonneg (a : Qc) : 0 <= a * a.
Proof.
  destruct (Qclt_le_dec a 0) as [Hneg|Hpos].
  - assert (H : 0 <= - a).
    { replace 0 with (- 0) by ring. apply Qcopp_le_compat, Qclt_le_weak. assumption. }
    replace (a * a) with (- a * - a) by ring.
    replace 0 with (0 * - a) at 1 by ring.
    apply Qcmult_le_compat_r; assumption.
  - replace 0 with (0 * a) at 1 by ring.
    apply Qcmult_le_compat_r; assumption.
Qed.

Lemma dot_self_nonneg (v : vec) : 0 <= dot v v.
Proof.
  induction v as [|a v IH]; [apply Qcle_refl|].
  rewrite dot_cons. replace 0 with (0 + 0) by ring.
  apply Qcplus_le_compat; [apply square_nonneg|assumption].
Qed.

Lemma sum_nonneg_zero (x y : Qc) : 0 <= x -> 0 <= y -> x + y = 0 -> x = 0 /\ y = 0.
Proof.
  intros Hx Hy H.
  assert (Hx0 : x <= 0).
  { rewrite <- H. replace x with (x + 0) at 1 by ring.
    apply Qcplus_le_compat; [apply Qcle_refl|assumption]. }
  assert (Ex : x = 0) by (apply Qcle_antisym; assumption).
  split; [assumption|]. rewrite Ex in H. rewrite <- H. ring.
Qed.

(** Only the zero vector is orthogonal to itself. *)
Lemma dot_self_zero (v : vec) : dot v v = 0 -> is_zero_matrix v = true.
Proof.
  induction v as [|a v IH]; intro H; [reflexivity|].
  rewrite dot_cons in H.
  destruct (sum_nonneg_zero _ _ (square_nonneg a) (dot_self_nonneg v) H) as [Ha Hv].
  simpl. apply andb_true_iff. split; [|auto].
  apply is_zero_true. apply Qcmult_integral in Ha. destruct Ha; assumption.
Qed.

Lemma length_project (v b : vec) : length (project v b) = length b.
Proof. unfold project. apply length_vscale. Qed.

Lemma perp_to_subspace_snoc (v : vec) (B : list vec) (b : vec) :
  perp_to_subspace v (B ++ [b]) = vsub (perp_to_subspace v B) (project v b).
Proof. unfold perp_to_subspace. rewrite fold_left_app. reflexivity. Qed.

Section Perp.

Variable N : nat.
Variable v : vec.
Hypothesis Hv : length v = N.

Let step := fun (acc b : vec) => vsub acc (project v b).

Lemma length_fold_perp (B : list vec) (acc : vec) :
  (forall b, In b B -> length b = N) -> length acc = N ->
  length (fold_left step B acc) = N.
Proof.
  revert acc. induction B as [|b B IH]; intros acc HB Hacc; [assumption|].
  simpl. apply IH; [intros; apply HB; right; assumption|].
  unfold step. rewrite length_vsub; [assumption|].
  rewrite length_project, (HB b (or_introl eq_refl)). assumption.
Qed.

Lemma length_perp (B : list vec) :
  (forall b, In b B -> length b = N) -> length (perp_to_subspace v B) = N.
Proof. intro HB. apply length_fold_perp; assumption. Qed.

Lemma dot_fold_perp (B : list vec) (acc x : vec) :
  (forall b, In b B -> length b = N) -> length acc = N ->
  (forall b, In b B -> dot b x = 0) ->
  dot (fold_left step B acc) x = dot acc x.
Proof.
  revert acc. induction B as [|b B IH]; intros acc HB Hacc Hx; [reflexivity|].
  assert (Hb : length b = N) by (apply HB; left; reflexivity).
  simpl. rewrite IH.
  - unfold step. rewrite dot_vsub_l by (rewrite length_project; congruence).
    unfold project. rewrite dot_vscale_l, (Hx b (or_introl eq_refl)). ring.
  - intros; apply HB; right; assumption.
  - unfold step. rewrite length_vsub; [assumption|]. rewrite length_project. congruence.
  - intros; apply Hx; right; assumption.
Qed.

(** The part of [v] left after the projections is orthogonal to the
    family. *)
Lemma perp_orthogonal (B : list vec) :
  orthogonal_family B -> (forall b, In b B -> length b = N) ->
  forall x, In x B -> dot (perp_to_subspace v B) x = 0.
Proof.
  induction 1 as [|B b HB IH Horth Hbb]; intros Hlen x Hx; [destruct Hx|].
  assert (HlenB : forall b', In b' B -> length b' = N).
  { intros b' Hb'. apply Hlen, in_or_app. left. assumption. }
  assert (Hb : length b = N) by (apply Hlen, in_or_app; right; left; reflexivity).
  rewrite perp_to_subspace_snoc.
  rewrite dot_vsub_l
    by (rewrite length_perp by assumption; rewrite length_project; symmetry; assumption).
  unfold project at 1. rewrite dot_vscale_l.
  apply in_app_or in Hx. destruct Hx as [Hx|[<-|[]]].
  - rewrite (IH HlenB x Hx).
    rewrite (dot_comm b x), (Horth x Hx). ring.
  - unfold perp_to_subspace. fold step. rewrite dot_fold_perp; try assumption.
    field. assumption.
Qed.

(** The left-over is generated by [v] and the family. *)
Lemma span_fold_perp (L B : list vec) (acc : vec) :
  (forall u, In u L -> length u = N) ->
  (forall b, In b B -> span N L b) -> span N L acc ->
  span N L (fold_left step B acc).
Proof.
  intro HL. revert acc. induction B as [|b B IH]; intros acc HB Hacc; [assumption|].
  simpl. apply IH; [intros; apply HB; right; assumption|].
  unfold step. apply span_sub; try assumption.
  unfold project. apply span_scale. apply HB. left. reflexivity.
Qed.

(** [v] is generated by the left-over and the family. *)
Lemma span_unfold_perp (L B : list vec) (acc : vec) :
  (forall u, In u L -> length u = N) ->
  (forall b, In b B -> span N L b) -> length acc = N ->
  span N L (fold_left step B acc) -> span N L acc.
Proof.
  intro HL. revert acc. induction B as [|b B IH]; intros acc HB Hacc H; [assumption|].
  simpl in H.
  assert (Hb : span N L b) by (apply HB; left; reflexivity).
  assert (Hlb : length b = N) by (apply (span_length N L b HL Hb)).
  assert (Hstep : span N L (step acc b)).
  { apply IH; [intros; apply HB; right; assumption| |assumption].
    unfold step. rewrite length_vsub; [assumption|]. rewrite length_project. congruence. }
  replace acc with (vadd (step acc b) (project v b)).
  - apply span_add; [assumption|]. unfold project. apply span_scale. assumption.
  - unfold step. apply vec_ext.
    + rewrite length_vadd; rewrite length_vsub; rewrite ?length_project; congruence.
    + intros k _. rewrite at_vadd, at_vsub;
        rewrite ?length_vsub; rewrite ?length_project; try congruence.
      ring.
Qed.

End Perp.

Lemma repeat_snoc (n : nat) : repeat 0 n ++ [0] = repeat 0 (S n).
Proof. induction n as [|n IH]; simpl; [reflexivity|]. f_equal. assumption. Qed.

Lemma snoc_cases {A : Type} (l : list A) (n : nat) :
  length l = S n -> exists l' a, l = l' ++ [a] /\ length l' = n.
Proof.
  intro H. destruct (exists_last (l := l)) as [l' [a ->]].
  - intros ->. discriminate.
  - exists l', a. split; [reflexivity|]. rewrite length_app in H. simpl in H. lia.
Qed.

Lemma dot_lin_comb_l (N : nat) (cs : list Qc) (L : list vec) (x : vec) :
  (forall v, In v L -> length v = N) ->
  dot (lin_comb N cs L) x = dot cs (map (fun v => dot v x) L).
Proof.
  revert cs. induction L as [|v L IH]; intros [|c cs] HL; cbn [lin_comb map];
    try (rewrite dot_vzero_l; reflexivity).
  - assert (Hv : length v = N) by (apply HL; left; reflexivity).
    rewrite dot_vadd_l.
    + rewrite dot_vscale_l, IH by (intros; apply HL; right; assumption).
      rewrite dot_cons. reflexivity.
    + rewrite length_vscale, length_lin_comb; [assumption|].
      intros; apply HL; right; assumption.
Qed.

(** An orthogonal family of non-zero vectors is independent. *)
Lemma orthogonal_independent (N : nat) (B : list vec) :
  orthogonal_family B -> (forall b, In b B -> length b = N) -> independent N B.
Proof.
  induction 1 as [|B b HB IH Horth Hbb]; intros Hlen cs Hcs Hzero.
  - destruct cs; [reflexivity|discriminate].
  - assert (HlenB : forall b', In b' B -> length b' = N).
    { intros b' Hb'. apply Hlen, in_or_app. left. assumption. }
    rewrite length_app in Hcs. simpl in Hcs. rewrite Nat.add_1_r in Hcs.
    destruct (snoc_cases cs (length B) Hcs) as [cs1 [c [-> Hcs1]]].
    assert (Hc : c = 0).
    { assert (E : dot (lin_comb N (cs1 ++ [c]) (B ++ [b])) b = 0)
        by (rewrite Hzero; apply dot_vzero_l).
      rewrite dot_lin_comb_l in E by assumption.
      rewrite map_app in E. simpl map in E.
      rewrite dot_app in E by (rewrite length_map; assumption).
      rewrite dot_zeros_r in E.
      - unfold dot at 1 in E. simpl in E.
        assert (E' : c * dot b b = 0) by (rewrite <- E; ring).
        apply Qcmult_integral in E'. destruct E'; [assumption|contradiction].
      - intros y Hy. apply in_map_iff in Hy. destruct Hy as [b' [<- Hb']]. auto. }
    subst c.
    assert (Hzero1 : lin_comb N cs1 B = vzero N).
    { apply vec_ext.
      - rewrite length_lin_comb, length_vzero by assumption. reflexivity.
      - intros k _. rewrite at_lin_comb by assumption.
        assert (E : at_ (lin_comb N (cs1 ++ [0]) (B ++ [b])) k = at_ (vzero N) k)
          by (rewrite Hzero; reflexivity).
        rewrite at_lin_comb in E by assumption.
        unfold column in E. rewrite map_app in E. simpl map in E.
        rewrite dot_app in E by (rewrite length_map; assumption).
        unfold column. rewrite <- E. unfold dot at 3. simpl. ring. }
    rewrite (IH HlenB cs1 Hcs1 Hzero1).
    rewrite length_app. simpl. rewrite Nat.add_1_r. apply repeat_snoc.
Qed.

(** What [gram_schmidt] returns: an orthogonal family that generates the
    given vectors and is generated by them. *)
Lemma gram_schmidt_spec (N : nat) (vecs ret : list vec) :
  (forall v, In v (vecs ++ ret) -> length v = N) ->
  orthogonal_family ret ->
  let B := gram_schmidt ret vecs in
  orthogonal_family B /\
  (forall b, In b B -> length b = N) /\
  (forall v, In v (vecs ++ ret) -> span N B v) /\
  (forall L, (forall u, In u L -> length u = N) ->
             (forall v, In v (vecs ++ ret) -> span N L v) ->
             forall b, In b B -> span N L b).
Proof.
  revert ret. induction vecs as [|v vs IH]; intros ret Hlen Horth.
  - simpl. repeat split; auto.
    intros u Hu. apply span_in. assumption.
  - assert (Hv : length v = N) by (apply Hlen; left; reflexivity).
    assert (Hret : forall b, In b ret -> length b = N).
    { intros b Hb. apply Hlen. right. apply in_or_app. right. assumption. }
    assert (Hperp : length (perp_to_subspace v ret) = N) by (apply length_perp; assumption).
    cbn [gram_schmidt].
    destruct (is_zero_matrix (perp_to_subspace v ret)) eqn:Hz.
    + (* the vector depends on the family: it is dropped *)
      destruct (IH ret) as [H1 [H2 [H3 H4]]]; [|assumption|].
      { intros u Hu. apply Hlen. right. assumption. }
      cbv zeta. repeat split; try assumption.
      * intros u [Hu|Hu]; [subst u|auto].
        apply span_unfold_perp with (v := v) (B := ret).
        -- assumption.
        -- intros b Hb. apply H3, in_or_app. right. assumption.
        -- assumption.
        -- apply is_zero_matrix_true in Hz.
           change (fold_left (fun acc b => vsub acc (project v b)) ret v)
             with (perp_to_subspace v ret).
           rewrite Hz, Hperp. apply span_zero.
      * intros L HL HLv b Hb. apply (H4 L HL); [|assumption].
        intros u Hu. apply HLv. right. assumption.
    + (* the left-over joins the family *)
      assert (Horth' : orthogonal_family (ret ++ [perp_to_subspace v ret])).
      { apply orth_snoc; [assumption| |].
        - intros b' Hb'. rewrite dot_comm.
          apply (perp_orthogonal N v Hv ret); assumption.
        - intro E. apply dot_self_zero in E. congruence. }
      destruct (IH (ret ++ [perp_to_subspace v ret])) as [H1 [H2 [H3 H4]]];
        [|assumption|].
      { intros u Hu. apply in_app_or in Hu. destruct Hu as [Hu|Hu].
        - apply Hlen. right. apply in_or_app. left. assumption.
        - apply in_app_or in Hu. destruct Hu as [Hu|[<-|[]]]; auto. }
      cbv zeta. repeat split; try assumption.
      * intros u [Hu|Hu]; [subst u|].
        -- apply span_unfold_perp with (v := v) (B := ret).
           ++ assumption.
           ++ intros b Hb. apply H3, in_or_app. right. apply in_or_app. left. assumption.
           ++ assumption.
           ++ apply H3, in_or_app. right. apply in_or_app. right. left. reflexivity.
        -- apply H3. apply in_app_or in Hu. apply in_or_app.
           destruct Hu; [left; assumption|right; apply in_or_app; left; assumption].
      * intros L HL HLv b Hb. apply (H4 L HL); [|assumption].
        intros u Hu. apply in_app_or in Hu. destruct Hu as [Hu|Hu].
        -- apply HLv. right. apply in_or_app. left. assumption.
        -- apply in_app_or in Hu. destruct Hu as [Hu|[<-|[]]].
           ++ apply HLv. right. apply in_or_app. right. assumption.
           ++ apply (span_fold_perp N v L ret v HL).
              ** intros b' Hb'. apply HLv. right. apply in_or_app. right. assumption.
              ** apply HLv. left. reflexivity.
Qed.

(** Orthogonalising a family [T] inside the span of an independent family
    [A], followed by [A], leaves as many vectors as [A] has. *)
Lemma gram_schmidt_count (N : nat) (T A : list vec) :
  (forall a, In a A -> length a = N) ->
  independent N A ->
  (forall t, In t T -> span N A t) ->
  length (gram_schmidt [] (T ++ A)) = length A.
Proof.
  intros HA Hind HT.
  assert (HTA : forall v, In v ((T ++ A) ++ []) -> length v = N).
  { intros v Hv. rewrite app_nil_r in Hv. apply in_app_or in Hv.
    destruct Hv as [Hv|Hv]; [|auto]. apply (span_length N A v HA). auto. }
  destruct (gram_schmidt_spec N (T ++ A) [] HTA orth_nil) as [H1 [H2 [H3 H4]]].
  apply Nat.le_antisymm.
  - apply (exchange N _ A HA).
    + apply orthogonal_independent; assumption.
    + intros b Hb. apply (H4 A HA); [|assumption].
      intros v Hv. rewrite app_nil_r in Hv. apply in_app_or in Hv.
      destruct Hv as [Hv|Hv]; [auto|apply span_in; assumption].
  - apply (exchange N A _ H2 Hind).
    intros a Ha. apply H3. rewrite app_nil_r. apply in_or_app. right. assumption.
Qed.

Close Scope Qc_scope.

(* ================================================================== *)
(** * The complete-graph framework of the trivial flexes *)

Lemma insert_sorted_comm (x y : Z) (s : list Z) :
  insert_sorted Z.leb x (insert_sorted Z.leb y s)
  = insert_sorted Z.leb y (insert_sorted Z.leb x s).
Proof.
  induction s as [|z s IH]; simpl.
  - destruct (Z.leb_spec x y), (Z.leb_spec y x); try reflexivity; try lia.
    replace y with x by lia. reflexivity.
  - destruct (Z.leb_spec y z), (Z.leb_spec x z); simpl;
      repeat match goal with
             | |- context [Z.leb ?a ?b] => destruct (Z.leb_spec a b); simpl
             end; try reflexivity; try lia.
    + replace y with x by lia. reflexivity.
    + rewrite IH. reflexivity.
Qed.

(** [sorted] depends only on the elements. *)
Lemma sorted_perm_eq (l l' : list Vertex) : Permutation l l' -> sorted l = sorted l'.
Proof.
  unfold sorted, sorted_by. induction 1; simpl.
  - reflexivity.
  - f_equal. assumption.
  - apply insert_sorted_comm.
  - congruence.
Qed.

Lemma mem_add_node (v w : Vertex) (g : Graph) :
  In w (nodes (Graph_add_node v g)) <-> In w (nodes g) \/ w = v.
Proof.
  unfold Graph_add_node. destruct (mem v (nodes g)) eqn:E.
  - apply mem_In in E. split; [auto|]. intros [H| ->]; assumption.
  - simpl. rewrite in_app_iff. simpl. intuition.
Qed.

Lemma NoDup_add_node (v : Vertex) (g : Graph) :
  NoDup (nodes g) -> NoDup (nodes (Graph_add_node v g)).
Proof.
  intro H. unfold Graph_add_node. destruct (mem v (nodes g)) eqn:E; [assumption|].
  simpl. apply NoDup_app; [assumption|repeat constructor; intros []|].
  intros a Ha [Hv|[]]. subst a. apply mem_false in E. contradiction.
Qed.

Lemma edges_add_node (v : Vertex) (g : Graph) :
  edge_list (Graph_add_node v g) = edge_list g.
Proof. unfold Graph_add_node. destruct (mem v (nodes g)); reflexivity. Qed.

Lemma nodes_add_edge (e : Edge) (w : Vertex) (g : Graph) :
  In w (nodes (Graph_add_edge e g)) <-> In w (nodes g) \/ w = fst e \/ w = snd e.
Proof.
  unfold Graph_add_edge.
  destruct (existsb _ _); cbn [nodes]; rewrite !mem_add_node; tauto.
Qed.

Lemma NoDup_add_edge (e : Edge) (g : Graph) :
  NoDup (nodes g) -> NoDup (nodes (Graph_add_edge e g)).
Proof.
  intro H. unfold Graph_add_edge.
  destruct (existsb _ _); cbn [nodes]; repeat apply NoDup_add_node; assumption.
Qed.

Lemma edges_add_edge (e f : Edge) (g : Graph) :
  In f (edge_list (Graph_add_edge e g)) -> In f (edge_list g) \/ f = e.
Proof.
  unfold Graph_add_edge. rewrite !edges_add_node.
  destruct (existsb _ _); cbn [edge_list]; rewrite ?edges_add_node; [auto|].
  rewrite in_app_iff. simpl. intuition.
Qed.

Lemma edges_add_edge_mono (e f : Edge) (g : Graph) :
  In f (edge_list g) -> In f (edge_list (Graph_add_edge e g)).
Proof.
  intro H. unfold Graph_add_edge. rewrite !edges_add_node.
  destruct (existsb _ _); cbn [edge_list]; rewrite ?edges_add_node; [assumption|].
  apply in_or_app. left. assumption.
Qed.

Lemma edges_add_edge_new (e : Edge) (g : Graph) :
  exists f, In f (edge_list (Graph_add_edge e g)) /\ same_edge e f = true.
Proof.
  unfold Graph_add_edge. rewrite !edges_add_node.
  destruct (existsb (same_edge e) (edge_list g)) eqn:E;
    cbn [edge_list]; rewrite ?edges_add_node.
  - apply existsb_exists in E. exact E.
  - exists e. split; [apply in_or_app; right; left; reflexivity|apply same_edge_refl].
Qed.

(** The graph built from a list of edges. *)
Lemma fold_add_edge_spec (es : list Edge) (g0 : Graph) :
  let g := fold_left (fun g e => Graph_add_edge e g) es g0 in
  (NoDup (nodes g0) -> NoDup (nodes g)) /\
  (forall w, In w (nodes g) <->
             In w (nodes g0) \/ exists e, In e es /\ (w = fst e \/ w = snd e)) /\
  (forall f, In f (edge_list g) -> In f (edge_list g0) \/ In f es) /\
  (forall f, In f (edge_list g0) -> In f (edge_list g)) /\
  (forall e, In e es -> exists f, In f (edge_list g) /\ same_edge e f = true).
Proof.
  revert g0. induction es as [|e es IH]; intro g0; simpl.
  - repeat split; auto.
    + intros [H|[e [[] _]]]. assumption.
    + intros e [].
  - destruct (IH (Graph_add_edge e g0)) as [H1 [H2 [H3 [H4 H5]]]].
    split; [|split; [|split; [|split]]].
    + intro Hnd. apply H1, NoDup_add_edge. assumption.
    + intro w. rewrite H2, nodes_add_edge. split.
      * intros [[H|H]|[e' [He' H]]].
        -- left. assumption.
        -- right. exists e. split; [left; reflexivity|assumption].
        -- right. exists e'. split; [right; assumption|assumption].
      * intros [H|[e' [[<-|He'] H]]].
        -- left. left. assumption.
        -- left. right. assumption.
        -- right. exists e'. split; assumption.
    + intros f Hf. apply H3 in Hf. destruct Hf as [Hf|Hf]; [|right; right; assumption].
      apply edges_add_edge in Hf. destruct Hf as [Hf| ->]; [left|right; left]; auto.
    + intros f Hf. apply H4, edges_add_edge_mono. assumption.
    + intros e' [<-|He']; [|auto].
      destruct (edges_add_edge_new e g0) as [f [Hf Hs]].
      exists f. split; [apply H4; assumption|assumption].
Qed.

Lemma in_pairs_below (n : nat) (e : Edge) :
  In e (pairs_below n) <->
  exists i j, (i < j < n)%nat /\ e = (Z.of_nat i, Z.of_nat j).
Proof.
  unfold pairs_below. rewrite in_flat_map. split.
  - intros [i [Hi He]]. apply in_map_iff in He. destruct He as [j [<- Hj]].
    apply in_seq in Hi, Hj. exists i, j. split; [lia|reflexivity].
  - intros [i [j [Hij ->]]]. exists i. split; [apply in_seq; lia|].
    apply in_map_iff. exists j. split; [reflexivity|apply in_seq; lia].
Qed.

(** The graph of the complete-graph framework. *)
Lemma complete_graph_facts (n : nat) :
  let g := Graph_of_edges (edges (complete_graph n)) in
  NoDup (nodes g) /\
  (forall w, In w (nodes g) -> exists i, (i < n)%nat /\ w = Z.of_nat i) /\
  ((2 <= n)%nat -> forall i, (i < n)%nat -> In (Z.of_nat i) (nodes g)) /\
  (forall f, In f (edge_list g) -> In f (pairs_below n)) /\
  (forall e, In e (pairs_below n) -> exists f, In f (edge_list g) /\ same_edge e f = true) /\
  (forall f, In f (edge_list g) -> In (fst f) (nodes g) /\ In (snd f) (nodes g)).
Proof.
  intro g. unfold g, Graph_of_edges. cbn [edges complete_graph edge_list].
  destruct (fold_add_edge_spec (pairs_below n) (mkGraph [] [])) as [H1 [H2 [H3 [H4 H5]]]].
  cbv zeta in *. cbn [nodes edge_list] in *.
  assert (Hedge : forall f,
             In f (edge_list (fold_left (fun g e => Graph_add_edge e g) (pairs_below n)
                                        (mkGraph [] []))) ->
             In f (pairs_below n)).
  { intros f Hf. destruct (H3 f Hf) as [[]|Hf']. assumption. }
  split; [apply H1; constructor|]. split; [|split; [|split; [|split]]].
  - intros w Hw. apply H2 in Hw. destruct Hw as [[]|[e [He Hw]]].
    apply in_pairs_below in He. destruct He as [i [j [Hij ->]]]. cbn [fst snd] in Hw.
    destruct Hw as [->| ->]; [exists i|exists j]; split; try reflexivity; lia.
  - intros Hn i Hi. apply H2. right.
    destruct i as [|i].
    + exists (0%Z, 1%Z). split; [|left; reflexivity].
      apply in_pairs_below. exists 0%nat, 1%nat. split; [lia|reflexivity].
    + exists (0%Z, Z.of_nat (S i)). split; [|right; reflexivity].
      apply in_pairs_below. exists 0%nat, (S i). split; [lia|reflexivity].
  - assumption.
  - assumption.
  - intros f Hf. split; apply H2; right; exists f; (split; [apply Hedge; assumption|]); auto.
Qed.

Lemma forO_Return {A : Type} (body : A -> outcome unit) (l : list A) :
  (forall a, In a l -> body a = Return tt) -> forO body l = Return tt.
Proof.
  induction l as [|a l IH]; intro H; simpl; [reflexivity|].
  rewrite (H a (or_introl eq_refl)). simpl. apply IH.
  intros b Hb. apply H. right. assumption.
Qed.

Lemma dict_get_fold_setitem_other (l : list (Vertex * Point)) (d0 : Dict) (v : Vertex) :
  ~ In v (map fst l) ->
  dict_get v (fold_left (fun d kp => setitem (fst kp) (snd kp) d) l d0) = dict_get v d0.
Proof.
  revert d0. induction l as [|[k q] l IH]; intros d0 H; simpl; [reflexivity|].
  rewrite IH.
  - apply dict_get_setitem_other. intros ->. apply H. left. reflexivity.
  - intro Hin. apply H. right. assumption.
Qed.

Lemma dict_get_fold_setitem (l : list (Vertex * Point)) (d0 : Dict) (v : Vertex) (p : Point) :
  NoDup (map fst l) -> In (v, p) l ->
  dict_get v (fold_left (fun d kp => setitem (fst kp) (snd kp) d) l d0) = Some p.
Proof.
  revert d0. induction l as [|[k q] l IH]; intros d0 Hnd Hin; [destruct Hin|].
  simpl in Hnd. inversion Hnd as [|? ? Hk Hnd']; subst. simpl.
  destruct Hin as [E|Hin].
  - injection E as -> ->. rewrite dict_get_fold_setitem_other by assumption.
    apply dict_get_setitem_same.
  - apply IH; assumption.
Qed.

(** The constructor on a graph whose vertices are realized by columns of
    length [d]. *)
Lemma init_Return (g : Graph) (r : Dict) (d : Z) :
  NoDup (vertices g) ->
  (forall v, In v (vertices g) ->
             exists xs, dict_get v r = Some (Col xs) /\ Z.of_nat (length xs) = d) ->
  (forall p, In p (values r) -> Z.of_nat (len p) = d) ->
  exists F, __init__ g r d = Return F /\
            _graph F = g /\ _dim F = d /\
            forall v, In v (vertices g) -> dict_get v (_realization F) = dict_get v r.
Proof.
  intros Hnd Hreal Huni.
  set (dimension := if (length (values r) =? 0)%nat then d
                    else Z.of_nat (len (hd (Seq []) (values r)))).
  assert (Hdim : dimension = d).
  { unfold dimension. destruct (values r) as [|p ps] eqn:E; [reflexivity|].
    simpl. apply Huni. left. reflexivity. }
  set (item := fun v => (v, Matrix_of_point
                              (match dict_get v r with Some p => p | None => Seq [] end))).
  eexists. split; [|split; [|split]].
  - unfold __init__. fold dimension. rewrite Hdim.
    rewrite forO_Return.
    2:{ intros v Hv. destruct (Hreal v Hv) as [xs [Hget Hlen]].
        unfold contains, getitem. rewrite Hget. simpl. unfold len. simpl.
        apply Z.eqb_eq in Hlen. rewrite Hlen. reflexivity. }
    simpl. rewrite mapO_Return with (g := item).
    2:{ intros v Hv. destruct (Hreal v Hv) as [xs [Hget Hlen]].
        unfold getitem, item. rewrite Hget. reflexivity. }
    simpl. reflexivity.
  - reflexivity.
  - cbn [_dim]. first [reflexivity|exact Hdim].
  - intros v Hv. cbn [_realization].
    destruct (Hreal v Hv) as [xs [Hget Hlen]].
    rewrite dict_get_fold_setitem with (p := Col xs).
    + symmetry. assumption.
    + rewrite map_map. cbn [item fst]. rewrite map_id. assumption.
    + apply in_map_iff. exists v. split; [|assumption].
      unfold item. rewrite Hget. reflexivity.
Qed.

(** On a well-formed framework [rigidity_matrix()] returns: the 0 x 0
    matrix when there is no edge, the matrix of the rows otherwise. *)
Lemma rigidity_matrix_well_formed (self : Framework) :
  well_formed self = true ->
  let E := edges (_graph self) in
  let N := (Z.to_nat (_dim self) * length (vertices (_graph self)))%nat in
  let rws := map (row_of self (sorted (vertices (_graph self)))) (sorted_edges E) in
  (forall r, In r rws -> length r = N) /\
  run (rigidity_matrix None true) self = Matrix_of_rows rws /\
  (E = [] ->
     run (rigidity_matrix None true) self = Return (mkMatrix 0 0 [])) /\
  (E <> [] ->
     run (rigidity_matrix None true) self = Return (mkMatrix (length E) N rws)).
Proof.
  intros Hwf E N rws.
  assert (Hperm : Permutation (sorted_edges E) E) by apply sorted_by_perm.
  assert (Hincl : incl (sorted_edges E) E).
  { intros e He. apply (Permutation_in _ Hperm He). }
  assert (Hvperm : Permutation (sorted (vertices (_graph self))) (vertices (_graph self)))
    by apply sorted_by_perm.
  assert (Hrows : forall r, In r rws -> length r = N).
  { intros r Hr. apply in_map_iff in Hr. destruct Hr as [e [<- He]].
    rewrite length_row_of by auto.
    rewrite (Permutation_length Hvperm). reflexivity. }
  assert (Hrun : run (rigidity_matrix None true) self = Matrix_of_rows rws).
  { rewrite run_rigidity_matrix by exact I. cbn [order_of edge_order_of].
    rewrite rigidity_rows_Return by assumption. reflexivity. }
  split; [assumption|]. split; [assumption|]. split.
  - intro HE. rewrite Hrun. unfold rws. rewrite HE. reflexivity.
  - intros HE. rewrite Hrun.
    rewrite Matrix_of_rows_uniform with (L := N); try assumption.
    + unfold rws. rewrite length_map, (Permutation_length Hperm). reflexivity.
    + unfold rws. intro H. apply map_eq_nil in H.
      apply HE. apply Permutation_nil. rewrite <- H. assumption.
Qed.

(* ================================================================== *)
(** * The flexes *)

(** [nullspace] returns a basis of the solutions of a well-shaped
    matrix. *)
Lemma nullspace_basis (m : Matrix) :
  well_shaped m ->
  (forall x, In x (nullspace m) -> length x = cols m /\ annihilates x (entries m)) /\
  independent (cols m) (nullspace m) /\
  (forall x, length x = cols m -> annihilates x (entries m) ->
             span (cols m) (nullspace m) x).
Proof.
  intro Hws.
  destruct (rref_reduced m Hws) as [done [rest [pivots [_ [Hrref [Hred Hker]]]]]].
  assert (Hnull : nullspace m
                  = map (null_vector (done ++ rest) pivots (cols m))
                        (free_vars pivots (cols m))).
  { unfold nullspace. rewrite Hrref. reflexivity. }
  rewrite Hnull. split; [|split].
  - intros x Hx. apply in_map_iff in Hx. destruct Hx as [f [<- Hf]].
    split; [apply length_null_vector|].
    apply Hker; [apply length_null_vector|].
    apply (null_vector_sound (cols m) done rest pivots Hred f Hf).
  - apply (null_vectors_independent (cols m) done rest pivots Hred).
  - intros x Hx Hann.
    rewrite (null_vector_complete (cols m) done rest pivots Hred x Hx).
    + apply span_lin_comb. intros v Hv. apply span_in. assumption.
    + apply Hker; assumption.
Qed.

Lemma same_shape_lengths (N : nat) (l : list vec) :
  (forall v, In v l -> length v = N) -> same_shape l = true.
Proof.
  intro H. destruct l as [|v l]; [reflexivity|]. simpl.
  apply forallb_forall. intros w Hw. apply Nat.eqb_eq.
  rewrite (H v (or_introl eq_refl)). apply H. right. assumption.
Qed.

Lemma length_slice {A : Type} (l : list A) (lo hi : nat) :
  length (slice l lo hi) = (Nat.min hi (length l) - lo)%nat.
Proof. unfold slice. rewrite length_skipn, length_firstn. reflexivity. Qed.

Lemma query_trivial_infinitesimal_flexes : query trivial_infinitesimal_flexes.
Proof.
  unfold trivial_infinitesimal_flexes, realization, infinitesimal_flexes_including_trivial.
  auto 12 with query.
Qed.

Lemma run_infinitesimal_flexes_including_trivial (F : Framework) :
  run infinitesimal_flexes_including_trivial F =
  (let* m := run (rigidity_matrix None true) F in Return (nullspace m)).
Proof.
  unfold run at 1. unfold infinitesimal_flexes_including_trivial.
  rewrite bind_query by auto with query.
  destruct (run (rigidity_matrix None true) F); reflexivity.
Qed.

Lemma run_trivial_infinitesimal_flexes (self : Framework) :
  run trivial_infinitesimal_flexes self =
  (let* F := complete_graph_framework self in
   run infinitesimal_flexes_including_trivial F).
Proof.
  unfold run at 1. unfold trivial_infinitesimal_flexes, complete_graph_framework.
  rewrite bind_query by auto with query. change (run get self) with (Return self).
  cbv iota. rewrite bind_query by (unfold realization; auto with query).
  change (run realization self) with (Return (A:=Dict) (_realization self)). cbv iota.
  rewrite bind_query by auto with query. rewrite run_dim. cbv iota.
  rewrite bind_query by auto with query. unfold run at 1. unfold lift at 1. cbn [fst].
  destruct (__init__ _ _ _); reflexivity.
Qed.

Lemma run_nontrivial_infinitesimal_flexes (self : Framework) :
  run nontrivial_infinitesimal_flexes self =
  (let* trivial_flexes := run trivial_infinitesimal_flexes self in
   let* m := run (rigidity_matrix None true) self in
   let* basis_flexspace := orthogonalize (trivial_flexes ++ nullspace m) in
   Return (slice basis_flexspace (length trivial_flexes) (length (nullspace m) + 1))).
Proof.
  unfold run at 1. unfold nontrivial_infinitesimal_flexes, infinitesimal_flexes.
  rewrite bind_query by apply query_trivial_infinitesimal_flexes.
  destruct (run trivial_infinitesimal_flexes self) as [T|e]; [|reflexivity].
  rewrite bind_query by auto with query.
  destruct (run (rigidity_matrix None true) self) as [m|e]; [|reflexivity].
  cbn [obind]. unfold bind, lift, ret.
  destruct (orthogonalize (T ++ nullspace m)); reflexivity.
Qed.

Lemma same_edge_cases (e f : Edge) :
  same_edge e f = true -> f = e \/ f = (snd e, fst e).
Proof.
  destruct e as [a b], f as [c d]. unfold same_edge. cbn [fst snd].
  rewrite orb_true_iff, !andb_true_iff, !Z.eqb_eq.
  intros [[-> ->]|[-> ->]]; auto.
Qed.

Open Scope Qc_scope.

Lemma block_swap (pu pv : vec) (u v w : Vertex) :
  u <> v -> length pu = length pv ->
  block pv pu v u w = block pu pv u v w.
Proof.
  intros Hne Hlen. apply vec_ext.
  - rewrite !length_block; congruence.
  - intros k _. rewrite !at_block by congruence.
    destruct (Z.eqb_spec w u) as [Hu|Hu]; destruct (Z.eqb_spec w v) as [Hv|Hv];
      try reflexivity. congruence.
Qed.

Lemma in_zip_with_same {A B : Type} (f : A -> A -> B) (l : list A) (z : B) :
  In z (zip_with f l l) -> exists a, In a l /\ z = f a a.
Proof.
  induction l as [|a l IH]; simpl; [intros []|].
  intros [<-|H].
  - exists a. auto.
  - destruct (IH H) as [a' [Ha' E]]. exists a'. auto.
Qed.

(** The row of a loop is zero. *)
Lemma block_loop_zero (pu : vec) (u w : Vertex) (y : Qc) :
  In y (block pu pu u u w) -> y = 0.
Proof.
  unfold block, vscale, vsub. intro H. apply in_map_iff in H.
  destruct H as [z [<- Hz]]. apply in_zip_with_same in Hz.
  destruct Hz as [a [_ ->]]. ring.
Qed.

Close Scope Qc_scope.

Lemma row_of_loop_zero (self : Framework) (order : list Vertex) (u : Vertex) (x : vec) :
  dot (row_of self order (u, u)) x = 0%Qc.
Proof.
  apply dot_zeros_l. intros y Hy. unfold row_of in Hy. cbn [fst snd] in Hy.
  destruct (dict_get u (_realization self)) as [p|]; [|destruct Hy].
  apply in_concat in Hy. destruct Hy as [b [Hb Hy]].
  apply in_map_iff in Hb. destruct Hb as [w [<- _]].
  apply block_loop_zero in Hy. assumption.
Qed.

Lemma row_of_agree (F F' : Framework) (order : list Vertex) (e : Edge) :
  dict_get (fst e) (_realization F') = dict_get (fst e) (_realization F) ->
  dict_get (snd e) (_realization F') = dict_get (snd e) (_realization F) ->
  row_of F' order e = row_of F order e.
Proof. intros H1 H2. unfold row_of. rewrite H1, H2. reflexivity. Qed.

Lemma row_of_swap (F : Framework) (order : list Vertex) (u v : Vertex) (pu pv : vec) :
  u <> v ->
  dict_get u (_realization F) = Some (Col pu) ->
  dict_get v (_realization F) = Some (Col pv) ->
  length pu = length pv ->
  row_of F order (v, u) = row_of F order (u, v).
Proof.
  intros Hne Hu Hv Hlen. unfold row_of. cbn [fst snd]. rewrite Hu, Hv. cbn [coords].
  f_equal. apply map_ext. intro w. apply block_swap; assumption.
Qed.

Lemma well_formed_parts (self : Framework) :
  well_formed self = true ->
  NoDup (vertices (_graph self)) /\
  (forall u v, In (u, v) (edges (_graph self)) ->
               In u (vertices (_graph self)) /\ In v (vertices (_graph self))) /\
  (forall v, In v (vertices (_graph self)) ->
             exists xs, dict_get v (_realization self) = Some (Col xs) /\
                        Z.of_nat (length xs) = _dim self).
Proof.
  unfold well_formed. rewrite !andb_true_iff, !forallb_forall.
  intros [[Hd He] Hv]. split; [apply distinct_NoDup; assumption|]. split.
  - intros u v Hin. specialize (He (u, v) Hin). cbn [fst snd] in He.
    apply andb_true_iff in He. destruct He as [H1 H2].
    apply mem_In in H1, H2. auto.
  - intros v Hin. specialize (Hv v Hin).
    destruct (dict_get v (_realization self)) as [[xs|xs]|]; try discriminate.
    exists xs. split; [reflexivity|apply Z.eqb_eq; assumption].
Qed.

Lemma well_formed_of_parts (self : Framework) :
  NoDup (vertices (_graph self)) ->
  (forall e, In e (edges (_graph self)) ->
             In (fst e) (vertices (_graph self)) /\ In (snd e) (vertices (_graph self))) ->
  (forall v, In v (vertices (_graph self)) ->
             exists xs, dict_get v (_realization self) = Some (Col xs) /\
                        Z.of_nat (length xs) = _dim self) ->
  well_formed self = true.
Proof.
  intros Hd He Hv. unfold well_formed. rewrite !andb_true_iff, !forallb_forall.
  split; [split|].
  - apply distinct_NoDup. assumption.
  - intros e Hin. destruct (He e Hin) as [H1 H2]. apply andb_true_iff.
    split; apply mem_In; assumption.
  - intros v Hin. destruct (Hv v Hin) as [xs [-> Hlen]]. apply Z.eqb_eq. assumption.
Qed.

Lemma labelled_vertices (self : Framework) :
  labelled_from_zero self ->
  forall u, In u (vertices (_graph self)) <->
            exists i, (i < length (vertices (_graph self)))%nat /\ u = Z.of_nat i.
Proof.
  intros Hlab u.
  assert (Hperm : Permutation (sorted (vertices (_graph self))) (vertices (_graph self)))
    by apply sorted_by_perm.
  unfold labelled_from_zero in Hlab. rewrite Hlab in Hperm. split.
  - intro Hu. apply (Permutation_in _ (Permutation_sym Hperm)) in Hu.
    apply in_map_iff in Hu. destruct Hu as [i [<- Hi]]. apply in_seq in Hi.
    exists i. split; [lia|reflexivity].
  - intros [i [Hi ->]]. apply (Permutation_in _ Hperm).
    apply in_map_iff. exists i. split; [reflexivity|apply in_seq; lia].
Qed.

Lemma nullspace_no_columns (m : Matrix) :
  well_shaped m -> cols m = 0%nat -> nullspace m = [].
Proof.
  intros Hws Hc. apply length_zero_iff_nil.
  rewrite length_nullspace by assumption. lia.
Qed.

Lemma well_shaped_empty : well_shaped (mkMatrix 0 0 []).
Proof. split; [reflexivity|intros r []]. Qed.

(** The trivial flexes: the complete-graph framework is built, its
    rigidity matrix is computed, and every trivial flex is a flex of
    [self]; when the complete-graph framework is infinitesimally rigid
    and there are at least [dim + 1] vertices, there are
    [dim * (dim + 1) / 2] trivial flexes. *)
Lemma trivial_flexes_are_flexes (self : Framework) :
  well_formed self = true ->
  realization_uniform self = true ->
  labelled_from_zero self ->
  exists FK mK,
    complete_graph_framework self = Return FK /\
    run (rigidity_matrix None true) FK = Return mK /\
    well_shaped mK /\
    run trivial_infinitesimal_flexes self = Return (nullspace mK) /\
    (forall m, run (rigidity_matrix None true) self = Return m ->
              edges (_graph self) <> [] ->
              forall t, In t (nullspace mK) ->
                        length t = cols m /\ annihilates t (entries m)) /\
    ((0 <= _dim self)%Z ->
     (_dim self + 1 <= Z.of_nat (length (vertices (_graph self))))%Z ->
     run is_infinitesimally_rigid FK = Return true ->
     Z.of_nat (length (nullspace mK)) = (_dim self * (_dim self + 1) / 2)%Z).
Proof.
  intros Hwf Huni Hlab.
  set (n := length (vertices (_graph self))).
  destruct (well_formed_parts self Hwf) as [HVnd [HE HR]].
  pose proof (labelled_vertices self Hlab) as HV. fold n in HV.
  destruct (complete_graph_facts n) as [K1 [K2 [K3 [K4 [K5 K6]]]]].
  set (gK := Graph_of_edges (edges (complete_graph n))) in *.
  (* the constructor *)
  destruct (init_Return gK (_realization self) (_dim self)) as [FK [HFK [HgK [HdK HrK]]]].
  { exact K1. }
  { intros v Hv. apply HR, HV. apply K2. assumption. }
  { intros p Hp. unfold realization_uniform in Huni. rewrite forallb_forall in Huni.
    apply Z.eqb_eq. apply Huni. assumption. }
  destruct FK as [rK gK' dK]. cbn [_graph _dim _realization] in HgK, HdK, HrK.
  subst gK' dK. set (FK := mkFramework rK gK (_dim self)) in *.
  assert (HwfK : well_formed FK = true).
  { apply well_formed_of_parts; cbn [FK _graph _dim _realization].
    - exact K1.
    - intros e He. apply K6. assumption.
    - intros v Hv. rewrite (HrK v Hv). apply HR, HV. apply K2. assumption. }
  (* its rigidity matrix *)
  destruct (rigidity_matrix_well_formed FK HwfK) as [HKrows [HKrun [HK0 HKfull]]].
  cbn [FK _graph _dim] in HKrows, HKrun, HK0, HKfull.
  set (rwsK := map (row_of FK (sorted (vertices gK))) (sorted_edges (edges gK))) in *.
  set (NK := (Z.to_nat (_dim self) * length (vertices gK))%nat) in *.
  assert (HmK : exists mK, run (rigidity_matrix None true) FK = Return mK /\
                           ((edges gK = [] /\ mK = mkMatrix 0 0 []) \/
                            (edges gK <> [] /\
                             mK = mkMatrix (length (edges gK)) NK rwsK))).
  { assert (HdecE : edges gK = [] \/ edges gK <> []).
    { destruct (edges gK); [left; reflexivity|right; discriminate]. }
    destruct HdecE as [EK|EK].
    - exists (mkMatrix 0 0 []). split; [apply HK0; assumption|left; split; [assumption|reflexivity]].
    - eexists. split; [apply HKfull; assumption|].
      right. split; [assumption|reflexivity]. }
  destruct HmK as [mK [HrunK HcaseK]].
  assert (HwsK : well_shaped mK).
  { apply Matrix_of_rows_well_shaped with (dat := rwsK). rewrite <- HKrun. assumption. }
  exists FK, mK. split; [exact HFK|]. split; [assumption|]. split; [assumption|]. split.
  { rewrite run_trivial_infinitesimal_flexes. unfold complete_graph_framework.
    fold n. fold gK. rewrite HFK. cbn [obind].
    rewrite run_infinitesimal_flexes_including_trivial, HrunK. reflexivity. }
  assert (HpermK : (2 <= n)%nat -> Permutation (vertices gK) (vertices (_graph self))).
  { intro Hn2. apply NoDup_Permutation; try assumption. intro u. rewrite HV. split.
    - intro Hu. apply K2. assumption.
    - intros [i [Hi ->]]. apply K3; assumption. }
  assert (HNK : (2 <= n)%nat -> NK = (Z.to_nat (_dim self) * n)%nat).
  { intro Hn2. unfold NK, n. rewrite (Permutation_length (HpermK Hn2)). reflexivity. }
  split.
  - (* every trivial flex is a flex of [self] *)
    intros m Hm HE_ne t Ht.
    destruct (nullspace_basis mK HwsK) as [HTsound _].
    destruct (HTsound t Ht) as [Htlen Htann].
    destruct (rigidity_matrix_well_formed self Hwf) as [Hrows [Hrun [H0 Hfull]]].
    fold n in Hrows, Hrun, H0, Hfull.
    set (rws := map (row_of self (sorted (vertices (_graph self))))
                    (sorted_edges (edges (_graph self)))) in *.
    set (N := (Z.to_nat (_dim self) * n)%nat) in *.
    rewrite (Hfull HE_ne) in Hm. injection Hm as <-. cbn [cols entries].
    destruct HcaseK as [[_ ->]|[HEK_ne ->]].
    { rewrite nullspace_no_columns in Ht by (try apply well_shaped_empty; reflexivity).
      destruct Ht. }
    cbn [cols entries] in Htlen, Htann.
    assert (Hn2 : (2 <= n)%nat).
    { assert (Hsome : exists f, In f (edge_list gK)).
      { unfold edges in HEK_ne. destruct (edge_list gK) as [|f fs]; [congruence|].
        exists f. left. reflexivity. }
      destruct Hsome as [f Hf]. apply K4, in_pairs_below in Hf.
      destruct Hf as [i [j [Hij _]]]. lia. }
    specialize (HpermK Hn2). specialize (HNK Hn2). fold N in HNK.
    assert (Hord : sorted (vertices gK) = sorted (vertices (_graph self))).
    { apply sorted_perm_eq. assumption. }
    split; [congruence|].
    intros r Hr. unfold rws in Hr. apply in_map_iff in Hr. destruct Hr as [[u v] [<- He]].
    assert (HeE : In (u, v) (edges (_graph self))).
    { apply (Permutation_in _ (sorted_by_perm edge_le _)). assumption. }
    destruct (Z.eq_dec u v) as [->|Huv]; [apply row_of_loop_zero|].
    destruct (HE u v HeE) as [HuV HvV].
    destruct (HR u HuV) as [pu [Hpu Lu]]. destruct (HR v HvV) as [pv [Hpv Lv]].
    assert (HuK : In u (vertices gK))
      by (apply (Permutation_in _ (Permutation_sym HpermK)); assumption).
    assert (HvK : In v (vertices gK))
      by (apply (Permutation_in _ (Permutation_sym HpermK)); assumption).
    (* the edge of the complete graph between [u] and [v] *)
    assert (Hf : exists f, In f (edges gK) /\ (f = (u, v) \/ f = (v, u))).
    { apply HV in HuV, HvV. destruct HuV as [i [Hi ->]]. destruct HvV as [j [Hj ->]].
      destruct (lt_dec i j) as [Hij|Hij].
      - destruct (K5 (Z.of_nat i, Z.of_nat j)) as [f [Hf Hs]].
        { apply in_pairs_below. exists i, j. split; [lia|reflexivity]. }
        exists f. split; [assumption|]. apply same_edge_cases in Hs. exact Hs.
      - destruct (K5 (Z.of_nat j, Z.of_nat i)) as [f [Hf Hs]].
        { apply in_pairs_below. exists j, i. split; [|reflexivity].
          assert (i <> j) by (intros ->; apply Huv; reflexivity). lia. }
        exists f. split; [assumption|]. apply same_edge_cases in Hs.
        cbn [fst snd] in Hs. tauto. }
    destruct Hf as [f [HfK Hf]].
    assert (Hrow : dot (row_of FK (sorted (vertices gK)) f) t = 0%Qc).
    { apply Htann. unfold rwsK. apply in_map.
      apply (Permutation_in _ (Permutation_sym (sorted_by_perm edge_le _))). assumption. }
    rewrite <- Hrow. f_equal. rewrite Hord.
    destruct Hf as [-> | ->].
    + symmetry. apply row_of_agree; cbn [fst snd]; apply HrK; assumption.
    + rewrite (row_of_agree self FK) by (cbn [fst snd]; apply HrK; assumption).
      symmetry. apply row_of_swap with (pu := pu) (pv := pv); try assumption. lia.
  - (* the number of trivial flexes of a rigid complete-graph framework *)
    intros Hdim Hmany Hrigid. fold n in Hmany.
    pose proof (length_nullspace mK HwsK) as HTlen.
    pose proof (rank_le_cols mK HwsK) as Hrk.
    destruct (le_lt_dec 2 n) as [Hn2|Hn1].
    + specialize (HpermK Hn2). specialize (HNK Hn2).
      assert (HEK : edges gK <> []).
      { destruct (K5 (0%Z, 1%Z)) as [f [Hf _]].
        { apply in_pairs_below. exists 0%nat, 1%nat. split; [lia|reflexivity]. }
        unfold edges. intro H0. rewrite H0 in Hf. destruct Hf. }
      destruct HcaseK as [[HEK0 _]|[_ ->]]; [contradiction|].
      cbn [cols] in HTlen, Hrk.
      rewrite run_is_infinitesimally_rigid in Hrigid.
      cbn [FK _graph _dim] in Hrigid.
      rewrite (Permutation_length HpermK) in Hrigid. fold n in Hrigid.
      destruct (Z.leb_spec (Z.of_nat n) 1) as [Hle|_]; [lia|].
      rewrite HrunK in Hrigid. injection Hrigid as Hrank. apply Z.eqb_eq in Hrank.
      rewrite HTlen, Nat2Z.inj_sub by assumption.
      rewrite Hrank, HNK, Nat2Z.inj_mul, Z2Nat.id by assumption. ring.
    + assert (Hd0 : _dim self = 0%Z) by lia.
      assert (Hc0 : cols mK = 0%nat).
      { destruct HcaseK as [[_ ->]|[_ ->]]; [reflexivity|].
        cbn [cols]. unfold NK. rewrite Hd0. reflexivity. }
      rewrite HTlen, Hc0, Hd0. reflexivity.
Qed.

(** C4 (as the code has it). On a well-formed framework (its vertices
    are integers) with at least one edge,
    [infinitesimal_flexes(include_trivial=True)] returns the nullspace
    basis of the rigidity matrix: independent solutions that generate
    every solution, exactly [dim * |V| - rank] of them.  When moreover
    every realization vector has length [dim] and the vertices are named
    0, ..., |V| - 1, the complete-graph framework on the same
    realization is built, its flexes are the trivial flexes, and
    [nontrivial_infinitesimal_flexes()] returns the positions after the
    trivial ones of the orthogonalised family (trivial flexes followed
    by the nullspace basis): exactly [(dim * |V| - rank) - t] vectors,
    [t] being the number of trivial flexes.  When the framework has at
    least [dim + 1] vertices and the complete-graph framework is
    infinitesimally rigid (the placement is not degenerate), [t] is
    [dim * (dim + 1) / 2] and the count is
    [(dim * |V| - rank) - dim * (dim + 1) / 2].  The counts are stated
    over the integers. *)
Theorem infinitesimal_flexes_count (self : Framework) :
  well_formed self = true ->
  edges (_graph self) <> [] ->
  let n := Z.of_nat (length (vertices (_graph self))) in
  exists m,
    run (rigidity_matrix None true) self = Return m /\
    run (infinitesimal_flexes true) self = Return (nullspace m) /\
    Z.of_nat (cols m) = (_dim self * n)%Z /\
    Z.of_nat (length (nullspace m)) = (_dim self * n - Z.of_nat (rank m))%Z /\
    (forall x, In x (nullspace m) -> length x = cols m /\ annihilates x (entries m)) /\
    independent (cols m) (nullspace m) /\
    (forall x, length x = cols m -> annihilates x (entries m) ->
               span (cols m) (nullspace m) x) /\
    (realization_uniform self = true -> labelled_from_zero self ->
     exists FK mK basis flexes,
       complete_graph_framework self = Return FK /\
       run (rigidity_matrix None true) FK = Return mK /\
       run trivial_infinitesimal_flexes self = Return (nullspace mK) /\
       orthogonalize (nullspace mK ++ nullspace m) = Return basis /\
       flexes = slice basis (length (nullspace mK)) (length (nullspace m) + 1) /\
       run nontrivial_infinitesimal_flexes self = Return flexes /\
       Z.of_nat (length flexes)
       = (_dim self * n - Z.of_nat (rank m) - Z.of_nat (length (nullspace mK)))%Z /\
       ((_dim self + 1 <= n)%Z ->
        run is_infinitesimally_rigid FK = Return true ->
        Z.of_nat (length flexes)
        = (_dim self * n - Z.of_nat (rank m) - _dim self * (_dim self + 1) / 2)%Z)).
Proof.
  intros Hwf HE n.
  assert (Hdim : (0 <= _dim self)%Z).
  { destruct (well_formed_parts self Hwf) as [_ [HEV HR]].
    destruct (edges (_graph self)) as [|[u v] es] eqn:EE; [congruence|].
    destruct (HEV u v (or_introl eq_refl)) as [Hu _].
    destruct (HR u Hu) as [xs [_ Hxs]]. lia. }
  destruct (rigidity_matrix_well_formed self Hwf) as [Hrows [Hrun [_ Hfull]]].
  specialize (Hfull HE).
  set (rws := map (row_of self (sorted (vertices (_graph self))))
                  (sorted_edges (edges (_graph self)))) in *.
  set (N := (Z.to_nat (_dim self) * length (vertices (_graph self)))%nat) in *.
  set (m := mkMatrix (length (edges (_graph self))) N rws) in *.
  assert (Hws : well_shaped m).
  { apply Matrix_of_rows_well_shaped with (dat := rws). rewrite <- Hrun. exact Hfull. }
  assert (HN : Z.of_nat (cols m) = (_dim self * n)%Z).
  { cbn [m cols]. unfold N, n. rewrite Nat2Z.inj_mul, Z2Nat.id by assumption.
    reflexivity. }
  destruct (nullspace_basis m Hws) as [HAsound [HAind HAcomplete]].
  pose proof (length_nullspace m Hws) as HAlen.
  pose proof (rank_le_cols m Hws) as Hrk.
  assert (HAZ : Z.of_nat (length (nullspace m)) = (_dim self * n - Z.of_nat (rank m))%Z).
  { rewrite HAlen, Nat2Z.inj_sub by assumption. rewrite HN. reflexivity. }
  exists m. split; [exact Hfull|]. split.
  { unfold infinitesimal_flexes.
    rewrite run_infinitesimal_flexes_including_trivial, Hfull. reflexivity. }
  split; [exact HN|]. split; [exact HAZ|].
  split; [assumption|]. split; [assumption|]. split; [assumption|].
  intros Huni Hlab.
  destruct (trivial_flexes_are_flexes self Hwf Huni Hlab)
    as [FK [mK [HFK [HmK [HwsK [HT [HTflex HTcount]]]]]]].
  destruct (nullspace_basis mK HwsK) as [HTsound [HTind _]].
  remember (nullspace mK) as T eqn:ET. remember (nullspace m) as A eqn:EA.
  assert (HTN : forall t, In t T -> length t = cols m /\ annihilates t (entries m)).
  { intros t Ht. apply (HTflex m Hfull HE). assumption. }
  assert (HAN : forall a, In a A -> length a = cols m).
  { intros a Ha. apply HAsound. assumption. }
  assert (HTA : forall t, In t T -> span (cols m) A t).
  { intros t Ht. destruct (HTN t Ht) as [Hl Ha]. apply HAcomplete; assumption. }
  (* the trivial flexes are independent flexes of [self]: they are at
     most as many as the basis vectors *)
  assert (HTle : (length T <= length A)%nat).
  { assert (Hc : T = [] \/ cols mK = cols m).
    { clear ET. destruct T as [|t0 T']; [left; reflexivity|right].
      destruct (HTsound t0 (or_introl eq_refl)) as [H1 _].
      destruct (HTN t0 (or_introl eq_refl)) as [H2 _]. congruence. }
    destruct Hc as [->|Hc]; [apply Nat.le_0_l|].
    apply (exchange (cols m)); [exact HAN| |exact HTA].
    rewrite <- Hc. exact HTind. }
  assert (Hbasis : orthogonalize (T ++ A) = Return (gram_schmidt [] (T ++ A))).
  { unfold orthogonalize. rewrite (same_shape_lengths (cols m)); [reflexivity|].
    intros v Hv. apply in_app_or in Hv. destruct Hv as [Hv|Hv];
      [apply HTN|apply HAN]; assumption. }
  pose proof (gram_schmidt_count (cols m) T A HAN HAind HTA) as Hgs.
  assert (Hcount : length (slice (gram_schmidt [] (T ++ A)) (length T) (length A + 1))
                   = (length A - length T)%nat).
  { rewrite length_slice, Hgs. lia. }
  assert (HcountZ : Z.of_nat (length (slice (gram_schmidt [] (T ++ A))
                                            (length T) (length A + 1)))
                    = (_dim self * n - Z.of_nat (rank m) - Z.of_nat (length T))%Z).
  { rewrite Hcount, Nat2Z.inj_sub by exact HTle. rewrite HAZ. reflexivity. }
  subst T A.
  exists FK, mK, (gram_schmidt [] (nullspace mK ++ nullspace m)),
         (slice (gram_schmidt [] (nullspace mK ++ nullspace m))
                (length (nullspace mK)) (length (nullspace m) + 1)).
  split; [exact HFK|]. split; [exact HmK|]. split; [exact HT|].
  split; [exact Hbasis|]. split; [reflexivity|]. split.
  { rewrite run_nontrivial_infinitesimal_flexes, HT, Hfull. cbn [obind].
    rewrite Hbasis. reflexivity. }
  split; [exact HcountZ|].
  intros Hmany Hrigid. rewrite HcountZ, (HTcount Hdim Hmany Hrigid). reflexivity.
Qed.

(** On the quadrilateral the complete-graph framework is infinitesimally
    rigid; the nullspace has [2 * 4 - rank] vectors and
    [(2 * 4 - rank) - 3], that is one, non-trivial flex is returned. *)
Lemma infinitesimal_flexes_count_four_cycle :
  well_formed four_cycle = true /\
  edges (_graph four_cycle) <> [] /\
  exists m flexes,
    run (rigidity_matrix None true) four_cycle = Return m /\
    rank m = 4%nat /\
    Z.of_nat (length (nullspace m)) = (2 * 4 - Z.of_nat (rank m))%Z /\
    run nontrivial_infinitesimal_flexes four_cycle = Return flexes /\
    Z.of_nat (length flexes) = (2 * 4 - Z.of_nat (rank m) - 2 * (2 + 1) / 2)%Z.
Proof.
  split; [vm_compute; reflexivity|]. split; [vm_compute; discriminate|].
  destruct (infinitesimal_flexes_count four_cycle
              ltac:(vm_compute; reflexivity) ltac:(vm_compute; discriminate))
    as [m [Hm [_ [_ [Hlen [_ [_ [_ Hnon]]]]]]]].
  destruct (Hnon ltac:(vm_compute; reflexivity) ltac:(vm_compute; reflexivity))
    as [FK [mK [basis [flexes [HFK [_ [_ [_ [_ [Hrun [_ Hclosed]]]]]]]]]]].
  assert (Hrigid : run is_infinitesimally_rigid FK = Return true).
  { assert (E : (let* F := complete_graph_framework four_cycle in
                 run is_infinitesimally_rigid F) = Return true)
      by (vm_compute; reflexivity).
    rewrite HFK in E. exact E. }
  assert (Hrank : rank m = 4%nat).
  { assert (E : (let* a := run (rigidity_matrix None true) four_cycle in
                 Return (rank a)) = Return 4%nat) by (vm_compute; reflexivity).
    rewrite Hm in E. cbn [obind] in E. injection E as E. exact E. }
  exists m, flexes.
  split; [exact Hm|]. split; [exact Hrank|]. split; [exact Hlen|].
  split; [exact Hrun|].
  exact (Hclosed ltac:(vm_compute; discriminate) Hrigid).
Defined.

(** C4 (as stated) fails.  On two vertices placed at the same point of
    the line, joined by an edge (as many vertices as [dim + 1]), the
    rank is 0 and no non-trivial flex is returned, where the formula
    gives [(1 * 2 - 0) - 1 = 1]: the complete-graph framework on this
    realization is not infinitesimally rigid, and both of its flexes
    are taken as trivial. *)
Lemma infinitesimal_flexes_count_fails :
  well_formed collapsed_segment = true /\
  length (vertices (_graph collapsed_segment)) = 2%nat /\
  _dim collapsed_segment = 1%Z /\
  run rigidity_matrix_rank collapsed_segment = Return 0%nat /\
  (let* trivial := run trivial_infinitesimal_flexes collapsed_segment in
   Return (length trivial)) = Return 2%nat /\
  (let* F := complete_graph_framework collapsed_segment in
   run is_infinitesimally_rigid F) = Return false /\
  run nontrivial_infinitesimal_flexes collapsed_segment = Return [] /\
  ~ (exists flexes,
        run nontrivial_infinitesimal_flexes collapsed_segment = Return flexes /\
        Z.of_nat (length flexes) = ((1 * 2 - 0) - 1 * (1 + 1) / 2)%Z).
Proof.
  repeat split; try (vm_compute; reflexivity).
  intros [flexes [H1 H2]].
  assert (E : run nontrivial_infinitesimal_flexes collapsed_segment = Return [])
    by (vm_compute; reflexivity).
  rewrite E in H1. injection H1 as <-. vm_compute in H2. discriminate.
Qed.

(** The shape of the rigidity matrix of the triangle under the vertex
    order 2, 0, 1. *)
Lemma rigidity_matrix_shape_triangle :
  exists m,
    run (rigidity_matrix (Some [2; 0; 1]%Z) true) triangle = Return m /\
    rows m = 3%nat /\ cols m = 6%nat.
Proof.
  destruct (rigidity_matrix_shape triangle (Some [2; 0; 1]%Z) true
              ltac:(vm_compute; reflexivity) ltac:(vm_compute; reflexivity)
              ltac:(vm_compute; discriminate))
    as [m [Hm [Hr [Hc _]]]].
  exists m. split; [assumption|]. split; [exact Hr|exact Hc].
Defined.

(** C3 (as stated) fails.  On the segment (vertices 0 and 1 on the line)
    the vertex order 0, 1, 1 is accepted, having the same set of
    elements as the vertices, and the matrix has three columns, not
    [1 * 2]; on two points of the plane without an edge the matrix has
    no column, not [2 * 2]. *)
Lemma rigidity_matrix_shape_fails :
  (well_formed segment = true /\
   set_eqb (vertices (_graph segment)) [0; 1; 1]%Z = true /\
   (_dim segment * Z.of_nat (length (vertices (_graph segment))) = 2)%Z /\
   exists m, run (rigidity_matrix (Some [0; 1; 1]%Z) true) segment = Return m /\
             cols m = 3%nat) /\
  (well_formed two_points = true /\
   (_dim two_points * Z.of_nat (length (vertices (_graph two_points))) = 4)%Z /\
   exists m, run (rigidity_matrix None true) two_points = Return m /\
             cols m = 0%nat).
Proof.
  split.
  - split; [vm_compute; reflexivity|]. split; [vm_compute; reflexivity|].
    split; [vm_compute; reflexivity|].
    eexists. split; [vm_compute; reflexivity|reflexivity].
  - split; [vm_compute; reflexivity|]. split; [vm_compute; reflexivity|].
    eexists. split; [vm_compute; reflexivity|reflexivity].
Qed.

(* ================================================================== *)
(** * Adding vertices *)

Lemma bind_Return {A B : Type} (m : M A) (k : A -> M B) (self s : Framework) (a : A) :
  m self = (Return a, s) -> bind m k self = k a s.
Proof. intro H. unfold bind. rewrite H. reflexivity. Qed.

Lemma bind_Raise {A B : Type} (m : M A) (k : A -> M B) (self s : Framework) (e : exn) :
  m self = (Raise e, s) -> bind m k self = (Raise e, s).
Proof. intro H. unfold bind. rewrite H. reflexivity. Qed.

(** [add_vertex] in one step: it raises on a name that is a vertex, and
    otherwise appends the vertex and stores the point as a column. *)
Lemma add_vertex_step (self : Framework) (point : Point) (vertex : option Vertex) :
  add_vertex point vertex self =
  if mem (name_of self vertex) (vertices (_graph self))
  then (Raise AssertionError, self)
  else (Return tt,
        mkFramework (setitem (name_of self vertex) (Matrix_of_point point) (_realization self))
                    (mkGraph (nodes (_graph self) ++ [name_of self vertex])
                             (edge_list (_graph self)))
                    (_dim self)).
Proof.
  destruct self as [r [ns es] d].
  cbv [add_vertex bind get lift assert_ set__realization set__graph name_of].
  cbn [_realization _graph _dim vertices nodes edge_list].
  set (v := match vertex with
            | Some v => v
            | None => next_candidate (length ns) ns (Z.of_nat (length ns))
            end).
  destruct (mem v ns) eqn:Hmem; cbn [negb fst snd]; [reflexivity|].
  unfold Graph_add_node. cbn [nodes edge_list]. rewrite Hmem. reflexivity.
Qed.

Lemma next_candidate_stays (n : nat) (vs : list Vertex) (c : Z) :
  ~ In c vs -> next_candidate n vs c = c.
Proof.
  intro H. apply mem_false in H. destruct n; simpl; [reflexivity|]. rewrite H. reflexivity.
Qed.

(** The loop of [add_vertices] without names. *)
Lemma forM_add_vertex_default (points : list Point) (self : Framework) :
  let m := forM (fun point => add_vertex point None) points in
  run m self = Return tt /\
  _dim (exec m self) = _dim self /\
  edges (_graph (exec m self)) = edges (_graph self) /\
  exists new,
    vertices (_graph (exec m self)) = vertices (_graph self) ++ new /\
    length new = length points /\
    NoDup new /\
    (forall v, In v new -> ~ In v (vertices (_graph self))) /\
    (forall v, ~ In v new ->
               dict_get v (_realization (exec m self)) = dict_get v (_realization self)).
Proof.
  revert self. induction points as [|p points IH]; intro self; cbn zeta.
  - split; [reflexivity|]. split; [reflexivity|]. split; [reflexivity|].
    exists []. rewrite app_nil_r.
    split; [reflexivity|]. split; [reflexivity|]. split; [constructor|].
    split; [intros v []|reflexivity].
  - cbn [forM]. unfold run, exec.
    pose proof (add_vertex_step self p None) as Hstep.
    pose proof (next_candidate_fresh (vertices (_graph self))) as Hfresh.
    cbn [name_of] in Hstep.
    set (c := next_candidate _ _ _) in *.
    apply mem_false in Hfresh. rewrite Hfresh in Hstep.
    rewrite (bind_Return _ _ _ _ _ Hstep).
    set (s1 := mkFramework _ _ _) in *.
    destruct (IH s1) as [Hrun [Hdim [Hedges [new [Hvs [Hlen [Hnd [Hnew Hget]]]]]]]].
    unfold run, exec in *. cbn zeta in *.
    split; [assumption|]. split; [rewrite Hdim; reflexivity|].
    split; [rewrite Hedges; reflexivity|].
    exists (c :: new). cbn [s1 _graph vertices nodes] in Hvs, Hnew.
    split; [rewrite Hvs, <- app_assoc; reflexivity|].
    split; [simpl; congruence|]. split.
    + constructor; [|assumption]. intro Hc. apply (Hnew c Hc).
      apply in_or_app. right. left. reflexivity.
    + split.
      * intros v [<-|Hv]; [apply mem_false; assumption|].
        intro Hin. apply (Hnew v Hv). apply in_or_app. left. assumption.
      * intros v Hv. rewrite Hget.
        -- cbn [s1 _realization]. apply dict_get_setitem_other.
           intros ->. apply Hv. left. reflexivity.
        -- intro Hin. apply Hv. right. assumption.
Qed.

(** X1. [add_vertices(points)] without names never fails: it adds one
    new vertex per point after the vertices that are there, under names
    that are distinct and were not vertices, and leaves the edges, the
    dimension and the realization of every other name as they were. *)
Theorem add_vertices_default_names (self : Framework) (points : list Point) :
  let self' := exec (add_vertices points []) self in
  run (add_vertices points []) self = Return tt /\
  _dim self' = _dim self /\
  edges (_graph self') = edges (_graph self) /\
  exists new,
    vertices (_graph self') = vertices (_graph self) ++ new /\
    length new = length points /\
    NoDup new /\
    (forall v, In v new -> ~ In v (vertices (_graph self))) /\
    (forall v, ~ In v new ->
               dict_get v (_realization self') = dict_get v (_realization self)).
Proof.
  cbn zeta. unfold add_vertices, run, exec. cbn [is_nil length].
  rewrite orb_true_r. cbv [lift assert_]. unfold bind at 1 3.
  apply forM_add_vertex_default.
Qed.

Lemma numbered_after_add (self : Framework) (point : Point) :
  numbered_from_zero self ->
  let n := length (vertices (_graph self)) in
  add_vertex point None self =
  (Return tt,
   mkFramework (setitem (Z.of_nat n) (Matrix_of_point point) (_realization self))
               (mkGraph (nodes (_graph self) ++ [Z.of_nat n]) (edge_list (_graph self)))
               (_dim self)).
Proof.
  intros Hnum n. rewrite add_vertex_step. cbn [name_of]. fold n.
  assert (Hfresh : ~ In (Z.of_nat n) (vertices (_graph self))).
  { intro H. apply Hnum in H. fold n in H. lia. }
  rewrite next_candidate_stays by assumption.
  apply mem_false in Hfresh. rewrite Hfresh. reflexivity.
Qed.

(** The loop of [add_vertices] without names on vertices 0, ..., n-1. *)
Lemma forM_add_vertex_numbered (points : list Point) (self : Framework) :
  numbered_from_zero self ->
  let n := length (vertices (_graph self)) in
  let m := forM (fun point => add_vertex point None) points in
  vertices (_graph (exec m self))
  = vertices (_graph self) ++ map Z.of_nat (seq n (length points)) /\
  (forall i p, nth_error points i = Some p ->
               dict_get (Z.of_nat (n + i)) (_realization (exec m self))
               = Some (Matrix_of_point p)) /\
  numbered_from_zero (exec m self).
Proof.
  revert self. induction points as [|p points IH]; intros self Hnum; cbn zeta.
  - cbn [forM length seq map]. unfold exec, ret. cbn [snd]. rewrite app_nil_r.
    split; [reflexivity|]. split; [|assumption].
    intros [|i] q H; discriminate.
  - cbn [forM]. unfold exec.
    rewrite (bind_Return _ _ _ _ _ (numbered_after_add self p Hnum)).
    set (n := length (vertices (_graph self))).
    set (s1 := mkFramework _ _ _).
    assert (Hlen1 : length (vertices (_graph s1)) = S n).
    { cbn [s1 _graph vertices nodes]. rewrite length_app. simpl.
      unfold n, vertices. lia. }
    assert (Hnum1 : numbered_from_zero s1).
    { intro u. rewrite Hlen1. cbn [s1 _graph vertices nodes].
      rewrite in_app_iff. specialize (Hnum u). fold n in Hnum.
      unfold vertices in Hnum. rewrite Hnum. simpl. lia. }
    destruct (IH s1 Hnum1) as [Hvs [Hget Hnum']]. cbn zeta in *. unfold exec in *.
    rewrite Hlen1 in Hvs, Hget.
    destruct (forM_add_vertex_default points s1) as [_ [_ [_ [new [Hvs' [_ [_ [_ Hold]]]]]]]].
    cbn zeta in Hvs', Hold. unfold exec in Hvs', Hold.
    assert (Hnew : new = map Z.of_nat (seq (S n) (length points))).
    { rewrite Hvs in Hvs'. apply app_inv_head in Hvs'. symmetry. assumption. }
    split; [|split].
    + rewrite Hvs. cbn [s1 _graph vertices nodes length seq map].
      rewrite <- app_assoc. reflexivity.
    + intros [|i] q Hq.
      * injection Hq as <-. rewrite Nat.add_0_r. rewrite Hold.
        -- cbn [s1 _realization]. apply dict_get_setitem_same.
        -- rewrite Hnew. intro H. apply in_map_iff in H. destruct H as [k [E Hk]].
           apply in_seq in Hk. lia.
      * replace (n + S i)%nat with (S n + i)%nat by lia. apply Hget. assumption.
    + assumption.
Qed.

(** X2. On a framework whose vertices are 0, ..., n-1,
    [add_vertices(points)] names the new vertices n, n+1, ... in the
    order of the points, realizes vertex n+i by the i-th point as a
    column matrix, and leaves a framework whose vertices are again
    numbered from zero. *)
Theorem add_vertices_numbering (self : Framework) (points : list Point) :
  numbered_from_zero self ->
  let n := length (vertices (_graph self)) in
  let self' := exec (add_vertices points []) self in
  vertices (_graph self')
  = vertices (_graph self) ++ map Z.of_nat (seq n (length points)) /\
  (forall i p, nth_error points i = Some p ->
               dict_get (Z.of_nat (n + i)) (_realization self')
               = Some (Matrix_of_point p)) /\
  numbered_from_zero self'.
Proof.
  intro Hnum. cbn zeta. unfold add_vertices, exec. cbn [is_nil length].
  rewrite orb_true_r. cbv [lift assert_]. unfold bind at 1 2 3.
  apply forM_add_vertex_numbered. assumption.
Qed.

(** Two points added to the triangle get the names 3 and 4. *)
Lemma add_vertices_numbering_triangle :
  vertices (_graph (exec (add_vertices [point [5; 5]%Z; point [6; 7]%Z] []) triangle))
  = [0; 1; 2; 3; 4]%Z /\
  dict_get 4%Z (_realization
                  (exec (add_vertices [point [5; 5]%Z; point [6; 7]%Z] []) triangle))
  = Some (Col [qz 6; qz 7]).
Proof.
  assert (Hnum : numbered_from_zero triangle).
  { intro u. change (vertices (_graph triangle)) with [0; 1; 2]%Z. simpl. lia. }
  destruct (add_vertices_numbering triangle [point [5; 5]%Z; point [6; 7]%Z] Hnum)
    as [Hvs [Hget _]].
  split; [exact Hvs|]. exact (Hget 1%nat (point [6; 7]%Z) eq_refl).
Defined.

(** The loop of [add_vertices] with names. *)
Lemma forM_add_vertex_named (l : list (Point * Vertex)) (self : Framework) :
  let m := forM (fun pv => add_vertex (fst pv) (Some (snd pv))) l in
  (run m self = Return tt <->
   NoDup (map snd l) /\
   forall v, In v (map snd l) -> ~ In v (vertices (_graph self))) /\
  (run m self = Return tt ->
   vertices (_graph (exec m self)) = vertices (_graph self) ++ map snd l) /\
  (forall e, run m self = Raise e ->
             e = AssertionError /\
             exists k v, nth_error (map snd l) k = Some v /\
                         vertices (_graph (exec m self))
                         = vertices (_graph self) ++ firstn k (map snd l) /\
                         In v (vertices (_graph (exec m self))) /\
                         forall j w, (j < k)%nat -> nth_error (map snd l) j = Some w ->
                                     ~ In w (vertices (_graph self)
                                             ++ firstn j (map snd l))).
Proof.
  revert self. induction l as [|[p v] l IH]; intro self; cbn zeta.
  - cbn [forM map]. unfold run, exec, ret. cbn [fst snd]. rewrite app_nil_r.
    split; [|split].
    + split; [intros _; split; [constructor|intros v []]|reflexivity].
    + reflexivity.
    + discriminate.
  - cbn [forM map fst snd]. unfold run, exec.
    pose proof (add_vertex_step self p (Some v)) as Hstep. cbn [name_of] in Hstep.
    destruct (mem v (vertices (_graph self))) eqn:Hmem.
    + rewrite (bind_Raise _ _ _ _ _ Hstep). cbn [fst snd]. apply mem_In in Hmem.
      split; [|split].
      * split; [discriminate|]. intros [_ H]. exfalso.
        apply (H v (or_introl eq_refl)). assumption.
      * discriminate.
      * intros e He. injection He as <-. split; [reflexivity|].
        exists 0%nat, v. cbn [nth_error firstn]. rewrite app_nil_r.
        split; [reflexivity|]. split; [reflexivity|]. split; [exact Hmem|].
        intros j w Hj. lia.
    + rewrite (bind_Return _ _ _ _ _ Hstep). apply mem_false in Hmem.
      set (s1 := mkFramework _ _ _).
      destruct (IH s1) as [Hiff [Hok Hraise]]. cbn zeta in *. unfold run, exec in *.
      assert (Hvs1 : vertices (_graph s1) = vertices (_graph self) ++ [v]) by reflexivity.
      rewrite Hvs1 in Hiff, Hok, Hraise.
      split; [|split].
      * rewrite Hiff. split.
        -- intros [Hnd Hfresh]. split.
           ++ constructor; [|assumption]. intro Hin. apply (Hfresh v Hin).
              apply in_or_app. right. left. reflexivity.
           ++ intros w [<-|Hw]; [assumption|].
              intro Hin. apply (Hfresh w Hw). apply in_or_app. left. assumption.
        -- intros [Hnd Hfresh]. inversion Hnd as [|? ? Hv Hnd']; subst. split; [assumption|].
           intros w Hw Hin. apply in_app_or in Hin. destruct Hin as [Hin|[<-|[]]].
           ++ apply (Hfresh w); [right; assumption|assumption].
           ++ contradiction.
      * intro H. rewrite (Hok H). rewrite <- app_assoc. reflexivity.
      * intros e He. destruct (Hraise e He) as [-> [k [v' [Hnth [Hvs [Hin Hprev]]]]]].
        split; [reflexivity|]. exists (S k), v'. cbn [nth_error firstn].
        split; [exact Hnth|]. split; [rewrite Hvs, <- app_assoc; reflexivity|].
        split; [exact Hin|].
        intros [|j] w Hj Hw; cbn [nth_error firstn] in *.
        -- injection Hw as <-. rewrite app_nil_r. exact Hmem.
        -- assert (Hj' : (j < k)%nat) by lia.
           pose proof (Hprev j w Hj' Hw) as Hfresh.
           rewrite <- app_assoc in Hfresh. exact Hfresh.
Qed.

Lemma map_snd_combine {A B : Type} (l : list A) (k : list B) :
  length l = length k -> map snd (combine l k) = k.
Proof.
  revert k. induction l as [|a l IH]; intros [|b k] H; simpl in *; try discriminate.
  - reflexivity.
  - f_equal. apply IH. lia.
Qed.

(** X3. [add_vertices(points, vertices)] with a
    non-empty list of names returns exactly when there are as many names
    as points, the names are distinct and none of them is a vertex; the
    names are then appended in their order.  Otherwise it raises
    [AssertionError]: before anything is written when the numbers
    differ, and else at the first name that is taken (a vertex already,
    or listed before), with the vertices before that name added. *)
Theorem add_vertices_explicit_names
        (self : Framework) (points : list Point) (vs : list Vertex) :
  vs <> [] ->
  let self' := exec (add_vertices points vs) self in
  (run (add_vertices points vs) self = Return tt <->
   (length points = length vs /\
    NoDup vs /\ forall v, In v vs -> ~ In v (vertices (_graph self)))) /\
  (run (add_vertices points vs) self = Return tt ->
   vertices (_graph self') = vertices (_graph self) ++ vs) /\
  (forall e, run (add_vertices points vs) self = Raise e ->
             e = AssertionError /\
             exists k, (k < length vs)%nat /\
                       vertices (_graph self')
                       = vertices (_graph self) ++ firstn k vs /\
                       (length points = length vs ->
                        (exists v, nth_error vs k = Some v /\
                                   In v (vertices (_graph self'))) /\
                        forall j w, (j < k)%nat -> nth_error vs j = Some w ->
                                    ~ In w (vertices (_graph self) ++ firstn j vs))) /\
  (length points <> length vs -> self' = self).
Proof.
  intros Hne. cbn zeta. unfold add_vertices, run, exec.
  destruct vs as [|v vs]; [congruence|]. cbn [is_nil]. rewrite orb_false_r.
  cbv [lift assert_]. unfold bind at 1 2 3 4 5 6.
  destruct (Nat.eqb_spec (length points) (length (v :: vs))) as [Hlen|Hlen]; cbn [fst snd].
  - pose proof (forM_add_vertex_named (combine points (v :: vs)) self) as H.
    cbn zeta in H. unfold run, exec in H.
    rewrite (map_snd_combine points (v :: vs) Hlen) in H.
    destruct H as [H1 [H2 H3]].
    split; [|split; [|split]]; try assumption.
    + rewrite H1. tauto.
    + intros e He. destruct (H3 e He) as [-> [k [w [Hnth [Hvs [Hin Hprev]]]]]].
      split; [reflexivity|]. exists k. split; [|split; [exact Hvs|]].
      * apply nth_error_Some. rewrite Hnth. discriminate.
      * intros _. split; [exists w; split; assumption|exact Hprev].
    + intro H. contradiction.
  - split; [|split; [|split]].
    + split; [discriminate|]. intros [H _]. contradiction.
    + discriminate.
    + intros e He. injection He as <-. split; [reflexivity|].
      exists 0%nat. split; [simpl; lia|]. simpl. rewrite app_nil_r.
      split; [reflexivity|]. intro H. contradiction.
    + reflexivity.
Qed.

(** On the triangle the names 7, 8 are accepted and the names 7, 1 are
    not. *)
Lemma add_vertices_explicit_names_triangle :
  run (add_vertices [point [5; 5]%Z; point [6; 7]%Z] [7; 8]%Z) triangle = Return tt /\
  run (add_vertices [point [5; 5]%Z; point [6; 7]%Z] [7; 1]%Z) triangle <> Return tt.
Proof.
  split.
  - apply (proj1 (add_vertices_explicit_names triangle
                    [point [5; 5]%Z; point [6; 7]%Z] [7; 8]%Z ltac:(discriminate))).
    split; [reflexivity|]. split.
    + repeat constructor; simpl; intuition discriminate.
    + change (vertices (_graph triangle)) with [0; 1; 2]%Z.
      simpl. intros v Hv Hin. lia.
  - intro H.
    apply (proj1 (add_vertices_explicit_names triangle
                    [point [5; 5]%Z; point [6; 7]%Z] [7; 1]%Z ltac:(discriminate))) in H.
    destruct H as [_ [_ H]]. apply (H 1%Z); simpl; auto.
Defined.

(* ================================================================== *)
(** * The constructor *)

Lemma forO_assertions (r : Dict) (dimension : Z) (vs : list Vertex) :
  forO (fun v =>
          let* _ := assert_ (contains v r) in
          let* p := getitem r v in
          assert_ (Z.of_nat (len p) =? dimension)%Z) vs
  = if forallb (fun v => match dict_get v r with
                         | Some p => (Z.of_nat (len p) =? dimension)%Z
                         | None => false
                         end) vs
    then Return tt else Raise AssertionError.
Proof.
  induction vs as [|v vs IH]; [reflexivity|]. cbn [forO forallb].
  unfold contains at 1, getitem at 1.
  destruct (dict_get v r) as [p|]; cbn [assert_ obind]; [|reflexivity].
  destruct (Z.of_nat (len p) =? dimension)%Z; cbn [assert_ obind andb]; [|reflexivity].
  exact IH.
Qed.

(** After a series of assignments whose value depends on the key only,
    a key that was assigned holds that value. *)
Lemma dict_get_fold_setitem_map (f : Vertex -> Point) (vs : list Vertex) (d0 : Dict)
      (v : Vertex) :
  dict_get v (fold_left (fun d kp => setitem (fst kp) (snd kp) d)
                        (map (fun w => (w, f w)) vs) d0)
  = if mem v vs then Some (f v) else dict_get v d0.
Proof.
  revert d0. induction vs as [|w vs IH]; intro d0; [reflexivity|].
  cbn [map fold_left fst snd]. rewrite IH. unfold mem. cbn [existsb].
  fold (mem v vs). destruct (mem v vs); [rewrite orb_true_r; reflexivity|].
  rewrite orb_false_r. destruct (Z.eqb_spec v w) as [->|Hne].
  - apply dict_get_setitem_same.
  - apply dict_get_setitem_other. assumption.
Qed.

(** X4. The constructor returns exactly when every vertex of
    the graph is a key of the realization whose value has the length the
    dimension is set to, and raises [AssertionError] otherwise.  The
    framework it returns has the graph as it was given, realizes every
    vertex by [Matrix] of the value that was passed, has no entry for a
    key that is not a vertex, and satisfies the invariant of the data
    model. *)
Theorem init_checks (graph : Graph) (realization : Dict) (dim : Z) :
  let dimension := if (length (values realization) =? 0)%nat then dim
                   else Z.of_nat (len (hd (Seq []) (values realization))) in
  let ok := forallb (fun v => match dict_get v realization with
                              | Some p => (Z.of_nat (len p) =? dimension)%Z
                              | None => false
                              end) (vertices graph) in
  (ok = false -> __init__ graph realization dim = Raise AssertionError) /\
  (ok = true ->
   exists F, __init__ graph realization dim = Return F /\
             _graph F = graph /\ _dim F = dimension /\
             (forall v, dict_get v (_realization F)
                        = if mem v (vertices graph)
                          then option_map Matrix_of_point (dict_get v realization)
                          else None) /\
             invariant F = true).
Proof.
  cbn zeta. set (dimension := if (length (values realization) =? 0)%nat then dim
                              else Z.of_nat (len (hd (Seq []) (values realization)))).
  unfold __init__. fold dimension. rewrite forO_assertions.
  destruct (forallb _ (vertices graph)) eqn:Hok.
  2:{ split; [reflexivity|discriminate]. }
  split; [discriminate|intros _].
  - cbn [obind].
    set (item := fun v => Matrix_of_point
                            (match dict_get v realization with
                             | Some p => p | None => Seq [] end)).
    rewrite forallb_forall in Hok.
    rewrite mapO_Return with (g := fun v => (v, item v)).
    2:{ intros v Hv. specialize (Hok v Hv). unfold getitem, item.
        destruct (dict_get v realization); [reflexivity|discriminate]. }
    cbn [obind]. eexists. split; [reflexivity|].
    cbn [_graph _dim _realization].
    split; [reflexivity|]. split; [reflexivity|].
    assert (Hget : forall v,
               dict_get v (fold_left (fun d kp => setitem (fst kp) (snd kp) d)
                                     (map (fun v => (v, item v)) (vertices graph)) [])
               = if mem v (vertices graph)
                 then option_map Matrix_of_point (dict_get v realization)
                 else None).
    { intro v. rewrite dict_get_fold_setitem_map.
      destruct (mem v (vertices graph)) eqn:Hmem; [|reflexivity].
      apply mem_In in Hmem. specialize (Hok v Hmem). unfold item.
      destruct (dict_get v realization); [reflexivity|discriminate]. }
    split; [exact Hget|].
    unfold invariant. cbn [_graph _dim _realization].
    apply forallb_forall. intros v Hv. rewrite Hget.
    specialize (Hok v Hv). apply mem_In in Hv. rewrite Hv.
    destruct (dict_get v realization) as [p|]; [|discriminate].
    cbn [option_map]. destruct p; exact Hok.
Qed.

(* ================================================================== *)
(** * Deleting vertices *)

(** [delete_vertex] in one step: the graph is updated first, the
    realization second. *)
Lemma delete_vertex_step (self : Framework) (v : Vertex) :
  delete_vertex v self =
  if mem v (vertices (_graph self))
  then
    let g := mkGraph (filter (fun w => negb (w =? v)%Z) (nodes (_graph self)))
                     (filter (fun e => negb (incident v e)) (edge_list (_graph self))) in
    if contains v (_realization self)
    then (Return tt,
          mkFramework (filter (fun kp => negb (Z.eqb v (fst kp))) (_realization self))
                      g (_dim self))
    else (Raise KeyError, mkFramework (_realization self) g (_dim self))
  else (Raise NetworkXError, self).
Proof.
  destruct self as [r [ns es] d].
  cbv [delete_vertex bind get lift Graph_delete_vertex set__graph set__realization delitem].
  cbn [_realization _graph _dim vertices nodes edge_list].
  destruct (mem v ns); [|reflexivity]. cbn [fst snd _realization _graph _dim].
  destruct (contains v r); reflexivity.
Qed.

Lemma in_filter_ne (v w : Vertex) (l : list Vertex) :
  In w (filter (fun w => negb (w =? v)%Z) l) <-> In w l /\ w <> v.
Proof.
  rewrite filter_In, negb_true_iff, Z.eqb_neq. reflexivity.
Qed.

(** X5. [delete_vertex(v)] updates the graph before
    the realization.  On a name that is not a vertex nothing is written.
    On a vertex without a realization entry the call raises [KeyError]
    after the vertex and its edges have left the graph.  On a vertex with
    an entry the call returns: the vertex, its entry and the edges at it
    are gone, and every other vertex, entry and edge is kept. *)
Theorem delete_vertex_cases (self : Framework) (v : Vertex) :
  let self' := exec (delete_vertex v) self in
  let gone :=
    ~ In v (vertices (_graph self')) /\
    (forall w, w <> v ->
               (In w (vertices (_graph self')) <-> In w (vertices (_graph self)))) /\
    (forall e, In e (edges (_graph self')) <->
               In e (edges (_graph self)) /\ incident v e = false) in
  (~ In v (vertices (_graph self)) ->
   delete_vertex v self = (Raise NetworkXError, self)) /\
  (In v (vertices (_graph self)) -> contains v (_realization self) = false ->
   run (delete_vertex v) self = Raise KeyError /\
   gone /\ _realization self' = _realization self) /\
  (In v (vertices (_graph self)) -> contains v (_realization self) = true ->
   run (delete_vertex v) self = Return tt /\
   gone /\
   dict_get v (_realization self') = None /\
   (forall w, w <> v ->
              dict_get w (_realization self') = dict_get w (_realization self)) /\
   _dim self' = _dim self).
Proof.
  cbn zeta. unfold run, exec. rewrite delete_vertex_step.
  assert (Hgone : forall r d,
    let s := mkFramework r
               (mkGraph (filter (fun w => negb (w =? v)%Z) (nodes (_graph self)))
                        (filter (fun e => negb (incident v e)) (edge_list (_graph self)))) d in
    ~ In v (vertices (_graph s)) /\
    (forall w, w <> v -> (In w (vertices (_graph s)) <-> In w (vertices (_graph self)))) /\
    (forall e, In e (edges (_graph s)) <->
               In e (edges (_graph self)) /\ incident v e = false)).
  { intros r d. cbn [_graph vertices edges nodes edge_list]. split; [|split].
    - rewrite in_filter_ne. tauto.
    - intros w Hw. rewrite in_filter_ne. unfold vertices. tauto.
    - intro e. rewrite filter_In, negb_true_iff. reflexivity. }
  split; [|split].
  - intro H. apply mem_false in H. rewrite H. reflexivity.
  - intros Hv Hc. apply mem_In in Hv. rewrite Hv, Hc. cbn [fst snd].
    split; [reflexivity|]. split; [apply Hgone|reflexivity].
  - intros Hv Hc. apply mem_In in Hv. rewrite Hv, Hc. cbn [fst snd].
    split; [reflexivity|]. split; [apply Hgone|]. cbn [_realization _dim].
    split; [apply dict_get_filter_same|]. split; [|reflexivity].
    intros w Hw. apply dict_get_filter_other. assumption.
Qed.

Lemma filter_setitem_new (v : Vertex) (p : Point) (r : Dict) :
  contains v r = false ->
  filter (fun kp => negb (Z.eqb v (fst kp))) (setitem v p r) = r.
Proof.
  unfold contains. induction r as [|[k q] r IH]; cbn [dict_get setitem filter fst].
  - intros _. rewrite Z.eqb_refl. reflexivity.
  - destruct (Z.eqb v k) eqn:E; [discriminate|]. intro H.
    cbn [filter fst]. rewrite E. cbn [negb]. rewrite IH by assumption. reflexivity.
Qed.

Lemma filter_all {A : Type} (keep : A -> bool) (xs : list A) :
  (forall x, In x xs -> keep x = true) -> filter keep xs = xs.
Proof.
  intro Hkeep. induction xs as [|x xs IH]; [reflexivity|]. cbn [filter].
  rewrite (Hkeep x (or_introl eq_refl)). f_equal. apply IH.
  intros y Hy. apply Hkeep. right. assumption.
Qed.

(** X6. Adding a vertex under a name that is
    neither a vertex nor a key of the realization, in a framework whose
    edges join vertices, and deleting it again gives back the framework
    as it was: the vertices in their order, the edges and the
    realization. *)
Theorem add_then_delete_vertex
        (self : Framework) (point : Point) (vertex : option Vertex) :
  let v := name_of self vertex in
  ~ In v (vertices (_graph self)) ->
  contains v (_realization self) = false ->
  edges_join_vertices self = true ->
  (add_vertex point vertex ;; delete_vertex v) self = (Return tt, self).
Proof.
  cbn zeta. intros Hv Hc He.
  pose proof (add_vertex_step self point vertex) as Hstep.
  set (v := name_of self vertex) in *.
  assert (Hmem := Hv). apply mem_false in Hmem. rewrite Hmem in Hstep.
  rewrite (bind_Return _ _ _ _ _ Hstep). rewrite delete_vertex_step.
  cbn [_graph _realization _dim vertices nodes edge_list].
  assert (Hin : mem v (nodes (_graph self) ++ [v]) = true).
  { apply mem_In, in_or_app. right. left. reflexivity. }
  rewrite Hin. cbn zeta.
  assert (Hk : contains v (setitem v (Matrix_of_point point) (_realization self)) = true).
  { unfold contains. rewrite dict_get_setitem_same. reflexivity. }
  rewrite Hk. f_equal. destruct self as [r [ns es] d].
  cbn [_graph _realization _dim vertices nodes edge_list] in *.
  rewrite filter_setitem_new by assumption.
  f_equal. f_equal.
  - rewrite filter_app. cbn [filter]. rewrite Z.eqb_refl. cbn [negb].
    rewrite app_nil_r. apply filter_all. intros w Hw.
    apply negb_true_iff, Z.eqb_neq. intros ->. contradiction.
  - apply filter_all. intros e Hin'.
    unfold edges_join_vertices in He. cbn [_graph vertices edges nodes edge_list] in He.
    rewrite forallb_forall in He. specialize (He e Hin').
    apply andb_true_iff in He. destruct He as [H1 H2]. apply mem_In in H1, H2.
    apply negb_true_iff. unfold incident. apply orb_false_iff.
    split; apply Z.eqb_neq; intros E; rewrite E in *; contradiction.
Qed.

(** On the triangle: the vertex 9, and the vertex named by default. *)
Lemma add_then_delete_vertex_triangle :
  (add_vertex (point [4; 4]%Z) (Some 9%Z) ;; delete_vertex 9%Z) triangle
  = (Return tt, triangle) /\
  (add_vertex (point [4; 4]%Z) None ;; delete_vertex 3%Z) triangle
  = (Return tt, triangle).
Proof.
  split.
  - apply (add_then_delete_vertex triangle (point [4; 4]%Z) (Some 9%Z)).
    + change (vertices (_graph triangle)) with [0; 1; 2]%Z. simpl. lia.
    + reflexivity.
    + reflexivity.
  - apply (add_then_delete_vertex triangle (point [4; 4]%Z) None).
    + change (vertices (_graph triangle)) with [0; 1; 2]%Z.
      change (name_of triangle None) with 3%Z. simpl. lia.
    + reflexivity.
    + reflexivity.
Defined.

(** X7. On a framework that satisfies the
    invariant, [delete_vertices(vertices)] returns exactly when the names
    are distinct vertices of the graph.  When it returns, the vertices
    left are the vertices that were not listed.  Otherwise it raises
    [NetworkXError] at the first name that is not a vertex or was
    listed before (a name listed twice fails at its second occurrence),
    the vertices before that name being deleted.  The invariant holds
    afterwards in every case. *)
Theorem delete_vertices_distinct (self : Framework) (vs : list Vertex) :
  invariant self = true ->
  let self' := exec (delete_vertices vs) self in
  (run (delete_vertices vs) self = Return tt <->
   NoDup vs /\ forall v, In v vs -> In v (vertices (_graph self))) /\
  (run (delete_vertices vs) self = Return tt ->
   forall w, In w (vertices (_graph self')) <->
             In w (vertices (_graph self)) /\ ~ In w vs) /\
  invariant self' = true /\
  (forall e, run (delete_vertices vs) self = Raise e ->
     e = NetworkXError /\
     exists k v,
       nth_error vs k = Some v /\
       NoDup (firstn k vs) /\
       (forall w, In w (firstn k vs) -> In w (vertices (_graph self))) /\
       (In v (firstn k vs) \/ ~ In v (vertices (_graph self))) /\
       forall w, In w (vertices (_graph self')) <->
                 In w (vertices (_graph self)) /\ ~ In w (firstn k vs)).
Proof.
  revert self. unfold delete_vertices.
  induction vs as [|v vs IH]; intros self Hinv; cbn zeta.
  - cbn [forM]. unfold run, exec, ret. cbn [fst snd].
    split; [|split; [|split; [assumption|discriminate]]].
    + split; [intros _; split; [constructor|intros v []]|reflexivity].
    + intros _ w. simpl. tauto.
  - cbn [forM]. unfold run, exec.
    pose proof (delete_vertex_invariant self v Hinv) as [Hinv1 _].
    unfold exec in Hinv1.
    pose proof (delete_vertex_step self v) as Hstep.
    destruct (mem v (vertices (_graph self))) eqn:Hmem.
    + apply mem_In in Hmem.
      assert (Hc : contains v (_realization self) = true).
      { unfold invariant in Hinv. rewrite forallb_forall in Hinv.
        specialize (Hinv v Hmem). unfold contains.
        destruct (dict_get v (_realization self)); [reflexivity|discriminate]. }
      rewrite Hc in Hstep. cbn zeta in Hstep.
      rewrite Hstep in Hinv1. cbn [snd] in Hinv1.
      rewrite (bind_Return _ _ _ _ _ Hstep).
      set (s1 := mkFramework _ _ _) in *.
      destruct (IH s1 Hinv1) as [Hiff [Hok [Hinv' Hfail]]]. cbn zeta in *.
      unfold run, exec in *.
      assert (Hvs1 : forall w, In w (vertices (_graph s1)) <->
                               In w (vertices (_graph self)) /\ w <> v).
      { intro w. cbn [s1 _graph vertices nodes]. apply in_filter_ne. }
      split; [|split; [|split; [assumption|]]].
      * rewrite Hiff. split.
        -- intros [Hnd Hall]. split.
           ++ constructor; [|assumption]. intro Hin. apply Hall, Hvs1 in Hin. tauto.
           ++ intros w [<-|Hw]; [assumption|]. apply Hall, Hvs1 in Hw. tauto.
        -- intros [Hnd Hall]. inversion Hnd as [|? ? Hv Hnd']; subst.
           split; [assumption|]. intros w Hw. apply Hvs1. split.
           ++ apply Hall. right. assumption.
           ++ intros ->. contradiction.
      * intros H w. rewrite (Hok H w), Hvs1. simpl. intuition congruence.
      * intros e He.
        destruct (Hfail e He) as [-> [k [u [Hnth [Hnd [Hall [Hsecond Hleft]]]]]]].
        split; [reflexivity|]. exists (S k), u. cbn [nth_error firstn].
        split; [exact Hnth|]. split; [|split; [|split]].
        -- constructor; [|assumption]. intro Hin. apply Hall, Hvs1 in Hin. tauto.
        -- intros w [<-|Hw]; [assumption|]. apply Hall, Hvs1 in Hw. tauto.
        -- destruct (Z.eq_dec u v) as [->|Hne]; [left; left; reflexivity|].
           destruct Hsecond as [Hin|Hout]; [left; right; assumption|].
           right. intro Hin. apply Hout, Hvs1. split; assumption.
        -- intro w. rewrite (Hleft w), Hvs1. simpl. intuition congruence.
    + rewrite Hstep in Hinv1. cbn [snd] in Hinv1.
      rewrite (bind_Raise _ _ _ _ _ Hstep). cbn [fst snd].
      apply mem_false in Hmem.
      split; [|split; [discriminate|split; [assumption|]]].
      * split; [discriminate|]. intros [_ Hall]. exfalso. apply Hmem, Hall.
        left. reflexivity.
      * intros e He. injection He as <-. split; [reflexivity|].
        exists 0%nat, v. cbn [nth_error firstn].
        split; [reflexivity|]. split; [constructor|].
        split; [intros w []|]. split; [right; assumption|].
        intro w. simpl. tauto.
Qed.

(** On the triangle the vertices 0 and 2 can be deleted in one call, the
    vertex 0 twice cannot. *)
Lemma delete_vertices_distinct_triangle :
  run (delete_vertices [0; 2]%Z) triangle = Return tt /\
  run (delete_vertices [0; 0]%Z) triangle <> Return tt.
Proof.
  split.
  - apply (proj1 (delete_vertices_distinct triangle [0; 2]%Z eq_refl)).
    split.
    + repeat constructor; simpl; intuition discriminate.
    + change (vertices (_graph triangle)) with [0; 1; 2]%Z. simpl. intuition.
  - intro H. apply (proj1 (delete_vertices_distinct triangle [0; 0]%Z eq_refl)) in H.
    destruct H as [H _]. inversion H as [|? ? Hin _]. apply Hin. left. reflexivity.
Defined.

(* ================================================================== *)
(** * Adding edges *)

(** [add_edge] in one step. *)
Lemma add_edge_step (self : Framework) (e : Edge) :
  add_edge e self =
  if mem (fst e) (vertices (_graph self)) && mem (snd e) (vertices (_graph self))
  then (Return tt,
        mkFramework (_realization self)
                    (mkGraph (nodes (_graph self))
                             (if existsb (same_edge e) (edge_list (_graph self))
                              then edge_list (_graph self)
                              else edge_list (_graph self) ++ [e]))
                    (_dim self))
  else (Raise AssertionError, self).
Proof.
  destruct self as [r [ns es] d].
  cbv [add_edge bind get lift assert_ set__graph].
  cbn [_realization _graph _dim vertices nodes edge_list].
  destruct (mem (fst e) ns) eqn:H1; cbn [andb]; [|reflexivity].
  destruct (mem (snd e) ns) eqn:H2; [|reflexivity].
  cbn [fst snd]. unfold Graph_add_edge, Graph_add_node.
  cbn [nodes edge_list]. rewrite H1. cbn [nodes edge_list]. rewrite H2.
  cbn [nodes edge_list]. destruct (existsb (same_edge e) es); reflexivity.
Qed.

(** The loop of [add_edges]. *)
Lemma forM_add_edge (es : list Edge) (self : Framework) :
  let self' := exec (forM add_edge es) self in
  (vertices (_graph self') = vertices (_graph self) /\
   _realization self' = _realization self /\
   _dim self' = _dim self) /\
  (run (forM add_edge es) self = Return tt <->
   forall e, In e es ->
             In (fst e) (vertices (_graph self)) /\ In (snd e) (vertices (_graph self))) /\
  (forall x, run (forM add_edge es) self = Raise x -> x = AssertionError) /\
  (forall f, In f (edges (_graph self)) -> In f (edges (_graph self'))) /\
  (forall f, In f (edges (_graph self')) -> In f (edges (_graph self)) \/ In f es) /\
  (run (forM add_edge es) self = Return tt ->
   forall e, In e es -> existsb (same_edge e) (edges (_graph self')) = true).
Proof.
  revert self. induction es as [|e es IH]; intro self; cbn zeta.
  - cbn [forM]. unfold run, exec, ret. cbn [fst snd].
    repeat split; auto; try discriminate; intros; simpl in *; tauto.
  - cbn [forM]. unfold run, exec.
    pose proof (add_edge_step self e) as Hstep.
    destruct (mem (fst e) (vertices (_graph self)) && mem (snd e) (vertices (_graph self)))
      eqn:Hj.
    + rewrite (bind_Return _ _ _ _ _ Hstep).
      set (s1 := mkFramework _ _ _).
      destruct (IH s1) as [[Hv [Hr Hd]] [Hiff [Hraise [Hmono [Hfrom Hnew]]]]].
      cbn zeta in *. unfold run, exec in *.
      apply andb_true_iff in Hj. destruct Hj as [H1 H2]. apply mem_In in H1, H2.
      assert (Hmono1 : forall f, In f (edges (_graph self)) -> In f (edges (_graph s1))).
      { intros f Hf. cbn [s1 _graph edges edge_list].
        destruct (existsb _ _); [assumption|apply in_or_app; left; assumption]. }
      assert (Hfrom1 : forall f, In f (edges (_graph s1)) ->
                                 In f (edges (_graph self)) \/ f = e).
      { intros f Hf. cbn [s1 _graph edges edge_list] in Hf.
        destruct (existsb _ _); [left; assumption|].
        apply in_app_or in Hf. destruct Hf as [Hf|[<-|[]]]; auto. }
      split; [|split; [|split; [|split; [|split]]]].
      * rewrite Hv, Hr, Hd. repeat split.
      * rewrite Hiff. cbn [s1 _graph vertices nodes]. split.
        -- intros H f [<-|Hf]; auto.
        -- intros H f Hf. apply H. right. assumption.
      * assumption.
      * intros f Hf. apply Hmono, Hmono1. assumption.
      * intros f Hf. apply Hfrom in Hf. destruct Hf as [Hf|Hf]; [|right; right; assumption].
        apply Hfrom1 in Hf. destruct Hf as [Hf| ->]; [left|right; left]; auto.
      * intros H f [<-|Hf]; [|apply Hnew; assumption].
        apply existsb_exists.
        assert (Hex : existsb (same_edge e) (edges (_graph s1)) = true).
        { cbn [s1 _graph edges edge_list].
          destruct (existsb (same_edge e) (edge_list (_graph self))) eqn:Hex; [assumption|].
          rewrite existsb_app, Hex. simpl. rewrite same_edge_refl. reflexivity. }
        apply existsb_exists in Hex. destruct Hex as [f [Hf Hs]].
        exists f. split; [apply Hmono; assumption|assumption].
    + rewrite (bind_Raise _ _ _ _ _ Hstep). cbn [fst snd].
      split; [repeat split|]. split; [|split; [|split; [|split]]].
      * split; [discriminate|]. intro H. exfalso.
        destruct (H e (or_introl eq_refl)) as [H1 H2]. apply mem_In in H1, H2.
        rewrite H1, H2 in Hj. discriminate.
      * intros x Hx. congruence.
      * auto.
      * auto.
      * discriminate.
Qed.

(** X8. [add_edges(edges)] returns exactly when every
    edge of the list joins two vertices of the graph, and raises
    [AssertionError] at the first edge that does not; the edges before
    that one stay added.  Whatever the outcome, the vertices, the
    realization and the dimension are as before and no edge is lost;
    when it returns, every listed edge is in the graph in one of its two
    directions. *)
Theorem add_edges_checks (self : Framework) (es : list Edge) :
  let self' := exec (add_edges es) self in
  (vertices (_graph self') = vertices (_graph self) /\
   _realization self' = _realization self /\
   _dim self' = _dim self) /\
  (run (add_edges es) self = Return tt <->
   forall e, In e es ->
             In (fst e) (vertices (_graph self)) /\ In (snd e) (vertices (_graph self))) /\
  (forall x, run (add_edges es) self = Raise x -> x = AssertionError) /\
  (forall f, In f (edges (_graph self)) -> In f (edges (_graph self'))) /\
  (forall f, In f (edges (_graph self')) -> In f (edges (_graph self)) \/ In f es) /\
  (run (add_edges es) self = Return tt ->
   forall e, In e es -> existsb (same_edge e) (edges (_graph self')) = true) /\
  (forall pre bad post,
     es = pre ++ bad :: post ->
     run (add_edges pre) self = Return tt ->
     ~ (In (fst bad) (vertices (_graph self)) /\ In (snd bad) (vertices (_graph self))) ->
     add_edges es self = (Raise AssertionError, exec (add_edges pre) self)).
Proof.
  cbn zeta. unfold add_edges.
  destruct (forM_add_edge es self) as [H1 [H2 [H3 [H4 [H5 H6]]]]]. cbn zeta in *.
  repeat (split; [assumption|]).
  intros pre bad post -> Hpre Hbad.
  clear H1 H2 H3 H4 H5 H6. revert self Hpre Hbad.
  induction pre as [|e pre IH]; intros self Hpre Hbad.
  - cbn [app forM]. unfold exec, ret. cbn [snd].
    pose proof (add_edge_step self bad) as Hstep.
    destruct (mem (fst bad) (vertices (_graph self)) && mem (snd bad) (vertices (_graph self)))
      eqn:Hj.
    + exfalso. apply Hbad. apply andb_true_iff in Hj.
      destruct Hj as [Ha Hb]. apply mem_In in Ha, Hb. auto.
    + apply (bind_Raise _ _ _ _ _ Hstep).
  - cbn [app forM] in *. unfold run, exec in *.
    pose proof (add_edge_step self e) as Hstep.
    destruct (mem (fst e) (vertices (_graph self)) && mem (snd e) (vertices (_graph self))).
    + rewrite (bind_Return _ _ _ _ _ Hstep) in Hpre.
      rewrite !(bind_Return _ _ _ _ _ Hstep).
      apply IH; assumption.
    + rewrite (bind_Raise _ _ _ _ _ Hstep) in Hpre. discriminate.
Qed.

(* ================================================================== *)
(** * Replacing the realization *)

Lemma run_set_realization_loop_eq (r : Dict) (vs : list Vertex) (self : Framework) :
  run (set_realization_loop r vs) self =
  if forallb (realizes r (_dim self)) vs then Return tt else Raise AssertionError.
Proof.
  unfold set_realization_loop.
  set (body := fun v : Vertex =>
                 lift (assert_ (contains v r)) ;;
                 p <- lift (getitem r v) ;;
                 d <- dimension ;;
                 lift (assert_ (Z.of_nat (len p) =? d)%Z)).
  assert (Hq : forall v, query (body v)).
  { intro v. unfold body, dimension. auto 10 with query. }
  assert (Hb : forall v, run (body v) self
                         = if realizes r (_dim self) v then Return tt
                           else Raise AssertionError).
  { intro v. cbv [body run bind lift contains getitem dimension dim get ret assert_ realizes].
    destruct (dict_get v r) as [p|]; cbn [fst]; [|reflexivity].
    destruct (Z.of_nat (len p) =? _dim self)%Z; reflexivity. }
  induction vs as [|v vs IH]; [reflexivity|].
  cbn [forM forallb]. unfold run at 1.
  rewrite bind_query by apply Hq. rewrite Hb.
  destruct (realizes r (_dim self) v); cbn [andb fst]; [exact IH|reflexivity].
Qed.

Lemma set_realization_step (self : Framework) (r : Dict) :
  set_realization r self =
  if forallb (realizes r (_dim self)) (vertices (_graph self))
  then (Return tt, mkFramework r (_graph self) (_dim self))
  else (Raise AssertionError, self).
Proof.
  unfold set_realization.
  rewrite bind_query by auto with query.
  change (run get self) with (Return self). cbv iota.
  rewrite bind_query by apply query_set_realization_loop.
  rewrite run_set_realization_loop_eq.
  destruct (forallb _ _); reflexivity.
Qed.

(** X9. [set_realization(realization)] returns
    exactly when every vertex of the graph is a key of the new dict with
    a value of length [dim]; the dict is then stored as it was passed,
    with its other keys and with its values unconverted, and
    [get_realization()] gives it back.  Otherwise the call raises
    [AssertionError] and the framework is unchanged. *)
Theorem set_realization_checks (self : Framework) (r : Dict) :
  let ok := forallb (realizes r (_dim self)) (vertices (_graph self)) in
  set_realization r self =
    (if ok then (Return tt, mkFramework r (_graph self) (_dim self))
     else (Raise AssertionError, self)) /\
  run (set_realization r ;; get_realization) self =
    (if ok then Return r else Raise AssertionError) /\
  (ok = true -> invariant (exec (set_realization r) self) = true).
Proof.
  cbn zeta. split; [apply set_realization_step|]. split.
  - unfold run, bind. rewrite set_realization_step.
    destruct (forallb _ _); reflexivity.
  - intro Hok. unfold exec. rewrite set_realization_step, Hok. exact Hok.
Qed.

(* ================================================================== *)
(** * Values that are not matrices *)

Lemma mapO_Raise {A B : Type} (f : A -> outcome B) (l : list A) (e : exn) :
  (forall a, In a l -> f a = Raise e \/ exists b, f a = Return b) ->
  (exists a, In a l /\ f a = Raise e) ->
  mapO f l = Raise e.
Proof.
  induction l as [|a l IH]; intros Hall [a' [Hin Hraise]]; [destruct Hin|].
  cbn [mapO]. destruct (Hall a (or_introl eq_refl)) as [Ha|[b Ha]]; rewrite Ha.
  - reflexivity.
  - cbn [obind]. rewrite IH; [reflexivity| |].
    + intros x Hx. apply Hall. right. assumption.
    + destruct Hin as [<-|Hin]; [congruence|]. exists a'. auto.
Qed.

Lemma dict_get_values (k : Vertex) (d : Dict) (p : Point) :
  dict_get k d = Some p -> In p (values d).
Proof.
  induction d as [|[k' q] d IH]; cbn [dict_get values map snd]; [discriminate|].
  destruct (Z.eqb k k'); [intro H; injection H as ->; left; reflexivity|].
  intro H. right. apply IH. assumption.
Qed.

(** A row whose first end point is realized and one of whose end points
    holds a plain sequence is not computed. *)
Lemma rigidity_row_plain (r : Dict) (order : list Vertex) (u v : Vertex) (pu pv : Point) :
  order <> [] ->
  dict_get u r = Some pu ->
  dict_get v r = Some pv ->
  is_plain pu || is_plain pv = true ->
  rigidity_row r order (u, v) = Raise TypeError.
Proof.
  intros Ho Hu Hv Hp. destruct order as [|w order]; [congruence|].
  unfold rigidity_row. cbn [mapO fst snd]. unfold getitem. rewrite Hu, Hv.
  cbn [obind]. destruct pu, pv; try discriminate; reflexivity.
Qed.

Lemma run_bind_Return {A B : Type} (m : M A) (k : A -> M B) (self s : Framework) (a : A) :
  m self = (Return a, s) -> run (bind m k) self = run (k a) s.
Proof. intro H. unfold run. rewrite (bind_Return _ _ _ _ _ H). reflexivity. Qed.

(** X10. The values of the dict
    passed to [set_realization] are not converted to matrices.  When the
    edges join vertices, there is at least one edge and the accepted dict
    holds plain sequences, every later [rigidity_matrix()] and
    [rigidity_matrix_rank()] raises [TypeError], and so does
    [is_infinitesimally_rigid()] on two vertices or more. *)
Theorem plain_realization_breaks_rigidity_matrix
        (self : Framework) (r : Dict) (edges_ordered : bool) :
  run (set_realization r) self = Return tt ->
  edges_join_vertices self = true ->
  edges (_graph self) <> [] ->
  forallb is_plain (values r) = true ->
  run (set_realization r ;; rigidity_matrix None edges_ordered) self = Raise TypeError /\
  run (set_realization r ;; rigidity_matrix_rank) self = Raise TypeError /\
  ((2 <= length (vertices (_graph self)))%nat ->
   run (set_realization r ;; is_infinitesimally_rigid) self = Raise TypeError).
Proof.
  intros Hrun Hjoin Hne Hplain.
  pose proof (set_realization_step self r) as Hstep.
  unfold run in Hrun. rewrite Hstep in Hrun.
  destruct (forallb (realizes r (_dim self)) (vertices (_graph self))) eqn:Hok;
    [|discriminate].
  clear Hrun. set (s1 := mkFramework r (_graph self) (_dim self)) in *.
  rewrite forallb_forall in Hok, Hplain.
  unfold edges_join_vertices in Hjoin. rewrite forallb_forall in Hjoin.
  assert (Hentry : forall u, In u (vertices (_graph self)) ->
                             exists p, dict_get u r = Some p /\ is_plain p = true).
  { intros u Hu. specialize (Hok u Hu). unfold realizes in Hok.
    destruct (dict_get u r) as [p|] eqn:Hget; [|discriminate].
    exists p. split; [reflexivity|]. apply Hplain. apply dict_get_values with u. assumption. }
  assert (Hmatrix : forall eo, run (rigidity_matrix None eo) s1 = Raise TypeError).
  { intro eo. rewrite run_rigidity_matrix by exact I. cbn [order_of].
    pose proof (edge_order_of_perm s1 eo) as Hperm.
    assert (Hrow : forall e, In e (edge_order_of s1 eo) ->
               rigidity_row (_realization s1) (sorted (vertices (_graph s1))) e
               = Raise TypeError).
    { intros [u v] He. apply (Permutation_in _ Hperm) in He.
      specialize (Hjoin (u, v) He). cbn [fst snd] in Hjoin.
      apply andb_true_iff in Hjoin. destruct Hjoin as [Hu Hv]. apply mem_In in Hu, Hv.
      destruct (Hentry u Hu) as [pu [Hgu Hpu]]. destruct (Hentry v Hv) as [pv [Hgv _]].
      apply rigidity_row_plain with (pu := pu) (pv := pv); try assumption.
      - intro Hnil.
        assert (Hp : Permutation (sorted (vertices (_graph s1))) (vertices (_graph s1)))
          by apply sorted_by_perm.
        rewrite Hnil in Hp. apply Permutation_nil in Hp.
        cbn [s1 _graph] in Hp. rewrite Hp in Hu. destruct Hu.
      - rewrite Hpu. reflexivity. }
    rewrite mapO_Raise with (e := TypeError); [reflexivity| |].
    - intros e He. left. apply Hrow. assumption.
    - destruct (edge_order_of s1 eo) as [|e es] eqn:Heo.
      + apply Permutation_nil in Hperm. cbn [s1 _graph] in Hperm. congruence.
      + exists e. split; [left; reflexivity|]. apply Hrow. left. reflexivity. }
  split; [|split].
  - rewrite (run_bind_Return _ _ _ _ _ Hstep). apply Hmatrix.
  - rewrite (run_bind_Return _ _ _ _ _ Hstep).
    unfold run, rigidity_matrix_rank. rewrite bind_query by auto with query.
    rewrite Hmatrix. reflexivity.
  - intro Hn. rewrite (run_bind_Return _ _ _ _ _ Hstep).
    rewrite run_is_infinitesimally_rigid. cbn [s1 _graph].
    destruct (Z.leb_spec (Z.of_nat (length (vertices (_graph self)))) 1) as [H|H]; [lia|].
    fold s1. rewrite Hmatrix. reflexivity.
Qed.

(** The triangle with its points given as lists. *)
Lemma plain_realization_breaks_rigidity_matrix_triangle :
  run (set_realization (realization_of [(0, [0; 0]); (1, [1; 0]); (2, [0; 1])]%Z) ;;
       rigidity_matrix None true) triangle = Raise TypeError.
Proof.
  apply (plain_realization_breaks_rigidity_matrix triangle
           (realization_of [(0, [0; 0]); (1, [1; 0]); (2, [0; 1])]%Z) true);
    try reflexivity.
  vm_compute. discriminate.
Defined.

(* ================================================================== *)
(** * The rank of the rigidity matrix *)

Lemma nil_or_in {A : Type} (l : list A) : l = [] \/ exists a, In a l.
Proof. destruct l as [|a l]; [left; reflexivity|right; exists a; left; reflexivity]. Qed.

Lemma row_reduce_count (n j : nat) (done rest : list vec) (pivots : list nat)
      (d r : list vec) (p : list nat) :
  row_reduce n j done rest pivots = (d, r, p) ->
  (length p + length r = length pivots + length rest)%nat.
Proof.
  revert j done rest pivots. induction n as [|n IH]; intros j done rest pivots H.
  - simpl in H. injection H as <- <- <-. reflexivity.
  - simpl in H. destruct (find_pivot j rest) as [[q rest']|] eqn:Hf.
    + apply IH in H. rewrite length_app, length_map in H. simpl in H.
      apply find_pivot_Some in Hf. destruct Hf as [Hperm _].
      apply Permutation_length in Hperm. simpl in Hperm. lia.
    + apply IH in H. assumption.
Qed.

(** The rank is at most the number of rows. *)
Lemma rank_le_rows (m : Matrix) : (rank m <= length (entries m))%nat.
Proof.
  unfold rank, rref.
  destruct (row_reduce (cols m) 0 [] (entries m) []) as [[d r] p] eqn:H.
  apply row_reduce_count in H. simpl in *. lia.
Qed.

(** A matrix whose solutions are solutions of a second matrix with as
    many columns has at least the rank of the second. *)
Lemma rank_kernel_incl (m1 m2 : Matrix) :
  well_shaped m1 -> well_shaped m2 -> cols m1 = cols m2 ->
  (forall x, length x = cols m1 -> annihilates x (entries m1) ->
             annihilates x (entries m2)) ->
  (rank m2 <= rank m1)%nat.
Proof.
  intros Hws1 Hws2 Hc Hker.
  destruct (nullspace_basis m1 Hws1) as [Hs1 [Hi1 _]].
  destruct (nullspace_basis m2 Hws2) as [Hs2 [_ Hsp2]].
  assert (Hle : (length (nullspace m1) <= length (nullspace m2))%nat).
  { apply (exchange (cols m1)).
    - intros y Hy. rewrite Hc. apply Hs2. assumption.
    - assumption.
    - intros x Hx. destruct (Hs1 x Hx) as [Hlen Hann]. rewrite Hc.
      apply Hsp2; [congruence|]. apply Hker; assumption. }
  rewrite !length_nullspace in Hle by assumption.
  pose proof (rank_le_cols m1 Hws1). pose proof (rank_le_cols m2 Hws2). lia.
Qed.

Lemma rank_same_kernel (m1 m2 : Matrix) :
  well_shaped m1 -> well_shaped m2 -> cols m1 = cols m2 ->
  (forall x, length x = cols m1 ->
             (annihilates x (entries m1) <-> annihilates x (entries m2))) ->
  rank m1 = rank m2.
Proof.
  intros Hws1 Hws2 Hc Hker. apply Nat.le_antisymm.
  - apply rank_kernel_incl; try assumption; [congruence|].
    intros x Hx. apply Hker. congruence.
  - apply rank_kernel_incl; try assumption.
    intros x Hx. apply Hker. assumption.
Qed.

Lemma rank_no_rows (m : Matrix) : entries m = [] -> rank m = 0%nat.
Proof. intro H. pose proof (rank_le_rows m) as Hle. rewrite H in Hle. simpl in Hle. lia. Qed.

Lemma mapO_length {A B : Type} (f : A -> outcome B) (l : list A) (ys : list B) :
  mapO f l = Return ys -> length ys = length l.
Proof.
  revert ys. induction l as [|a l IH]; intros ys H; simpl in H.
  - injection H as <-. reflexivity.
  - destruct (f a) as [b|e]; [|discriminate]. simpl in H.
    destruct (mapO f l) as [bs|e]; [|discriminate]. simpl in H.
    injection H as <-. simpl. f_equal. apply IH. reflexivity.
Qed.

Lemma run_rigidity_matrix_rejected (self : Framework) (l : list Vertex) (eo : bool) :
  set_eqb (vertices (_graph self)) l = false ->
  run (rigidity_matrix (Some l) eo) self = Raise AssertionError.
Proof.
  intro H. unfold run, rigidity_matrix. rewrite bind_query by auto with query.
  change (run get self) with (Return self). cbv iota.
  cbv [bind lift ret assert_]. rewrite H. reflexivity.
Qed.

(** What a returned rigidity matrix is made of. *)
Lemma rigidity_matrix_Return (self : Framework) (vo : option (list Vertex)) (eo : bool)
      (m : Matrix) :
  run (rigidity_matrix vo eo) self = Return m ->
  exists rws,
    mapO (rigidity_row (_realization self) (order_of self vo)) (edge_order_of self eo)
    = Return rws /\
    Matrix_of_rows rws = Return m /\
    incl (entries m) rws /\
    well_shaped m.
Proof.
  intro H.
  assert (Hvo : match vo with
                | Some l => set_eqb (vertices (_graph self)) l = true
                | None => True
                end).
  { destruct vo as [l|]; [|exact I].
    destruct (set_eqb (vertices (_graph self)) l) eqn:E; [reflexivity|].
    rewrite run_rigidity_matrix_rejected in H by assumption. discriminate. }
  rewrite run_rigidity_matrix in H by assumption.
  destruct (mapO _ _) as [rws|e]; [|discriminate]. cbn [obind] in H.
  exists rws. split; [reflexivity|]. split; [assumption|]. split.
  - unfold Matrix_of_rows in H.
    destruct rws as [|r rs].
    + injection H as <-. intros x [].
    + destruct (forallb _ _); [|discriminate]. injection H as <-. cbn [entries].
      apply incl_refl.
  - apply Matrix_of_rows_well_shaped with rws. assumption.
Qed.

Lemma rigidity_matrix_rows_le (self : Framework) (vo : option (list Vertex)) (eo : bool)
      (m : Matrix) :
  run (rigidity_matrix vo eo) self = Return m ->
  (length (entries m) <= length (edges (_graph self)))%nat.
Proof.
  intro H. destruct (rigidity_matrix_Return self vo eo m H) as [rws [Hmap [Hm _]]].
  apply mapO_length in Hmap.
  rewrite (Permutation_length (edge_order_of_perm self eo)) in Hmap. rewrite <- Hmap.
  destruct (Matrix_of_rows_entries _ _ Hm) as [-> _]. apply Nat.le_refl.
Qed.

(** X11. The rank [rigidity_matrix_rank()] returns
    is at most the number of edges.  So a framework on two vertices or
    more that [is_infinitesimally_rigid()] reports as rigid has at least
    [dim * |V| - dim * (dim + 1) // 2] edges. *)
Theorem rigid_needs_enough_edges (self : Framework) :
  (forall r, run rigidity_matrix_rank self = Return r ->
             (r <= length (edges (_graph self)))%nat) /\
  (run is_infinitesimally_rigid self = Return true ->
   (2 <= length (vertices (_graph self)))%nat ->
   exists r,
     run rigidity_matrix_rank self = Return r /\
     (r <= length (edges (_graph self)))%nat /\
     (_dim self * Z.of_nat (length (vertices (_graph self)))
      - _dim self * (_dim self + 1) / 2
      <= Z.of_nat (length (edges (_graph self))))%Z).
Proof.
  assert (Hle : forall m, run (rigidity_matrix None true) self = Return m ->
                          (rank m <= length (edges (_graph self)))%nat).
  { intros m Hm. eapply Nat.le_trans; [apply rank_le_rows|].
    eapply rigidity_matrix_rows_le. exact Hm. }
  assert (Hrun : forall m, run (rigidity_matrix None true) self = Return m ->
                           run rigidity_matrix_rank self = Return (rank m)).
  { intros m Hm. unfold run, rigidity_matrix_rank.
    rewrite bind_query by auto with query. rewrite Hm. reflexivity. }
  split.
  - intros r Hr.
    destruct (run (rigidity_matrix None true) self) as [m|e] eqn:Hm.
    + rewrite (Hrun m eq_refl) in Hr. injection Hr as <-. apply Hle. reflexivity.
    + unfold run, rigidity_matrix_rank in Hr.
      rewrite bind_query in Hr by auto with query. rewrite Hm in Hr. discriminate.
  - intros Hrigid Hn. rewrite run_is_infinitesimally_rigid in Hrigid.
    destruct (Z.leb_spec (Z.of_nat (length (vertices (_graph self)))) 1) as [H|_]; [lia|].
    destruct (run (rigidity_matrix None true) self) as [m|e] eqn:Hm; [|discriminate].
    injection Hrigid as Hrank. apply Z.eqb_eq in Hrank.
    pose proof (Hle m eq_refl) as Hm_le.
    exists (rank m). split; [|split].
    + apply Hrun. reflexivity.
    + assumption.
    + rewrite <- Hrank. lia.
Qed.

(** The triangle in the plane: rank 3, three edges, [2 * 3 - 3 = 3]. *)
Lemma rigid_needs_enough_edges_triangle :
  exists r, run rigidity_matrix_rank triangle = Return r /\
            (r <= 3)%nat /\ (2 * 3 - 2 * (2 + 1) / 2 <= 3)%Z.
Proof.
  exact (proj2 (rigid_needs_enough_edges triangle)
           ltac:(vm_compute; reflexivity) ltac:(vm_compute; lia)).
Defined.

(** X12. On a framework without edges the rigidity
    matrix is the 0 x 0 matrix and its rank is 0, whatever the
    realization holds; [is_infinitesimally_rigid()] then returns true
    exactly when there is at most one vertex or
    [dim * |V| = dim * (dim + 1) // 2].  Two points of 3-space without an
    edge are reported rigid. *)
Theorem edgeless_rigidity (self : Framework) :
  edges (_graph self) = [] ->
  let n := Z.of_nat (length (vertices (_graph self))) in
  run (rigidity_matrix None true) self = Return (mkMatrix 0 0 []) /\
  run rigidity_matrix_rank self = Return 0%nat /\
  run is_infinitesimally_rigid self
  = Return ((n <=? 1)%Z || (0 =? _dim self * n - _dim self * (_dim self + 1) / 2)%Z).
Proof.
  intros He n.
  assert (Hm : run (rigidity_matrix None true) self = Return (mkMatrix 0 0 [])).
  { rewrite run_rigidity_matrix by exact I. cbn [edge_order_of]. rewrite He. reflexivity. }
  split; [assumption|]. split.
  - unfold run, rigidity_matrix_rank. rewrite bind_query by auto with query.
    rewrite Hm. reflexivity.
  - rewrite run_is_infinitesimally_rigid. fold n. rewrite Hm.
    destruct (n <=? 1)%Z; reflexivity.
Qed.

(** Two points of 3-space are reported rigid without an edge, and not
    rigid once the edge between them is there. *)
Lemma edgeless_rigidity_two_points_space :
  run is_infinitesimally_rigid two_points_space = Return true /\
  run is_infinitesimally_rigid segment_space = Return false.
Proof.
  split.
  - exact (proj2 (proj2 (edgeless_rigidity two_points_space eq_refl))).
  - vm_compute. reflexivity.
Defined.

(* ================================================================== *)
(** * The order and the number of the rows *)

Lemma mapO_Return_inv {A B : Type} (d : B) (f : A -> outcome B) (l : list A) (ys : list B) :
  mapO f l = Return ys ->
  (forall a, In a l -> f a = Return (value_or d (f a))) /\
  ys = map (fun a => value_or d (f a)) l.
Proof.
  revert ys. induction l as [|a l IH]; intros ys H; simpl in H.
  - injection H as <-. split; [intros a []|reflexivity].
  - destruct (f a) as [b|e] eqn:Ha; [|discriminate]. simpl in H.
    destruct (mapO f l) as [bs|e]; [|discriminate]. simpl in H. injection H as <-.
    destruct (IH bs eq_refl) as [Hall Hbs]. split.
    + intros x [<-|Hx]; [rewrite Ha; reflexivity|auto].
    + simpl. rewrite Ha. simpl. f_equal. assumption.
Qed.

(** [Matrix] of the same rows in another order. *)
Lemma Matrix_of_rows_perm (dat dat' : list (list Qc)) (m : Matrix) :
  Permutation dat dat' ->
  Matrix_of_rows dat = Return m ->
  exists m', Matrix_of_rows dat' = Return m' /\
             Permutation (entries m) (entries m') /\
             rows m' = rows m /\ cols m' = cols m.
Proof.
  intros Hf H. unfold Matrix_of_rows in *.
  destruct dat as [|r rs].
  - injection H as <-. apply Permutation_nil in Hf. rewrite Hf.
    eexists. split; [reflexivity|]. repeat split. constructor.
  - destruct (forallb _ (r :: rs)) eqn:Hall; [|discriminate]. injection H as <-.
    rewrite forallb_forall in Hall.
    destruct dat' as [|r' rs'].
    + apply Permutation_sym, Permutation_nil in Hf. discriminate.
    + assert (Hr' : length r' = length r).
      { apply Nat.eqb_eq, Hall. apply (Permutation_in _ (Permutation_sym Hf)).
        left. reflexivity. }
      assert (Hall' : forallb (fun x => (length x =? length r')%nat) (r' :: rs') = true).
      { apply forallb_forall. intros x Hx. rewrite Hr'. apply Hall.
        apply (Permutation_in _ (Permutation_sym Hf)). assumption. }
      rewrite Hall'. eexists. split; [reflexivity|]. cbn [entries rows cols].
      split; [assumption|]. split; [|assumption].
      symmetry. apply (Permutation_length Hf).
Qed.

(** [Matrix] of some of the rows. *)
Lemma Matrix_of_rows_incl (dat dat' : list (list Qc)) (m : Matrix) :
  incl dat' dat ->
  Matrix_of_rows dat = Return m ->
  exists m', Matrix_of_rows dat' = Return m' /\
             incl (entries m') (entries m) /\
             (entries m' = [] \/ cols m' = cols m).
Proof.
  intros Hf H. unfold Matrix_of_rows in *.
  destruct dat' as [|r' rs'].
  - eexists. split; [reflexivity|]. split; [intros x []|left; reflexivity].
  - destruct dat as [|r rs].
    + destruct (Hf r' (or_introl eq_refl)).
    + destruct (forallb _ (r :: rs)) eqn:Hall; [|discriminate]. injection H as <-.
      rewrite forallb_forall in Hall.
      assert (Hr' : length r' = length r).
      { apply Nat.eqb_eq, Hall, Hf. left. reflexivity. }
      assert (Hall' : forallb (fun x => (length x =? length r')%nat) (r' :: rs') = true).
      { apply forallb_forall. intros x Hx. rewrite Hr'. apply Hall, Hf. assumption. }
      rewrite Hall'. eexists. split; [reflexivity|]. cbn [entries cols].
      split; [assumption|right; assumption].
Qed.

Lemma rigidity_matrix_accepts (self : Framework) (vo : option (list Vertex)) (eo : bool)
      (m : Matrix) :
  run (rigidity_matrix vo eo) self = Return m ->
  match vo with
  | Some l => set_eqb (vertices (_graph self)) l = true
  | None => True
  end.
Proof.
  intro H. destruct vo as [l|]; [|exact I].
  destruct (set_eqb (vertices (_graph self)) l) eqn:E; [reflexivity|].
  rewrite run_rigidity_matrix_rejected in H by assumption. discriminate.
Qed.

Lemma annihilates_incl (x : vec) (rs rs' : list vec) :
  incl rs' rs -> annihilates x rs -> annihilates x rs'.
Proof. intros Hincl H r Hr. apply H, Hincl. assumption. Qed.

(** X13. [edges_ordered] decides the order of the
    rows only: when [rigidity_matrix] returns with the edges sorted, it
    returns with the edges in the order of the graph as well, and the
    two matrices have the same rows up to their order, the same shape
    and the same rank. *)
Theorem edge_order_irrelevant
        (self : Framework) (vertex_order : option (list Vertex)) (m : Matrix) :
  run (rigidity_matrix vertex_order true) self = Return m ->
  exists m',
    run (rigidity_matrix vertex_order false) self = Return m' /\
    Permutation (entries m) (entries m') /\
    rows m' = rows m /\ cols m' = cols m /\
    rank m' = rank m.
Proof.
  intro H. pose proof (rigidity_matrix_accepts _ _ _ _ H) as Hvo.
  destruct (rigidity_matrix_Return _ _ _ _ H) as [rws [Hmap [Hm [_ Hws]]]].
  set (f := rigidity_row (_realization self) (order_of self vertex_order)) in *.
  destruct (mapO_Return_inv [] f _ _ Hmap) as [Hall Hrws].
  cbn [edge_order_of] in Hall, Hrws.
  pose proof (sorted_by_perm edge_le (edges (_graph self))) as Hperm.
  fold (sorted_edges (edges (_graph self))) in Hperm.
  assert (Hmap' : mapO f (edges (_graph self))
                  = Return (map (fun a => value_or [] (f a)) (edges (_graph self)))).
  { apply mapO_Return. intros a Ha. apply Hall.
    apply (Permutation_in _ (Permutation_sym Hperm)). assumption. }
  assert (Hp : Permutation rws (map (fun a => value_or [] (f a)) (edges (_graph self)))).
  { rewrite Hrws. apply Permutation_map. assumption. }
  destruct (Matrix_of_rows_perm _ _ _ Hp Hm) as [m' [Hm' [Hpe [Hr Hc]]]].
  exists m'. split; [|split; [assumption|split; [assumption|split; [assumption|]]]].
  - rewrite run_rigidity_matrix by assumption. cbn [edge_order_of]. fold f.
    rewrite Hmap'. cbn [obind]. assumption.
  - apply rank_same_kernel.
    + exact (Matrix_of_rows_well_shaped _ _ Hm').
    + assumption.
    + assumption.
    + intros x _. split; apply annihilates_perm;
        [apply Permutation_sym|]; assumption.
Qed.

(** The triangle: the rows with the edges sorted and with the edges in
    the order of the graph. *)
Lemma edge_order_irrelevant_triangle :
  exists m m',
    run (rigidity_matrix None true) triangle = Return m /\
    run (rigidity_matrix None false) triangle = Return m' /\
    Permutation (entries m) (entries m') /\
    rank m' = rank m.
Proof.
  destruct (run (rigidity_matrix None true) triangle) as [m|e] eqn:Hm;
    [|vm_compute in Hm; discriminate].
  destruct (edge_order_irrelevant triangle None m Hm) as [m' [Hm' [Hp [_ [_ Hrank]]]]].
  exists m, m'. split; [reflexivity|]. split; [assumption|]. split; assumption.
Defined.

(* ================================================================== *)
(** * Deleting an edge *)

Lemma delete_edge_step (self : Framework) (e : Edge) :
  delete_edge e self =
  if existsb (same_edge e) (edges (_graph self))
  then (Return tt,
        mkFramework (_realization self)
                    (mkGraph (nodes (_graph self))
                             (filter (fun f => negb (same_edge e f)) (edge_list (_graph self))))
                    (_dim self))
  else (Raise NetworkXError, self).
Proof.
  destruct self as [r [ns es] d].
  cbv [delete_edge bind get lift Graph_delete_edge set__graph].
  cbn [_realization _graph _dim edges nodes edge_list].
  destruct (existsb (same_edge e) es); reflexivity.
Qed.

(** X14. Deleting an edge never raises the rank of the
    rigidity matrix: when [rigidity_matrix] returns on a framework, it
    returns after [delete_edge] of an edge of the graph too, every row of
    the new matrix is a row of the old one, and the new rank is at most
    the old rank. *)
Theorem delete_edge_rank
        (self : Framework) (vertex_order : option (list Vertex)) (edges_ordered : bool)
        (e : Edge) (m : Matrix) :
  run (rigidity_matrix vertex_order edges_ordered) self = Return m ->
  existsb (same_edge e) (edges (_graph self)) = true ->
  exists m',
    run (delete_edge e ;; rigidity_matrix vertex_order edges_ordered) self = Return m' /\
    incl (entries m') (entries m) /\
    (rank m' <= rank m)%nat.
Proof.
  intros H He. pose proof (rigidity_matrix_accepts _ _ _ _ H) as Hvo.
  destruct (rigidity_matrix_Return _ _ _ _ H) as [rws [Hmap [Hm [_ Hws]]]].
  pose proof (delete_edge_step self e) as Hstep. rewrite He in Hstep.
  set (s1 := mkFramework _ _ _) in Hstep.
  rewrite (run_bind_Return _ _ _ _ _ Hstep).
  assert (Horder : order_of s1 vertex_order = order_of self vertex_order).
  { destruct vertex_order; reflexivity. }
  set (f := rigidity_row (_realization self) (order_of self vertex_order)) in *.
  destruct (mapO_Return_inv [] f _ _ Hmap) as [Hall Hrws].
  assert (Hincl : incl (edge_order_of s1 edges_ordered) (edge_order_of self edges_ordered)).
  { intros a Ha.
    apply (Permutation_in _ (edge_order_of_perm s1 edges_ordered)) in Ha.
    apply (Permutation_in _ (Permutation_sym (edge_order_of_perm self edges_ordered))).
    cbn [s1 _graph edges edge_list] in Ha. apply filter_In in Ha. tauto. }
  assert (Hmap' : mapO f (edge_order_of s1 edges_ordered)
                  = Return (map (fun a => value_or [] (f a))
                                (edge_order_of s1 edges_ordered))).
  { apply mapO_Return. intros a Ha. apply Hall, Hincl. assumption. }
  assert (Hrows : incl (map (fun a => value_or [] (f a)) (edge_order_of s1 edges_ordered))
                       rws).
  { rewrite Hrws. intros x Hx. apply in_map_iff in Hx. destruct Hx as [a [<- Ha]].
    apply (in_map (fun a => value_or [] (f a))). apply Hincl. assumption. }
  destruct (Matrix_of_rows_incl _ _ _ Hrows Hm) as [m' [Hm' [Hsub Hcols]]].
  assert (Hws' : well_shaped m') by (exact (Matrix_of_rows_well_shaped _ _ Hm')).
  exists m'. split; [|split; [assumption|]].
  - rewrite run_rigidity_matrix.
    + rewrite Horder. change (_realization s1) with (_realization self). fold f.
      rewrite Hmap'. cbn [obind]. assumption.
    + destruct vertex_order; [exact Hvo|exact I].
  - destruct Hcols as [Hnil|Hc].
    + rewrite (rank_no_rows m' Hnil). lia.
    + apply rank_kernel_incl; try assumption; [congruence|].
      intros x _. apply annihilates_incl. assumption.
Qed.

(** Deleting the edge (1, 2) of the triangle, given as (2, 1). *)
Lemma delete_edge_rank_triangle :
  exists m m',
    run (rigidity_matrix None true) triangle = Return m /\
    run (delete_edge (2, 1)%Z ;; rigidity_matrix None true) triangle = Return m' /\
    (rank m' <= rank m)%nat.
Proof.
  destruct (run (rigidity_matrix None true) triangle) as [m|x] eqn:Hm;
    [|vm_compute in Hm; discriminate].
  destruct (delete_edge_rank triangle None true (2, 1)%Z m Hm eq_refl)
    as [m' [Hm' [_ Hrank]]].
  exists m, m'. auto.
Defined.

(* ================================================================== *)
(** * Translations *)

Open Scope Qc_scope.

Lemma dot_concat_repeat (bs : list vec) (t : vec) :
  (forall b, In b bs -> length b = length t) ->
  dot (concat bs) (translation t (length bs))
  = fold_right (fun b acc => dot b t + acc) 0 bs.
Proof.
  unfold translation. induction bs as [|b bs IH]; intro H; [reflexivity|].
  cbn [concat length repeat fold_right].
  rewrite dot_app by (apply H; left; reflexivity).
  rewrite IH; [reflexivity|]. intros b' Hb'. apply H. right. assumption.
Qed.

Lemma qz_minus_1 : qz (-1) = - (1).
Proof. apply Qc_is_canon. reflexivity. Qed.

Lemma qz_one : qz 1 = 1.
Proof. apply Qc_is_canon. reflexivity. Qed.

Lemma qz_zero : qz 0 = 0.
Proof. apply Qc_is_canon. reflexivity. Qed.

(** The coefficients [delta] of an edge with two different end points
    add up to the difference of two indicators. *)
Lemma sum_delta (u v : Vertex) (c : Qc) (order : list Vertex) :
  NoDup order -> u <> v ->
  fold_right (fun w acc => qz (delta u v w) * c + acc) 0 order
  = (if mem u order then c else 0) - (if mem v order then c else 0).
Proof.
  intros Hnd Hne. induction Hnd as [|w order Hw Hnd IH]; cbn [fold_right]; [simpl; ring|].
  rewrite IH. unfold mem. cbn [existsb]. fold (mem u order) (mem v order).
  unfold delta. rewrite (Z.eqb_sym u w), (Z.eqb_sym v w).
  destruct (Z.eqb_spec w u) as [Hu|Hu].
  - subst w. apply mem_false in Hw. rewrite Hw.
    destruct (Z.eqb_spec u v) as [E|_]; [contradiction|].
    cbn [orb]. rewrite qz_one. ring.
  - destruct (Z.eqb_spec w v) as [Hv|Hv].
    + subst w. apply mem_false in Hw. rewrite Hw. cbn [orb].
      rewrite qz_minus_1. ring.
    + cbn [orb]. rewrite qz_zero. ring.
Qed.

(** The row of an edge is orthogonal to every translation. *)
Lemma row_of_translation (self : Framework) (order : list Vertex) (e : Edge) (t : vec) :
  well_formed self = true ->
  In e (edges (_graph self)) ->
  NoDup order ->
  (forall w, In w (vertices (_graph self)) -> In w order) ->
  Z.of_nat (length t) = _dim self ->
  dot (row_of self order e) (translation t (length order)) = 0.
Proof.
  intros Hwf He Hnd Hall Ht. destruct e as [u v].
  destruct (Z.eq_dec u v) as [->|Hne]; [apply row_of_loop_zero|].
  destruct (well_formed_edge self u v Hwf He) as [pu [pv [Hu [Hv [Lu Lv]]]]].
  destruct (well_formed_parts self Hwf) as [_ [Hjoin _]].
  destruct (Hjoin u v He) as [Hinu Hinv].
  unfold row_of. cbn [fst snd]. rewrite Hu, Hv. cbn [coords].
  assert (Hlen : length pu = length pv) by lia.
  rewrite <- (length_map (block pu pv u v) order).
  rewrite dot_concat_repeat.
  2:{ intros b Hb. apply in_map_iff in Hb. destruct Hb as [w [<- _]].
      rewrite length_block by assumption. lia. }
  transitivity (fold_right (fun w acc => qz (delta u v w) * dot (vsub pu pv) t + acc)
                           0 order).
  - clear. induction order as [|w order IH]; [reflexivity|]. cbn [map fold_right].
    rewrite IH. unfold block. rewrite dot_vscale_l. reflexivity.
  - rewrite sum_delta by assumption.
    assert (H1 : mem u order = true) by (apply mem_In, Hall; assumption).
    assert (H2 : mem v order = true) by (apply mem_In, Hall; assumption).
    rewrite H1, H2. ring.
Qed.

Close Scope Qc_scope.

(** The translations are solutions of the rigidity matrix. *)
Lemma translation_annihilates
        (self : Framework) (vertex_order : option (list Vertex)) (edges_ordered : bool)
        (t : vec) (m : Matrix) :
  well_formed self = true ->
  valid_order_without_repetition self vertex_order = true ->
  Z.of_nat (length t) = _dim self ->
  run (rigidity_matrix vertex_order edges_ordered) self = Return m ->
  let x := translation t (length (vertices (_graph self))) in
  annihilates x (entries m) /\
  (entries m <> [] -> length x = cols m).
Proof.
  intros Hwf Hvo Ht Hm x.
  destruct (rigidity_matrix_Return _ _ _ _ Hm) as [rws [Hmap [HM [Hincl Hws]]]].
  assert (Hdist : distinct (vertices (_graph self)) = true).
  { unfold well_formed in Hwf. rewrite !andb_true_iff in Hwf. tauto. }
  pose proof (order_of_perm self vertex_order Hdist Hvo) as Hperm.
  pose proof (edge_order_of_perm self edges_ordered) as Heperm.
  rewrite rigidity_rows_Return in Hmap; [|assumption|].
  2:{ intros e He. apply (Permutation_in _ Heperm He). }
  injection Hmap as <-.
  assert (Hlen : length (order_of self vertex_order) = length (vertices (_graph self)))
    by (apply Permutation_length; assumption).
  assert (Hann : annihilates x (entries m)).
  { intros r Hr. apply Hincl in Hr. apply in_map_iff in Hr. destruct Hr as [e [<- He]].
    unfold x. rewrite <- Hlen. apply row_of_translation; try assumption.
    - apply (Permutation_in _ Heperm He).
    - apply (Permutation_NoDup (Permutation_sym Hperm)). apply distinct_NoDup. assumption.
    - intros w Hw. apply (Permutation_in _ (Permutation_sym Hperm)). assumption. }
  split; [assumption|].
  intro Hne. destruct (entries m) as [|r rs] eqn:Hent; [congruence|].
  destruct Hws as [_ Hshape]. rewrite Hent in Hshape.
  rewrite <- (Hshape r (or_introl eq_refl)).
  pose proof (Hincl r (or_introl eq_refl)) as Hr. apply in_map_iff in Hr. destruct Hr as [e [<- He]].
  rewrite length_row_of; [|assumption|apply (Permutation_in _ Heperm He)].
  unfold x, translation. rewrite Hlen.
  clear - Ht. induction (length (vertices (_graph self))) as [|n IH]; [simpl; lia|].
  cbn [repeat concat]. rewrite length_app, IH. lia.
Qed.

(** On a well-formed framework the rigidity matrix is computed under
    every accepted vertex order; with an edge, it has rows. *)
Lemma rigidity_matrix_returns
        (self : Framework) (vertex_order : option (list Vertex)) (edges_ordered : bool) :
  well_formed self = true ->
  valid_order_without_repetition self vertex_order = true ->
  exists m,
    run (rigidity_matrix vertex_order edges_ordered) self = Return m /\
    (edges (_graph self) <> [] -> entries m <> []).
Proof.
  intros Hwf Hvo.
  pose proof (edge_order_of_perm self edges_ordered) as Heperm.
  assert (Hrun : run (rigidity_matrix vertex_order edges_ordered) self
                 = Matrix_of_rows (map (row_of self (order_of self vertex_order))
                                       (edge_order_of self edges_ordered))).
  { rewrite run_rigidity_matrix.
    - rewrite rigidity_rows_Return; [reflexivity|assumption|].
      intros e He. apply (Permutation_in _ Heperm He).
    - destruct vertex_order as [l|]; [|exact I].
      simpl in Hvo. apply andb_true_iff in Hvo. tauto. }
  set (rws := map (row_of self (order_of self vertex_order))
                  (edge_order_of self edges_ordered)) in *.
  destruct (nil_or_in rws) as [Hnil|[r Hr]].
  - exists (mkMatrix 0 0 []). split; [rewrite Hrun, Hnil; reflexivity|].
    intro Hne. exfalso. apply Hne. apply Permutation_nil.
    unfold rws in Hnil. apply map_eq_nil in Hnil.
    rewrite <- Hnil. exact Heperm.
  - rewrite (Matrix_of_rows_uniform rws
               (Z.to_nat (_dim self) * length (order_of self vertex_order))) in Hrun.
    + eexists. split; [exact Hrun|]. intros _. cbn [entries].
      intro Hnil. rewrite Hnil in Hr. destruct Hr.
    + intro Hnil. rewrite Hnil in Hr. destruct Hr.
    + intros r' Hr'. apply in_map_iff in Hr'. destruct Hr' as [e [<- He]].
      apply length_row_of; [assumption|]. apply (Permutation_in _ Heperm He).
Qed.

(** X15. On a well-formed framework with at least
    one edge, and under the default vertex order or an accepted one
    without repetition, the rigidity matrix is computed and maps to zero
    every vector that repeats one vector [t] of length [dim] for each
    vertex: translations are infinitesimal flexes, and they are
    combinations of the nullspace basis of the matrix, which under the
    default orders is what [infinitesimal_flexes(include_trivial=True)]
    returns. *)
Theorem translations_are_flexes
        (self : Framework) (vertex_order : option (list Vertex)) (edges_ordered : bool)
        (t : vec) :
  well_formed self = true ->
  valid_order_without_repetition self vertex_order = true ->
  edges (_graph self) <> [] ->
  Z.of_nat (length t) = _dim self ->
  let x := translation t (length (vertices (_graph self))) in
  exists m,
    run (rigidity_matrix vertex_order edges_ordered) self = Return m /\
    length x = cols m /\
    annihilates x (entries m) /\
    span (cols m) (nullspace m) x /\
    (vertex_order = None -> edges_ordered = true ->
     run (infinitesimal_flexes true) self = Return (nullspace m)).
Proof.
  intros Hwf Hvo HE Ht x.
  destruct (rigidity_matrix_returns self vertex_order edges_ordered Hwf Hvo)
    as [m [Hm Hne]].
  specialize (Hne HE).
  destruct (translation_annihilates self vertex_order edges_ordered t m Hwf Hvo Ht Hm)
    as [Hann Hlen].
  specialize (Hlen Hne).
  destruct (rigidity_matrix_Return _ _ _ _ Hm) as [_ [_ [_ [_ Hws]]]].
  destruct (nullspace_basis m Hws) as [_ [_ Hcomplete]].
  exists m. split; [exact Hm|]. split; [exact Hlen|]. split; [exact Hann|].
  split; [apply Hcomplete; assumption|].
  intros -> ->. unfold infinitesimal_flexes.
  rewrite run_infinitesimal_flexes_including_trivial, Hm. reflexivity.
Qed.

(** The translation along (1, 2) is a flex of the triangle. *)
Lemma translations_are_flexes_triangle :
  exists m,
    run (rigidity_matrix None true) triangle = Return m /\
    annihilates (translation [qz 1; qz 2] 3) (entries m) /\
    span (cols m) (nullspace m) (translation [qz 1; qz 2] 3).
Proof.
  destruct (translations_are_flexes triangle None true [qz 1; qz 2]
              eq_refl eq_refl ltac:(vm_compute; discriminate) eq_refl)
    as [m [Hm [_ [Hann [Hspan _]]]]].
  exists m. split; [exact Hm|]. split; [exact Hann|exact Hspan].
Defined.

(* ================================================================== *)
(** * Moving and scaling the realization *)

Lemma dict_get_moved (f : vec -> vec) (r : Dict) (v : Vertex) :
  dict_get v (moved f r) = option_map (fun p => Col (f (coords p))) (dict_get v r).
Proof.
  unfold moved. induction r as [|[k p] r IH]; [reflexivity|].
  cbn [map dict_get fst snd]. destruct (Z.eqb v k); [reflexivity|assumption].
Qed.

(** The framework after [set_realization] of the moved realization. *)
Lemma set_realization_moved (self : Framework) (f : vec -> vec) :
  well_formed self = true ->
  (forall xs, length (f xs) = length xs) ->
  let s1 := mkFramework (moved f (_realization self)) (_graph self) (_dim self) in
  set_realization (moved f (_realization self)) self = (Return tt, s1) /\
  well_formed s1 = true.
Proof.
  intros Hwf Hf s1. destruct (well_formed_parts self Hwf) as [Hnd [Hjoin Hreal]].
  split.
  - rewrite set_realization_step.
    replace (forallb _ _) with true; [reflexivity|].
    symmetry. apply forallb_forall. intros v Hv.
    destruct (Hreal v Hv) as [xs [Hget Hlen]].
    unfold realizes. rewrite dict_get_moved, Hget. cbn [option_map coords].
    unfold len. cbn [coords]. rewrite Hf. apply Z.eqb_eq. assumption.
  - apply well_formed_of_parts; cbn [s1 _graph _realization _dim].
    + assumption.
    + intros [u v] He. apply Hjoin. assumption.
    + intros v Hv. destruct (Hreal v Hv) as [xs [Hget Hlen]].
      exists (f xs). rewrite dict_get_moved, Hget. cbn [option_map coords].
      rewrite Hf. auto.
Qed.

Open Scope Qc_scope.

Lemma vsub_vadd_same (u v t : vec) :
  length u = length t -> length v = length t ->
  vsub (vadd u t) (vadd v t) = vsub u v.
Proof.
  intros Hu Hv. apply vec_ext.
  - rewrite !length_vsub, !length_vadd by (rewrite ?length_vadd; congruence). reflexivity.
  - intros k _. rewrite !at_vsub, !at_vadd by (rewrite ?length_vadd; congruence). ring.
Qed.

Lemma vsub_vscale (c : Qc) (u v : vec) :
  length u = length v ->
  vsub (vscale c u) (vscale c v) = vscale c (vsub u v).
Proof.
  intro H. apply vec_ext.
  - rewrite length_vscale, !length_vsub, length_vscale by (rewrite ?length_vscale; congruence).
    reflexivity.
  - intros k _. rewrite at_vscale, !at_vsub, !at_vscale by (rewrite ?length_vscale; congruence).
    ring.
Qed.

Lemma vscale_vscale (a b : Qc) (v : vec) : vscale a (vscale b v) = vscale b (vscale a v).
Proof.
  unfold vscale. rewrite !map_map. apply map_ext. intro x. ring.
Qed.

Close Scope Qc_scope.

(** The rows after a translation of the points are the rows before. *)
Lemma row_of_translated (self : Framework) (order : list Vertex) (e : Edge) (t : vec) :
  well_formed self = true ->
  Z.of_nat (length t) = _dim self ->
  In e (edges (_graph self)) ->
  row_of (mkFramework (moved (fun p => vadd p t) (_realization self))
                      (_graph self) (_dim self)) order e
  = row_of self order e.
Proof.
  intros Hwf Ht He. destruct e as [u v].
  destruct (well_formed_edge self u v Hwf He) as [pu [pv [Hu [Hv [Lu Lv]]]]].
  unfold row_of. cbn [fst snd _realization]. rewrite !dict_get_moved, Hu, Hv.
  cbn [option_map coords]. f_equal. apply map_ext. intro w.
  unfold block. rewrite vsub_vadd_same by lia. reflexivity.
Qed.

(** The rows after a scaling of the points are the scaled rows. *)
Lemma row_of_scaled (self : Framework) (order : list Vertex) (e : Edge) (c : Qc) :
  well_formed self = true ->
  In e (edges (_graph self)) ->
  row_of (mkFramework (moved (vscale c) (_realization self))
                      (_graph self) (_dim self)) order e
  = vscale c (row_of self order e).
Proof.
  intros Hwf He. destruct e as [u v].
  destruct (well_formed_edge self u v Hwf He) as [pu [pv [Hu [Hv [Lu Lv]]]]].
  unfold row_of. cbn [fst snd _realization]. rewrite !dict_get_moved, Hu, Hv.
  cbn [option_map coords]. unfold vscale at 3. rewrite concat_map, map_map.
  f_equal. apply map_ext. intro w. fold (vscale c (block pu pv u v w)).
  unfold block. rewrite vsub_vscale by lia. apply vscale_vscale.
Qed.

(** The rigidity predicate depends on the framework through the
    vertices, the dimension and the rank only. *)
Lemma is_infinitesimally_rigid_by_rank (s1 s2 : Framework) :
  vertices (_graph s1) = vertices (_graph s2) ->
  _dim s1 = _dim s2 ->
  run rigidity_matrix_rank s1 = run rigidity_matrix_rank s2 ->
  run is_infinitesimally_rigid s1 = run is_infinitesimally_rigid s2.
Proof.
  intros Hv Hd Hr. rewrite !run_is_infinitesimally_rigid, Hv, Hd.
  destruct (_ <=? 1)%Z; [reflexivity|].
  unfold run, rigidity_matrix_rank in Hr.
  rewrite !bind_query in Hr by auto with query.
  destruct (run (rigidity_matrix None true) s1) as [m1|e1];
    destruct (run (rigidity_matrix None true) s2) as [m2|e2];
    cbn [fst ret] in Hr; try discriminate; congruence.
Qed.

(** X16. Moving every point of a well-formed
    framework by one vector [t] of length [dim], through
    [set_realization], is accepted and leaves the rigidity matrix as it
    was, under every vertex order and edge order; the rank and
    [is_infinitesimally_rigid()] give what they gave before. *)
Theorem translation_invariance
        (self : Framework) (t : vec)
        (vertex_order : option (list Vertex)) (edges_ordered : bool) :
  well_formed self = true ->
  Z.of_nat (length t) = _dim self ->
  let r' := moved (fun p => vadd p t) (_realization self) in
  run (set_realization r') self = Return tt /\
  run (set_realization r' ;; rigidity_matrix vertex_order edges_ordered) self
  = run (rigidity_matrix vertex_order edges_ordered) self /\
  run (set_realization r' ;; rigidity_matrix_rank) self = run rigidity_matrix_rank self /\
  run (set_realization r' ;; is_infinitesimally_rigid) self
  = run is_infinitesimally_rigid self.
Proof.
  intros Hwf Ht r'.
  assert (Hf : forall xs : vec, Z.of_nat (length xs) = _dim self ->
                                length (vadd xs t) = length xs).
  { intros xs Hxs. apply length_vadd. lia. }
  (* the moved realization is accepted *)
  destruct (well_formed_parts self Hwf) as [Hnd [Hjoin Hreal]].
  set (s1 := mkFramework r' (_graph self) (_dim self)).
  assert (Hstep : set_realization r' self = (Return tt, s1)).
  { rewrite set_realization_step.
    replace (forallb _ _) with true; [reflexivity|].
    symmetry. apply forallb_forall. intros v Hv.
    destruct (Hreal v Hv) as [xs [Hget Hlen]].
    unfold realizes, r'. rewrite dict_get_moved, Hget. cbn [option_map coords].
    unfold len. cbn [coords]. rewrite Hf by assumption. apply Z.eqb_eq. assumption. }
  assert (Hwf1 : well_formed s1 = true).
  { apply well_formed_of_parts; cbn [s1 _graph _realization _dim].
    - assumption.
    - intros [u v] He. apply Hjoin. assumption.
    - intros v Hv. destruct (Hreal v Hv) as [xs [Hget Hlen]].
      exists (vadd xs t). unfold r'. rewrite dict_get_moved, Hget. cbn [option_map coords].
      rewrite Hf by assumption. auto. }
  assert (Hmatrix : forall vo eo,
             run (rigidity_matrix vo eo) s1 = run (rigidity_matrix vo eo) self).
  { intros vo eo.
    destruct vo as [l|].
    - destruct (set_eqb (vertices (_graph self)) l) eqn:Hl.
      + rewrite !run_rigidity_matrix by assumption.
        pose proof (edge_order_of_perm self eo) as Hperm.
        assert (Hincl : incl (edge_order_of self eo) (edges (_graph self))).
        { intros e He. apply (Permutation_in _ Hperm He). }
        change (edge_order_of s1 eo) with (edge_order_of self eo).
        change (order_of s1 (Some l)) with (order_of self (Some l)).
        rewrite !rigidity_rows_Return by assumption. cbn [obind]. f_equal.
        apply map_ext_in. intros e He. apply row_of_translated; auto.
      + rewrite !run_rigidity_matrix_rejected by assumption. reflexivity.
    - rewrite !run_rigidity_matrix by exact I.
      pose proof (edge_order_of_perm self eo) as Hperm.
      assert (Hincl : incl (edge_order_of self eo) (edges (_graph self))).
      { intros e He. apply (Permutation_in _ Hperm He). }
      change (edge_order_of s1 eo) with (edge_order_of self eo).
      change (order_of s1 None) with (order_of self None).
      rewrite !rigidity_rows_Return by assumption. cbn [obind]. f_equal.
      apply map_ext_in. intros e He. apply row_of_translated; auto. }
  assert (Hrank : run rigidity_matrix_rank s1 = run rigidity_matrix_rank self).
  { unfold run, rigidity_matrix_rank. rewrite !bind_query by auto with query.
    rewrite Hmatrix. destruct (run (rigidity_matrix None true) self); reflexivity. }
  split; [unfold run; rewrite Hstep; reflexivity|].
  rewrite !(run_bind_Return _ _ _ _ _ Hstep).
  split; [apply Hmatrix|]. split; [assumption|].
  apply is_infinitesimally_rigid_by_rank; [reflexivity|reflexivity|assumption].
Qed.

(** The triangle moved by (3, -1). *)
Lemma translation_invariance_triangle :
  run (set_realization (moved (fun p => vadd p [qz 3; qz (-1)]) (_realization triangle)) ;;
       rigidity_matrix None true) triangle
  = run (rigidity_matrix None true) triangle.
Proof.
  exact (proj1 (proj2 (translation_invariance triangle [qz 3; qz (-1)] None true
                         eq_refl eq_refl))).
Defined.

(** [Matrix] of the scaled rows. *)
Lemma Matrix_of_rows_scaled (c : Qc) (dat : list (list Qc)) (m : Matrix) :
  Matrix_of_rows dat = Return m ->
  exists m', Matrix_of_rows (map (vscale c) dat) = Return m' /\
             entries m' = map (vscale c) (entries m) /\
             cols m' = cols m /\ rows m' = rows m.
Proof.
  unfold Matrix_of_rows.
  destruct dat as [|r rs].
  - intro H. injection H as <-. eexists. split; [reflexivity|]. repeat split.
  - destruct (forallb _ (r :: rs)) eqn:Hall; [|discriminate].
    intro H. injection H as <-. cbn [map].
    assert (Hall' : forallb (fun x => (length x =? length (vscale c r))%nat)
                            (vscale c r :: map (vscale c) rs) = true).
    { rewrite forallb_forall in Hall. apply forallb_forall. intros x Hx.
      change (In x (map (vscale c) (r :: rs))) in Hx.
      apply in_map_iff in Hx. destruct Hx as [y [<- Hy]].
      rewrite !length_vscale. apply Hall. assumption. }
    rewrite Hall'. eexists. split; [reflexivity|]. cbn [entries cols rows map length].
    rewrite length_vscale, length_map. repeat split.
Qed.

Lemma annihilates_scaled (c : Qc) (x : vec) (rs : list vec) :
  c <> 0%Qc ->
  (annihilates x (map (vscale c) rs) <-> annihilates x rs).
Proof.
  intro Hc. split; intros H r Hr.
  - assert (E : dot (vscale c r) x = 0%Qc) by (apply H, in_map; assumption).
    rewrite dot_vscale_l in E. apply Qcmult_integral in E. tauto.
  - apply in_map_iff in Hr. destruct Hr as [r0 [<- Hr0]].
    rewrite dot_vscale_l, (H r0 Hr0). ring.
Qed.

(** On a well-formed framework the rigidity matrix is computed. *)
Lemma rigidity_matrix_total (self : Framework) :
  well_formed self = true ->
  exists m,
    run (rigidity_matrix None true) self = Return m /\
    Matrix_of_rows (map (row_of self (sorted (vertices (_graph self))))
                        (sorted_edges (edges (_graph self)))) = Return m.
Proof.
  intro Hwf.
  destruct (rigidity_matrix_well_formed self Hwf) as [_ [Hrun [H0 Hfull]]].
  destruct (edges (_graph self)) as [|e es] eqn:He.
  - eexists. split; [apply H0; reflexivity|].
    rewrite <- Hrun. apply H0. reflexivity.
  - eexists. split; [apply Hfull; discriminate|].
    rewrite <- Hrun. apply Hfull. discriminate.
Qed.

(** X17. Scaling every point of a well-formed framework
    by one factor [c <> 0], through [set_realization], is accepted and
    multiplies every row of the rigidity matrix by [c]; the rank and
    [is_infinitesimally_rigid()] give what they gave before. *)
Theorem scaling_invariance (self : Framework) (c : Qc) :
  well_formed self = true ->
  c <> 0%Qc ->
  let r' := moved (vscale c) (_realization self) in
  run (set_realization r') self = Return tt /\
  (exists m m',
     run (rigidity_matrix None true) self = Return m /\
     run (set_realization r' ;; rigidity_matrix None true) self = Return m' /\
     entries m' = map (vscale c) (entries m) /\
     rank m' = rank m) /\
  run (set_realization r' ;; rigidity_matrix_rank) self = run rigidity_matrix_rank self /\
  run (set_realization r' ;; is_infinitesimally_rigid) self
  = run is_infinitesimally_rigid self.
Proof.
  intros Hwf Hc r'.
  destruct (set_realization_moved self (vscale c) Hwf (length_vscale c)) as [Hstep Hwf1].
  cbn zeta in Hstep, Hwf1. fold r' in Hstep, Hwf1.
  set (s1 := mkFramework r' (_graph self) (_dim self)) in *.
  destruct (rigidity_matrix_total self Hwf) as [m [Hm HM]].
  destruct (rigidity_matrix_total s1 Hwf1) as [m1 [Hm1 HM1]].
  cbn [s1 _graph] in HM1.
  assert (Hrows : map (row_of s1 (sorted (vertices (_graph self))))
                      (sorted_edges (edges (_graph self)))
                  = map (vscale c)
                        (map (row_of self (sorted (vertices (_graph self))))
                             (sorted_edges (edges (_graph self))))).
  { rewrite map_map. apply map_ext_in. intros e He. apply row_of_scaled; [assumption|].
    apply (Permutation_in _ (sorted_by_perm edge_le (edges (_graph self)))). assumption. }
  rewrite Hrows in HM1.
  destruct (Matrix_of_rows_scaled c _ _ HM) as [m' [HM' [Hent [Hcols _]]]].
  assert (m1 = m') by congruence. subst m1.
  assert (Hrank : rank m' = rank m).
  { apply rank_same_kernel.
    - exact (Matrix_of_rows_well_shaped _ _ HM').
    - exact (Matrix_of_rows_well_shaped _ _ HM).
    - assumption.
    - intros x _. rewrite Hent. apply annihilates_scaled. assumption. }
  assert (Hr : run rigidity_matrix_rank s1 = run rigidity_matrix_rank self).
  { unfold run, rigidity_matrix_rank. rewrite !bind_query by auto with query.
    rewrite Hm, Hm1. cbn [ret fst]. rewrite Hrank. reflexivity. }
  split; [unfold run; rewrite Hstep; reflexivity|].
  rewrite !(run_bind_Return _ _ _ _ _ Hstep).
  split; [exists m, m'; auto|]. split; [assumption|].
  apply is_infinitesimally_rigid_by_rank; [reflexivity|reflexivity|assumption].
Qed.

(** The triangle scaled by 3. *)
Lemma scaling_invariance_triangle :
  run (set_realization (moved (vscale (qz 3)) (_realization triangle)) ;;
       is_infinitesimally_rigid) triangle
  = run is_infinitesimally_rigid triangle.
Proof.
  apply (scaling_invariance triangle (qz 3) eq_refl).
  discriminate.
Defined.

(* ================================================================== *)
(** * Redundant rigidity on any framework *)

Lemma query_redundantly_rigid_loop (es : list Edge) : query (redundantly_rigid_loop es).
Proof.
  induction es as [|e es IH]; simpl; unfold deepcopy_self; auto 10 with query.
Qed.

(** X18. On every framework with at least one
    edge [is_redundantly_rigid()] raises [TypeError], at the first edge
    it tries, and on every framework without edges it returns true; the
    framework is not modified. *)
Theorem is_redundantly_rigid_raises (self : Framework) :
  run is_redundantly_rigid self
  = (if is_nil (edges (_graph self)) then Return true else Raise TypeError) /\
  exec is_redundantly_rigid self = self.
Proof.
  split.
  - rewrite run_is_redundantly_rigid. destruct (edges (_graph self)); reflexivity.
  - assert (Hq : query is_redundantly_rigid).
    { unfold is_redundantly_rigid. apply query_bind; [auto with query|].
      intro s. apply query_redundantly_rigid_loop. }
    apply Hq.
Qed.

(* ================================================================== *)
(** * The names the trivial flexes rely on *)

(** X19. The trivial flexes are computed on
    the complete graph with the vertices 0, ..., |V| - 1.  On a
    framework with two vertices or more whose realization has no entry
    for one of these numbers, [trivial_infinitesimal_flexes()] and
    [nontrivial_infinitesimal_flexes()] raise [AssertionError]. *)
Theorem trivial_flexes_need_numbering (self : Framework) (i : nat) :
  (2 <= length (vertices (_graph self)))%nat ->
  (i < length (vertices (_graph self)))%nat ->
  contains (Z.of_nat i) (_realization self) = false ->
  run trivial_infinitesimal_flexes self = Raise AssertionError /\
  run nontrivial_infinitesimal_flexes self = Raise AssertionError /\
  run (infinitesimal_flexes false) self = Raise AssertionError.
Proof.
  intros Hn Hi Hc.
  assert (HT : run trivial_infinitesimal_flexes self = Raise AssertionError).
  { rewrite run_trivial_infinitesimal_flexes. unfold complete_graph_framework.
    destruct (complete_graph_facts (length (vertices (_graph self))))
      as [_ [_ [K3 _]]].
    specialize (K3 Hn i Hi).
    unfold __init__. rewrite forO_assertions.
    match goal with |- context [forallb ?f ?l] => destruct (forallb f l) eqn:Hall end.
    - rewrite forallb_forall in Hall. specialize (Hall _ K3). cbv beta in Hall.
      unfold contains in Hc. destruct (dict_get (Z.of_nat i) (_realization self));
        discriminate.
    - reflexivity. }
  split; [assumption|].
  assert (HN : run nontrivial_infinitesimal_flexes self = Raise AssertionError).
  { rewrite run_nontrivial_infinitesimal_flexes, HT. reflexivity. }
  split; exact HN.
Qed.

(** The triangle with the vertices 1, 2, 3 has no entry for 0. *)
Lemma trivial_flexes_need_numbering_triangle_123 :
  run trivial_infinitesimal_flexes triangle_123 = Raise AssertionError.
Proof.
  apply (trivial_flexes_need_numbering triangle_123 0).
  - vm_compute. lia.
  - vm_compute. lia.
  - reflexivity.
Defined.

(* ================================================================== *)
(** * The non-trivial flexes *)

Open Scope Qc_scope.

Lemma gram_schmidt_app (ret l1 l2 : list vec) :
  gram_schmidt ret (l1 ++ l2) = gram_schmidt (gram_schmidt ret l1) l2.
Proof.
  revert ret. induction l1 as [|v l1 IH]; intro ret; [reflexivity|].
  cbn [app gram_schmidt]. destruct (is_zero_matrix _); apply IH.
Qed.

Lemma gram_schmidt_extends (ret l : list vec) :
  exists ext, gram_schmidt ret l = ret ++ ext.
Proof.
  revert ret. induction l as [|v l IH]; intro ret.
  - exists []. rewrite app_nil_r. reflexivity.
  - cbn [gram_schmidt]. destruct (is_zero_matrix _); [apply IH|].
    destruct (IH (ret ++ [perp_to_subspace v ret])) as [ext Hext].
    exists (perp_to_subspace v ret :: ext). rewrite Hext, <- app_assoc. reflexivity.
Qed.

(** In an orthogonal family every vector is orthogonal to the ones
    before it, no vector is zero, and the vectors after a prefix form an
    orthogonal family. *)
Lemma orthogonal_family_app (B1 B2 : list vec) :
  orthogonal_family (B1 ++ B2) ->
  (forall b1 b2, In b1 B1 -> In b2 B2 -> dot b1 b2 = 0) /\
  (forall b, In b B2 -> dot b b <> 0) /\
  orthogonal_family B2.
Proof.
  induction B2 as [|b B2 IH] using rev_ind; intro H.
  - split; [intros b1 b2 _ []|]. split; [intros b []|constructor].
  - rewrite app_assoc in H. inversion H as [E|B0 b0 HB0 Horth Hnz E].
    + destruct (B1 ++ B2); discriminate.
    + apply app_inj_tail in E. destruct E as [-> ->].
      destruct (IH HB0) as [H1 [H2 H3]]. split; [|split].
      * intros b1 b2 Hb1 Hb2. apply in_app_or in Hb2. destruct Hb2 as [Hb2|[<-|[]]].
        -- apply H1; assumption.
        -- apply Horth. apply in_or_app. left. assumption.
      * intros x Hx. apply in_app_or in Hx. destruct Hx as [Hx|[<-|[]]]; auto.
      * constructor; [assumption| |assumption].
        intros b' Hb'. apply Horth. apply in_or_app. right. assumption.
Qed.

(** A vector orthogonal to the generators is orthogonal to what they
    generate. *)
Lemma dot_span (N : nat) (L : list vec) (x t : vec) :
  (forall b, In b L -> length b = N) ->
  (forall b, In b L -> dot b x = 0) ->
  span N L t -> dot t x = 0.
Proof.
  intros HL Hx H. induction H as [|v Hv|u v Hu IHu Hv IHv|c v _ IHv].
  - apply dot_vzero_l.
  - auto.
  - rewrite dot_vadd_l, IHu, IHv; [ring|].
    rewrite (span_length N L u HL Hu), (span_length N L v HL Hv). reflexivity.
  - rewrite dot_vscale_l, IHv. ring.
Qed.

Lemma span_trans (N : nat) (L L' : list vec) (x : vec) :
  (forall v, In v L -> span N L' v) -> span N L x -> span N L' x.
Proof.
  intros HL H. induction H as [|v Hv|u v _ IHu _ IHv|c v _ IHv].
  - apply span_zero.
  - auto.
  - apply span_add; assumption.
  - apply span_scale; assumption.
Qed.

Close Scope Qc_scope.

(** X20. On a well-formed framework whose
    realization vectors all have length [dim] and whose vertices are
    named 0, ..., |V| - 1, the vectors [nontrivial_infinitesimal_flexes()]
    returns are infinitesimal flexes, none of them is zero, they are
    orthogonal to every trivial flex and to each other, and together
    with the trivial flexes they generate every infinitesimal flex. *)
Theorem nontrivial_flexes_orthogonal (self : Framework) :
  well_formed self = true ->
  realization_uniform self = true ->
  labelled_from_zero self ->
  exists m T flexes,
    run (rigidity_matrix None true) self = Return m /\
    run trivial_infinitesimal_flexes self = Return T /\
    run nontrivial_infinitesimal_flexes self = Return flexes /\
    (forall x, In x flexes ->
               length x = cols m /\ annihilates x (entries m) /\
               dot x x <> 0%Qc /\ forall t, In t T -> dot t x = 0%Qc) /\
    orthogonal_family flexes /\
    (forall x, length x = cols m -> annihilates x (entries m) ->
               span (cols m) (T ++ flexes) x).
Proof.
  intros Hwf Huni Hlab.
  destruct (trivial_flexes_are_flexes self Hwf Huni Hlab)
    as [FK [mK [HFK [HmK [HwsK [HT [HTflex _]]]]]]].
  destruct (rigidity_matrix_total self Hwf) as [m [Hm HM]].
  pose proof (Matrix_of_rows_well_shaped _ _ HM) as Hws.
  destruct (nullspace_basis m Hws) as [HAsound [HAind HAcomplete]].
  destruct (nullspace_basis mK HwsK) as [HTsound [HTind _]].
  set (T := nullspace mK) in *. set (A := nullspace m) in *.
  set (B := gram_schmidt [] (T ++ A)).
  exists m, T, (slice B (length T) (length A + 1)).
  split; [assumption|]. split; [assumption|].
  destruct (Nat.eq_dec (cols m) 0) as [Hc0|Hc0].
  - (* no column: no flex is returned *)
    assert (HA : A = []) by (apply nullspace_no_columns; assumption).
    assert (HBT : (length B <= length T)%nat).
    { unfold B. rewrite HA, app_nil_r.
      apply (exchange (cols mK)).
      - intros y Hy. apply HTsound. assumption.
      - destruct (gram_schmidt_spec (cols mK) T [])
          as [Horth [Hlen _]]; [|constructor|].
        + intros v Hv. rewrite app_nil_r in Hv. apply HTsound. assumption.
        + apply orthogonal_independent; assumption.
      - destruct (gram_schmidt_spec (cols mK) T [])
          as [_ [_ [_ Hin]]]; [|constructor|].
        + intros v Hv. rewrite app_nil_r in Hv. apply HTsound. assumption.
        + apply Hin.
          * intros u Hu. apply HTsound. assumption.
          * intros v Hv. rewrite app_nil_r in Hv. apply span_in. assumption. }
    assert (Hnil : slice B (length T) (length A + 1) = []).
    { apply length_zero_iff_nil. rewrite length_slice, HA. cbn [length]. lia. }
    rewrite Hnil. split; [|split; [|split]].
    + rewrite run_nontrivial_infinitesimal_flexes, HT, Hm. cbn [obind]. fold T A.
      unfold orthogonalize. rewrite (same_shape_lengths (cols mK)).
      2:{ intros v Hv. rewrite HA, app_nil_r in Hv. apply HTsound. assumption. }
      cbn [obind]. fold B. rewrite Hnil. reflexivity.
    + intros x [].
    + constructor.
    + intros x Hx _. rewrite Hc0 in *. destruct x; [|discriminate]. apply span_zero.
  - (* the trivial flexes are flexes of [self] *)
    assert (HEne : edges (_graph self) <> []).
    { intro HE0. destruct (rigidity_matrix_well_formed self Hwf) as [_ [_ [H0 _]]].
      rewrite (H0 HE0) in Hm. injection Hm as Hm0. apply Hc0. rewrite <- Hm0. reflexivity. }
    set (N := cols m) in *.
    assert (HTN : forall t, In t T -> length t = N /\ annihilates t (entries m)).
    { intros t Ht. apply (HTflex m Hm HEne). assumption. }
    assert (HAN : forall a, In a A -> length a = N).
    { intros a Ha. apply HAsound. assumption. }
    assert (HTAN : forall v, In v ((T ++ A) ++ []) -> length v = N).
    { intros v Hv. rewrite app_nil_r in Hv. apply in_app_or in Hv.
      destruct Hv as [Hv|Hv]; [apply HTN|apply HAN]; assumption. }
    assert (HTN' : forall v, In v (T ++ []) -> length v = N).
    { intros v Hv. rewrite app_nil_r in Hv. apply HTN. assumption. }
    destruct (gram_schmidt_spec N (T ++ A) [] HTAN orth_nil) as [HBorth [HBlen [HBspan HBin]]].
    fold B in HBorth, HBlen, HBspan, HBin.
    destruct (gram_schmidt_spec N T [] HTN' orth_nil) as [HTorth [HTlen [HTspan HTin]]].
    set (BT := gram_schmidt [] T) in *.
    (* the family is the orthogonalised trivial flexes followed by [R] *)
    destruct (gram_schmidt_extends BT A) as [R HR].
    assert (HB : B = BT ++ R).
    { unfold B. rewrite gram_schmidt_app. exact HR. }
    assert (HlenBT : length BT = length T).
    { unfold BT. rewrite <- (app_nil_l T) at 1.
      apply (gram_schmidt_count N [] T).
      - intros a Ha. apply HTN. assumption.
      - destruct (Nat.eq_dec (cols mK) N) as [E|E].
        + rewrite <- E. assumption.
        + (* the lengths agree as soon as there is a trivial flex *)
          destruct T as [|t T'] eqn:ET.
          * intros cs Hcs _. destruct cs; [reflexivity|discriminate].
          * exfalso. apply E.
            rewrite <- (proj1 (HTsound t (or_introl eq_refl))).
            apply HTN. left. reflexivity.
      - intros t []. }
    assert (HlenB : length B = length A).
    { unfold B. apply (gram_schmidt_count N T A HAN HAind).
      intros t Ht. destruct (HTN t Ht). apply HAcomplete; assumption. }
    assert (Hslice : slice B (length T) (length A + 1) = R).
    { unfold slice. rewrite firstn_all2 by lia.
      rewrite HB, <- HlenBT. rewrite skipn_app, Nat.sub_diag, skipn_all. reflexivity. }
    rewrite Hslice. rewrite HB in HBorth.
    destruct (orthogonal_family_app BT R HBorth) as [Hcross [Hnz HRorth]].
    assert (HRB : forall x, In x R -> In x B).
    { intros x Hx. rewrite HB. apply in_or_app. right. assumption. }
    split; [|split; [|split]].
    + rewrite run_nontrivial_infinitesimal_flexes, HT, Hm. cbn [obind]. fold T A.
      unfold orthogonalize. rewrite (same_shape_lengths N).
      2:{ intros v Hv. apply HTAN. rewrite app_nil_r. assumption. }
      cbn [obind]. fold B. rewrite Hslice. reflexivity.
    + intros x Hx. split; [apply HBlen, HRB; assumption|]. split; [|split].
      * intros r Hr. rewrite dot_comm.
        apply (dot_span N A r x HAN).
        -- intros a Ha. rewrite dot_comm. apply (proj2 (HAsound a Ha)). assumption.
        -- apply HBin; [assumption| |apply HRB; assumption].
           intros v Hv. rewrite app_nil_r in Hv. apply in_app_or in Hv.
           destruct Hv as [Hv|Hv]; [|apply span_in; assumption].
           destruct (HTN v Hv). apply HAcomplete; assumption.
      * apply Hnz. assumption.
      * intros t Ht. apply (dot_span N BT x t HTlen).
        -- intros b Hb. apply Hcross; assumption.
        -- apply HTspan. rewrite app_nil_r. assumption.
    + assumption.
    + intros x Hx Hann.
      apply (span_trans N B).
      * intros b Hb. rewrite HB in Hb. apply in_app_or in Hb. destruct Hb as [Hb|Hb].
        -- apply (span_trans N T).
           ++ intros t Ht. apply span_in, in_or_app. left. assumption.
           ++ apply HTin; [intros u Hu; apply HTN; assumption| |assumption].
              intros v Hv. rewrite app_nil_r in Hv. apply span_in. assumption.
        -- apply span_in, in_or_app. right. assumption.
      * apply (span_trans N A).
        -- intros a Ha. apply HBspan. rewrite app_nil_r. apply in_or_app. right. assumption.
        -- apply HAcomplete; assumption.
Qed.

(** On the quadrilateral one non-trivial flex is returned; it is a flex
    and it is orthogonal to the trivial flexes. *)
Lemma nontrivial_flexes_orthogonal_four_cycle :
  exists m T flexes,
    run (rigidity_matrix None true) four_cycle = Return m /\
    run trivial_infinitesimal_flexes four_cycle = Return T /\
    run nontrivial_infinitesimal_flexes four_cycle = Return flexes /\
    forall x, In x flexes ->
              annihilates x (entries m) /\ forall t, In t T -> dot t x = 0%Qc.
Proof.
  assert (Hlab : labelled_from_zero four_cycle) by (vm_compute; reflexivity).
  destruct (nontrivial_flexes_orthogonal four_cycle eq_refl eq_refl Hlab)
    as [m [T [flexes [Hm [HT [Hf [Hall _]]]]]]].
  exists m, T, flexes. split; [assumption|]. split; [assumption|]. split; [assumption|].
  intros x Hx. destruct (Hall x Hx) as [_ [Ha [_ Ht]]]. auto.
Defined.

(* ================================================================== *)
(** * What the mutations keep *)

(** A property every iteration keeps is kept by the loop, whether the
    loop ends or raises. *)
Lemma forM_keeps {A : Type} (P : Framework -> Prop) (body : A -> M unit) (l : list A) :
  (forall a s, P s -> P (exec (body a) s)) ->
  forall s, P s -> P (exec (forM body l) s).
Proof.
  intro Hbody. induction l as [|a l IH]; intros s Hs; [exact Hs|].
  cbn [forM]. unfold exec, bind. specialize (Hbody a s Hs). unfold exec in Hbody.
  destruct (body a s) as [[[]|e] s1]; cbn [snd] in *.
  - apply IH. assumption.
  - assumption.
Qed.

Lemma invariant_ext (s1 s2 : Framework) :
  vertices (_graph s1) = vertices (_graph s2) ->
  _realization s1 = _realization s2 ->
  _dim s1 = _dim s2 ->
  invariant s1 = invariant s2.
Proof. intros Hv Hr Hd. unfold invariant. rewrite Hv, Hr, Hd. reflexivity. Qed.

Lemma add_vertex_dim (self : Framework) (point : Point) (vertex : option Vertex) :
  _dim (exec (add_vertex point vertex) self) = _dim self.
Proof.
  unfold exec. rewrite add_vertex_step. destruct (mem _ _); reflexivity.
Qed.

Lemma change_vertex_coordinates_step (self : Framework) (v : Vertex) (p : Point) :
  change_vertex_coordinates v p self =
  if contains v (_realization self) && (Z.of_nat (len p) =? _dim self)%Z
  then (Return tt,
        mkFramework (setitem v p (_realization self)) (_graph self) (_dim self))
  else (Raise AssertionError, self).
Proof.
  cbv [change_vertex_coordinates bind get lift assert_ set__realization].
  destruct (contains v (_realization self)); [|reflexivity].
  destruct (Z.of_nat (len p) =? _dim self)%Z; reflexivity.
Qed.

(** The insertions of a batch keep the invariant when the points have
    length [dim]. *)
Lemma forM_add_vertex_invariant (l : list (Point * option Vertex)) (self : Framework) :
  invariant self = true ->
  (forall pv, In pv l -> Z.of_nat (len (fst pv)) = _dim self) ->
  invariant (exec (forM (fun pv => add_vertex (fst pv) (snd pv)) l) self) = true /\
  _dim (exec (forM (fun pv => add_vertex (fst pv) (snd pv)) l) self) = _dim self.
Proof.
  revert self. induction l as [|[p v] l IH]; intros self Hinv Hl.
  - split; [assumption|reflexivity].
  - cbn [forM fst snd]. unfold exec, bind.
    pose proof (add_vertex_invariant self p v Hinv (Hl (p, v) (or_introl eq_refl))) as H1.
    pose proof (add_vertex_dim self p v) as H2. unfold exec in H1, H2.
    destruct (add_vertex p v self) as [[[]|e] s1]; cbn [snd] in *.
    + destruct (IH s1 H1) as [H3 H4].
      * intros pv Hpv. rewrite H2. apply Hl. right. assumption.
      * unfold exec in H3, H4. split; [assumption|congruence].
    + split; assumption.
Qed.

(** X21. On a framework in which every vertex has
    a realization entry of length [dim], every mutation leaves such a
    framework, whether it returns or raises: the insertions when the
    points have length [dim], the deletions, the edge operations, and
    the setters of the realization.  [change_realization], which hands
    views of its dict to the batch setter, writes nothing at all. *)
Theorem mutators_keep_invariant (self : Framework) :
  invariant self = true ->
  (forall point vertex, Z.of_nat (len point) = _dim self ->
     invariant (exec (add_vertex point vertex) self) = true) /\
  (forall points vs, (forall p, In p points -> Z.of_nat (len p) = _dim self) ->
     invariant (exec (add_vertices points vs) self) = true) /\
  (forall e, invariant (exec (add_edge e) self) = true) /\
  (forall es, invariant (exec (add_edges es) self) = true) /\
  (forall e, invariant (exec (delete_edge e) self) = true) /\
  (forall v, invariant (exec (delete_vertex v) self) = true) /\
  (forall vs, invariant (exec (delete_vertices vs) self) = true) /\
  (forall r, invariant (exec (set_realization r) self) = true) /\
  (forall v p, invariant (exec (change_vertex_coordinates v p) self) = true) /\
  (forall v p, invariant (exec (set_vertex_position v p) self) = true) /\
  (forall vs ps, invariant (exec (change_vertex_coordinates_list vs ps) self) = true) /\
  (forall vs ps, invariant (exec (set_vertex_positions vs ps) self) = true) /\
  (forall r, exec (change_realization r) self = self).
Proof.
  intro Hinv.
  split; [intros; apply add_vertex_invariant; assumption|].
  split.
  { intros points vs Hp. unfold add_vertices, exec.
    cbv [lift assert_]. unfold bind at 1.
    destruct ((length points =? length vs)%nat || is_nil vs); cbn [snd]; [|assumption].
    destruct vs as [|v vs]; cbn [is_nil].
    - pose proof (forM_add_vertex_invariant (map (fun p => (p, None)) points) self Hinv)
        as Hadd.
      unfold exec in Hadd.
      replace (forM (fun point => add_vertex point None) points self)
        with (forM (fun pv : Point * option Vertex => add_vertex (fst pv) (snd pv))
                   (map (fun p => (p, None)) points) self).
      + apply Hadd. intros pv Hpv. apply in_map_iff in Hpv.
        destruct Hpv as [p [<- Hin]]. apply Hp. assumption.
      + clear. revert self. induction points as [|p points IH]; intro self; [reflexivity|].
        cbn [map forM fst snd]. unfold bind.
        destruct (add_vertex p None self) as [[[]|e] s1]; [apply IH|reflexivity].
    - pose proof (forM_add_vertex_invariant
                    (map (fun pv => (fst pv, Some (snd pv))) (combine points (v :: vs)))
                    self Hinv) as Hadd.
      unfold exec in Hadd.
      replace (forM (fun pv => add_vertex (fst pv) (Some (snd pv)))
                    (combine points (v :: vs)) self)
        with (forM (fun pv : Point * option Vertex => add_vertex (fst pv) (snd pv))
                   (map (fun pv => (fst pv, Some (snd pv))) (combine points (v :: vs)))
                   self).
      + apply Hadd. intros pv Hpv. apply in_map_iff in Hpv.
        destruct Hpv as [[p w] [<- Hin]]. apply Hp. cbn [fst].
        apply in_combine_l in Hin. assumption.
      + clear. generalize (combine points (v :: vs)) as l. intro l. revert self.
        induction l as [|[p w] l IH]; intro self; [reflexivity|].
        cbn [map forM fst snd]. unfold bind.
        destruct (add_vertex p (Some w) self) as [[[]|e] s1]; [apply IH|reflexivity]. }
  assert (Hedge : forall e, invariant (exec (add_edge e) self) = true).
  { intro e. unfold exec. rewrite add_edge_step.
    destruct (_ && _); [|assumption]. exact Hinv. }
  split; [assumption|]. split.
  { intro es. rewrite <- Hinv. apply invariant_ext;
      destruct (forM_add_edge es self) as [[Hv [Hr Hd]] _]; assumption. }
  split.
  { intro e. unfold exec. rewrite delete_edge_step.
    destruct (existsb _ _); [|assumption]. exact Hinv. }
  split; [intro v; apply delete_vertex_invariant; assumption|].
  split.
  { intro vs. unfold delete_vertices.
    apply (forM_keeps (fun s => invariant s = true)); [|assumption].
    intros v s Hs. apply delete_vertex_invariant. assumption. }
  split.
  { intro r. unfold exec. rewrite set_realization_step.
    destruct (forallb _ _) eqn:Hok; [exact Hok|assumption]. }
  split; [intros; apply change_vertex_coordinates_invariant; assumption|].
  split; [intros; apply change_vertex_coordinates_invariant; assumption|].
  split; [intros; apply change_vertex_coordinates_list_invariant; assumption|].
  split; [intros; apply change_vertex_coordinates_list_invariant; assumption|].
  intro r. apply run_change_realization.
Qed.

(** The triangle after a new vertex, a deleted vertex and a moved
    vertex. *)
Lemma mutators_keep_invariant_triangle :
  invariant (exec (add_vertex (point [3; 3]%Z) None) triangle) = true /\
  invariant (exec (delete_vertex 1%Z) triangle) = true /\
  invariant (exec (change_vertex_coordinates 2%Z (point [5; 5]%Z)) triangle) = true.
Proof.
  destruct (mutators_keep_invariant triangle eq_refl)
    as [H1 [_ [_ [_ [_ [H2 [_ [_ [H3 _]]]]]]]]].
  split; [apply H1; reflexivity|]. split; [apply H2|apply H3].
Defined.

(* ================================================================== *)
(** * What the rigidity matrix needs is kept *)

Lemma add_vertex_well_formed (self : Framework) (point : Point) (vertex : option Vertex) :
  well_formed self = true ->
  Z.of_nat (len point) = _dim self ->
  well_formed (exec (add_vertex point vertex) self) = true.
Proof.
  intros Hwf Hlen. unfold exec. rewrite add_vertex_step.
  destruct (mem (name_of self vertex) (vertices (_graph self))) eqn:Hmem; [assumption|].
  set (v := name_of self vertex) in *. apply mem_false in Hmem.
  destruct (well_formed_parts self Hwf) as [Hnd [Hjoin Hreal]].
  apply well_formed_of_parts; cbn [snd _graph _realization _dim vertices edges nodes edge_list].
  - apply NoDup_app; [assumption|repeat constructor; intros []|].
    intros a Ha [<-|[]]. contradiction.
  - intros [a b] He. destruct (Hjoin a b He) as [H1 H2].
    split; apply in_or_app; left; assumption.
  - intros w Hw. destruct (Z.eq_dec w v) as [->|Hne].
    + exists (coords point). rewrite dict_get_setitem_same. split; [reflexivity|exact Hlen].
    + rewrite dict_get_setitem_other by assumption. apply Hreal.
      apply in_app_or in Hw. destruct Hw as [Hw|[E|[]]]; [assumption|congruence].
Qed.

Lemma add_edge_well_formed (self : Framework) (e : Edge) :
  well_formed self = true -> well_formed (exec (add_edge e) self) = true.
Proof.
  intro Hwf. unfold exec. rewrite add_edge_step.
  destruct (mem (fst e) _ && mem (snd e) _) eqn:Hj; [|assumption].
  apply andb_true_iff in Hj. destruct Hj as [H1 H2]. apply mem_In in H1, H2.
  destruct (well_formed_parts self Hwf) as [Hnd [Hjoin Hreal]].
  apply well_formed_of_parts; cbn [snd _graph _realization _dim vertices edges nodes edge_list].
  - assumption.
  - intros [a b] He. destruct (existsb _ _); [apply Hjoin; assumption|].
    apply in_app_or in He. destruct He as [He|[<-|[]]]; [apply Hjoin; assumption|].
    split; assumption.
  - assumption.
Qed.

Lemma delete_edge_well_formed (self : Framework) (e : Edge) :
  well_formed self = true -> well_formed (exec (delete_edge e) self) = true.
Proof.
  intro Hwf. unfold exec. rewrite delete_edge_step.
  destruct (existsb _ _); [|assumption].
  destruct (well_formed_parts self Hwf) as [Hnd [Hjoin Hreal]].
  apply well_formed_of_parts; cbn [snd _graph _realization _dim vertices edges nodes edge_list].
  - assumption.
  - intros [a b] He. apply filter_In in He. apply Hjoin. tauto.
  - assumption.
Qed.

Lemma delete_vertex_well_formed (self : Framework) (v : Vertex) :
  well_formed self = true -> well_formed (exec (delete_vertex v) self) = true.
Proof.
  intro Hwf. unfold exec. rewrite delete_vertex_step.
  destruct (mem v (vertices (_graph self))) eqn:Hmem; [|assumption].
  apply mem_In in Hmem.
  destruct (well_formed_parts self Hwf) as [Hnd [Hjoin Hreal]].
  destruct (Hreal v Hmem) as [xs [Hget _]].
  unfold contains. rewrite Hget. cbn zeta.
  apply well_formed_of_parts; cbn [snd _graph _realization _dim vertices edges nodes edge_list].
  - apply NoDup_filter. assumption.
  - intros [a b] He. apply filter_In in He. destruct He as [He Hinc].
    destruct (Hjoin a b He) as [H1 H2].
    apply negb_true_iff in Hinc. unfold incident in Hinc. cbn [fst snd] in Hinc.
    apply orb_false_iff in Hinc. destruct Hinc as [Ha Hb]. apply Z.eqb_neq in Ha, Hb.
    split; apply in_filter_ne; split; assumption.
  - intros w Hw. apply in_filter_ne in Hw. destruct Hw as [Hw Hne].
    rewrite dict_get_filter_other by assumption. apply Hreal. assumption.
Qed.

Lemma change_to_column_well_formed (self : Framework) (v : Vertex) (xs : list Qc) :
  well_formed self = true ->
  well_formed (exec (change_vertex_coordinates v (Col xs)) self) = true.
Proof.
  intro Hwf. unfold exec. rewrite change_vertex_coordinates_step.
  destruct (contains v (_realization self)); cbn [andb]; [|assumption].
  destruct (Z.eqb_spec (Z.of_nat (len (Col xs))) (_dim self)) as [Hlen|_]; [|assumption].
  destruct (well_formed_parts self Hwf) as [Hnd [Hjoin Hreal]].
  apply well_formed_of_parts; cbn [snd _graph _realization _dim vertices edges nodes edge_list].
  - assumption.
  - intros [a b] He. apply Hjoin. assumption.
  - intros w Hw. destruct (Z.eq_dec w v) as [->|Hne].
    + exists xs. rewrite dict_get_setitem_same. split; [reflexivity|exact Hlen].
    + rewrite dict_get_setitem_other by assumption. apply Hreal. assumption.
Qed.

(** X22. A well-formed framework (distinct
    vertices, edges between vertices, every vertex realized by a column
    matrix of length [dim]) stays well-formed under [add_vertex] with a
    point of length [dim], [add_edge], [add_edges], [delete_edge],
    [delete_vertex], [delete_vertices] and [change_vertex_coordinates]
    with a column matrix, whether the call returns or raises, and so
    after any series of these calls. *)
Theorem graph_mutators_keep_well_formed (self : Framework) :
  well_formed self = true ->
  (forall point vertex, Z.of_nat (len point) = _dim self ->
     well_formed (exec (add_vertex point vertex) self) = true) /\
  (forall e, well_formed (exec (add_edge e) self) = true) /\
  (forall es, well_formed (exec (add_edges es) self) = true) /\
  (forall e, well_formed (exec (delete_edge e) self) = true) /\
  (forall v, well_formed (exec (delete_vertex v) self) = true) /\
  (forall vs, well_formed (exec (delete_vertices vs) self) = true) /\
  (forall v xs, well_formed (exec (change_vertex_coordinates v (Col xs)) self) = true).
Proof.
  intro Hwf.
  split; [intros; apply add_vertex_well_formed; assumption|].
  split; [intro; apply add_edge_well_formed; assumption|].
  split.
  { intro es. unfold add_edges.
    apply (forM_keeps (fun s => well_formed s = true)); [|assumption].
    intros e s Hs. apply add_edge_well_formed. assumption. }
  split; [intro; apply delete_edge_well_formed; assumption|].
  split; [intro; apply delete_vertex_well_formed; assumption|].
  split.
  { intro vs. unfold delete_vertices.
    apply (forM_keeps (fun s => well_formed s = true)); [|assumption].
    intros v s Hs. apply delete_vertex_well_formed. assumption. }
  intros; apply change_to_column_well_formed; assumption.
Qed.

(** The triangle after a vertex and two edges are added and an edge is
    deleted. *)
Lemma graph_mutators_keep_well_formed_triangle :
  well_formed
    (exec (delete_edge (0, 1)%Z)
       (exec (add_edges [(3, 0); (3, 1)]%Z)
          (exec (add_vertex (point [3; 3]%Z) None) triangle))) = true.
Proof.
  set (s1 := exec (add_vertex (point [3; 3]%Z) None) triangle).
  set (s2 := exec (add_edges [(3, 0); (3, 1)]%Z) s1).
  assert (H1 : well_formed s1 = true).
  { apply (proj1 (graph_mutators_keep_well_formed triangle eq_refl)). reflexivity. }
  assert (H2 : well_formed s2 = true).
  { apply (proj1 (proj2 (proj2 (graph_mutators_keep_well_formed s1 H1)))). }
  apply (proj1 (proj2 (proj2 (proj2 (graph_mutators_keep_well_formed s2 H2))))).
Defined.

(** X23. [change_vertex_coordinates]
    stores the point as it is passed.  On a well-formed framework, after
    a vertex with an edge at it has been moved to a point given as a
    plain sequence of the right length, the call having returned,
    [rigidity_matrix()] and [rigidity_matrix_rank()] raise [TypeError]. *)
Theorem plain_point_breaks_rigidity_matrix
        (self : Framework) (v : Vertex) (xs : list Qc) (edges_ordered : bool) :
  well_formed self = true ->
  Z.of_nat (length xs) = _dim self ->
  (exists e, In e (edges (_graph self)) /\ incident v e = true) ->
  run (change_vertex_coordinates v (Seq xs)) self = Return tt /\
  run (change_vertex_coordinates v (Seq xs) ;; rigidity_matrix None edges_ordered) self
  = Raise TypeError /\
  run (change_vertex_coordinates v (Seq xs) ;; rigidity_matrix_rank) self
  = Raise TypeError.
Proof.
  intros Hwf Hlen [e0 [He0 Hinc0]].
  destruct (well_formed_parts self Hwf) as [Hnd [Hjoin Hreal]].
  assert (Hv : In v (vertices (_graph self))).
  { destruct e0 as [a b]. destruct (Hjoin a b He0) as [Ha Hb].
    unfold incident in Hinc0. cbn [fst snd] in Hinc0.
    apply orb_true_iff in Hinc0. destruct Hinc0 as [E|E]; apply Z.eqb_eq in E; congruence. }
  pose proof (change_vertex_coordinates_step self v (Seq xs)) as Hstep.
  destruct (Hreal v Hv) as [ys [Hgetv _]].
  unfold contains in Hstep. rewrite Hgetv in Hstep.
  unfold len in Hstep. cbn [coords andb] in Hstep.
  apply Z.eqb_eq in Hlen. rewrite Hlen in Hstep.
  set (s1 := mkFramework _ _ _) in Hstep.
  assert (Hget1 : forall w, In w (vertices (_graph self)) ->
             exists p, dict_get w (_realization s1) = Some p /\
                       (w = v -> is_plain p = true) /\
                       (w <> v -> dict_get w (_realization self) = Some p)).
  { intros w Hw. cbn [s1 _realization]. destruct (Z.eq_dec w v) as [->|Hne].
    - exists (Seq xs). rewrite dict_get_setitem_same.
      split; [reflexivity|]. split; [reflexivity|congruence].
    - destruct (Hreal w Hw) as [zs [Hget _]]. exists (Col zs).
      rewrite dict_get_setitem_other by assumption.
      split; [assumption|]. split; [congruence|intros _; assumption]. }
  assert (Hmatrix : forall eo, run (rigidity_matrix None eo) s1 = Raise TypeError).
  { intro eo. rewrite run_rigidity_matrix by exact I. cbn [order_of].
    pose proof (edge_order_of_perm s1 eo) as Hperm.
    change (edges (_graph s1)) with (edges (_graph self)) in Hperm.
    change (vertices (_graph s1)) with (vertices (_graph self)).
    assert (Hord : sorted (vertices (_graph self)) <> []).
    { intro Hnil.
      assert (Hp : Permutation (sorted (vertices (_graph self))) (vertices (_graph self)))
        by apply sorted_by_perm.
      rewrite Hnil in Hp. apply Permutation_nil in Hp. rewrite Hp in Hv. destruct Hv. }
    rewrite mapO_Raise with (e := TypeError); [reflexivity| |].
    - intros [a b] He. apply (Permutation_in _ Hperm) in He.
      destruct (Hjoin a b He) as [Ha Hb].
      destruct (Hget1 a Ha) as [pa [Hga [Hpa Hoa]]].
      destruct (Hget1 b Hb) as [pb [Hgb [Hpb Hob]]].
      destruct (Z.eq_dec a v) as [Eav|Eav].
      + left. apply rigidity_row_plain with (pu := pa) (pv := pb); try assumption.
        rewrite (Hpa Eav). reflexivity.
      + destruct (Z.eq_dec b v) as [Ebv|Ebv].
        * left. apply rigidity_row_plain with (pu := pa) (pv := pb); try assumption.
          rewrite (Hpb Ebv). apply orb_true_r.
        * right. destruct (well_formed_edge self a b Hwf He)
            as [pu [pv [Hu [Hv' [Lu Lv]]]]].
          eexists. apply rigidity_row_Return with (pu := pu) (pv := pv).
          -- rewrite Hga. rewrite <- (Hoa Eav). assumption.
          -- rewrite Hgb. rewrite <- (Hob Ebv). assumption.
          -- lia.
    - exists e0. split; [apply (Permutation_in _ (Permutation_sym Hperm)); assumption|].
      destruct e0 as [a b]. destruct (Hjoin a b He0) as [Ha Hb].
      destruct (Hget1 a Ha) as [pa [Hga [Hpa _]]].
      destruct (Hget1 b Hb) as [pb [Hgb [Hpb _]]].
      apply rigidity_row_plain with (pu := pa) (pv := pb); try assumption.
      unfold incident in Hinc0. cbn [fst snd] in Hinc0.
      apply orb_true_iff in Hinc0. destruct Hinc0 as [E|E]; apply Z.eqb_eq in E.
      + rewrite (Hpa E). reflexivity.
      + rewrite (Hpb E). apply orb_true_r. }
  split; [unfold run; rewrite Hstep; reflexivity|].
  rewrite !(run_bind_Return _ _ _ _ _ Hstep). split; [apply Hmatrix|].
  unfold run, rigidity_matrix_rank. rewrite bind_query by auto with query.
  rewrite Hmatrix. reflexivity.
Qed.

(** Vertex 1 of the triangle moved to the list [5, 5]. *)
Lemma plain_point_breaks_rigidity_matrix_triangle :
  run (change_vertex_coordinates 1%Z (point [5; 5]%Z) ;; rigidity_matrix None true) triangle
  = Raise TypeError.
Proof.
  apply (plain_point_breaks_rigidity_matrix triangle 1%Z (map qz [5; 5]%Z) true
           eq_refl eq_refl).
  exists (0, 1)%Z. split; [left; reflexivity|reflexivity].
Defined.

(** X24. Adding an edge between two vertices of a
    well-formed framework never lowers the rank of the rigidity matrix:
    the matrix is computed after [add_edge], every row of the old matrix
    is a row of the new one, and the old rank is at most the new rank. *)
Theorem add_edge_rank (self : Framework) (e : Edge) :
  well_formed self = true ->
  In (fst e) (vertices (_graph self)) ->
  In (snd e) (vertices (_graph self)) ->
  exists m m',
    run (rigidity_matrix None true) self = Return m /\
    run (add_edge e ;; rigidity_matrix None true) self = Return m' /\
    incl (entries m) (entries m') /\
    (rank m <= rank m')%nat.
Proof.
  intros Hwf H1 H2.
  pose proof (add_edge_well_formed self e Hwf) as Hwf1.
  pose proof (add_edge_step self e) as Hstep.
  apply mem_In in H1, H2. rewrite H1, H2 in Hstep. cbn [andb] in Hstep.
  unfold exec in Hwf1. rewrite Hstep in Hwf1. cbn [snd] in Hwf1.
  set (s1 := mkFramework _ _ _) in *.
  destruct (rigidity_matrix_total self Hwf) as [m [Hm HM]].
  destruct (rigidity_matrix_total s1 Hwf1) as [m' [Hm' HM']].
  change (vertices (_graph s1)) with (vertices (_graph self)) in HM'.
  assert (Hrows : incl (map (row_of self (sorted (vertices (_graph self))))
                            (sorted_edges (edges (_graph self))))
                       (map (row_of s1 (sorted (vertices (_graph self))))
                            (sorted_edges (edges (_graph s1))))).
  { intros r Hr. apply in_map_iff in Hr. destruct Hr as [f [<- Hf]].
    change (row_of self (sorted (vertices (_graph self))) f)
      with (row_of s1 (sorted (vertices (_graph self))) f).
    apply in_map.
    apply (Permutation_in _ (sorted_by_perm edge_le (edges (_graph self)))) in Hf.
    apply (Permutation_in _ (Permutation_sym (sorted_by_perm edge_le (edges (_graph s1))))).
    cbn [s1 _graph edges edge_list]. unfold edges in Hf.
    destruct (existsb _ _); [assumption|apply in_or_app; left; assumption]. }
  destruct (Matrix_of_rows_incl _ _ _ Hrows HM') as [m0 [HM0 [Hsub Hcols]]].
  assert (m0 = m) by congruence. subst m0.
  exists m, m'. split; [assumption|]. split.
  { rewrite (run_bind_Return _ _ _ _ _ Hstep). assumption. }
  split; [assumption|].
  destruct Hcols as [Hnil|Hc].
  - rewrite (rank_no_rows m Hnil). lia.
  - apply rank_kernel_incl.
    + exact (Matrix_of_rows_well_shaped _ _ HM').
    + exact (Matrix_of_rows_well_shaped _ _ HM).
    + congruence.
    + intros x _. apply annihilates_incl. assumption.
Qed.

(** The quadrilateral with the diagonal (0, 2) added. *)
Lemma add_edge_rank_four_cycle :
  exists m m',
    run (rigidity_matrix None true) four_cycle = Return m /\
    run (add_edge (0, 2)%Z ;; rigidity_matrix None true) four_cycle = Return m' /\
    (rank m <= rank m')%nat.
Proof.
  destruct (add_edge_rank four_cycle (0, 2)%Z eq_refl) as [m [m' [Hm [Hm' [_ Hr]]]]].
  - change (vertices (_graph four_cycle)) with [0; 1; 2; 3]%Z. simpl. auto.
  - change (vertices (_graph four_cycle)) with [0; 1; 2; 3]%Z. simpl. auto.
  - exists m, m'. auto.
Defined.

(* ================================================================== *)
(** * Independent rows *)

Open Scope Qc_scope.

Lemma eliminate_back (j : nat) (p r : vec) :
  length r = length p ->
  r = vadd (eliminate j p r) (vscale (at_ r j) p).
Proof.
  intro H. apply vec_ext.
  - rewrite length_vadd; rewrite length_eliminate by assumption;
      [reflexivity|rewrite length_vscale; assumption].
  - intros k _. rewrite at_vadd.
    + rewrite at_eliminate, at_vscale by assumption. ring.
    + rewrite length_eliminate, length_vscale; assumption.
Qed.

Lemma vscale_inverse (c : Qc) (p : vec) : c <> 0 -> p = vscale c (vscale (/ c) p).
Proof.
  intro Hc. unfold vscale. rewrite map_map. rewrite <- (map_id p) at 1.
  apply map_ext. intro x. field. assumption.
Qed.

(** The rows the elimination starts from are combinations of the rows
    it ends with. *)
Lemma row_reduce_span (N n j : nat) (done rest : list vec) (pivots : list nat)
      (d r : list vec) (p : list nat) :
  (forall x, In x (done ++ rest) -> length x = N) ->
  row_reduce n j done rest pivots = (d, r, p) ->
  forall x, In x (done ++ rest) -> span N (d ++ r) x.
Proof.
  revert j done rest pivots.
  induction n as [|n IH]; intros j done rest pivots Hlen H x Hx.
  - simpl in H. injection H as <- <- <-. apply span_in. assumption.
  - simpl in H. destruct (find_pivot j rest) as [[q rest']|] eqn:Hf.
    + destruct (find_pivot_Some _ _ _ _ Hf) as [Hperm Hq].
      set (q' := vscale (/ at_ q j) q) in *.
      assert (Hq_in : In q rest).
      { apply (Permutation_in _ (Permutation_sym Hperm)). left. reflexivity. }
      assert (HlenQ : length q = N) by (apply Hlen, in_or_app; right; assumption).
      assert (HlenQ' : length q' = N) by (unfold q'; rewrite length_vscale; assumption).
      assert (Hlen' : forall y, In y ((map (eliminate j q') done ++ [q'])
                                      ++ map (eliminate j q') rest') -> length y = N).
      { intros y Hy. rewrite <- app_assoc in Hy.
        apply in_app_or in Hy. destruct Hy as [Hy|Hy].
        - apply in_map_iff in Hy. destruct Hy as [z [<- Hz]].
          rewrite length_eliminate; [|rewrite HlenQ']; apply Hlen, in_or_app; left; assumption.
        - destruct Hy as [<-|Hy]; [assumption|].
          apply in_map_iff in Hy. destruct Hy as [z [<- Hz]].
          assert (Hz' : In z rest).
          { apply (Permutation_in _ (Permutation_sym Hperm)). right. assumption. }
          rewrite length_eliminate; [|rewrite HlenQ']; apply Hlen, in_or_app; right;
            assumption. }
      pose proof (IH _ _ _ _ Hlen' H) as Hspan.
      assert (Hq' : span N (d ++ r) q').
      { apply Hspan. apply in_or_app. left. apply in_or_app. right. left. reflexivity. }
      assert (Helim : forall z, length z = N -> span N (d ++ r) (eliminate j q' z) ->
                                span N (d ++ r) z).
      { intros z Hz Hez. rewrite (eliminate_back j q' z) by congruence.
        apply span_add; [assumption|]. apply span_scale. assumption. }
      apply in_app_or in Hx. destruct Hx as [Hx|Hx].
      * apply Helim; [apply Hlen, in_or_app; left; assumption|].
        apply Hspan. apply in_or_app. left. apply in_or_app. left.
        apply in_map. assumption.
      * apply (Permutation_in _ Hperm) in Hx. destruct Hx as [<-|Hx].
        -- rewrite (vscale_inverse (at_ q j) q Hq). apply span_scale. assumption.
        -- apply Helim.
           ++ apply Hlen, in_or_app. right.
              apply (Permutation_in _ (Permutation_sym Hperm)). right. assumption.
           ++ apply Hspan. apply in_or_app. right. apply in_map. assumption.
    + exact (IH _ _ _ _ Hlen H x Hx).
Qed.

(** Independent rows are at most as many as the rank. *)
Lemma independent_rows_rank (m : Matrix) :
  well_shaped m ->
  independent (cols m) (entries m) ->
  (length (entries m) <= rank m)%nat.
Proof.
  intros Hws Hind.
  destruct (rref_reduced m Hws) as [done [rest [pivots [Hrr [Hrref [Hred _]]]]]].
  assert (Hrank : rank m = length done).
  { unfold rank. rewrite Hrref. cbn [snd]. symmetry. exact (red_len _ _ _ _ _ Hred). }
  rewrite Hrank. apply (exchange (cols m)).
  - intros y Hy. apply (red_shape _ _ _ _ _ Hred). apply in_or_app. left. assumption.
  - assumption.
  - intros x Hx.
    assert (Hspan : span (cols m) (done ++ rest) x).
    { exact (row_reduce_span (cols m) (cols m) 0 [] (entries m) [] done rest pivots
               (proj2 Hws) Hrr x Hx). }
    apply (span_trans (cols m) (done ++ rest)); [|assumption].
    intros v Hv. apply in_app_or in Hv. destruct Hv as [Hv|Hv]; [apply span_in; assumption|].
    assert (E : v = vzero (cols m)).
    { apply vec_ext.
      - rewrite length_vzero. apply (red_shape _ _ _ _ _ Hred).
        apply in_or_app. right. assumption.
      - intros k Hk. rewrite at_vzero. apply (red_rest _ _ _ _ _ Hred); [assumption|].
        rewrite <- (red_shape _ _ _ _ _ Hred v); [assumption|].
        apply in_or_app. right. assumption. }
    rewrite E. apply span_zero.
Qed.

(** Coefficients that are not all zero have a first non-zero entry. *)
Lemma first_nonzero (cs : list Qc) :
  cs = repeat 0 (length cs) \/
  exists cs1 c cs2, cs = cs1 ++ c :: cs2 /\ c <> 0.
Proof.
  induction cs as [|c cs IH]; [left; reflexivity|].
  destruct (Qc_eq_dec c 0) as [->|Hc].
  - destruct IH as [IH|[cs1 [c' [cs2 [-> Hc']]]]].
    + left. simpl. f_equal. assumption.
    + right. exists (0 :: cs1), c', cs2. split; [reflexivity|assumption].
  - right. exists [], c, cs. split; [reflexivity|assumption].
Qed.

(** A vanishing combination with a non-zero coefficient at a row: a
    vector orthogonal to the other rows is orthogonal to that row. *)
Lemma dependent_row (N : nat) (cs1 cs2 : list Qc) (c : Qc) (l1 l2 : list vec) (r x : vec) :
  (forall v, In v (l1 ++ r :: l2) -> length v = N) ->
  length cs1 = length l1 ->
  c <> 0 ->
  lin_comb N (cs1 ++ c :: cs2) (l1 ++ r :: l2) = vzero N ->
  (forall v, In v (l1 ++ l2) -> dot v x = 0) ->
  dot r x = 0.
Proof.
  intros Hlen Hcs Hc Hzero Hx.
  assert (E : dot (lin_comb N (cs1 ++ c :: cs2) (l1 ++ r :: l2)) x = 0)
    by (rewrite Hzero; apply dot_vzero_l).
  rewrite dot_lin_comb_l in E by assumption.
  rewrite map_app in E. cbn [map] in E.
  rewrite dot_app in E by (rewrite length_map; assumption).
  rewrite dot_cons in E.
  assert (H1 : dot cs1 (map (fun v => dot v x) l1) = 0).
  { apply dot_zeros_r. intros y Hy. apply in_map_iff in Hy. destruct Hy as [v [<- Hv]].
    apply Hx. apply in_or_app. left. assumption. }
  assert (H2 : dot cs2 (map (fun v => dot v x) l2) = 0).
  { apply dot_zeros_r. intros y Hy. apply in_map_iff in Hy. destruct Hy as [v [<- Hv]].
    apply Hx. apply in_or_app. right. assumption. }
  rewrite H1, H2 in E.
  assert (E' : c * dot r x = 0) by (rewrite <- E; ring).
  apply Qcmult_integral in E'. tauto.
Qed.

Close Scope Qc_scope.

Lemma same_edge_sym (e f : Edge) : same_edge e f = same_edge f e.
Proof.
  destruct e as [a b], f as [c d]. unfold same_edge. cbn [fst snd].
  rewrite (Z.eqb_sym a c), (Z.eqb_sym b d), (Z.eqb_sym a d), (Z.eqb_sym b c).
  rewrite (andb_comm (d =? a)%Z (c =? b)%Z). reflexivity.
Qed.

Lemma no_parallel_spec (es : list Edge) :
  no_parallel es = true ->
  NoDup es /\
  forall f g, In f es -> In g es -> same_edge f g = true -> f = g.
Proof.
  induction es as [|e es IH]; intro H.
  - split; [constructor|intros f g []].
  - cbn [no_parallel] in H. apply andb_true_iff in H. destruct H as [He Hes].
    apply negb_true_iff in He. destruct (IH Hes) as [Hnd Hpairs].
    assert (Hnone : forall g, In g es -> same_edge e g = false).
    { intros g Hg. destruct (same_edge e g) eqn:E; [|reflexivity].
      assert (Hex : existsb (same_edge e) es = true)
        by (apply existsb_exists; exists g; auto).
      congruence. }
    split.
    + constructor; [|assumption]. intro Hin.
      specialize (Hnone e Hin). rewrite same_edge_refl in Hnone. discriminate.
    + intros f g [<-|Hf] [<-|Hg] Hs; try reflexivity.
      * rewrite (Hnone g Hg) in Hs. discriminate.
      * rewrite same_edge_sym, (Hnone f Hf) in Hs. discriminate.
      * apply Hpairs; assumption.
Qed.

Lemma filter_length_lt {A : Type} (f : A -> bool) (l : list A) (a : A) :
  In a l -> f a = false -> (length (filter f l) < length l)%nat.
Proof.
  intros Hin Hf. induction l as [|b l IH]; [destruct Hin|]. cbn [filter].
  destruct Hin as [->|Hin].
  - rewrite Hf. cbn [length]. pose proof (filter_length_le f l). lia.
  - specialize (IH Hin). destruct (f b); cbn [length]; lia.
Qed.


(** The rows of a framework that passes the test of minimal rigidity. *)
Lemma minimally_rigid_rows (self : Framework) :
  well_formed self = true ->
  no_parallel (edges (_graph self)) = true ->
  (2 <= length (vertices (_graph self)))%nat ->
  run is_minimally_infinitesimally_rigid self = Return true ->
  exists m,
    run (rigidity_matrix None true) self = Return m /\
    independent (cols m) (entries m) /\
    rank m = length (edges (_graph self)) /\
    Z.of_nat (length (edges (_graph self)))
    = (_dim self * Z.of_nat (length (vertices (_graph self)))
       - _dim self * (_dim self + 1) / 2)%Z.
Proof.
  intros Hwf Hsimple Hn Hmin.
  set (E := edges (_graph self)) in *.
  set (n := length (vertices (_graph self))) in *.
  set (bound := (_dim self * Z.of_nat n - _dim self * (_dim self + 1) / 2)%Z).
  set (order := sorted (vertices (_graph self))).
  set (N := (Z.to_nat (_dim self) * n)%nat).
  (* what the method has checked *)
  rewrite run_minimally in Hmin.
  destruct (run is_infinitesimally_rigid self) as [[|]|x] eqn:Hrigid; try discriminate.
  rewrite minimally_rigid_loop_true in Hmin. fold E in Hmin.
  (* the matrix of [self] *)
  destruct (rigidity_matrix_well_formed self Hwf) as [Hrows [Hrun [H0 Hfull]]].
  fold E n order N in Hrows, Hrun, H0, Hfull.
  set (rws := map (row_of self order) (sorted_edges E)) in *.
  destruct (rigidity_matrix_total self Hwf) as [m [Hm HM]].
  fold E order rws in HM.
  pose proof (Matrix_of_rows_well_shaped _ _ HM) as Hws.
  assert (Hrank : Z.of_nat (rank m) = bound).
  { rewrite run_is_infinitesimally_rigid in Hrigid. fold n in Hrigid.
    destruct (Z.leb_spec (Z.of_nat n) 1) as [H|_]; [lia|].
    rewrite Hm in Hrigid. injection Hrigid as Hr. apply Z.eqb_eq in Hr. exact Hr. }
  (* the matrix after an edge is deleted has another rank *)
  assert (Hdrop : forall e, In e E ->
            exists me,
              Matrix_of_rows (map (row_of self order)
                                  (sorted_edges (filter (fun f => negb (same_edge e f)) E)))
              = Return me /\
              rank me <> rank m).
  { intros e He. specialize (Hmin e He).
    pose proof (delete_edge_step self e) as Hstep. fold E in Hstep.
    rewrite (existsb_same_edge e E He) in Hstep.
    set (s1 := mkFramework _ _ _) in Hstep.
    rewrite (run_bind_Return _ _ _ _ _ Hstep) in Hmin.
    assert (Hwf1 : well_formed s1 = true).
    { pose proof (delete_edge_well_formed self e Hwf) as H. unfold exec in H.
      rewrite Hstep in H. exact H. }
    destruct (rigidity_matrix_total s1 Hwf1) as [me [Hme HMe]].
    exists me. split; [exact HMe|].
    rewrite run_is_infinitesimally_rigid in Hmin.
    change (vertices (_graph s1)) with (vertices (_graph self)) in Hmin.
    change (_dim s1) with (_dim self) in Hmin. fold n in Hmin.
    destruct (Z.leb_spec (Z.of_nat n) 1) as [H|_]; [lia|].
    rewrite Hme in Hmin. injection Hmin as Hr. apply Z.eqb_neq in Hr.
    fold bound in Hr. intro Heq. apply Hr. rewrite Heq. exact Hrank. }
  assert (Hperm : Permutation (sorted_edges E) E) by apply sorted_by_perm.
  destruct (no_parallel_spec E Hsimple) as [HndE Hpairs].
  exists m. split; [assumption|].
  (* no edge: nothing to count *)
  destruct (nil_or_in E) as [HE|[e0 HeE]].
  { assert (Hm0 : m = mkMatrix 0 0 []).
    { rewrite (H0 HE) in Hm. congruence. }
    subst m. rewrite HE. split; [|split].
    - intros cs Hcs _. destruct cs; [reflexivity|discriminate].
    - reflexivity.
    - rewrite <- Hrank. reflexivity. }
  assert (Hmfull : m = mkMatrix (length E) N rws).
  { assert (HEne : E <> []) by (intro HE; rewrite HE in HeE; destruct HeE).
    rewrite (Hfull HEne) in Hm. congruence. }
  (* the rows are independent *)
  assert (Hind : independent N rws).
  { intros cs Hcs Hzero.
    destruct (first_nonzero cs) as [Hz|[cs1 [c [cs2 [-> Hc]]]]]; [congruence|].
    exfalso.
    assert (Hpos : (length cs1 < length (sorted_edges E))%nat).
    { assert (Hl : length (cs1 ++ c :: cs2) = length (sorted_edges E))
        by (rewrite Hcs; unfold rws; apply length_map).
      rewrite length_app in Hl. cbn [length] in Hl. lia. }
    destruct (nth_split (sorted_edges E) e0 Hpos) as [es1 [es2 [Hes Hlen1]]].
    set (e := nth (length cs1) (sorted_edges E) e0) in *.
    assert (HndS : NoDup (es1 ++ e :: es2)).
    { rewrite <- Hes. apply (Permutation_NoDup (Permutation_sym Hperm)). assumption. }
    assert (He : In e E).
    { apply (Permutation_in _ Hperm). rewrite Hes. apply in_or_app. right. left.
      reflexivity. }
    destruct (Hdrop e He) as [me [HMe Hne]]. apply Hne.
    set (E' := filter (fun f => negb (same_edge e f)) E) in *.
    set (rws' := map (row_of self order) (sorted_edges E')) in *.
    assert (Hothers : forall f, In f (es1 ++ es2) -> In f (sorted_edges E')).
    { intros f Hf.
      apply (Permutation_in _ (Permutation_sym (sorted_by_perm edge_le E'))).
      apply filter_In.
      assert (HfE : In f E).
      { apply (Permutation_in _ Hperm). rewrite Hes.
        apply in_app_or in Hf. apply in_or_app. simpl. tauto. }
      split; [assumption|]. apply negb_true_iff.
      destruct (same_edge e f) eqn:Hs; [|reflexivity]. exfalso.
      assert (Eq : e = f) by (apply Hpairs; assumption). subst f.
      apply NoDup_remove_2 in HndS. contradiction. }
    assert (Hrows' : forall r, In r rws' -> length r = N).
    { intros r Hr. apply in_map_iff in Hr. destruct Hr as [f [<- Hf]].
      apply (Permutation_in _ (sorted_by_perm edge_le E')) in Hf. apply filter_In in Hf.
      unfold N, order. rewrite length_row_of by tauto.
      rewrite (Permutation_length (sorted_by_perm Z.leb _)). reflexivity. }
    assert (Hincl : incl rws' rws).
    { intros r Hr. apply in_map_iff in Hr. destruct Hr as [f [<- Hf]].
      apply in_map. apply (Permutation_in _ (Permutation_sym Hperm)).
      apply (Permutation_in _ (sorted_by_perm edge_le E')) in Hf.
      apply filter_In in Hf. tauto. }
    (* the matrix of the remaining rows, with the columns of [m] *)
    set (M' := mkMatrix (length rws') N rws').
    assert (HwsM' : well_shaped M') by (split; [reflexivity|exact Hrows']).
    assert (Hme : rank me = rank M').
    { destruct (nil_or_in rws') as [Hnil|[r0 Hr0]].
      - rewrite (rank_no_rows M') by (unfold M'; cbn [entries]; exact Hnil).
        apply rank_no_rows. destruct (Matrix_of_rows_entries _ _ HMe) as [-> _].
        exact Hnil.
      - rewrite (Matrix_of_rows_uniform rws' N) in HMe.
        + injection HMe as <-. reflexivity.
        + intro Hn0. rewrite Hn0 in Hr0. destruct Hr0.
        + exact Hrows'. }
    rewrite Hme. symmetry. rewrite Hmfull.
    apply (rank_same_kernel (mkMatrix (length E) N rws) M').
    - rewrite <- Hmfull. assumption.
    - assumption.
    - reflexivity.
    - intros x Hx. cbn [entries M']. split.
      + apply annihilates_incl. assumption.
      + intros Hann r Hr. unfold rws in Hr. rewrite Hes, map_app in Hr. cbn [map] in Hr.
        assert (Hrest : forall v, In v (map (row_of self order) es1
                                        ++ map (row_of self order) es2) ->
                                  dot v x = 0%Qc).
        { intros v Hv. apply Hann. rewrite <- map_app in Hv.
          apply in_map_iff in Hv. destruct Hv as [f [<- Hf]].
          apply in_map. apply Hothers. assumption. }
        apply in_app_or in Hr. destruct Hr as [Hr|[<-|Hr]].
        * apply Hrest. apply in_or_app. left. assumption.
        * apply (dependent_row N cs1 cs2 c (map (row_of self order) es1)
                               (map (row_of self order) es2) (row_of self order e) x).
          -- intros v Hv. apply Hrows. unfold rws. rewrite Hes, map_app. exact Hv.
          -- rewrite length_map. congruence.
          -- assumption.
          -- unfold rws in Hzero. rewrite Hes, map_app in Hzero. exact Hzero.
          -- assumption.
        * apply Hrest. apply in_or_app. right. assumption. }
  assert (Hent : entries m = rws) by (rewrite Hmfull; reflexivity).
  assert (Hcols : cols m = N) by (rewrite Hmfull; reflexivity).
  assert (Hrk : rank m = length E).
  { apply Nat.le_antisymm.
    - pose proof (rank_le_rows m) as H. rewrite Hent in H. unfold rws in H.
      rewrite length_map, (Permutation_length Hperm) in H. exact H.
    - assert (H : (length (entries m) <= rank m)%nat).
      { apply independent_rows_rank; [assumption|]. rewrite Hcols, Hent. assumption. }
      rewrite Hent in H. unfold rws in H.
      rewrite length_map, (Permutation_length Hperm) in H. exact H. }
  split; [rewrite Hcols, Hent; assumption|]. split; [assumption|].
  rewrite <- Hrk. exact Hrank.
Qed.

(** X25. On a well-formed framework with two
    vertices or more and no two edges between the same pair of vertices,
    [is_minimally_infinitesimally_rigid()] returns true exactly when
    [is_infinitesimally_rigid()] returns true and the number of edges is
    [dim * |V| - dim * (dim + 1) // 2]; the rows of the rigidity matrix
    are then linearly independent and the rank is the number of edges. *)
Theorem minimally_rigid_edge_count (self : Framework) :
  well_formed self = true ->
  no_parallel (edges (_graph self)) = true ->
  (2 <= length (vertices (_graph self)))%nat ->
  let bound := (_dim self * Z.of_nat (length (vertices (_graph self)))
                - _dim self * (_dim self + 1) / 2)%Z in
  (run is_minimally_infinitesimally_rigid self = Return true <->
   run is_infinitesimally_rigid self = Return true /\
   Z.of_nat (length (edges (_graph self))) = bound) /\
  (run is_minimally_infinitesimally_rigid self = Return true ->
   exists m,
     run (rigidity_matrix None true) self = Return m /\
     independent (cols m) (entries m) /\
     rank m = length (edges (_graph self))).
Proof.
  intros Hwf Hsimple Hn bound. split; [split|].
  - intro Hmin.
    destruct (minimally_rigid_rows self Hwf Hsimple Hn Hmin) as [m [_ [_ [_ Hcount]]]].
    split; [|exact Hcount].
    rewrite run_minimally in Hmin.
    destruct (run is_infinitesimally_rigid self) as [[|]|x]; try discriminate. reflexivity.
  - intros [Hrigid Hcount]. rewrite run_minimally, Hrigid.
    apply minimally_rigid_loop_true. intros e He.
    pose proof (delete_edge_step self e) as Hstep.
    rewrite (existsb_same_edge e _ He) in Hstep.
    set (s1 := mkFramework _ _ _) in Hstep.
    rewrite (run_bind_Return _ _ _ _ _ Hstep).
    assert (Hwf1 : well_formed s1 = true).
    { pose proof (delete_edge_well_formed self e Hwf) as H. unfold exec in H.
      rewrite Hstep in H. exact H. }
    destruct (rigidity_matrix_total s1 Hwf1) as [me [Hme _]].
    rewrite run_is_infinitesimally_rigid.
    change (vertices (_graph s1)) with (vertices (_graph self)).
    change (_dim s1) with (_dim self).
    destruct (Z.leb_spec (Z.of_nat (length (vertices (_graph self)))) 1) as [H|_]; [lia|].
    rewrite Hme. f_equal. apply Z.eqb_neq. fold bound. rewrite <- Hcount.
    pose proof (rank_le_rows me) as H1.
    pose proof (rigidity_matrix_rows_le s1 None true me Hme) as H2.
    assert (H3 : (length (edges (_graph s1)) < length (edges (_graph self)))%nat).
    { cbn [s1 _graph edges edge_list]. unfold edges in He.
      apply (filter_length_lt _ _ e He). rewrite same_edge_refl. reflexivity. }
    lia.
  - intro Hmin.
    destruct (minimally_rigid_rows self Hwf Hsimple Hn Hmin) as [m [Hm [Hind [Hr _]]]].
    exists m. auto.
Qed.

(** The triangle in the plane: three edges, [2 * 3 - 3 = 3]; with the
    diagonal the quadrilateral on four points in general position has
    five edges, [2 * 4 - 3 = 5]. *)
Lemma minimally_rigid_edge_count_triangle :
  run is_minimally_infinitesimally_rigid triangle = Return true /\
  exists m,
    run (rigidity_matrix None true) triangle = Return m /\
    rank m = 3%nat.
Proof.
  assert (Hn : (2 <= length (vertices (_graph triangle)))%nat) by (vm_compute; lia).
  pose proof (minimally_rigid_edge_count triangle eq_refl eq_refl Hn) as [Hiff Hrows].
  assert (Hmin : run is_minimally_infinitesimally_rigid triangle = Return true).
  { apply Hiff. split; vm_compute; reflexivity. }
  split; [assumption|].
  destruct (Hrows Hmin) as [m [Hm [_ Hr]]]. exists m. split; [assumption|exact Hr].
Defined.

(* ================================================================== *)
(** * The translations bound the rank *)

Open Scope Qc_scope.

Lemma length_unit_vector (d k : nat) : length (unit_vector d k) = d.
Proof. unfold unit_vector. rewrite length_map. apply length_seq. Qed.

Lemma length_translation (t : vec) (n : nat) :
  length (translation t n) = (length t * n)%nat.
Proof.
  unfold translation. induction n as [|n IH]; [simpl; lia|].
  cbn [repeat concat]. rewrite length_app, IH. lia.
Qed.

Lemma at_translation_first (t : vec) (n k : nat) :
  (k < length t)%nat -> at_ (translation t (S n)) k = at_ t k.
Proof.
  intro H. unfold translation, at_. cbn [repeat concat]. apply app_nth1. assumption.
Qed.

Lemma vec_as_map (cs : vec) : cs = map (at_ cs) (seq 0 (length cs)).
Proof.
  apply vec_ext.
  - rewrite length_map, length_seq. reflexivity.
  - intros k Hk. rewrite at_map_seq by assumption. reflexivity.
Qed.

(** The translations along the unit vectors are independent as soon as
    there is a vertex. *)
Lemma translations_independent (d n : nat) :
  (1 <= n)%nat -> independent (d * n) (translations d n).
Proof.
  intros Hn cs Hcs Hzero. destruct n as [|n]; [lia|].
  unfold translations in *. rewrite length_map, length_seq in *.
  assert (HX : forall v, In v (map (fun k => translation (unit_vector d k) (S n)) (seq 0 d)) ->
                         length v = (d * S n)%nat).
  { intros v Hv. apply in_map_iff in Hv. destruct Hv as [k [<- _]].
    rewrite length_translation, length_unit_vector. reflexivity. }
  apply vec_ext; [rewrite repeat_length; assumption|].
  intros k Hk. rewrite Hcs in Hk.
  change (repeat 0 d) with (vzero d). rewrite at_vzero.
  assert (E : at_ (lin_comb (d * S n) cs
                     (map (fun k => translation (unit_vector d k) (S n)) (seq 0 d))) k = 0)
    by (rewrite Hzero; apply at_vzero).
  rewrite at_lin_comb in E by assumption.
  unfold column in E. rewrite map_map in E.
  rewrite (vec_as_map cs) in E at 1. rewrite Hcs in E.
  rewrite dot_map_sumf in E.
  rewrite sumf_single with (a := k) in E.
  - rewrite at_translation_first in E by (rewrite length_unit_vector; assumption).
    unfold unit_vector in E. rewrite at_map_seq in E by assumption.
    rewrite Nat.eqb_refl in E. rewrite <- E. ring.
  - apply seq_NoDup.
  - apply in_seq. lia.
  - intros c Hc Hne. apply in_seq in Hc.
    rewrite at_translation_first by (rewrite length_unit_vector; assumption).
    unfold unit_vector. rewrite at_map_seq by assumption.
    apply Nat.eqb_neq in Hne. rewrite Nat.eqb_sym in Hne. rewrite Hne. ring.
Qed.

Close Scope Qc_scope.

(** X26. On a well-formed framework with
    at least one vertex, under the default vertex order or an accepted
    one without repetition, the rank of the rigidity matrix is at most
    [dim * |V| - dim]: the [dim] translations along the unit vectors are
    independent solutions. *)
Theorem rank_leaves_room_for_translations
        (self : Framework) (vertex_order : option (list Vertex)) (edges_ordered : bool)
        (m : Matrix) :
  well_formed self = true ->
  valid_order_without_repetition self vertex_order = true ->
  (1 <= length (vertices (_graph self)))%nat ->
  run (rigidity_matrix vertex_order edges_ordered) self = Return m ->
  (Z.of_nat (rank m) <= _dim self * (Z.of_nat (length (vertices (_graph self))) - 1))%Z.
Proof.
  intros Hwf Hvo Hn Hm.
  set (n := length (vertices (_graph self))) in *.
  set (d := Z.to_nat (_dim self)).
  assert (Hd : Z.of_nat d = _dim self).
  { destruct (well_formed_parts self Hwf) as [_ [_ Hreal]].
    destruct (vertices (_graph self)) as [|v vs] eqn:Hvs; [simpl in n; lia|].
    destruct (Hreal v (or_introl eq_refl)) as [xs [_ Hlen]]. unfold d. lia. }
  destruct (rigidity_matrix_Return _ _ _ _ Hm) as [_ [_ [_ [_ Hws]]]].
  destruct (nil_or_in (entries m)) as [Hnil|[r Hr]].
  { rewrite (rank_no_rows m Hnil). nia. }
  assert (Hne : entries m <> []) by (intro H; rewrite H in Hr; destruct Hr).
  assert (Hflex : forall x, In x (translations d n) ->
                            length x = cols m /\ annihilates x (entries m)).
  { intros x Hx. unfold translations in Hx. apply in_map_iff in Hx.
    destruct Hx as [k [<- _]].
    destruct (translation_annihilates self vertex_order edges_ordered (unit_vector d k) m
                Hwf Hvo) as [Hann Hlen]; try assumption.
    - rewrite length_unit_vector. exact Hd.
    - split; [apply Hlen; assumption|exact Hann]. }
  assert (Hcols : cols m = (d * n)%nat).
  { destruct d as [|d'] eqn:Ed.
    - (* no coordinate: the rows are empty *)
      assert (Ht : Z.of_nat (length (@nil Qc)) = _dim self) by (simpl; lia).
      destruct (translation_annihilates self vertex_order edges_ordered [] m
                  Hwf Hvo Ht Hm) as [_ Hlen].
      specialize (Hlen Hne). rewrite length_translation in Hlen.
      symmetry. exact Hlen.
    - destruct (Hflex (translation (unit_vector (S d') 0) n)) as [Hlen _].
      { unfold translations. apply in_map_iff. exists 0%nat.
        split; [reflexivity|apply in_seq; lia]. }
      rewrite length_translation, length_unit_vector in Hlen. congruence. }
  destruct (nullspace_basis m Hws) as [Hsound [_ Hcomplete]].
  assert (Hle : (length (translations d n) <= length (nullspace m))%nat).
  { apply (exchange (cols m)).
    - intros y Hy. apply Hsound. assumption.
    - rewrite Hcols. apply translations_independent. assumption.
    - intros x Hx. destruct (Hflex x Hx). apply Hcomplete; assumption. }
  unfold translations in Hle. rewrite length_map, length_seq in Hle.
  rewrite length_nullspace in Hle by assumption.
  pose proof (rank_le_cols m Hws) as Hrc. rewrite Hcols in Hle, Hrc.
  nia.
Qed.

(** The triangle in the plane: the rank 3 is at most [2 * (3 - 1)]. *)
Lemma rank_leaves_room_for_translations_triangle :
  exists m, run (rigidity_matrix None true) triangle = Return m /\
            (Z.of_nat (rank m) <= 4)%Z.
Proof.
  destruct (run (rigidity_matrix None true) triangle) as [m|e] eqn:Hm;
    [|vm_compute in Hm; discriminate].
  exists m. split; [reflexivity|].
  apply (rank_leaves_room_for_translations triangle None true m eq_refl eq_refl);
    [vm_compute; lia|exact Hm].
Defined.

(* ================================================================== *)
(** * The flexes of a framework without edges *)

Lemma same_shape_nullspace (m : Matrix) : same_shape (nullspace m) = true.
Proof.
  apply (same_shape_lengths (cols m)). intros v Hv. unfold nullspace in Hv.
  destruct (rref m) as [R pivots]. apply in_map_iff in Hv. destruct Hv as [f [<- _]].
  unfold null_vector. rewrite length_map, length_seq. reflexivity.
Qed.

(** X27. On a framework without edges
    [infinitesimal_flexes(include_trivial=True)] returns the empty list,
    whatever the vertices and the realization are: the 0 x 0 matrix has
    no nullspace vector.  Whenever the trivial flexes are computed,
    [nontrivial_infinitesimal_flexes()] returns the empty list as
    well. *)
Theorem edgeless_flexes (self : Framework) :
  edges (_graph self) = [] ->
  run (infinitesimal_flexes true) self = Return [] /\
  (forall T, run trivial_infinitesimal_flexes self = Return T ->
             run nontrivial_infinitesimal_flexes self = Return []).
Proof.
  intro He.
  assert (Hm : run (rigidity_matrix None true) self = Return (mkMatrix 0 0 [])).
  { rewrite run_rigidity_matrix by exact I. cbn [edge_order_of]. rewrite He. reflexivity. }
  split.
  - unfold infinitesimal_flexes.
    rewrite run_infinitesimal_flexes_including_trivial, Hm. reflexivity.
  - intros T HT.
    assert (Hshape : same_shape T = true).
    { rewrite run_trivial_infinitesimal_flexes in HT.
      destruct (complete_graph_framework self) as [F|e]; [|discriminate].
      cbn [obind] in HT. rewrite run_infinitesimal_flexes_including_trivial in HT.
      destruct (run (rigidity_matrix None true) F) as [mF|e]; [|discriminate].
      cbn [obind] in HT. injection HT as <-. apply same_shape_nullspace. }
    rewrite run_nontrivial_infinitesimal_flexes, HT, Hm. cbn [obind].
    change (nullspace (mkMatrix 0 0 [])) with (@nil vec). rewrite app_nil_r.
    unfold orthogonalize. rewrite Hshape. cbn [obind]. f_equal.
    apply length_zero_iff_nil. rewrite length_slice. cbn [length].
    destruct T as [|t T']; [reflexivity|]. cbn [length]. lia.
Qed.

(** Two points of the plane without an edge: no flex is returned, with
    or without the trivial ones. *)
Lemma edgeless_flexes_two_points :
  run (infinitesimal_flexes true) two_points = Return [] /\
  run nontrivial_infinitesimal_flexes two_points = Return [].
Proof.
  destruct (edgeless_flexes two_points eq_refl) as [H1 H2].
  split; [exact H1|].
  destruct (run trivial_infinitesimal_flexes two_points) as [T|e] eqn:HT.
  - exact (H2 T eq_refl).
  - vm_compute in HT. discriminate.
Defined.
